(** * Bitshuffle (fsfits/bitshuffle/bitshuffle.c): a shallow embedding

    The C translation unit is embedded function by function.

    Conventions.
    - A buffer is a [list Z] of bytes; a well-formed byte lies in
      [0, 256) ([bytes_ok]).  A pointer into a buffer is the list that
      starts at the pointee, so [in + k] is [drop k in].  Reads outside a
      buffer give 0 and writes outside are dropped: C leaves both
      undefined, and every theorem about buffers assumes buffers of the
      right length.
    - The machine is little-endian with 64-bit [size_t], 32-bit [int]
      (the x86-64 targets of the SSE2 and AVX2 code).  [size_t] values
      that index memory are [nat]; results of type [int], [int32_t],
      [uint32_t], [int64_t], and [size_t] results that can hold a
      sentinel, are [Z] with the conversion written out ([to_int32],
      [to_uint32], [to_int64], [to_size_t]).
    - [malloc] always succeeds and returns zeroed memory; the [-1]
      (allocation failed) exits are therefore not reachable in the model.
    - A C function that writes through [out] and returns a count is a
      function to a pair (count, new contents of [out]).  *)

From Stdlib Require Import ZArith List Lia Bool.
From stdpp Require Import base list.
Import ListNotations.

#[local] Open Scope nat_scope.

(** ** Machine integers *)

Definition wrap_unsigned (w : Z) (x : Z) : Z := (x mod 2 ^ w)%Z.

Definition wrap_signed (w : Z) (x : Z) : Z :=
  ((x + 2 ^ (w - 1)) mod 2 ^ w - 2 ^ (w - 1))%Z.

Definition to_size_t : Z -> Z := wrap_unsigned 64.
Definition to_uint32 : Z -> Z := wrap_unsigned 32.
Definition to_uint8 : Z -> Z := wrap_unsigned 8.
Definition to_uint16 : Z -> Z := wrap_unsigned 16.
Definition to_uint64 : Z -> Z := wrap_unsigned 64.
Definition to_int32 : Z -> Z := wrap_signed 32.
Definition to_int64 : Z -> Z := wrap_signed 64.

(** A [size_t] expression returned through an [int64_t] result. *)
Definition int64_of_size (n : nat) : Z := to_int64 (to_size_t (Z.of_nat n)).

Definition byte_ok (b : Z) : Prop := (0 <= b < 256)%Z.
Definition bytes_ok (l : list Z) : Prop := Forall byte_ok l.

(** ** Loops

    [for (i = start; i + off < stop; i += step) body] on a state [S].
    The loop runs at most [stop] times when [step >= 1], which is the
    fuel [for_loop] supplies. *)

Fixpoint for_fuel {S : Type} (fuel i off stop step : nat)
    (body : nat -> S -> S) (s : S) : S :=
  match fuel with
  | O => s
  | Datatypes.S fuel' =>
      if i + off <? stop
      then for_fuel fuel' (i + step) off stop step body (body i s)
      else s
  end.

Definition for_loop {S : Type} (start off stop step : nat)
    (body : nat -> S -> S) (s : S) : S :=
  for_fuel stop start off stop step body s.

(** ** Constants and macros (bitshuffle.c, lines 37-52) *)

Definition BSHUF_MIN_RECOMMEND_BLOCK : nat := 128.
Definition BSHUF_BLOCKED_MULT : nat := 8.
Definition BSHUF_TARGET_BLOCK_SIZE_B : nat := Z.to_nat 8192.

(** [#define BSHUF_LZ4_DECOMPRESS_FAST]: the macro is defined, without a
    guard, in the source file itself. *)
Definition BSHUF_LZ4_DECOMPRESS_FAST : bool := true.

(** [MAX(X,Y) ((X) > (Y) ? (X) : (Y))] *)
Definition MAX (x y : nat) : nat := if y <? x then x else y.

(** ** Public: default block size and compressed bound (lines 1322-1352) *)

Definition bshuf_default_block_size (elem_size : nat) : nat :=
  let block_size := BSHUF_TARGET_BLOCK_SIZE_B / elem_size in
  let block_size := (block_size / BSHUF_BLOCKED_MULT) * BSHUF_BLOCKED_MULT in
  MAX block_size BSHUF_MIN_RECOMMEND_BLOCK.

(** The LZ4 library (lz4.h) is outside this translation unit.  Its four
    entry points used here are the fields of a record; each takes the
    memory its source pointer sees and its [int] arguments, and yields
    its [int] result with the bytes it stored at its destination. *)
Record lz4_codec : Type := {
  LZ4_compressBound : Z -> Z;
  LZ4_compress : list Z -> Z -> Z * list Z;
  LZ4_decompress_fast : list Z -> Z -> Z * list Z;
  LZ4_decompress_safe : list Z -> Z -> Z -> Z * list Z
}.

(** The result type is [size_t]: [return -81] converts the sentinel.
    [block_size < 0] is never true of a [size_t]. *)
Definition bshuf_compress_lz4_bound (lz : lz4_codec)
    (size elem_size block_size : nat) : Z :=
  let block_size :=
    if block_size =? 0 then bshuf_default_block_size elem_size
    else block_size in
  if negb (block_size mod BSHUF_BLOCKED_MULT =? 0) then to_size_t (-81)
  else
    let cb (n : nat) : Z :=
      to_int32 (LZ4_compressBound lz (to_int32 (Z.of_nat n)) + 4) in
    let bound :=
      to_size_t (cb (block_size * elem_size)
                 * Z.of_nat (size / block_size)) in
    let leftover :=
      ((size mod block_size) / BSHUF_BLOCKED_MULT) * BSHUF_BLOCKED_MULT in
    let bound :=
      if negb (leftover =? 0)
      then to_size_t (bound + cb (leftover * elem_size))
      else bound in
    to_size_t (bound
               + Z.of_nat ((size mod BSHUF_BLOCKED_MULT) * elem_size)).

(** ** Memory access *)

Definition rd (mem : list Z) (i : nat) : Z := nth i mem 0%Z.

(** [malloc(n)] *)
Definition malloc (n : nat) : list Z := repeat 0%Z n.

(** [memcpy(dst + doff, src + soff, n)] *)
Definition memcpy_at (dst : list Z) (doff : nat) (src : list Z)
    (soff n : nat) : list Z :=
  for_loop 0 0 n 1 (fun t o => <[doff + t := rd src (soff + t)]> o) dst.

Definition memcpy (dst src : list Z) (n : nat) : list Z :=
  memcpy_at dst 0 src 0 n.

(** [*(uint64_t* ) &mem[i]], little-endian *)
Definition load_uint64 (mem : list Z) (i : nat) : Z :=
  fold_right (fun t acc => (rd mem (i + t) + 256 * acc)%Z) 0%Z (seq 0 8).

(** ** Scalar worker code (lines 75-325) *)

(** [CHECK_MULT_EIGHT(n)]: true when the macro returns -80. *)
Definition CHECK_MULT_EIGHT (n : nat) : bool := negb (n mod 8 =? 0).

(** [TRANS_BIT_8X8(x, t)] on a [uint64_t]. *)
Definition TRANS_BIT_8X8 (x : Z) : Z :=
  let t := Z.land (Z.lxor x (Z.shiftr x 7)) 0x00AA00AA00AA00AA in
  let x := Z.lxor (Z.lxor x t) (to_uint64 (Z.shiftl t 7)) in
  let t := Z.land (Z.lxor x (Z.shiftr x 14)) 0x0000CCCC0000CCCC in
  let x := Z.lxor (Z.lxor x t) (to_uint64 (Z.shiftl t 14)) in
  let t := Z.land (Z.lxor x (Z.shiftr x 28)) 0x00000000F0F0F0F0 in
  Z.lxor (Z.lxor x t) (to_uint64 (Z.shiftl t 28)).

(** [TRANS_ELEM_TYPE(in, out, lda, ldb, type_t)], with [w = sizeof(type_t)]:
    an element of [type_t] is moved as its [w] bytes. *)
Definition TRANS_ELEM_TYPE (inb : list Z) (lda ldb w : nat)
    (outb : list Z) : list Z :=
  let o1 :=
    for_loop 0 7 lda 8 (fun ii =>
      for_loop 0 0 ldb 1 (fun jj =>
        for_loop 0 0 8 1 (fun kk o =>
          memcpy_at o ((jj * lda + ii + kk) * w)
                    inb ((ii * ldb + kk * ldb + jj) * w) w))) outb in
  for_loop (lda - lda mod 8) 0 lda 1 (fun ii =>
    for_loop 0 0 ldb 1 (fun jj o =>
      memcpy_at o ((jj * lda + ii) * w) inb ((ii * ldb + jj) * w) w)) o1.

Definition bshuf_copy (inb outb : list Z) (size elem_size : nat)
    : Z * list Z :=
  (int64_of_size (size * elem_size), memcpy outb inb (size * elem_size)).

Definition bshuf_trans_byte_elem_remainder (inb outb : list Z)
    (size elem_size start : nat) : Z * list Z :=
  if CHECK_MULT_EIGHT start then ((-80)%Z, outb)
  else
    let outb :=
      if start <? size then
        let o1 :=
          for_loop start 7 size 8 (fun ii =>
            for_loop 0 0 elem_size 1 (fun jj =>
              for_loop 0 0 8 1 (fun kk o =>
                <[jj * size + ii + kk :=
                    rd inb (ii * elem_size + kk * elem_size + jj)]> o)))
            outb in
        for_loop (size - size mod 8) 0 size 1 (fun ii =>
          for_loop 0 0 elem_size 1 (fun jj o =>
            <[jj * size + ii := rd inb (ii * elem_size + jj)]> o)) o1
      else outb in
    (int64_of_size (size * elem_size), outb).

Definition bshuf_trans_byte_elem_scal (inb outb : list Z)
    (size elem_size : nat) : Z * list Z :=
  bshuf_trans_byte_elem_remainder inb outb size elem_size 0.

(** The inner [kk] loop stores the low byte of [x] and shifts [x] down. *)
Definition store_bytes_of_uint64 (x : Z) (idx : nat -> nat)
    (o : list Z) : list Z :=
  snd (for_loop 0 0 8 1
         (fun kk '(x, o) => (Z.shiftr x 8, <[idx kk := to_uint8 x]> o))
         (x, o)).

Definition bshuf_trans_bit_byte_remainder (inb outb : list Z)
    (size elem_size start_byte : nat) : Z * list Z :=
  let nbyte := elem_size * size in
  let nbyte_bitrow := nbyte / 8 in
  if CHECK_MULT_EIGHT nbyte then ((-80)%Z, outb)
  else if CHECK_MULT_EIGHT start_byte then ((-80)%Z, outb)
  else
    let outb :=
      for_loop (start_byte / 8) 0 nbyte_bitrow 1 (fun ii o =>
        let x := TRANS_BIT_8X8 (load_uint64 inb (8 * ii)) in
        store_bytes_of_uint64 x (fun kk => kk * nbyte_bitrow + ii) o)
        outb in
    (int64_of_size (size * elem_size), outb).

Definition bshuf_trans_bit_byte_scal (inb outb : list Z)
    (size elem_size : nat) : Z * list Z :=
  bshuf_trans_bit_byte_remainder inb outb size elem_size 0.

Definition bshuf_trans_elem (inb outb : list Z) (lda ldb elem_size : nat)
    : Z * list Z :=
  let outb :=
    for_loop 0 0 lda 1 (fun ii =>
      for_loop 0 0 ldb 1 (fun jj o =>
        memcpy_at o ((jj * lda + ii) * elem_size)
                  inb ((ii * ldb + jj) * elem_size) elem_size)) outb in
  (int64_of_size (lda * ldb * elem_size), outb).

Definition bshuf_trans_bitrow_eight (inb outb : list Z)
    (size elem_size : nat) : Z * list Z :=
  let nbyte_bitrow := size / 8 in
  if CHECK_MULT_EIGHT size then ((-80)%Z, outb)
  else bshuf_trans_elem inb outb 8 elem_size nbyte_bitrow.

(** [CHECK_ERR_FREE(count, buf)]: on [count < 0] the function returns
    [count]; what [out] holds at that point is what it returns with. *)
Definition bshuf_trans_bit_elem_scal (inb outb : list Z)
    (size elem_size : nat) : Z * list Z :=
  if CHECK_MULT_EIGHT size then ((-80)%Z, outb)
  else
    let tmp_buf := malloc (size * elem_size) in
    let '(count, outb) := bshuf_trans_byte_elem_scal inb outb size elem_size in
    if (count <? 0)%Z then (count, outb)
    else
      let '(count, tmp_buf) :=
        bshuf_trans_bit_byte_scal outb tmp_buf size elem_size in
      if (count <? 0)%Z then (count, outb)
      else bshuf_trans_bitrow_eight tmp_buf outb size elem_size.

Definition bshuf_trans_byte_bitrow_scal (inb outb : list Z)
    (size elem_size : nat) : Z * list Z :=
  let nbyte_row := size / 8 in
  if CHECK_MULT_EIGHT size then ((-80)%Z, outb)
  else
    let outb :=
      for_loop 0 0 elem_size 1 (fun jj =>
        for_loop 0 0 nbyte_row 1 (fun ii =>
          for_loop 0 0 8 1 (fun kk o =>
            <[ii * 8 * elem_size + jj * 8 + kk :=
                rd inb ((jj * 8 + kk) * nbyte_row + ii)]> o))) outb in
    (int64_of_size (size * elem_size), outb).

Definition bshuf_shuffle_bit_eightelem_scal (inb outb : list Z)
    (size elem_size : nat) : Z * list Z :=
  if CHECK_MULT_EIGHT size then ((-80)%Z, outb)
  else
    let nbyte := elem_size * size in
    let outb :=
      for_loop 0 0 (8 * elem_size) 8 (fun jj =>
        for_loop 0 (8 * elem_size - 1) nbyte (8 * elem_size) (fun ii o =>
          let x := TRANS_BIT_8X8 (load_uint64 inb (ii + jj)) in
          store_bytes_of_uint64 x
            (fun kk => ii + jj / 8 + kk * elem_size) o)) outb in
    (int64_of_size (size * elem_size), outb).

Definition bshuf_untrans_bit_elem_scal (inb outb : list Z)
    (size elem_size : nat) : Z * list Z :=
  if CHECK_MULT_EIGHT size then ((-80)%Z, outb)
  else
    let tmp_buf := malloc (size * elem_size) in
    let '(count, tmp_buf) :=
      bshuf_trans_byte_bitrow_scal inb tmp_buf size elem_size in
    if (count <? 0)%Z then (count, outb)
    else bshuf_shuffle_bit_eightelem_scal tmp_buf outb size elem_size.

(** ** SSE2 and AVX2 vector operations (emmintrin.h, immintrin.h)

    A vector register is the list of its bytes, lowest byte first.
    The intrinsics are compiler built-ins, outside this translation
    unit; each is written from its definition in the Intel manual. *)

(** The number whose bit [j] is [f j], for [j < n]. *)
Definition gather (n : nat) (f : nat -> bool) : Z :=
  fold_right (fun j acc => (2 * acc + Z.b2z (f j))%Z) 0%Z (seq 0 n).

Definition load_vec (n : nat) (mem : list Z) (i : nat) : list Z :=
  map (fun t => rd mem (i + t)) (seq 0 n).

Definition store_vec (o : list Z) (i : nat) (v : list Z) : list Z :=
  for_loop 0 0 (length v) 1 (fun t o => <[i + t := nth t v 0%Z]> o) o.

(** [n] chunks of [w] bytes taken in turn from [a] and from [b]. *)
Fixpoint interleave (w n : nat) (a b : list Z) : list Z :=
  match n with
  | O => []
  | Datatypes.S n' =>
      take w a ++ take w b ++ interleave w n' (drop w a) (drop w b)
  end.

Definition _mm_loadu_si128 (mem : list Z) (i : nat) : list Z :=
  load_vec 16 mem i.
Definition _mm_storeu_si128 (o : list Z) (i : nat) (v : list Z) : list Z :=
  store_vec o i v.
Definition _mm_storel_pi (o : list Z) (i : nat) (v : list Z) : list Z :=
  store_vec o i (take 8 v).
Definition _mm_storeh_pi (o : list Z) (i : nat) (v : list Z) : list Z :=
  store_vec o i (drop 8 v).

Definition _mm_unpacklo_epi8 (a b : list Z) : list Z := interleave 1 8 a b.
Definition _mm_unpackhi_epi8 (a b : list Z) : list Z :=
  interleave 1 8 (drop 8 a) (drop 8 b).
Definition _mm_unpacklo_epi16 (a b : list Z) : list Z := interleave 2 4 a b.
Definition _mm_unpackhi_epi16 (a b : list Z) : list Z :=
  interleave 2 4 (drop 8 a) (drop 8 b).
Definition _mm_unpacklo_epi32 (a b : list Z) : list Z := interleave 4 2 a b.
Definition _mm_unpackhi_epi32 (a b : list Z) : list Z :=
  interleave 4 2 (drop 8 a) (drop 8 b).
Definition _mm_unpacklo_epi64 (a b : list Z) : list Z := interleave 8 1 a b.
Definition _mm_unpackhi_epi64 (a b : list Z) : list Z :=
  interleave 8 1 (drop 8 a) (drop 8 b).

(** Bit [i] of the mask is the top bit of byte [i]. *)
Definition _mm_movemask_epi8 (v : list Z) : Z :=
  gather 16 (fun i => Z.testbit (nth i v 0%Z) 7).

(** Every 16-bit lane shifted left by [c]. *)
Fixpoint _mm_slli_epi16 (v : list Z) (c : Z) : list Z :=
  match v with
  | lo :: hi :: rest =>
      let w := to_uint16 (Z.shiftl (lo + 256 * hi) c) in
      (w mod 256)%Z :: (w / 256)%Z :: _mm_slli_epi16 rest c
  | _ => []
  end.

(** [*(uint16_t* ) &o[i] = bt] and [*(int32_t* ) &o[i] = bt]. *)
Definition store_uint16 (o : list Z) (i : nat) (bt : Z) : list Z :=
  <[i + 1 := to_uint8 (Z.shiftr bt 8)]> (<[i := to_uint8 bt]> o).

Definition store_int32 (o : list Z) (i : nat) (bt : Z) : list Z :=
  <[i + 3 := to_uint8 (Z.shiftr bt 24)]>
    (<[i + 2 := to_uint8 (Z.shiftr bt 16)]>
       (<[i + 1 := to_uint8 (Z.shiftr bt 8)]> (<[i := to_uint8 bt]> o))).

Definition _mm256_loadu_si256 (mem : list Z) (i : nat) : list Z :=
  load_vec 32 mem i.
Definition _mm256_storeu_si256 (o : list Z) (i : nat) (v : list Z)
    : list Z := store_vec o i v.

(** The 256-bit unpacks work in each 128-bit half. *)
Definition per_lane (op : list Z -> list Z -> list Z) (a b : list Z)
    : list Z :=
  op (take 16 a) (take 16 b) ++ op (drop 16 a) (drop 16 b).

Definition _mm256_unpacklo_epi8 := per_lane _mm_unpacklo_epi8.
Definition _mm256_unpackhi_epi8 := per_lane _mm_unpackhi_epi8.
Definition _mm256_unpacklo_epi16 := per_lane _mm_unpacklo_epi16.
Definition _mm256_unpackhi_epi16 := per_lane _mm_unpackhi_epi16.
Definition _mm256_unpacklo_epi32 := per_lane _mm_unpacklo_epi32.
Definition _mm256_unpackhi_epi32 := per_lane _mm_unpackhi_epi32.
Definition _mm256_unpacklo_epi64 := per_lane _mm_unpacklo_epi64.
Definition _mm256_unpackhi_epi64 := per_lane _mm_unpackhi_epi64.

(** Each half of the result is selected by two bits of [imm] among the
    four halves of [a] and [b], or zeroed by the bit above them. *)
Definition permute_half (a b : list Z) (ctl : nat) : list Z :=
  if (ctl / 8) mod 2 =? 1 then repeat 0%Z 16
  else match ctl mod 4 with
       | 0 => take 16 a
       | 1 => drop 16 a
       | 2 => take 16 b
       | _ => drop 16 b
       end.

Definition _mm256_permute2x128_si256 (a b : list Z) (imm : nat) : list Z :=
  permute_half a b (imm mod 16) ++ permute_half a b (imm / 16).

Definition _mm256_movemask_epi8 (v : list Z) : Z :=
  to_int32 (gather 32 (fun i => Z.testbit (nth i v 0%Z) 7)).

Definition _mm256_slli_epi16 (v : list Z) (c : Z) : list Z :=
  _mm_slli_epi16 v c.

(** ** SSE2 worker code (lines 330-752, [USESSE2] defined) *)

Definition bshuf_trans_byte_elem_SSE_16 (inb outb : list Z) (size : nat)
    : Z * list Z :=
  let outb :=
    for_loop 0 15 size 16 (fun ii o =>
      let a0 := _mm_loadu_si128 inb (2 * ii + 0 * 16) in
      let b0 := _mm_loadu_si128 inb (2 * ii + 1 * 16) in
      let a1 := _mm_unpacklo_epi8 a0 b0 in
      let b1 := _mm_unpackhi_epi8 a0 b0 in
      let a0 := _mm_unpacklo_epi8 a1 b1 in
      let b0 := _mm_unpackhi_epi8 a1 b1 in
      let a1 := _mm_unpacklo_epi8 a0 b0 in
      let b1 := _mm_unpackhi_epi8 a0 b0 in
      let a0 := _mm_unpacklo_epi8 a1 b1 in
      let b0 := _mm_unpackhi_epi8 a1 b1 in
      let o := _mm_storeu_si128 o (0 * size + ii) a0 in
      _mm_storeu_si128 o (1 * size + ii) b0) outb in
  bshuf_trans_byte_elem_remainder inb outb size 2 (size - size mod 16).

Definition bshuf_trans_byte_elem_SSE_32 (inb outb : list Z) (size : nat)
    : Z * list Z :=
  let outb :=
    for_loop 0 15 size 16 (fun ii o =>
      let a0 := _mm_loadu_si128 inb (4 * ii + 0 * 16) in
      let b0 := _mm_loadu_si128 inb (4 * ii + 1 * 16) in
      let c0 := _mm_loadu_si128 inb (4 * ii + 2 * 16) in
      let d0 := _mm_loadu_si128 inb (4 * ii + 3 * 16) in
      let a1 := _mm_unpacklo_epi8 a0 b0 in
      let b1 := _mm_unpackhi_epi8 a0 b0 in
      let c1 := _mm_unpacklo_epi8 c0 d0 in
      let d1 := _mm_unpackhi_epi8 c0 d0 in
      let a0 := _mm_unpacklo_epi8 a1 b1 in
      let b0 := _mm_unpackhi_epi8 a1 b1 in
      let c0 := _mm_unpacklo_epi8 c1 d1 in
      let d0 := _mm_unpackhi_epi8 c1 d1 in
      let a1 := _mm_unpacklo_epi8 a0 b0 in
      let b1 := _mm_unpackhi_epi8 a0 b0 in
      let c1 := _mm_unpacklo_epi8 c0 d0 in
      let d1 := _mm_unpackhi_epi8 c0 d0 in
      let a0 := _mm_unpacklo_epi64 a1 c1 in
      let b0 := _mm_unpackhi_epi64 a1 c1 in
      let c0 := _mm_unpacklo_epi64 b1 d1 in
      let d0 := _mm_unpackhi_epi64 b1 d1 in
      let o := _mm_storeu_si128 o (0 * size + ii) a0 in
      let o := _mm_storeu_si128 o (1 * size + ii) b0 in
      let o := _mm_storeu_si128 o (2 * size + ii) c0 in
      _mm_storeu_si128 o (3 * size + ii) d0) outb in
  bshuf_trans_byte_elem_remainder inb outb size 4 (size - size mod 16).

Definition bshuf_trans_byte_elem_SSE_64 (inb outb : list Z) (size : nat)
    : Z * list Z :=
  let outb :=
    for_loop 0 15 size 16 (fun ii o =>
      let a0 := _mm_loadu_si128 inb (8 * ii + 0 * 16) in
      let b0 := _mm_loadu_si128 inb (8 * ii + 1 * 16) in
      let c0 := _mm_loadu_si128 inb (8 * ii + 2 * 16) in
      let d0 := _mm_loadu_si128 inb (8 * ii + 3 * 16) in
      let e0 := _mm_loadu_si128 inb (8 * ii + 4 * 16) in
      let f0 := _mm_loadu_si128 inb (8 * ii + 5 * 16) in
      let g0 := _mm_loadu_si128 inb (8 * ii + 6 * 16) in
      let h0 := _mm_loadu_si128 inb (8 * ii + 7 * 16) in
      let a1 := _mm_unpacklo_epi8 a0 b0 in
      let b1 := _mm_unpackhi_epi8 a0 b0 in
      let c1 := _mm_unpacklo_epi8 c0 d0 in
      let d1 := _mm_unpackhi_epi8 c0 d0 in
      let e1 := _mm_unpacklo_epi8 e0 f0 in
      let f1 := _mm_unpackhi_epi8 e0 f0 in
      let g1 := _mm_unpacklo_epi8 g0 h0 in
      let h1 := _mm_unpackhi_epi8 g0 h0 in
      let a0 := _mm_unpacklo_epi8 a1 b1 in
      let b0 := _mm_unpackhi_epi8 a1 b1 in
      let c0 := _mm_unpacklo_epi8 c1 d1 in
      let d0 := _mm_unpackhi_epi8 c1 d1 in
      let e0 := _mm_unpacklo_epi8 e1 f1 in
      let f0 := _mm_unpackhi_epi8 e1 f1 in
      let g0 := _mm_unpacklo_epi8 g1 h1 in
      let h0 := _mm_unpackhi_epi8 g1 h1 in
      let a1 := _mm_unpacklo_epi32 a0 c0 in
      let b1 := _mm_unpackhi_epi32 a0 c0 in
      let c1 := _mm_unpacklo_epi32 b0 d0 in
      let d1 := _mm_unpackhi_epi32 b0 d0 in
      let e1 := _mm_unpacklo_epi32 e0 g0 in
      let f1 := _mm_unpackhi_epi32 e0 g0 in
      let g1 := _mm_unpacklo_epi32 f0 h0 in
      let h1 := _mm_unpackhi_epi32 f0 h0 in
      let a0 := _mm_unpacklo_epi64 a1 e1 in
      let b0 := _mm_unpackhi_epi64 a1 e1 in
      let c0 := _mm_unpacklo_epi64 b1 f1 in
      let d0 := _mm_unpackhi_epi64 b1 f1 in
      let e0 := _mm_unpacklo_epi64 c1 g1 in
      let f0 := _mm_unpackhi_epi64 c1 g1 in
      let g0 := _mm_unpacklo_epi64 d1 h1 in
      let h0 := _mm_unpackhi_epi64 d1 h1 in
      let o := _mm_storeu_si128 o (0 * size + ii) a0 in
      let o := _mm_storeu_si128 o (1 * size + ii) b0 in
      let o := _mm_storeu_si128 o (2 * size + ii) c0 in
      let o := _mm_storeu_si128 o (3 * size + ii) d0 in
      let o := _mm_storeu_si128 o (4 * size + ii) e0 in
      let o := _mm_storeu_si128 o (5 * size + ii) f0 in
      let o := _mm_storeu_si128 o (6 * size + ii) g0 in
      _mm_storeu_si128 o (7 * size + ii) h0) outb in
  bshuf_trans_byte_elem_remainder inb outb size 8 (size - size mod 16).

(** The hierarchical case assigns [count] from the SSE call and ignores
    what the two generic transposes return. *)
Definition bshuf_trans_byte_elem_SSE (inb outb : list Z)
    (size elem_size : nat) : Z * list Z :=
  match elem_size with
  | 1 => bshuf_copy inb outb size elem_size
  | 2 => bshuf_trans_byte_elem_SSE_16 inb outb size
  | 4 => bshuf_trans_byte_elem_SSE_32 inb outb size
  | 8 => bshuf_trans_byte_elem_SSE_64 inb outb size
  | _ =>
    if negb (elem_size mod 4 =? 0)
    then bshuf_trans_byte_elem_scal inb outb size elem_size
    else
      let tmp_buf := malloc (size * elem_size) in
      if elem_size mod 8 =? 0 then
        let nchunk_elem := elem_size / 8 in
        let outb := TRANS_ELEM_TYPE inb size nchunk_elem 8 outb in
        let '(count, tmp_buf) :=
          bshuf_trans_byte_elem_SSE_64 outb tmp_buf (size * nchunk_elem) in
        let '(_, outb) := bshuf_trans_elem tmp_buf outb 8 nchunk_elem size in
        (count, outb)
      else if elem_size mod 4 =? 0 then
        let nchunk_elem := elem_size / 4 in
        let outb := TRANS_ELEM_TYPE inb size nchunk_elem 4 outb in
        let '(count, tmp_buf) :=
          bshuf_trans_byte_elem_SSE_32 outb tmp_buf (size * nchunk_elem) in
        let '(_, outb) := bshuf_trans_elem tmp_buf outb 4 nchunk_elem size in
        (count, outb)
      else
        let nchunk_elem := elem_size / 2 in
        let outb := TRANS_ELEM_TYPE inb size nchunk_elem 2 outb in
        let '(count, tmp_buf) :=
          bshuf_trans_byte_elem_SSE_16 outb tmp_buf (size * nchunk_elem) in
        let '(_, outb) := bshuf_trans_elem tmp_buf outb 2 nchunk_elem size in
        (count, outb)
  end.

(** The inner [kk] loop of the two bit-level SSE functions: the mask of
    top bits is stored, then every lane is shifted up by one. *)
Definition store_masks_SSE (xmm : list Z) (idx : nat -> nat) (o : list Z)
    : list Z :=
  snd (for_loop 0 0 8 1
         (fun kk '(xmm, o) =>
            let bt := _mm_movemask_epi8 xmm in
            let xmm := _mm_slli_epi16 xmm 1 in
            (xmm, store_uint16 o (idx kk) bt))
         (xmm, o)).

Definition bshuf_trans_bit_byte_SSE (inb outb : list Z)
    (size elem_size : nat) : Z * list Z :=
  let nbyte := elem_size * size in
  if CHECK_MULT_EIGHT nbyte then ((-80)%Z, outb)
  else
    let outb :=
      for_loop 0 15 nbyte 16 (fun ii o =>
        let xmm := _mm_loadu_si128 inb ii in
        store_masks_SSE xmm (fun kk => ((7 - kk) * nbyte + ii) / 8) o)
        outb in
    bshuf_trans_bit_byte_remainder inb outb size elem_size
      (nbyte - nbyte mod 16).

Definition bshuf_trans_bit_elem_SSE (inb outb : list Z)
    (size elem_size : nat) : Z * list Z :=
  if CHECK_MULT_EIGHT size then ((-80)%Z, outb)
  else
    let tmp_buf := malloc (size * elem_size) in
    let '(count, outb) := bshuf_trans_byte_elem_SSE inb outb size elem_size in
    if (count <? 0)%Z then (count, outb)
    else
      let '(count, tmp_buf) :=
        bshuf_trans_bit_byte_SSE outb tmp_buf size elem_size in
      if (count <? 0)%Z then (count, outb)
      else bshuf_trans_bitrow_eight tmp_buf outb size elem_size.

Definition bshuf_trans_byte_bitrow_SSE (inb outb : list Z)
    (size elem_size : nat) : Z * list Z :=
  if CHECK_MULT_EIGHT size then ((-80)%Z, outb)
  else
    let nrows := 8 * elem_size in
    let nbyte_row := size / 8 in
    let outb :=
      for_loop 0 7 nrows 8 (fun ii o =>
        let o :=
          for_loop 0 15 nbyte_row 16 (fun jj o =>
            let a0 := _mm_loadu_si128 inb ((ii + 0) * nbyte_row + jj) in
            let b0 := _mm_loadu_si128 inb ((ii + 1) * nbyte_row + jj) in
            let c0 := _mm_loadu_si128 inb ((ii + 2) * nbyte_row + jj) in
            let d0 := _mm_loadu_si128 inb ((ii + 3) * nbyte_row + jj) in
            let e0 := _mm_loadu_si128 inb ((ii + 4) * nbyte_row + jj) in
            let f0 := _mm_loadu_si128 inb ((ii + 5) * nbyte_row + jj) in
            let g0 := _mm_loadu_si128 inb ((ii + 6) * nbyte_row + jj) in
            let h0 := _mm_loadu_si128 inb ((ii + 7) * nbyte_row + jj) in
            let a1 := _mm_unpacklo_epi8 a0 b0 in
            let b1 := _mm_unpacklo_epi8 c0 d0 in
            let c1 := _mm_unpacklo_epi8 e0 f0 in
            let d1 := _mm_unpacklo_epi8 g0 h0 in
            let e1 := _mm_unpackhi_epi8 a0 b0 in
            let f1 := _mm_unpackhi_epi8 c0 d0 in
            let g1 := _mm_unpackhi_epi8 e0 f0 in
            let h1 := _mm_unpackhi_epi8 g0 h0 in
            let a0 := _mm_unpacklo_epi16 a1 b1 in
            let b0 := _mm_unpacklo_epi16 c1 d1 in
            let c0 := _mm_unpackhi_epi16 a1 b1 in
            let d0 := _mm_unpackhi_epi16 c1 d1 in
            let e0 := _mm_unpacklo_epi16 e1 f1 in
            let f0 := _mm_unpacklo_epi16 g1 h1 in
            let g0 := _mm_unpackhi_epi16 e1 f1 in
            let h0 := _mm_unpackhi_epi16 g1 h1 in
            let a1 := _mm_unpacklo_epi32 a0 b0 in
            let b1 := _mm_unpackhi_epi32 a0 b0 in
            let c1 := _mm_unpacklo_epi32 c0 d0 in
            let d1 := _mm_unpackhi_epi32 c0 d0 in
            let e1 := _mm_unpacklo_epi32 e0 f0 in
            let f1 := _mm_unpackhi_epi32 e0 f0 in
            let g1 := _mm_unpacklo_epi32 g0 h0 in
            let h1 := _mm_unpackhi_epi32 g0 h0 in
            let o := _mm_storel_pi o ((jj + 0) * nrows + ii) a1 in
            let o := _mm_storel_pi o ((jj + 2) * nrows + ii) b1 in
            let o := _mm_storel_pi o ((jj + 4) * nrows + ii) c1 in
            let o := _mm_storel_pi o ((jj + 6) * nrows + ii) d1 in
            let o := _mm_storel_pi o ((jj + 8) * nrows + ii) e1 in
            let o := _mm_storel_pi o ((jj + 10) * nrows + ii) f1 in
            let o := _mm_storel_pi o ((jj + 12) * nrows + ii) g1 in
            let o := _mm_storel_pi o ((jj + 14) * nrows + ii) h1 in
            let o := _mm_storeh_pi o ((jj + 1) * nrows + ii) a1 in
            let o := _mm_storeh_pi o ((jj + 3) * nrows + ii) b1 in
            let o := _mm_storeh_pi o ((jj + 5) * nrows + ii) c1 in
            let o := _mm_storeh_pi o ((jj + 7) * nrows + ii) d1 in
            let o := _mm_storeh_pi o ((jj + 9) * nrows + ii) e1 in
            let o := _mm_storeh_pi o ((jj + 11) * nrows + ii) f1 in
            let o := _mm_storeh_pi o ((jj + 13) * nrows + ii) g1 in
            _mm_storeh_pi o ((jj + 15) * nrows + ii) h1) o in
        for_loop (nbyte_row - nbyte_row mod 16) 0 nbyte_row 1 (fun jj o =>
          let o := <[jj * nrows + ii + 0 := rd inb ((ii + 0) * nbyte_row + jj)]> o in
          let o := <[jj * nrows + ii + 1 := rd inb ((ii + 1) * nbyte_row + jj)]> o in
          let o := <[jj * nrows + ii + 2 := rd inb ((ii + 2) * nbyte_row + jj)]> o in
          let o := <[jj * nrows + ii + 3 := rd inb ((ii + 3) * nbyte_row + jj)]> o in
          let o := <[jj * nrows + ii + 4 := rd inb ((ii + 4) * nbyte_row + jj)]> o in
          let o := <[jj * nrows + ii + 5 := rd inb ((ii + 5) * nbyte_row + jj)]> o in
          let o := <[jj * nrows + ii + 6 := rd inb ((ii + 6) * nbyte_row + jj)]> o in
          <[jj * nrows + ii + 7 := rd inb ((ii + 7) * nbyte_row + jj)]> o) o)
        outb in
    (int64_of_size (size * elem_size), outb).

(** [out_ui16[ind / 2] = bt] stores at byte [2 * (ind / 2)].  In the odd
    [elem_size] case the result of the scalar call is discarded. *)
Definition bshuf_shuffle_bit_eightelem_SSE (inb outb : list Z)
    (size elem_size : nat) : Z * list Z :=
  if CHECK_MULT_EIGHT size then ((-80)%Z, outb)
  else
    let nbyte := elem_size * size in
    let outb :=
      if negb (elem_size mod 2 =? 0)
      then snd (bshuf_shuffle_bit_eightelem_scal inb outb size elem_size)
      else
        for_loop 0 (8 * elem_size - 1) nbyte (8 * elem_size) (fun ii =>
          for_loop 0 15 (8 * elem_size) 16 (fun jj o =>
            let xmm := _mm_loadu_si128 inb (ii + jj) in
            store_masks_SSE xmm
              (fun kk => 2 * ((ii + jj / 8 + (7 - kk) * elem_size) / 2)) o))
          outb in
    (int64_of_size (size * elem_size), outb).

Definition bshuf_untrans_bit_elem_SSE (inb outb : list Z)
    (size elem_size : nat) : Z * list Z :=
  if CHECK_MULT_EIGHT size then ((-80)%Z, outb)
  else
    let tmp_buf := malloc (size * elem_size) in
    let '(count, tmp_buf) :=
      bshuf_trans_byte_bitrow_SSE inb tmp_buf size elem_size in
    if (count <? 0)%Z then (count, outb)
    else bshuf_shuffle_bit_eightelem_SSE tmp_buf outb size elem_size.

(** ** AVX2 worker code (lines 821-1026, [USEAVX2] defined) *)

Definition store_masks_AVX (ymm : list Z) (idx : nat -> nat) (o : list Z)
    : list Z :=
  snd (for_loop 0 0 8 1
         (fun kk '(ymm, o) =>
            let bt := _mm256_movemask_epi8 ymm in
            let ymm := _mm256_slli_epi16 ymm 1 in
            (ymm, store_int32 o (idx kk) bt))
         (ymm, o)).

(** No [CHECK_MULT_EIGHT] precedes the vector loop here. *)
Definition bshuf_trans_bit_byte_AVX (inb outb : list Z)
    (size elem_size : nat) : Z * list Z :=
  let nbyte := elem_size * size in
  let outb :=
    for_loop 0 31 nbyte 32 (fun ii o =>
      let ymm := _mm256_loadu_si256 inb ii in
      store_masks_AVX ymm (fun kk => ((7 - kk) * nbyte + ii) / 8) o)
      outb in
  bshuf_trans_bit_byte_remainder inb outb size elem_size
    (nbyte - nbyte mod 32).

Definition bshuf_trans_bit_elem_AVX (inb outb : list Z)
    (size elem_size : nat) : Z * list Z :=
  if CHECK_MULT_EIGHT size then ((-80)%Z, outb)
  else
    let tmp_buf := malloc (size * elem_size) in
    let '(count, outb) := bshuf_trans_byte_elem_SSE inb outb size elem_size in
    if (count <? 0)%Z then (count, outb)
    else
      let '(count, tmp_buf) :=
        bshuf_trans_bit_byte_AVX outb tmp_buf size elem_size in
      if (count <? 0)%Z then (count, outb)
      else bshuf_trans_bitrow_eight tmp_buf outb size elem_size.

(** Register arrays [ymm_0], [ymm_1] and [ymm_storeage]: every entry is
    stored before it is read in each pass, so each pass starts from
    empty arrays. *)
Definition ymm_array : list (list Z) := repeat [] 8.
Definition ymm (a : list (list Z)) (k : nat) : list Z := nth k a [].

(** The eight rows of one [hh] pass, interleaved down to pairs of
    columns. *)
Definition bitrow_AVX_pass (inb : list Z) (nbyte_row ii jj hh : nat)
    : list (list Z) :=
  let ymm_0 :=
    for_loop 0 0 8 1 (fun kk a =>
      <[kk := _mm256_loadu_si256 inb
                ((ii * 8 + hh * 8 + kk) * nbyte_row + jj)]> a) ymm_array in
  let ymm_1 :=
    for_loop 0 0 4 1 (fun kk a =>
      let a := <[kk := _mm256_unpacklo_epi8 (ymm ymm_0 (kk * 2))
                         (ymm ymm_0 (kk * 2 + 1))]> a in
      <[kk + 4 := _mm256_unpackhi_epi8 (ymm ymm_0 (kk * 2))
                    (ymm ymm_0 (kk * 2 + 1))]> a) ymm_array in
  let ymm_0 :=
    for_loop 0 0 2 1 (fun kk =>
      for_loop 0 0 2 1 (fun mm a =>
        let a := <[kk * 4 + mm :=
                     _mm256_unpacklo_epi16 (ymm ymm_1 (kk * 4 + mm * 2))
                       (ymm ymm_1 (kk * 4 + mm * 2 + 1))]> a in
        <[kk * 4 + mm + 2 :=
            _mm256_unpackhi_epi16 (ymm ymm_1 (kk * 4 + mm * 2))
              (ymm ymm_1 (kk * 4 + mm * 2 + 1))]> a)) ymm_0 in
  for_loop 0 0 4 1 (fun kk a =>
    let a := <[kk * 2 := _mm256_unpacklo_epi32 (ymm ymm_0 (kk * 2))
                           (ymm ymm_0 (kk * 2 + 1))]> a in
    <[kk * 2 + 1 := _mm256_unpackhi_epi32 (ymm ymm_0 (kk * 2))
                      (ymm ymm_0 (kk * 2 + 1))]> a) ymm_1.

Definition bshuf_trans_byte_bitrow_AVX (inb outb : list Z)
    (size elem_size : nat) : Z * list Z :=
  if CHECK_MULT_EIGHT size then ((-80)%Z, outb)
  else
    let nrows := 8 * elem_size in
    let nbyte_row := size / 8 in
    if negb (elem_size mod 4 =? 0)
    then bshuf_trans_byte_bitrow_SSE inb outb size elem_size
    else
      let outb :=
        for_loop 0 31 nbyte_row 32 (fun jj =>
          for_loop 0 3 elem_size 4 (fun ii o =>
            let ymm_storeage :=
              for_loop 0 0 4 1 (fun hh st =>
                let ymm_1 := bitrow_AVX_pass inb nbyte_row ii jj hh in
                for_loop 0 0 8 1 (fun kk st =>
                  <[kk := <[hh := ymm ymm_1 kk]> (nth kk st [])]> st) st)
                (repeat (repeat [] 4) 8) in
            for_loop 0 0 8 1 (fun mm o =>
              let ymm_0 :=
                for_loop 0 0 4 1 (fun kk a =>
                  <[kk := ymm (nth mm ymm_storeage []) kk]> a) ymm_array in
              let ymm_1 := ymm_array in
              let ymm_1 := <[0 := _mm256_unpacklo_epi64 (ymm ymm_0 0)
                                    (ymm ymm_0 1)]> ymm_1 in
              let ymm_1 := <[1 := _mm256_unpacklo_epi64 (ymm ymm_0 2)
                                    (ymm ymm_0 3)]> ymm_1 in
              let ymm_1 := <[2 := _mm256_unpackhi_epi64 (ymm ymm_0 0)
                                    (ymm ymm_0 1)]> ymm_1 in
              let ymm_1 := <[3 := _mm256_unpackhi_epi64 (ymm ymm_0 2)
                                    (ymm ymm_0 3)]> ymm_1 in
              let ymm_0 := <[0 := _mm256_permute2x128_si256 (ymm ymm_1 0)
                                    (ymm ymm_1 1) 32]> ymm_0 in
              let ymm_0 := <[1 := _mm256_permute2x128_si256 (ymm ymm_1 2)
                                    (ymm ymm_1 3) 32]> ymm_0 in
              let ymm_0 := <[2 := _mm256_permute2x128_si256 (ymm ymm_1 0)
                                    (ymm ymm_1 1) 49]> ymm_0 in
              let ymm_0 := <[3 := _mm256_permute2x128_si256 (ymm ymm_1 2)
                                    (ymm ymm_1 3) 49]> ymm_0 in
              let o := _mm256_storeu_si256 o
                         ((jj + mm * 2 + 0 * 16) * nrows + ii * 8)
                         (ymm ymm_0 0) in
              let o := _mm256_storeu_si256 o
                         ((jj + mm * 2 + 0 * 16 + 1) * nrows + ii * 8)
                         (ymm ymm_0 1) in
              let o := _mm256_storeu_si256 o
                         ((jj + mm * 2 + 1 * 16) * nrows + ii * 8)
                         (ymm ymm_0 2) in
              _mm256_storeu_si256 o
                ((jj + mm * 2 + 1 * 16 + 1) * nrows + ii * 8)
                (ymm ymm_0 3)) o)) outb in
      let outb :=
        for_loop 0 0 nrows 1 (fun ii =>
          for_loop (nbyte_row - nbyte_row mod 32) 0 nbyte_row 1 (fun jj o =>
            <[jj * nrows + ii := rd inb (ii * nbyte_row + jj)]> o)) outb in
      (int64_of_size (size * elem_size), outb).

Definition bshuf_shuffle_bit_eightelem_AVX (inb outb : list Z)
    (size elem_size : nat) : Z * list Z :=
  if CHECK_MULT_EIGHT size then ((-80)%Z, outb)
  else
    let nbyte := elem_size * size in
    if negb (elem_size mod 4 =? 0)
    then bshuf_shuffle_bit_eightelem_SSE inb outb size elem_size
    else
      let outb :=
        for_loop 0 31 (8 * elem_size) 32 (fun jj =>
          for_loop 0 (8 * elem_size - 1) nbyte (8 * elem_size) (fun ii o =>
            let ymm := _mm256_loadu_si256 inb (ii + jj) in
            store_masks_AVX ymm
              (fun kk => ii + jj / 8 + (7 - kk) * elem_size) o)) outb in
      (int64_of_size (size * elem_size), outb).

Definition bshuf_untrans_bit_elem_AVX (inb outb : list Z)
    (size elem_size : nat) : Z * list Z :=
  if CHECK_MULT_EIGHT size then ((-80)%Z, outb)
  else
    let tmp_buf := malloc (size * elem_size) in
    let '(count, tmp_buf) :=
      bshuf_trans_byte_bitrow_AVX inb tmp_buf size elem_size in
    if (count <? 0)%Z then (count, outb)
    else bshuf_shuffle_bit_eightelem_AVX tmp_buf outb size elem_size.

(** ** Drivers (lines 1060-1090)

    [USEAVX2] and [USESSE2] are fixed when the file is compiled.  In a
    build without them, the [_SSE] and [_AVX] functions are the stubs
    that return -11 and -12. *)

Inductive isa : Type := Scalar | SSE2 | AVX2.

Definition bshuf_using_SSE2 (b : isa) : Z :=
  match b with Scalar => 0 | _ => 1 end.

Definition bshuf_using_AVX2 (b : isa) : Z :=
  match b with AVX2 => 1 | _ => 0 end.

Definition SSE_stub (outb : list Z) : Z * list Z := ((-11)%Z, outb).
Definition AVX_stub (outb : list Z) : Z * list Z := ((-12)%Z, outb).

Definition bshuf_trans_bit_elem (b : isa) (inb outb : list Z)
    (size elem_size : nat) : Z * list Z :=
  match b with
  | AVX2 => bshuf_trans_bit_elem_AVX inb outb size elem_size
  | SSE2 => bshuf_trans_bit_elem_SSE inb outb size elem_size
  | Scalar => bshuf_trans_bit_elem_scal inb outb size elem_size
  end.

Definition bshuf_untrans_bit_elem (b : isa) (inb outb : list Z)
    (size elem_size : nat) : Z * list Z :=
  match b with
  | AVX2 => bshuf_untrans_bit_elem_AVX inb outb size elem_size
  | SSE2 => bshuf_untrans_bit_elem_SSE inb outb size elem_size
  | Scalar => bshuf_untrans_bit_elem_scal inb outb size elem_size
  end.

(** ** The I/O chain

    Modelled from the spec: iochain.h and iochain.c are not among the
    sources.  The chain hands every worker the current head of the input
    and of the output and takes the next head back; a head is an offset
    into the buffer, and workers run one after another in block order
    (the order the chain enforces under OpenMP). *)
Record ioc_chain : Type := { next_in : Z; next_out : Z }.

Definition ioc_init : ioc_chain := {| next_in := 0; next_out := 0 |}.
Definition ioc_get_in (C : ioc_chain) : Z := next_in C.
Definition ioc_get_out (C : ioc_chain) : Z := next_out C.
Definition ioc_set_next_in (C : ioc_chain) (p : Z) : ioc_chain :=
  {| next_in := p; next_out := next_out C |}.
Definition ioc_set_next_out (C : ioc_chain) (p : Z) : ioc_chain :=
  {| next_in := next_in C; next_out := p |}.

(** The memory a pointer at offset [p] of [buf] sees, and [buf] after
    that memory became [view].  An offset below 0 points outside the
    buffer; it is read as offset 0. *)
Definition ptr_view (buf : list Z) (p : Z) : list Z := drop (Z.to_nat p) buf.
Definition ptr_update (buf : list Z) (p : Z) (view : list Z) : list Z :=
  take (Z.to_nat p) buf ++ view.

(** ** Blocking (lines 1093-1180) *)

(** [bshufBlockFunDef]: a worker reads the input, and changes the chain
    and the output. *)
Definition bshufBlockFunDef : Type :=
  list Z -> ioc_chain * list Z -> nat -> nat -> Z * (ioc_chain * list Z).

(** One call [count = fun(&C, size, elem_size); if (count < 0) err =
    count; cum_count += count;]. *)
Definition block_step (fn : bshufBlockFunDef) (inb : list Z)
    (elem_size size : nat) (s : Z * Z * (ioc_chain * list Z))
    : Z * Z * (ioc_chain * list Z) :=
  let '(err, cum_count, st) := s in
  let '(count, st) := fn inb st size elem_size in
  (if (count <? 0)%Z then count else err, to_int64 (cum_count + count), st).

Definition bshuf_blocked_wrap_fun (fn : bshufBlockFunDef)
    (inb outb : list Z) (size elem_size block_size : nat) : Z * list Z :=
  let C := ioc_init in
  let block_size :=
    if block_size =? 0 then bshuf_default_block_size elem_size
    else block_size in
  if negb (block_size mod BSHUF_BLOCKED_MULT =? 0) then ((-81)%Z, outb)
  else
    let s :=
      for_loop 0 0 (size / block_size) 1
        (fun ii s => block_step fn inb elem_size block_size s)
        (0%Z, 0%Z, (C, outb)) in
    let last_block_size := size mod block_size in
    let last_block_size :=
      last_block_size - last_block_size mod BSHUF_BLOCKED_MULT in
    let s :=
      if negb (last_block_size =? 0)
      then block_step fn inb elem_size last_block_size s
      else s in
    let '(err, cum_count, (C, outb)) := s in
    if (err <? 0)%Z then (err, outb)
    else
      let leftover_bytes := size mod BSHUF_BLOCKED_MULT * elem_size in
      let last_in := ioc_get_in C in
      let C := ioc_set_next_in C (last_in + Z.of_nat leftover_bytes) in
      let last_out := ioc_get_out C in
      let C := ioc_set_next_out C (last_out + Z.of_nat leftover_bytes) in
      let o :=
        memcpy (ptr_view outb last_out) (ptr_view inb last_in)
               leftover_bytes in
      (to_int64 (to_size_t (cum_count + Z.of_nat leftover_bytes)),
       ptr_update outb last_out o).

Definition bshuf_bitshuffle_block (b : isa) : bshufBlockFunDef :=
  fun inb '(C, outb) size elem_size =>
    let in_ := ioc_get_in C in
    let C := ioc_set_next_in C (in_ + Z.of_nat (size * elem_size)) in
    let out := ioc_get_out C in
    let C := ioc_set_next_out C (out + Z.of_nat (size * elem_size)) in
    let '(count, o) :=
      bshuf_trans_bit_elem b (ptr_view inb in_) (ptr_view outb out)
        size elem_size in
    (count, (C, ptr_update outb out o)).

Definition bshuf_bitunshuffle_block (b : isa) : bshufBlockFunDef :=
  fun inb '(C, outb) size elem_size =>
    let in_ := ioc_get_in C in
    let C := ioc_set_next_in C (in_ + Z.of_nat (size * elem_size)) in
    let out := ioc_get_out C in
    let C := ioc_set_next_out C (out + Z.of_nat (size * elem_size)) in
    let '(count, o) :=
      bshuf_untrans_bit_elem b (ptr_view inb in_) (ptr_view outb out)
        size elem_size in
    (count, (C, ptr_update outb out o)).

(** ** The LZ4 container (lines 1183-1313) *)

(** [for (ii = 7; ii >= 0; ii--)] visits 7, 6, ..., 0. *)
Definition bshuf_write_uint64_BE (buf : list Z) (num : Z) : list Z :=
  let pow28 := to_uint64 (Z.shiftl 1 8) in
  snd (fold_left
         (fun '(num, b) ii =>
            ((num / pow28)%Z, <[ii := to_uint8 (num mod pow28)]> b))
         [7; 6; 5; 4; 3; 2; 1; 0] (to_uint64 num, buf)).

Definition bshuf_read_uint64_BE (buf : list Z) : Z :=
  let pow28 := to_uint64 (Z.shiftl 1 8) in
  fst (fold_left
         (fun '(num, cp) ii =>
            (to_uint64 (num + rd buf ii * cp), to_uint64 (cp * pow28)))
         [7; 6; 5; 4; 3; 2; 1; 0] (0%Z, 1%Z)).

(** [for (ii = 3; ii >= 0; ii--)] visits 3, 2, 1, 0. *)
Definition bshuf_write_uint32_BE (buf : list Z) (num : Z) : list Z :=
  let pow28 := to_uint32 (Z.shiftl 1 8) in
  snd (fold_left
         (fun '(num, b) ii =>
            ((num / pow28)%Z, <[ii := to_uint8 (num mod pow28)]> b))
         [3; 2; 1; 0] (to_uint32 num, buf)).

Definition bshuf_read_uint32_BE (buf : list Z) : Z :=
  let pow28 := to_uint32 (Z.shiftl 1 8) in
  fst (fold_left
         (fun '(num, cp) ii =>
            (to_uint32 (num + rd buf ii * cp), to_uint32 (cp * pow28)))
         [3; 2; 1; 0] (0%Z, 1%Z)).

(** [CHECK_ERR_FREE_LZ(count, buf)]: [if (count < 0) return count - 1000]. *)
Definition CHECK_ERR_FREE_LZ (count : Z) : option Z :=
  if (count <? 0)%Z then Some (count - 1000)%Z else None.

(** The staging buffer [tmp_buf_lz4] holds what [LZ4_compress] stored. *)
Definition bshuf_compress_lz4_block (b : isa) (lz : lz4_codec)
    : bshufBlockFunDef :=
  fun inb '(C, outb) size elem_size =>
    let tmp_buf_bshuf := malloc (size * elem_size) in
    let in_ := ioc_get_in C in
    let C := ioc_set_next_in C (in_ + Z.of_nat (size * elem_size)) in
    let '(count, tmp_buf_bshuf) :=
      bshuf_trans_bit_elem b (ptr_view inb in_) tmp_buf_bshuf
        size elem_size in
    if (count <? 0)%Z then (count, (C, outb))
    else
      let '(nbytes, tmp_buf_lz4) :=
        LZ4_compress lz tmp_buf_bshuf
          (to_int32 (Z.of_nat (size * elem_size))) in
      match CHECK_ERR_FREE_LZ nbytes with
      | Some e => (e, (C, outb))
      | None =>
          let out := ioc_get_out C in
          let C := ioc_set_next_out C (out + nbytes + 4) in
          let o := bshuf_write_uint32_BE (ptr_view outb out) nbytes in
          let o := memcpy_at o 4 tmp_buf_lz4 0 (Z.to_nat nbytes) in
          ((nbytes + 4)%Z, (C, ptr_update outb out o))
      end.

(** [fast] is whether [BSHUF_LZ4_DECOMPRESS_FAST] is defined.  The
    scratch buffer [tmp_buf] holds what the LZ4 call stored. *)
Definition bshuf_decompress_lz4_block (b : isa) (fast : bool)
    (lz : lz4_codec) : bshufBlockFunDef :=
  fun inb '(C, outb) size elem_size =>
    let in_ := ioc_get_in C in
    let nbytes_from_header :=
      to_int32 (bshuf_read_uint32_BE (ptr_view inb in_)) in
    let C := ioc_set_next_in C (in_ + nbytes_from_header + 4) in
    let out := ioc_get_out C in
    let C := ioc_set_next_out C (out + Z.of_nat (size * elem_size)) in
    let unshuffle (nbytes : Z) (tmp_buf : list Z) :=
      let '(count, o) :=
        bshuf_untrans_bit_elem b tmp_buf (ptr_view outb out)
          size elem_size in
      if (count <? 0)%Z then (count, (C, ptr_update outb out o))
      else ((nbytes + 4)%Z, (C, ptr_update outb out o)) in
    if fast then
      let '(nbytes, tmp_buf) :=
        LZ4_decompress_fast lz (ptr_view inb (in_ + 4))
          (to_int32 (Z.of_nat (size * elem_size))) in
      match CHECK_ERR_FREE_LZ nbytes with
      | Some e => (e, (C, outb))
      | None =>
          if negb (nbytes =? nbytes_from_header)%Z
          then ((-91)%Z, (C, outb))
          else unshuffle nbytes tmp_buf
      end
    else
      let '(nbytes, tmp_buf) :=
        LZ4_decompress_safe lz (ptr_view inb (in_ + 4)) nbytes_from_header
          (to_int32 (Z.of_nat (size * elem_size))) in
      match CHECK_ERR_FREE_LZ nbytes with
      | Some e => (e, (C, outb))
      | None =>
          if negb (to_size_t nbytes =? Z.of_nat (size * elem_size))%Z
          then ((-91)%Z, (C, outb))
          else unshuffle nbytes_from_header tmp_buf
      end.

(** ** Public functions (lines 1355-1382) *)

Definition bshuf_bitshuffle (b : isa) (inb outb : list Z)
    (size elem_size block_size : nat) : Z * list Z :=
  bshuf_blocked_wrap_fun (bshuf_bitshuffle_block b) inb outb
    size elem_size block_size.

Definition bshuf_bitunshuffle (b : isa) (inb outb : list Z)
    (size elem_size block_size : nat) : Z * list Z :=
  bshuf_blocked_wrap_fun (bshuf_bitunshuffle_block b) inb outb
    size elem_size block_size.

Definition bshuf_compress_lz4 (b : isa) (lz : lz4_codec) (inb outb : list Z)
    (size elem_size block_size : nat) : Z * list Z :=
  bshuf_blocked_wrap_fun (bshuf_compress_lz4_block b lz) inb outb
    size elem_size block_size.

Definition bshuf_decompress_lz4 (b : isa) (lz : lz4_codec)
    (inb outb : list Z) (size elem_size block_size : nat) : Z * list Z :=
  bshuf_blocked_wrap_fun
    (bshuf_decompress_lz4_block b BSHUF_LZ4_DECOMPRESS_FAST lz) inb outb
    size elem_size block_size.

(** * Specification vocabulary

    The functions the statements below are written with: what each
    primitive stores at a position of its output, and the stream a
    run of blocks produces. *)

Definition in_range (start off stop step i : nat) : Prop :=
  (exists k, i = start + k * step) /\ i + off < stop.

(** * Write sets

    [writes g P f]: the buffer transformer [f] keeps the length, changes
    only positions in [P], and leaves [g p] at every position [p] of [P]
    that lies in the buffer. *)
Definition writes (g : nat -> Z) (P : nat -> Prop)
    (f : list Z -> list Z) : Prop :=
  forall o, length (f o) = length o /\
    forall p, (rd (f o) p = rd o p \/ (P p /\ rd (f o) p = g p)) /\
              (P p -> p < length o -> rd (f o) p = g p).

(** The byte whose bit [j] is [f j], for [j < 8]. *)
Definition gather8 (f : nat -> bool) : Z := gather 8 f.

Definition delta_swap (x k M : Z) : Z :=
  let t := Z.land (Z.lxor x (Z.shiftr x k)) M in
  Z.lxor (Z.lxor x t) (to_uint64 (Z.shiftl t k)).

(** Where bit [n] of [delta_swap x k M] comes from. *)
Definition delta_src (k M n : Z) : Z :=
  if Z.testbit M n then (n + k)%Z
  else if (k <=? n)%Z && Z.testbit M (n - k) then (n - k)%Z
  else n.

Definition trans_src (n : Z) : Z :=
  delta_src 7 0x00AA00AA00AA00AA
    (delta_src 14 0x0000CCCC0000CCCC (delta_src 28 0x00000000F0F0F0F0 n)).

Definition trans_src_check (n : nat) : bool :=
  let n := Z.of_nat n in
  let a := delta_src 28 0x00000000F0F0F0F0 n in
  let b := delta_src 14 0x0000CCCC0000CCCC a in
  ((0 <=? a) && (a <? 64) && (0 <=? b) && (b <? 64)
   && (trans_src n =? 8 * (n mod 8) + n / 8))%Z.

(** [k] shifts by one. *)
Definition slli_iter (k : nat) (v : list Z) : list Z :=
  Nat.iter k (fun v => _mm_slli_epi16 v 1) v.

Definition g_trans_byte_elem (inb : list Z) (size elem_size : nat) (p : nat) : Z :=
  rd inb ((p mod size) * elem_size + p / size).

Definition g_trans_bit_byte (inb : list Z) (nrow : nat) (p : nat) : Z :=
  gather8 (fun j => Z.testbit (rd inb (8 * (p mod nrow) + j))
                              (Z.of_nat (p / nrow))).

Definition g_trans_elem (inb : list Z) (lda ldb elem_size : nat) (p : nat) : Z :=
  let e := p / elem_size in
  rd inb (((e mod lda) * ldb + e / lda) * elem_size + p mod elem_size).

Definition g_trans_byte_bitrow (inb : list Z) (size elem_size : nat)
    (p : nat) : Z :=
  rd inb ((p mod (8 * elem_size)) * (size / 8) + p / (8 * elem_size)).

Definition g_shuffle_bit_eightelem (inb : list Z) (elem_size : nat)
    (p : nat) : Z :=
  let blk := p / (8 * elem_size) in
  let r := p mod (8 * elem_size) in
  gather8 (fun j => Z.testbit
                      (rd inb (blk * (8 * elem_size) + 8 * (r mod elem_size) + j))
                      (Z.of_nat (r / elem_size))).

Definition tabulate (g : nat -> Z) (n : nat) : list Z := map g (seq 0 n).

(** Byte [p] of the shuffled block: row [p / (size / 8)] is bit
    [row mod 8] of byte [row / 8] of the elements, eight elements to a
    byte. *)
Definition g_bitshuffle (inb : list Z) (size elem_size : nat) (p : nat) : Z :=
  let row := p / (size / 8) in
  let t := p mod (size / 8) in
  gather8 (fun j => Z.testbit (rd inb ((8 * t + j) * elem_size + row / 8))
                              (Z.of_nat (row mod 8))).

Definition g_bitunshuffle (inb : list Z) (size elem_size : nat) (p : nat)
    : Z :=
  let blk := p / (8 * elem_size) in
  let r := p mod (8 * elem_size) in
  gather8 (fun j => Z.testbit
                      (rd inb ((8 * (r mod elem_size) + j) * (size / 8) + blk))
                      (Z.of_nat (r / elem_size))).

(** The branch taken when [elem_size] is none of 1, 2, 4 and 8. *)
Definition SSE_other (inb outb : list Z) (size elem_size : nat)
    : Z * list Z :=
  if negb (elem_size mod 4 =? 0)
  then bshuf_trans_byte_elem_scal inb outb size elem_size
  else
    let tmp_buf := malloc (size * elem_size) in
    if elem_size mod 8 =? 0 then
      let nchunk_elem := elem_size / 8 in
      let outb := TRANS_ELEM_TYPE inb size nchunk_elem 8 outb in
      let '(count, tmp_buf) :=
        bshuf_trans_byte_elem_SSE_64 outb tmp_buf (size * nchunk_elem) in
      let '(_, outb) := bshuf_trans_elem tmp_buf outb 8 nchunk_elem size in
      (count, outb)
    else if elem_size mod 4 =? 0 then
      let nchunk_elem := elem_size / 4 in
      let outb := TRANS_ELEM_TYPE inb size nchunk_elem 4 outb in
      let '(count, tmp_buf) :=
        bshuf_trans_byte_elem_SSE_32 outb tmp_buf (size * nchunk_elem) in
      let '(_, outb) := bshuf_trans_elem tmp_buf outb 4 nchunk_elem size in
      (count, outb)
    else
      let nchunk_elem := elem_size / 2 in
      let outb := TRANS_ELEM_TYPE inb size nchunk_elem 2 outb in
      let '(count, tmp_buf) :=
        bshuf_trans_byte_elem_SSE_16 outb tmp_buf (size * nchunk_elem) in
      let '(_, outb) := bshuf_trans_elem tmp_buf outb 2 nchunk_elem size in
      (count, outb).

(** Rows [row .. row + m) of column [col]. *)
Definition column (inb : list Z) (nbyte_row row col m : nat) : list Z :=
  map (fun t => rd inb ((row + t) * nbyte_row + col)) (seq 0 m).

Definition AVX_storeage (inb : list Z) (nbyte_row ii jj : nat)
    : list (list (list Z)) :=
  for_loop 0 0 4 1 (fun hh st =>
    let ymm_1 := bitrow_AVX_pass inb nbyte_row ii jj hh in
    for_loop 0 0 8 1 (fun kk st =>
      <[kk := <[hh := ymm ymm_1 kk]> (nth kk st [])]> st) st)
    (repeat (repeat [] 4) 8).

(** The four registers stored in pass [mm] of the second stage. *)
Definition AVX_out4 (ymm_storeage : list (list (list Z))) (mm : nat)
    : list (list Z) :=
  let ymm_0 :=
    for_loop 0 0 4 1 (fun kk a =>
      <[kk := ymm (nth mm ymm_storeage []) kk]> a) ymm_array in
  let ymm_1 := ymm_array in
  let ymm_1 := <[0 := _mm256_unpacklo_epi64 (ymm ymm_0 0) (ymm ymm_0 1)]>
                 ymm_1 in
  let ymm_1 := <[1 := _mm256_unpacklo_epi64 (ymm ymm_0 2) (ymm ymm_0 3)]>
                 ymm_1 in
  let ymm_1 := <[2 := _mm256_unpackhi_epi64 (ymm ymm_0 0) (ymm ymm_0 1)]>
                 ymm_1 in
  let ymm_1 := <[3 := _mm256_unpackhi_epi64 (ymm ymm_0 2) (ymm ymm_0 3)]>
                 ymm_1 in
  let ymm_0 := <[0 := _mm256_permute2x128_si256 (ymm ymm_1 0) (ymm ymm_1 1)
                        32]> ymm_0 in
  let ymm_0 := <[1 := _mm256_permute2x128_si256 (ymm ymm_1 2) (ymm ymm_1 3)
                        32]> ymm_0 in
  let ymm_0 := <[2 := _mm256_permute2x128_si256 (ymm ymm_1 0) (ymm ymm_1 1)
                        49]> ymm_0 in
  <[3 := _mm256_permute2x128_si256 (ymm ymm_1 2) (ymm ymm_1 3) 49]> ymm_0.

(** The block size in force: 0 asks for the default. *)
Definition resolved_block_size (elem_size block_size : nat) : nat :=
  if block_size =? 0 then bshuf_default_block_size elem_size else block_size.

(** The sizes of the blocks handed to the worker, in order: the full
    blocks, then the partial block if it is not empty. *)
Definition block_sizes (size bs : nat) : list nat :=
  repeat bs (size / bs)
  ++ (let last := size mod bs - (size mod bs) mod BSHUF_BLOCKED_MULT in
      if last =? 0 then [] else [last]).

(** What the framework does once the blocks are done. *)
Definition finish (inb : list Z) (size elem_size : nat)
    (s : Z * Z * (ioc_chain * list Z)) : Z * list Z :=
  let '(err, cum_count, (C, outb)) := s in
  if (err <? 0)%Z then (err, outb)
  else
    let leftover_bytes := size mod BSHUF_BLOCKED_MULT * elem_size in
    let o :=
      memcpy (ptr_view outb (ioc_get_out C)) (ptr_view inb (ioc_get_in C))
             leftover_bytes in
    (to_int64 (to_size_t (cum_count + Z.of_nat leftover_bytes)),
     ptr_update outb (ioc_get_out C) o).

(** The chain with its input head at [a] and its output head at [o]. *)
Definition chain_at (a o : nat) : ioc_chain :=
  {| next_in := Z.of_nat a; next_out := Z.of_nat o |}.

(** [w] written over [outb] from offset [o] on. *)
Definition splice (o : nat) (w outb : list Z) : list Z :=
  take o outb ++ w ++ drop (o + length w) outb.

(** The blocks of [view], each mapped by [g]. *)
Fixpoint map_blocks (g : list Z -> nat -> nat -> nat -> Z) (elem_size : nat)
    (sizes : list nat) (view : list Z) : list Z :=
  match sizes with
  | [] => []
  | s :: rest =>
      tabulate (g view s elem_size) (s * elem_size)
      ++ map_blocks g elem_size rest (drop (s * elem_size) view)
  end.

(** [fn] maps the block under the input head by [g] and stores it under
    the output head. *)
Definition is_block_map (fn : bshufBlockFunDef)
    (g : list Z -> nat -> nat -> nat -> Z) : Prop :=
  forall inb outb a o size elem_size,
    size mod 8 = 0 -> 1 <= elem_size ->
    (forall i, i < size * elem_size -> byte_ok (rd inb (a + i))) ->
    o + size * elem_size <= length outb ->
    (Z.of_nat (size * elem_size) < 2 ^ 63)%Z ->
    fn inb (chain_at a o, outb) size elem_size =
    (Z.of_nat (size * elem_size),
     (chain_at (a + size * elem_size) (o + size * elem_size),
      splice o (tabulate (g (drop a inb) size elem_size) (size * elem_size))
             outb)).

(** The value of a four-byte big-endian field. *)
Definition BE32 (b0 b1 b2 b3 : Z) : Z :=
  (b0 * 2 ^ 24 + b1 * 2 ^ 16 + b2 * 2 ^ 8 + b3)%Z.

(** The header bytes of a record whose payload has [c] bytes. *)
Definition header (c : Z) : list Z :=
  [(c / 2 ^ 24)%Z; (c / 2 ^ 16 mod 256)%Z; (c / 2 ^ 8 mod 256)%Z;
   (c mod 256)%Z].

(** The record of one block: the header and the bytes [LZ4_compress]
    stored for the shuffled block [S]. *)
Definition lz4_record (lz : lz4_codec) (S : list Z) : list Z :=
  let r := LZ4_compress lz S (Z.of_nat (length S)) in
  header (fst r) ++ tabulate (rd (snd r)) (Z.to_nat (fst r)).

(** The records of the blocks of [view], in order. *)
Fixpoint compress_blocks (lz : lz4_codec) (elem_size : nat)
    (sizes : list nat) (view : list Z) : list Z :=
  match sizes with
  | [] => []
  | s :: rest =>
      lz4_record lz (tabulate (g_bitshuffle view s elem_size) (s * elem_size))
      ++ compress_blocks lz elem_size rest (drop (s * elem_size) view)
  end.

(** What the container relies on, for inputs of at most [limit] bytes:
    [LZ4_compress] stores [c] bytes with [0 <= c < 2^31]. *)
Definition lz4_compress_ok (lz : lz4_codec) (limit : nat) : Prop :=
  forall src,
    bytes_ok src -> 0 < length src -> length src <= limit ->
    (Z.of_nat (length src) < 2 ^ 31)%Z ->
    (0 <= fst (LZ4_compress lz src (Z.of_nat (length src))) < 2 ^ 31)%Z.

(** ... and [LZ4_decompress_fast], given these bytes (whatever follows
    them) and the original length, consumes [c] bytes and stores the
    original.  The library has an input limit of its own
    ([LZ4_MAX_INPUT_SIZE]); [limit] is the number of bytes of the
    largest block handed to it. *)
Definition lz4_codec_ok (lz : lz4_codec) (limit : nat) : Prop :=
  forall src rest,
    bytes_ok src -> 0 < length src -> length src <= limit ->
    (Z.of_nat (length src) < 2 ^ 31)%Z ->
    let n := Z.of_nat (length src) in
    let c := fst (LZ4_compress lz src n) in
    let d := snd (LZ4_compress lz src n) in
    (0 <= c < 2 ^ 31)%Z /\
    LZ4_decompress_fast lz (tabulate (rd d) (Z.to_nat c) ++ rest) n
    = (c, src).

(** A codec that stores the bytes as they are.  It stands in for the LZ4
    library where a statement is run on an input. *)
Definition lz4_stored : lz4_codec :=
  {| LZ4_compressBound := fun n => n;
     LZ4_compress := fun src n => (n, take (Z.to_nat n) src);
     LZ4_decompress_fast := fun src n => (n, take (Z.to_nat n) src);
     LZ4_decompress_safe := fun src c m =>
       if (c <=? m)%Z then (c, take (Z.to_nat c) src) else ((-1)%Z, []) |}.

(** A codec whose compressor always reports [r]. *)
Definition lz4_reports (r : Z) : lz4_codec :=
  {| LZ4_compressBound := fun n => n;
     LZ4_compress := fun _ _ => (r, []);
     LZ4_decompress_fast := fun _ _ => (r, []);
     LZ4_decompress_safe := fun _ _ _ => (r, []) |}.



(** The counts the workers return on the blocks of [sizes], each worker
    starting from the chain and the output the one before left, and the
    chain and the output after the last. *)
Fixpoint run_workers (fn : bshufBlockFunDef) (inb : list Z)
    (elem_size : nat) (sizes : list nat) (st : ioc_chain * list Z)
    : list Z * (ioc_chain * list Z) :=
  match sizes with
  | [] => ([], st)
  | s :: rest =>
      let '(count, st1) := fn inb st s elem_size in
      let '(counts, st2) := run_workers fn inb elem_size rest st1 in
      (count :: counts, st2)
  end.

(** What [LZ4_compressBound] promises for inputs of at most [limit]
    bytes: the count [LZ4_compress] reports is not negative and at most
    the bound for the length of the input, and the bound plus the four
    bytes of a header fits an [int]. *)
Definition lz4_bounded (lz : lz4_codec) (limit : nat) : Prop :=
  forall src,
    bytes_ok src -> 0 < length src -> length src <= limit ->
    (Z.of_nat (length src) < 2 ^ 31)%Z ->
    (0 <= fst (LZ4_compress lz src (Z.of_nat (length src)))
     <= LZ4_compressBound lz (Z.of_nat (length src)))%Z /\
    (LZ4_compressBound lz (Z.of_nat (length src)) + 4 < 2 ^ 31)%Z.

(** The bounds of the records of a run, added up. *)
Definition bound_sum (lz : lz4_codec) (elem_size : nat) (sizes : list nat)
    : Z :=
  fold_right
    (fun s acc => (LZ4_compressBound lz (Z.of_nat (s * elem_size)) + 4 + acc)%Z)
    0%Z sizes.

(** * Memory and loops *)

(** * Reading and writing buffers *)

Lemma rd_insert_eq (l : list Z) i v : i < length l -> rd (<[i:=v]> l) i = v.
Proof.
  intros H. unfold rd. rewrite nth_lookup, list_lookup_insert_eq by exact H.
  reflexivity.
Qed.

Lemma rd_insert_ne (l : list Z) i j v : i <> j -> rd (<[i:=v]> l) j = rd l j.
Proof.
  intros H. unfold rd. rewrite !nth_lookup, list_lookup_insert_ne by exact H.
  reflexivity.
Qed.

Lemma rd_overflow (l : list Z) i : length l <= i -> rd l i = 0%Z.
Proof. intros H. unfold rd. apply nth_overflow. exact H. Qed.

Lemma rd_ext (l1 l2 : list Z) :
  length l1 = length l2 -> (forall p, p < length l1 -> rd l1 p = rd l2 p) ->
  l1 = l2.
Proof.
  intros Hl H. apply (nth_ext l1 l2 0%Z 0%Z); [exact Hl|]. intros n Hn.
  apply (H n Hn).
Qed.

Lemma rd_bytes_ok l i : bytes_ok l -> byte_ok (rd l i).
Proof.
  intros H. unfold rd. destruct (Nat.lt_ge_cases i (length l)) as [Hi|Hi].
  - unfold bytes_ok in H. rewrite List.Forall_forall in H. apply H.
    apply nth_In. exact Hi.
  - rewrite nth_overflow by exact Hi. unfold byte_ok. lia.
Qed.

(** * Loop ranges *)

Lemma writes_id g : writes g (fun _ => False) (fun o => o).
Proof. intros o. split; [reflexivity|]. intros p. split; [left; reflexivity|tauto]. Qed.

Lemma writes_equiv g P Q f :
  (forall p, P p <-> Q p) -> writes g P f -> writes g Q f.
Proof.
  intros E W o. destruct (W o) as [L H]. split; [exact L|]. intros p.
  destruct (H p) as [H1 H2]. split.
  - destruct H1 as [H1|[H1 H1']]; [left; exact H1|right; split; [apply E; exact H1|exact H1']].
  - intros Hq. apply H2. apply E. exact Hq.
Qed.

Lemma writes_ext g P f f' :
  (forall o, f o = f' o) -> writes g P f -> writes g P f'.
Proof. intros E W o. rewrite <- E. apply W. Qed.

Lemma writes_insert g i v :
  v = g i -> writes g (fun p => p = i) (fun o => <[i:=v]> o).
Proof.
  intros -> o. split; [apply length_insert|]. intros p. split.
  - destruct (Nat.eq_dec i p) as [->|Hne].
    + destruct (Nat.lt_ge_cases p (length o)).
      * right. split; [reflexivity|]. apply rd_insert_eq. assumption.
      * left. rewrite list_insert_ge by assumption. reflexivity.
    + left. apply rd_insert_ne. exact Hne.
  - intros -> Hp. apply rd_insert_eq. exact Hp.
Qed.

Lemma writes_seq g P Q f h :
  writes g P f -> writes g Q h ->
  writes g (fun p => P p \/ Q p) (fun o => h (f o)).
Proof.
  intros Wf Wh o. destruct (Wf o) as [Lf Hf]. destruct (Wh (f o)) as [Lh Hh].
  split; [congruence|]. intros p.
  destruct (Hf p) as [Hf1 Hf2]. destruct (Hh p) as [Hh1 Hh2]. split.
  - destruct Hh1 as [Hh1|[Hq Hh1]].
    + rewrite Hh1. destruct Hf1 as [Hf1|[Hp Hf1]]; [left; exact Hf1|right; tauto].
    + right. tauto.
  - intros [Hp|Hq] Hlen.
    + destruct Hh1 as [Hh1|[Hq Hh1]]; [|exact Hh1]. rewrite Hh1. apply Hf2; assumption.
    + apply Hh2; [exact Hq|]. rewrite Lf. exact Hlen.
Qed.

Lemma for_fuel_writes g (P : nat -> nat -> Prop) off stop step body :
  1 <= step ->
  forall fuel i,
  stop - i <= fuel ->
  (forall j, in_range i off stop step j -> writes g (P j) (body j)) ->
  writes g (fun p => exists j, in_range i off stop step j /\ P j p)
         (for_fuel fuel i off stop step body).
Proof.
  intros Hstep. induction fuel as [|fuel IH]; intros i Hfuel Hbody.
  - simpl. eapply writes_equiv; [|apply writes_id]. intros p. split; [tauto|].
    intros [j [[[k ->] Hj] _]]. lia.
  - simpl. destruct (Nat.ltb_spec (i + off) stop) as [Hlt|Hge].
    + eapply writes_equiv;
        [|apply (writes_seq g (P i)
             (fun p => exists j, in_range (i + step) off stop step j /\ P j p)
             (body i) (for_fuel fuel (i + step) off stop step body))].
      * intros p. split.
        -- intros [Hp|[j [[[k ->] Hj] Hp]]].
           ++ exists i. split; [|exact Hp]. split; [exists 0; lia|exact Hlt].
           ++ exists (i + step + k * step). split; [|exact Hp].
              split; [exists (Datatypes.S k); lia|exact Hj].
        -- intros [j [[[k ->] Hj] Hp]]. destruct k as [|k].
           ++ left. replace (i + 0 * step) with i in Hp by lia. exact Hp.
           ++ right. exists (i + Datatypes.S k * step). split; [|exact Hp].
              split; [exists k; lia|exact Hj].
      * apply Hbody. split; [exists 0; lia|exact Hlt].
      * apply IH; [lia|]. intros j [[k ->] Hj]. apply Hbody.
        split; [exists (Datatypes.S k); lia|exact Hj].
    + eapply writes_equiv; [|apply writes_id]. intros p. split; [tauto|].
      intros [j [[[k ->] Hj] _]]. lia.
Qed.

Lemma for_loop_writes g (P : nat -> nat -> Prop) start off stop step body :
  1 <= step ->
  (forall j, in_range start off stop step j -> writes g (P j) (body j)) ->
  writes g (fun p => exists j, in_range start off stop step j /\ P j p)
         (for_loop start off stop step body).
Proof. intros Hs Hb. unfold for_loop. apply for_fuel_writes; [exact Hs|lia|exact Hb]. Qed.

(** * Bits of bytes and words *)

Lemma gather8_testbit f n :
  (0 <= n)%Z ->
  Z.testbit (gather8 f) n = if (n <? 8)%Z then f (Z.to_nat n) else false.
Proof.
  intros Hn. unfold gather8, gather. cbn [seq fold_right].
  destruct (Z.ltb_spec n 8) as [Hlt|Hge].
  - assert (H : (n = 0 \/ n = 1 \/ n = 2 \/ n = 3 \/ n = 4 \/ n = 5
                 \/ n = 6 \/ n = 7)%Z) by lia.
    repeat (destruct H as [H|H]); subst n;
      repeat first
        [ rewrite Z.testbit_0_r; reflexivity
        | match goal with
          | |- Z.testbit _ ?m = _ =>
              let m' := eval cbv in (Z.pred m) in
              change m with (Z.succ m');
              rewrite Z.testbit_succ_r by (cbv; congruence)
          end ].
  - replace n with (Z.succ (Z.succ (Z.succ (Z.succ (Z.succ (Z.succ
                   (Z.succ (Z.succ (n - 8))))))))) by lia.
    repeat rewrite Z.testbit_succ_r by lia. apply Z.testbit_0_l.
Qed.

Lemma double_bound a b N :
  (0 <= a < N -> 0 <= 2 * a + Z.b2z b < 2 * N)%Z.
Proof. destruct b; cbn [Z.b2z]; lia. Qed.

Lemma gather8_ok f : byte_ok (gather8 f).
Proof.
  unfold byte_ok, gather8, gather. cbn [seq fold_right].
  apply (double_bound _ _ 128), (double_bound _ _ 64), (double_bound _ _ 32),
    (double_bound _ _ 16), (double_bound _ _ 8), (double_bound _ _ 4),
    (double_bound _ _ 2), (double_bound _ _ 1).
  lia.
Qed.

Lemma byte_testbit_high b n : byte_ok b -> (8 <= n)%Z -> Z.testbit b n = false.
Proof.
  intros Hb Hn. unfold byte_ok in Hb.
  rewrite <- (Z.mod_small b (2 ^ 8)) by (change (2 ^ 8)%Z with 256%Z; lia).
  apply Z.mod_pow2_bits_high. lia.
Qed.

Lemma byte_ext a b :
  byte_ok a -> byte_ok b ->
  (forall k, k < 8 -> Z.testbit a (Z.of_nat k) = Z.testbit b (Z.of_nat k)) ->
  a = b.
Proof.
  intros Ha Hb H. apply Z.bits_inj'. intros n Hn.
  destruct (Z.ltb_spec n 8) as [Hlt|Hge].
  - specialize (H (Z.to_nat n) ltac:(lia)). rewrite Z2Nat.id in H by lia. exact H.
  - rewrite !byte_testbit_high by assumption. reflexivity.
Qed.

Lemma gather8_of_byte b :
  byte_ok b -> gather8 (fun j => Z.testbit b (Z.of_nat j)) = b.
Proof.
  intros Hb. apply byte_ext; [apply gather8_ok|exact Hb|]. intros k Hk.
  rewrite gather8_testbit by lia.
  destruct (Z.ltb_spec (Z.of_nat k) 8); [|lia]. rewrite Nat2Z.id. reflexivity.
Qed.

Lemma to_uint8_testbit x n :
  (0 <= n)%Z ->
  Z.testbit (to_uint8 x) n = if (n <? 8)%Z then Z.testbit x n else false.
Proof.
  intros Hn. unfold to_uint8, wrap_unsigned.
  destruct (Z.ltb_spec n 8).
  - apply Z.mod_pow2_bits_low. lia.
  - apply Z.mod_pow2_bits_high. lia.
Qed.

Lemma to_uint8_ok x : byte_ok (to_uint8 x).
Proof.
  unfold byte_ok, to_uint8, wrap_unsigned. change (2 ^ 8)%Z with 256%Z.
  apply Z.mod_pos_bound. lia.
Qed.

(** A byte in front of a little-endian number. *)
Lemma byte_cons_testbit b r m :
  byte_ok b -> (0 <= m)%Z ->
  Z.testbit (b + 256 * r) m =
  if (m <? 8)%Z then Z.testbit b m else Z.testbit r (m - 8).
Proof.
  intros Hb Hm.
  assert (E : (b + 256 * r = Z.lor b (Z.shiftl r 8))%Z).
  { rewrite Z.shiftl_mul_pow2 by lia. change (2 ^ 8)%Z with 256%Z.
    rewrite <- Z.lxor_lor, <- Z.add_nocarry_lxor; [lia| |].
    all: apply Z.bits_inj'; intros n Hn; rewrite Z.land_spec, Z.bits_0;
      replace (r * 256)%Z with (Z.shiftl r 8)
        by (rewrite Z.shiftl_mul_pow2 by lia; reflexivity);
      destruct (Z.ltb_spec n 8);
      [ rewrite Z.shiftl_spec_low by lia; apply andb_false_r
      | rewrite byte_testbit_high by (assumption || lia); reflexivity ]. }
  rewrite E, Z.lor_spec. destruct (Z.ltb_spec m 8).
  - rewrite Z.shiftl_spec_low by lia. apply orb_false_r.
  - rewrite byte_testbit_high by (assumption || lia).
    rewrite Z.shiftl_spec by lia. reflexivity.
Qed.

Lemma load_uint64_testbit mem i n k :
  (forall j, j < 8 -> byte_ok (rd mem (i + j))) -> n < 8 -> k < 8 ->
  Z.testbit (load_uint64 mem i) (Z.of_nat (8 * n + k)) =
  Z.testbit (rd mem (i + n)) (Z.of_nat k).
Proof.
  intros Hb Hn Hk. unfold load_uint64. cbn [seq fold_right].
  assert (H : n = 0 \/ n = 1 \/ n = 2 \/ n = 3 \/ n = 4 \/ n = 5 \/ n = 6
              \/ n = 7) by lia.
  repeat (destruct H as [H|H]); subst n;
    repeat (rewrite byte_cons_testbit by ((apply Hb; lia) || lia);
            match goal with
            | |- context [(?a <? 8)%Z] => destruct (Z.ltb_spec a 8); try lia
            end);
    f_equal; lia.
Qed.

(** * The 8x8 bit transpose [TRANS_BIT_8X8]

    Each of its three stages exchanges the bits selected by a mask with
    the bits [k] places above them. *)

Lemma delta_swap_testbit x k M n :
  (0 < k)%Z -> (0 <= n < 64)%Z -> Z.land M (Z.shiftl M k) = 0%Z ->
  Z.testbit (delta_swap x k M) n = Z.testbit x (delta_src k M n).
Proof.
  intros Hk Hn HM. unfold delta_swap, delta_src, to_uint64, wrap_unsigned.
  assert (D : Z.testbit M n && Z.testbit M (n - k) = false).
  { rewrite <- (Z.shiftl_spec M k n) by lia. rewrite <- Z.land_spec, HM.
    apply Z.bits_0. }
  rewrite !Z.lxor_spec, Z.land_spec, Z.lxor_spec, Z.shiftr_spec by lia.
  rewrite Z.mod_pow2_bits_low by lia.
  rewrite Z.shiftl_spec by lia.
  destruct (Z.leb_spec k n) as [Hle|Hgt].
  - rewrite Z.land_spec, Z.lxor_spec, Z.shiftr_spec by lia.
    replace (n - k + k)%Z with n by lia.
    destruct (Z.testbit M n), (Z.testbit M (n - k)); try discriminate D;
      cbn [andb]; destruct (Z.testbit x n), (Z.testbit x (n + k)),
        (Z.testbit x (n - k)); reflexivity.
  - rewrite (Z.testbit_neg_r _ (n - k)) by lia. cbn [andb].
    destruct (Z.testbit M n); destruct (Z.testbit x n), (Z.testbit x (n + k));
      reflexivity.
Qed.

Lemma trans_src_checked : forallb trans_src_check (seq 0 64) = true.
Proof. vm_compute. reflexivity. Qed.

Lemma TRANS_BIT_8X8_testbit x n :
  (0 <= n < 64)%Z ->
  Z.testbit (TRANS_BIT_8X8 x) n = Z.testbit x (8 * (n mod 8) + n / 8).
Proof.
  intros Hn.
  pose proof trans_src_checked as C. rewrite forallb_forall in C.
  specialize (C (Z.to_nat n)). unfold trans_src_check in C.
  rewrite Z2Nat.id in C by lia.
  assert (Hin : In (Z.to_nat n) (seq 0 64)) by (apply in_seq; lia).
  apply C in Hin. clear C.
  apply andb_prop in Hin as [Hin H5]. apply andb_prop in Hin as [Hin H4].
  apply andb_prop in Hin as [Hin H3]. apply andb_prop in Hin as [H1 H2].
  apply Z.leb_le in H1, H3. apply Z.ltb_lt in H2, H4. apply Z.eqb_eq in H5.
  rewrite <- H5. unfold trans_src.
  change (TRANS_BIT_8X8 x) with
    (delta_swap (delta_swap (delta_swap x 7 0x00AA00AA00AA00AA)
                   14 0x0000CCCC0000CCCC) 28 0x00000000F0F0F0F0).
  rewrite delta_swap_testbit by (lia || reflexivity).
  rewrite delta_swap_testbit by (lia || reflexivity).
  rewrite delta_swap_testbit by (lia || reflexivity).
  reflexivity.
Qed.

(** Byte [kk] of the transposed word gathers bit [kk] of the eight
    bytes loaded. *)
Lemma trans_column mem i kk :
  (forall j, j < 8 -> byte_ok (rd mem (i + j))) -> kk < 8 ->
  to_uint8 (Z.shiftr (TRANS_BIT_8X8 (load_uint64 mem i)) (Z.of_nat (8 * kk))) =
  gather8 (fun j => Z.testbit (rd mem (i + j)) (Z.of_nat kk)).
Proof.
  intros Hm Hk. apply byte_ext; [apply to_uint8_ok|apply gather8_ok|].
  intros n Hn. rewrite to_uint8_testbit, gather8_testbit by lia.
  destruct (Z.ltb_spec (Z.of_nat n) 8) as [_|]; [|lia].
  rewrite Nat2Z.id, Z.shiftr_spec by lia.
  rewrite TRANS_BIT_8X8_testbit by lia.
  replace (8 * ((Z.of_nat n + Z.of_nat (8 * kk)) mod 8)
           + (Z.of_nat n + Z.of_nat (8 * kk)) / 8)%Z
    with (Z.of_nat (8 * n + kk)).
  - apply load_uint64_testbit; assumption.
  - replace (Z.of_nat n + Z.of_nat (8 * kk))%Z
      with (Z.of_nat n + Z.of_nat kk * 8)%Z by lia.
    rewrite Z.mod_add, Z.div_add by lia.
    rewrite Z.mod_small, Z.div_small by lia. lia.
Qed.

(** The byte-storing loop, as a loop on the buffer alone. *)
Lemma store_bytes_of_uint64_eq x idx o :
  store_bytes_of_uint64 x idx o =
  for_loop 0 0 8 1
    (fun kk o => <[idx kk := to_uint8 (Z.shiftr x (Z.of_nat (8 * kk)))]> o) o.
Proof.
  unfold store_bytes_of_uint64, for_loop. cbn [for_fuel Nat.add Nat.ltb Nat.leb snd].
  rewrite !Z.shiftr_shiftr by lia. reflexivity.
Qed.

(** * Masks of top bits and lane shifts *)

Lemma gather_from_testbit f n s m :
  Z.testbit (fold_right (fun j acc => (2 * acc + Z.b2z (f j))%Z) 0%Z (seq s n))
            (Z.of_nat m)
  = if m <? n then f (s + m) else false.
Proof.
  revert s m. induction n as [|n IH]; intros s m.
  - cbn [seq fold_right]. rewrite Z.bits_0. reflexivity.
  - cbn [seq fold_right]. destruct m as [|m].
    + change (Z.of_nat 0) with 0%Z. rewrite Z.testbit_0_r.
      rewrite Nat.add_0_r. reflexivity.
    + rewrite Nat2Z.inj_succ, Z.testbit_succ_r by lia. rewrite IH.
      change (Datatypes.S m <? Datatypes.S n) with (m <? n).
      replace (Datatypes.S s + m) with (s + Datatypes.S m) by lia.
      reflexivity.
Qed.

Lemma gather_testbit n f m :
  Z.testbit (gather n f) (Z.of_nat m) = if m <? n then f m else false.
Proof. unfold gather. apply gather_from_testbit. Qed.

Lemma to_int32_testbit x n :
  (0 <= n < 32)%Z -> Z.testbit (to_int32 x) n = Z.testbit x n.
Proof.
  intros Hn. unfold to_int32, wrap_signed.
  rewrite <- (Z.mod_pow2_bits_low _ 32 n) by lia.
  rewrite Zminus_mod_idemp_l.
  replace (x + 2 ^ (32 - 1) - 2 ^ (32 - 1))%Z with x by lia.
  apply Z.mod_pow2_bits_low. lia.
Qed.

(** One left shift of a 16-bit lane, seen from its two bytes. *)
Lemma slli_lane lo hi m :
  byte_ok lo -> byte_ok hi -> (1 <= m <= 7)%Z ->
  let w := to_uint16 (Z.shiftl (lo + 256 * hi) 1) in
  byte_ok (w mod 256) /\ byte_ok (w / 256) /\
  Z.testbit (w mod 256) m = Z.testbit lo (m - 1) /\
  Z.testbit (w / 256) m = Z.testbit hi (m - 1).
Proof.
  intros Hlo Hhi Hm w.
  assert (Hw : (0 <= w < 65536)%Z).
  { unfold w, to_uint16, wrap_unsigned. change (2 ^ 16)%Z with 65536%Z.
    apply Z.mod_pos_bound. lia. }
  assert (Tw : forall k, (1 <= k < 16)%Z ->
                 Z.testbit w k = Z.testbit (lo + 256 * hi) (k - 1)).
  { intros k Hk. unfold w, to_uint16, wrap_unsigned.
    rewrite Z.mod_pow2_bits_low by lia. apply Z.shiftl_spec. lia. }
  repeat split.
  - apply Z.mod_pos_bound. lia.
  - apply Z.mod_pos_bound. lia.
  - apply Z.div_pos; lia.
  - apply Z.div_lt_upper_bound; lia.
  - change 256%Z with (2 ^ 8)%Z. rewrite Z.mod_pow2_bits_low by lia.
    rewrite Tw by lia. rewrite byte_cons_testbit by (assumption || lia).
    destruct (Z.ltb_spec (m - 1) 8); [reflexivity|lia].
  - change 256%Z with (2 ^ 8)%Z. rewrite Z.div_pow2_bits by lia.
    rewrite Tw by lia. change (2 ^ 8)%Z with 256%Z.
    rewrite byte_cons_testbit by (assumption || lia).
    destruct (Z.ltb_spec (m + 8 - 1) 8); [lia|]. f_equal. lia.
Qed.

Lemma slli_once n : forall v,
  length v = 2 * n -> (forall i, byte_ok (nth i v 0%Z)) ->
  length (_mm_slli_epi16 v 1) = 2 * n /\
  (forall i, byte_ok (nth i (_mm_slli_epi16 v 1) 0%Z)) /\
  (forall i m, (1 <= m <= 7)%Z ->
     Z.testbit (nth i (_mm_slli_epi16 v 1) 0%Z) m =
     Z.testbit (nth i v 0%Z) (m - 1)).
Proof.
  induction n as [|n IH]; intros v Hl Hok.
  - destruct v; [|discriminate]. cbn [_mm_slli_epi16].
    split; [reflexivity|split].
    + intros i. destruct i; unfold byte_ok; cbn; lia.
    + intros i m Hm. destruct i; cbn [nth]; rewrite !Z.bits_0; reflexivity.
  - destruct v as [|lo [|hi rest]]; try (cbn in Hl; lia).
    cbn [_mm_slli_epi16].
    destruct (IH rest) as (L & O & T).
    { cbn [length] in Hl. lia. }
    { intros i. apply (Hok (Datatypes.S (Datatypes.S i))). }
    pose proof (Hok 0) as H0. pose proof (Hok 1) as H1. cbn [nth] in H0, H1.
    split; [|split].
    + cbn [length]. lia.
    + intros i. destruct i as [|[|i]]; cbn [nth].
      * apply (slli_lane lo hi 1 H0 H1). lia.
      * apply (slli_lane lo hi 1 H0 H1). lia.
      * apply O.
    + intros i m Hm. destruct i as [|[|i]]; cbn [nth].
      * apply (slli_lane lo hi m H0 H1 Hm).
      * apply (slli_lane lo hi m H0 H1 Hm).
      * apply T. exact Hm.
Qed.

Lemma slli_iter_spec n v k :
  length v = 2 * n -> (forall i, byte_ok (nth i v 0%Z)) ->
  length (slli_iter k v) = 2 * n /\
  (forall i, byte_ok (nth i (slli_iter k v) 0%Z)) /\
  (forall i m, k <= m <= 7 ->
     Z.testbit (nth i (slli_iter k v) 0%Z) (Z.of_nat m) =
     Z.testbit (nth i v 0%Z) (Z.of_nat (m - k))).
Proof.
  intros Hl Hok. induction k as [|k IH].
  - cbn [slli_iter Nat.iter]. split; [exact Hl|split; [exact Hok|]].
    intros i m Hm. rewrite Nat.sub_0_r. reflexivity.
  - destruct IH as (L & O & T).
    destruct (slli_once n (slli_iter k v) L O) as (L' & O' & T').
    unfold slli_iter in *. cbn [Nat.iter].
    split; [exact L'|split; [exact O'|]].
    intros i m Hm. rewrite T' by lia.
    replace (Z.of_nat m - 1)%Z with (Z.of_nat (m - 1)) by lia.
    rewrite T by lia. f_equal. lia.
Qed.

Lemma load_vec_nth n mem i t :
  t < n -> nth t (load_vec n mem i) 0%Z = rd mem (i + t).
Proof.
  intros H. unfold load_vec.
  rewrite (nth_indep _ 0%Z (rd mem (i + 0)))
    by (rewrite length_map, length_seq; exact H).
  rewrite (map_nth (fun t => rd mem (i + t))), seq_nth by exact H.
  reflexivity.
Qed.

Lemma load_vec_ok n mem i :
  (forall t, t < n -> byte_ok (rd mem (i + t))) ->
  forall t, byte_ok (nth t (load_vec n mem i) 0%Z).
Proof.
  intros H t. destruct (Nat.lt_ge_cases t n) as [Hlt|Hge].
  - rewrite load_vec_nth by exact Hlt. apply H. exact Hlt.
  - rewrite nth_overflow; [unfold byte_ok; lia|].
    unfold load_vec. rewrite length_map, length_seq. exact Hge.
Qed.

(** Byte [q] of the mask taken after [kk] shifts: bit [7 - kk] of the
    eight bytes loaded at [i + 8 q]. *)
Lemma mask_byte n mem i kk q G :
  (forall t, t < 2 * n -> byte_ok (rd mem (i + t))) ->
  kk < 8 -> 8 * q + 8 <= 2 * n ->
  (forall m, m < 2 * n ->
     Z.testbit G (Z.of_nat m) =
     Z.testbit (nth m (slli_iter kk (load_vec (2 * n) mem i)) 0%Z) 7) ->
  to_uint8 (Z.shiftr G (Z.of_nat (8 * q))) =
  gather8 (fun j => Z.testbit (rd mem (i + 8 * q + j)) (Z.of_nat (7 - kk))).
Proof.
  intros Hok Hk Hq HG.
  apply byte_ext; [apply to_uint8_ok|apply gather8_ok|]. intros j Hj.
  rewrite to_uint8_testbit, gather8_testbit by lia.
  destruct (Z.ltb_spec (Z.of_nat j) 8); [|lia].
  rewrite Z.shiftr_spec by lia.
  replace (Z.of_nat j + Z.of_nat (8 * q))%Z with (Z.of_nat (8 * q + j)) by lia.
  rewrite HG by lia.
  destruct (slli_iter_spec n (load_vec (2 * n) mem i) kk) as (_ & _ & T).
  { unfold load_vec. rewrite length_map, length_seq. reflexivity. }
  { apply load_vec_ok. exact Hok. }
  change 7%Z with (Z.of_nat 7). rewrite T by lia.
  rewrite load_vec_nth by lia. rewrite Nat2Z.id.
  f_equal. f_equal. lia.
Qed.

Lemma movemask_epi8_testbit v m :
  m < 16 ->
  Z.testbit (_mm_movemask_epi8 v) (Z.of_nat m) = Z.testbit (nth m v 0%Z) 7.
Proof.
  intros H. unfold _mm_movemask_epi8. rewrite gather_testbit.
  destruct (Nat.ltb_spec m 16); [reflexivity|lia].
Qed.

Lemma movemask256_epi8_testbit v m :
  m < 32 ->
  Z.testbit (_mm256_movemask_epi8 v) (Z.of_nat m) = Z.testbit (nth m v 0%Z) 7.
Proof.
  intros H. unfold _mm256_movemask_epi8.
  rewrite to_int32_testbit by lia. rewrite gather_testbit.
  destruct (Nat.ltb_spec m 32); [reflexivity|lia].
Qed.

(** The mask-storing loops, as loops on the buffer alone. *)
Lemma store_masks_SSE_eq xmm idx o :
  store_masks_SSE xmm idx o =
  for_loop 0 0 8 1
    (fun kk o => store_uint16 o (idx kk)
                   (_mm_movemask_epi8 (slli_iter kk xmm))) o.
Proof. reflexivity. Qed.

Lemma store_masks_AVX_eq ymm idx o :
  store_masks_AVX ymm idx o =
  for_loop 0 0 8 1
    (fun kk o => store_int32 o (idx kk)
                   (_mm256_movemask_epi8 (slli_iter kk ymm))) o.
Proof. reflexivity. Qed.

Lemma in_range_unit start stop i :
  in_range start 0 stop 1 i <-> start <= i < stop.
Proof.
  unfold in_range. split.
  - intros [[k ->] H]. lia.
  - intros H. split; [exists (i - start); lia|lia].
Qed.

Lemma in_range_mult start off stop step i :
  1 <= step ->
  (in_range start off stop step i <->
   start <= i /\ (i - start) mod step = 0 /\ i + off < stop).
Proof.
  intros Hs. unfold in_range. split.
  - intros [[k ->] H]. split; [lia|]. split; [|exact H].
    replace (start + k * step - start) with (k * step) by lia.
    apply Nat.Div0.mod_mul.
  - intros (H1 & H2 & H3). split; [|exact H3].
    exists ((i - start) / step).
    pose proof (Nat.div_mod_eq (i - start) step). lia.
Qed.

Lemma div_mod_unique_nat q r d : r < d -> (q * d + r) / d = q /\ (q * d + r) mod d = r.
Proof.
  intros H. split.
  - rewrite Nat.div_add_l by lia. rewrite Nat.div_small by exact H. lia.
  - rewrite Nat.add_comm, Nat.Div0.mod_add. apply Nat.mod_small. exact H.
Qed.

Lemma mul_add_lt q r d n : r < d -> q < n -> q * d + r < d * n.
Proof.
  intros Hr Hq. assert (H : (q + 1) * d <= n * d) by (apply Nat.mul_le_mono_r; lia).
  lia.
Qed.

Ltac loops :=
  repeat first
    [ eapply for_loop_writes; [lia | intros ? ?]
    | eapply writes_insert ].

Lemma bshuf_trans_byte_elem_remainder_writes inb size elem_size start :
  start mod 8 = 0 ->
  writes (g_trans_byte_elem inb size elem_size)
         (fun p => p < size * elem_size /\ start <= p mod size)
         (fun o => snd (bshuf_trans_byte_elem_remainder inb o size elem_size start)).
Proof.
  intros Hs. unfold bshuf_trans_byte_elem_remainder, CHECK_MULT_EIGHT.
  rewrite Hs. cbn [Nat.eqb negb].
  destruct (Nat.ltb_spec start size) as [Hlt|Hge]; cbn [snd].
  - eapply writes_equiv; [|eapply writes_seq; loops].
    + intros p. cbv beta. split.
      * intros [(ii & Hii & jj & Hjj & kk & Hkk & ->)|(ii & Hii & jj & Hjj & ->)].
        -- apply in_range_mult in Hii; [|lia]. apply in_range_unit in Hjj, Hkk.
           destruct (div_mod_unique_nat jj (ii + kk) size) as [_ E]; [lia|].
           rewrite <- Nat.add_assoc, E. split; [apply mul_add_lt; lia|lia].
        -- apply in_range_unit in Hii, Hjj.
           destruct (div_mod_unique_nat jj ii size) as [_ E]; [lia|].
           rewrite E. split; [apply mul_add_lt; lia|].
           pose proof (Nat.div_mod_eq size 8). pose proof (Nat.div_mod_eq start 8).
           pose proof (Nat.mod_upper_bound size 8). lia.
      * intros [Hp Hst].
        assert (Hsz : 0 < size) by lia.
        pose proof (Nat.div_mod_eq p size) as Ep.
        pose proof (Nat.mod_upper_bound p size ltac:(lia)) as Hm.
        assert (Hq : p / size < elem_size).
        { apply Nat.Div0.div_lt_upper_bound. lia. }
        set (c := p mod size) in *. set (q := p / size) in *.
        destruct (Nat.lt_ge_cases c (size - size mod 8)) as [Hc|Hc].
        -- left. exists (8 * (c / 8)). split.
           { apply in_range_mult; [lia|].
             pose proof (Nat.div_mod_eq c 8). pose proof (Nat.div_mod_eq start 8).
             pose proof (Nat.div_mod_eq size 8).
             pose proof (Nat.mod_upper_bound c 8). pose proof (Nat.mod_upper_bound size 8).
             split; [lia|]. split; [|lia].
             replace (8 * (c / 8) - start) with ((c / 8 - start / 8) * 8) by lia.
             apply Nat.Div0.mod_mul. }
           exists q. split; [apply in_range_unit; lia|].
           exists (c mod 8). split; [apply in_range_unit; pose proof (Nat.mod_upper_bound c 8); lia|].
           pose proof (Nat.div_mod_eq c 8). lia.
        -- right. exists c. split; [apply in_range_unit; lia|].
           exists q. split; [apply in_range_unit; lia|]. lia.
    + cbv beta. unfold g_trans_byte_elem.
      match goal with H : in_range _ 7 _ _ _ |- _ => apply in_range_mult in H; [|lia] end.
      repeat match goal with H : in_range _ 0 _ 1 _ |- _ => apply in_range_unit in H end.
      match goal with |- rd _ (?ii * _ + ?kk * _ + ?jj) = rd _ ((?jj * _ + ?ii + ?kk) mod _ * _ + _) =>
        destruct (div_mod_unique_nat jj (ii + kk) size) as [E1 E2]; [lia|];
        rewrite <- (Nat.add_assoc (jj * size)), E1, E2 end.
      f_equal. lia.
    + cbv beta. unfold g_trans_byte_elem.
      repeat match goal with H : in_range _ 0 _ 1 _ |- _ => apply in_range_unit in H end.
      match goal with |- rd _ (?ii * _ + ?jj) = rd _ ((?jj * _ + ?ii) mod _ * _ + _) =>
        destruct (div_mod_unique_nat jj ii size) as [E1 E2]; [lia|];
        rewrite E1, E2 end.
      reflexivity.
  - eapply writes_equiv; [|apply writes_id]. intros p. split; [tauto|].
    intros [Hp Hst]. assert (0 < size) by nia.
    pose proof (Nat.mod_upper_bound p size). lia.
Qed.

Lemma writes_memcpy_at g doff src soff n :
  (forall t, t < n -> rd src (soff + t) = g (doff + t)) ->
  writes g (fun p => doff <= p < doff + n)
         (fun o => memcpy_at o doff src soff n).
Proof.
  intros H. unfold memcpy_at.
  eapply writes_equiv; [|loops].
  - intros p. cbv beta. split.
    + intros (t & Ht & ->). apply in_range_unit in Ht. lia.
    + intros Hp. exists (p - doff). split; [apply in_range_unit; lia|lia].
  - cbv beta. match goal with Hr : in_range _ _ _ _ _ |- _ =>
      apply in_range_unit in Hr end. apply H. lia.
Qed.

Lemma writes_store_bytes g x idx :
  (forall kk, kk < 8 ->
     to_uint8 (Z.shiftr x (Z.of_nat (8 * kk))) = g (idx kk)) ->
  writes g (fun p => exists kk, kk < 8 /\ p = idx kk)
         (store_bytes_of_uint64 x idx).
Proof.
  intros H.
  eapply writes_ext; [intros o; symmetry; apply store_bytes_of_uint64_eq|].
  eapply writes_equiv; [|loops].
  - intros p. cbv beta. split.
    + intros (kk & Hk & ->). apply in_range_unit in Hk. exists kk. split; [lia|reflexivity].
    + intros (kk & Hk & ->). exists kk. split; [apply in_range_unit; lia|reflexivity].
  - cbv beta. match goal with Hr : in_range _ _ _ _ _ |- _ =>
      apply in_range_unit in Hr end. apply H. lia.
Qed.

(** ** Bit transpose within bytes *)

Lemma bshuf_trans_bit_byte_remainder_writes inb size elem_size start_byte :
  (forall i, i < elem_size * size -> byte_ok (rd inb i)) ->
  (elem_size * size) mod 8 = 0 -> start_byte mod 8 = 0 ->
  writes (g_trans_bit_byte inb (elem_size * size / 8))
         (fun p => p < elem_size * size /\
                   start_byte / 8 <= p mod (elem_size * size / 8))
         (fun o => snd (bshuf_trans_bit_byte_remainder inb o size elem_size
                          start_byte)).
Proof.
  intros Hok Hn Hs. unfold bshuf_trans_bit_byte_remainder, CHECK_MULT_EIGHT.
  rewrite Hn, Hs. cbn [Nat.eqb negb snd].
  set (nrow := elem_size * size / 8).
  assert (En : elem_size * size = 8 * nrow).
  { unfold nrow. pose proof (Nat.div_mod_eq (elem_size * size) 8). lia. }
  eapply writes_equiv;
    [|eapply for_loop_writes; [lia|intros ii Hii; eapply writes_store_bytes]].
  - intros p. cbv beta. split.
    + intros (ii & Hii & kk & Hkk & ->). apply in_range_unit in Hii.
      destruct (div_mod_unique_nat kk ii nrow) as [_ E]; [lia|].
      rewrite E, En. split; [|lia].
      pose proof (mul_add_lt kk ii nrow 8). lia.
    + intros [Hp Hst]. rewrite En in Hp.
      assert (Hz : 0 < nrow) by lia.
      exists (p mod nrow). split.
      { apply in_range_unit. pose proof (Nat.mod_upper_bound p nrow). lia. }
      exists (p / nrow). split.
      { apply Nat.Div0.div_lt_upper_bound. lia. }
      pose proof (Nat.div_mod_eq p nrow). lia.
  - intros kk Hkk. cbv beta. apply in_range_unit in Hii.
    rewrite trans_column by (try assumption; intros j Hj; apply Hok; lia).
    unfold g_trans_bit_byte.
    destruct (div_mod_unique_nat kk ii nrow) as [E1 E2]; [lia|].
    rewrite E1, E2. reflexivity.
Qed.

(** ** Generic transpose of [elem_size]-byte cells *)

Lemma bshuf_trans_elem_writes inb lda ldb elem_size :
  writes (g_trans_elem inb lda ldb elem_size)
         (fun p => p < lda * ldb * elem_size)
         (fun o => snd (bshuf_trans_elem inb o lda ldb elem_size)).
Proof.
  unfold bshuf_trans_elem. cbn [snd].
  eapply writes_equiv;
    [|eapply for_loop_writes; [lia|intros ii Hii];
      eapply for_loop_writes; [lia|intros jj Hjj];
      eapply writes_memcpy_at].
  - intros p. cbv beta. split.
    + intros (ii & Hii & jj & Hjj & Hp). apply in_range_unit in Hii, Hjj.
      pose proof (mul_add_lt jj ii lda ldb ltac:(lia) ltac:(lia)).
      assert ((jj * lda + ii + 1) * elem_size <= lda * ldb * elem_size)
        by (apply Nat.mul_le_mono_r; lia).
      lia.
    + intros Hp.
      assert (Hz : 0 < elem_size) by (destruct elem_size; lia).
      assert (Hl : 0 < lda) by (destruct lda; lia).
      set (e := p / elem_size).
      assert (He : e < lda * ldb).
      { apply Nat.Div0.div_lt_upper_bound. lia. }
      exists (e mod lda). split.
      { apply in_range_unit. pose proof (Nat.mod_upper_bound e lda). lia. }
      exists (e / lda). split.
      { apply in_range_unit. split; [lia|].
        apply Nat.Div0.div_lt_upper_bound. lia. }
      pose proof (Nat.div_mod_eq e lda) as E1.
      replace (e / lda * lda + e mod lda) with e by lia.
      pose proof (Nat.div_mod_eq p elem_size) as E2. fold e in E2.
      pose proof (Nat.mod_upper_bound p elem_size). lia.
  - intros t Ht. cbv beta. unfold g_trans_elem.
    apply in_range_unit in Hii, Hjj.
    destruct (div_mod_unique_nat (jj * lda + ii) t elem_size) as [E1 E2]; [lia|].
    rewrite E1, E2.
    destruct (div_mod_unique_nat jj ii lda) as [E3 E4]; [lia|].
    rewrite E3, E4. reflexivity.
Qed.

(** ** Byte transpose of bit rows *)

Lemma bshuf_trans_byte_bitrow_scal_writes inb size elem_size :
  size mod 8 = 0 ->
  writes (g_trans_byte_bitrow inb size elem_size)
         (fun p => p < size * elem_size)
         (fun o => snd (bshuf_trans_byte_bitrow_scal inb o size elem_size)).
Proof.
  intros Hs. unfold bshuf_trans_byte_bitrow_scal, CHECK_MULT_EIGHT.
  rewrite Hs. cbn [Nat.eqb negb snd].
  set (nrow := size / 8).
  assert (En : size = 8 * nrow).
  { unfold nrow. pose proof (Nat.div_mod_eq size 8). lia. }
  eapply writes_equiv; [|loops].
  - intros p. cbv beta. split.
    + intros (jj & Hjj & ii & Hii & kk & Hkk & ->).
      apply in_range_unit in Hjj, Hii, Hkk. rewrite En.
      pose proof (mul_add_lt ii (jj * 8 + kk) (8 * elem_size) nrow
                    ltac:(lia) ltac:(lia)). lia.
    + intros Hp. rewrite En in Hp.
      assert (Hz : 0 < 8 * elem_size) by (destruct elem_size; lia).
      set (r := p mod (8 * elem_size)). set (c := p / (8 * elem_size)).
      assert (Hr : r < 8 * elem_size) by (apply Nat.mod_upper_bound; lia).
      assert (Hc : c < nrow).
      { apply Nat.Div0.div_lt_upper_bound. lia. }
      pose proof (Nat.div_mod_eq p (8 * elem_size)) as E. fold r c in E.
      exists (r / 8). split.
      { apply in_range_unit. split; [lia|].
        apply Nat.Div0.div_lt_upper_bound. lia. }
      exists c. split; [apply in_range_unit; lia|].
      exists (r mod 8). split.
      { apply in_range_unit. pose proof (Nat.mod_upper_bound r 8). lia. }
      pose proof (Nat.div_mod_eq r 8). lia.
  - cbv beta. unfold g_trans_byte_bitrow.
    repeat match goal with H : in_range _ 0 _ 1 _ |- _ =>
      apply in_range_unit in H end.
    match goal with
    | |- rd _ ((?jj * 8 + ?kk) * _ + ?ii) = _ =>
        replace (ii * 8 * elem_size + jj * 8 + kk)
          with (ii * (8 * elem_size) + (jj * 8 + kk)) by lia;
        destruct (div_mod_unique_nat ii (jj * 8 + kk) (8 * elem_size))
          as [E1 E2]; [lia|]; rewrite E1, E2
    end.
    reflexivity.
Qed.

(** ** Bit shuffle within groups of eight elements *)

Lemma bshuf_shuffle_bit_eightelem_scal_writes inb size elem_size :
  (forall i, i < size * elem_size -> byte_ok (rd inb i)) ->
  size mod 8 = 0 -> 1 <= elem_size ->
  writes (g_shuffle_bit_eightelem inb elem_size)
         (fun p => p < size * elem_size)
         (fun o => snd (bshuf_shuffle_bit_eightelem_scal inb o size elem_size)).
Proof.
  intros Hok Hs He. unfold bshuf_shuffle_bit_eightelem_scal, CHECK_MULT_EIGHT.
  rewrite Hs. cbn [Nat.eqb negb snd].
  set (nblk := size / 8).
  assert (En : size = 8 * nblk).
  { unfold nblk. pose proof (Nat.div_mod_eq size 8). lia. }
  eapply writes_equiv;
    [|eapply for_loop_writes; [lia|intros jj Hjj];
      eapply for_loop_writes; [lia|intros ii Hii];
      eapply writes_store_bytes].
  - intros p. cbv beta. split.
    + intros (jj & Hjj & ii & Hii & kk & Hkk & ->).
      apply in_range_mult in Hjj, Hii; try lia.
      destruct Hjj as (_ & Hj8 & Hjj). destruct Hii as (_ & Hi8 & Hii).
      rewrite Nat.sub_0_r in Hj8, Hi8.
      assert (jj / 8 < elem_size) by (apply Nat.Div0.div_lt_upper_bound; lia).
      pose proof (mul_add_lt kk (jj / 8) elem_size 8 ltac:(lia) ltac:(lia)).
      lia.
    + intros Hp.
      set (d := 8 * elem_size).
      set (r := p mod d). set (blk := p / d).
      assert (Hr : r < d) by (apply Nat.mod_upper_bound; lia).
      pose proof (Nat.div_mod_eq p d) as E. fold r blk in E.
      assert (Hb : blk < nblk).
      { apply Nat.Div0.div_lt_upper_bound. unfold d. nia. }
      exists (8 * (r mod elem_size)). split.
      { apply in_range_mult; [lia|].
        pose proof (Nat.mod_upper_bound r elem_size). split; [lia|]. split; [|lia].
        rewrite Nat.sub_0_r, Nat.mul_comm. apply Nat.Div0.mod_mul. }
      exists (blk * d). split.
      { apply in_range_mult; [lia|]. split; [lia|]. split.
        - rewrite Nat.sub_0_r. apply Nat.Div0.mod_mul.
        - assert ((blk + 1) * d <= nblk * d) by (apply Nat.mul_le_mono_r; lia).
          unfold d in *. nia. }
      exists (r / elem_size). split.
      { apply Nat.Div0.div_lt_upper_bound. lia. }
      rewrite (Nat.mul_comm 8 (r mod elem_size)), Nat.div_mul by lia.
      pose proof (Nat.div_mod_eq r elem_size). lia.
  - intros kk Hkk. cbv beta.
    apply in_range_mult in Hjj, Hii; try lia.
    destruct Hjj as (_ & Hj8 & Hjj). destruct Hii as (_ & Hi8 & Hii).
    rewrite Nat.sub_0_r in Hj8, Hi8.
    rewrite trans_column
      by (try assumption; intros j Hj; apply Hok;
          pose proof (Nat.div_mod_eq jj 8); nia).
    unfold g_shuffle_bit_eightelem.
    set (d := 8 * elem_size) in *.
    assert (Hj : jj / 8 < elem_size) by (apply Nat.Div0.div_lt_upper_bound; lia).
    pose proof (mul_add_lt kk (jj / 8) elem_size 8 ltac:(lia) ltac:(lia)) as Hlt.
    pose proof (Nat.div_mod_eq ii d) as Ei. rewrite Hi8, Nat.add_0_r in Ei.
    replace (ii + jj / 8 + kk * elem_size)
      with ((ii / d) * d + (kk * elem_size + jj / 8)) by lia.
    destruct (div_mod_unique_nat (ii / d) (kk * elem_size + jj / 8) d)
      as [E1 E2]; [unfold d; lia|].
    rewrite E1, E2.
    destruct (div_mod_unique_nat kk (jj / 8) elem_size) as [E3 E4]; [lia|].
    rewrite E3, E4.
    pose proof (Nat.div_mod_eq jj 8) as Ej. 
    replace (ii / d * d + 8 * (jj / 8)) with (ii + jj) by lia.
    reflexivity.
Qed.

(** * Buffers given position by position *)

Lemma length_tabulate g n : length (tabulate g n) = n.
Proof. unfold tabulate. rewrite length_map, length_seq. reflexivity. Qed.

Lemma rd_tabulate g n rest p : p < n -> rd (tabulate g n ++ rest) p = g p.
Proof.
  intros Hp. unfold rd, tabulate.
  rewrite app_nth1 by (rewrite length_map, length_seq; exact Hp).
  rewrite (nth_indep _ 0%Z (g 0)) by (rewrite length_map, length_seq; exact Hp).
  rewrite map_nth, seq_nth by exact Hp. reflexivity.
Qed.

Lemma rd_tabulate_ge g n rest p :
  n <= p -> rd (tabulate g n ++ rest) p = rd rest (p - n).
Proof.
  intros Hp. unfold rd. rewrite app_nth2 by (rewrite length_tabulate; exact Hp).
  rewrite length_tabulate. reflexivity.
Qed.

Lemma rd_drop (l : list Z) n p : rd (drop n l) p = rd l (n + p).
Proof. unfold rd. rewrite !nth_lookup, lookup_drop. reflexivity. Qed.

Lemma rd_take (l : list Z) n p : p < n -> rd (take n l) p = rd l p.
Proof. intros H. unfold rd. rewrite !nth_lookup, lookup_take_lt by exact H. reflexivity. Qed.

Lemma tabulate_ext g g' n :
  (forall p, p < n -> g p = g' p) -> tabulate g n = tabulate g' n.
Proof.
  intros H. unfold tabulate. apply map_ext_in. intros p Hp.
  apply in_seq in Hp. apply H. lia.
Qed.

Lemma tabulate_rd (l : list Z) : tabulate (rd l) (length l) = l.
Proof.
  apply rd_ext; [apply length_tabulate|]. intros p Hp.
  rewrite length_tabulate in Hp.
  rewrite <- (app_nil_r (tabulate _ _)). apply rd_tabulate. exact Hp.
Qed.

(** A transformer that writes exactly the first [n] positions. *)
Lemma writes_full g n f o :
  writes g (fun p => p < n) f -> n <= length o ->
  f o = tabulate g n ++ drop n o.
Proof.
  intros W Hn. destruct (W o) as [L H]. apply rd_ext.
  - rewrite L, length_app, length_tabulate, length_drop. lia.
  - intros p Hp. destruct (Nat.lt_ge_cases p n) as [Hlt|Hge].
    + rewrite rd_tabulate by exact Hlt. apply (proj2 (H p)); [exact Hlt|lia].
    + rewrite rd_tabulate_ge, rd_drop by exact Hge.
      replace (n + (p - n)) with p by lia.
      destruct (proj1 (H p)) as [E|[Hlt _]]; [exact E|lia].
Qed.

Lemma writes_unique g n f f' o :
  writes g (fun p => p < n) f -> writes g (fun p => p < n) f' -> f o = f' o.
Proof.
  intros W W'. destruct (W o) as [L H]. destruct (W' o) as [L' H'].
  apply rd_ext; [congruence|]. intros p Hp. rewrite L in Hp.
  destruct (Nat.lt_ge_cases p n) as [Hlt|Hge].
  - rewrite (proj2 (H p)), (proj2 (H' p)) by assumption. reflexivity.
  - destruct (proj1 (H p)) as [E|[Hlt _]]; [|lia].
    destruct (proj1 (H' p)) as [E'|[Hlt _]]; [|lia]. congruence.
Qed.

Lemma to_int64_small z :
  (- 2 ^ 63 <= z < 2 ^ 63)%Z -> to_int64 z = z.
Proof.
  intros H. unfold to_int64, wrap_signed.
  change (2 ^ (64 - 1))%Z with (2 ^ 63)%Z.
  rewrite Z.mod_small; [lia|]. change (2 ^ 64)%Z with (2 * 2 ^ 63)%Z. lia.
Qed.

Lemma to_size_t_small z : (0 <= z < 2 ^ 64)%Z -> to_size_t z = z.
Proof. intros H. unfold to_size_t, wrap_unsigned. apply Z.mod_small. exact H. Qed.

Lemma int64_of_size_small n :
  (Z.of_nat n < 2 ^ 63)%Z -> int64_of_size n = Z.of_nat n.
Proof.
  intros H. unfold int64_of_size.
  rewrite to_size_t_small by (change (2 ^ 64)%Z with (2 * 2 ^ 63)%Z; lia).
  apply to_int64_small. lia.
Qed.

Lemma length_malloc n : length (malloc n) = n.
Proof. unfold malloc. apply repeat_length. Qed.

Lemma drop_all_malloc n : drop n (malloc n) = [].
Proof. apply drop_ge. rewrite length_malloc. lia. Qed.

(** * The scalar primitives on whole buffers *)

Lemma fst_trans_byte_elem_remainder inb outb size elem_size start :
  start mod 8 = 0 ->
  fst (bshuf_trans_byte_elem_remainder inb outb size elem_size start)
  = int64_of_size (size * elem_size).
Proof.
  intros H. unfold bshuf_trans_byte_elem_remainder, CHECK_MULT_EIGHT.
  rewrite H. reflexivity.
Qed.

Lemma bshuf_trans_byte_elem_scal_eq inb outb size elem_size :
  size * elem_size <= length outb ->
  bshuf_trans_byte_elem_scal inb outb size elem_size =
  (int64_of_size (size * elem_size),
   tabulate (g_trans_byte_elem inb size elem_size) (size * elem_size)
     ++ drop (size * elem_size) outb).
Proof.
  intros Hl. unfold bshuf_trans_byte_elem_scal.
  rewrite (surjective_pairing (bshuf_trans_byte_elem_remainder _ _ _ _ _)).
  rewrite fst_trans_byte_elem_remainder by reflexivity. f_equal.
  apply (writes_full _ _ (fun o => snd (bshuf_trans_byte_elem_remainder
                                          inb o size elem_size 0))); [|exact Hl].
  eapply writes_equiv;
    [|apply bshuf_trans_byte_elem_remainder_writes; reflexivity].
  intros p. cbv beta. lia.
Qed.

Lemma fst_trans_bit_byte_remainder inb outb size elem_size start :
  (elem_size * size) mod 8 = 0 -> start mod 8 = 0 ->
  fst (bshuf_trans_bit_byte_remainder inb outb size elem_size start)
  = int64_of_size (size * elem_size).
Proof.
  intros H1 H2. unfold bshuf_trans_bit_byte_remainder, CHECK_MULT_EIGHT.
  rewrite H1, H2. reflexivity.
Qed.

Lemma bshuf_trans_bit_byte_scal_eq inb outb size elem_size :
  (forall i, i < elem_size * size -> byte_ok (rd inb i)) ->
  (elem_size * size) mod 8 = 0 ->
  size * elem_size <= length outb ->
  bshuf_trans_bit_byte_scal inb outb size elem_size =
  (int64_of_size (size * elem_size),
   tabulate (g_trans_bit_byte inb (elem_size * size / 8)) (size * elem_size)
     ++ drop (size * elem_size) outb).
Proof.
  intros Hok Hn Hl. unfold bshuf_trans_bit_byte_scal.
  rewrite (surjective_pairing (bshuf_trans_bit_byte_remainder _ _ _ _ _)).
  rewrite fst_trans_bit_byte_remainder by (assumption || reflexivity). f_equal.
  apply (writes_full _ _ (fun o => snd (bshuf_trans_bit_byte_remainder
                                          inb o size elem_size 0))); [|exact Hl].
  eapply writes_equiv;
    [|apply bshuf_trans_bit_byte_remainder_writes;
      [exact Hok|exact Hn|reflexivity]].
  intros p. cbv beta. change (0 / 8) with 0. lia.
Qed.

Lemma bshuf_trans_elem_eq inb outb lda ldb elem_size :
  lda * ldb * elem_size <= length outb ->
  bshuf_trans_elem inb outb lda ldb elem_size =
  (int64_of_size (lda * ldb * elem_size),
   tabulate (g_trans_elem inb lda ldb elem_size) (lda * ldb * elem_size)
     ++ drop (lda * ldb * elem_size) outb).
Proof.
  intros Hl.
  rewrite (surjective_pairing (bshuf_trans_elem _ _ _ _ _)). f_equal.
  apply (writes_full _ _ (fun o => snd (bshuf_trans_elem inb o lda ldb
                                          elem_size))); [|exact Hl].
  apply bshuf_trans_elem_writes.
Qed.

Lemma bshuf_trans_byte_bitrow_scal_eq inb outb size elem_size :
  size mod 8 = 0 -> size * elem_size <= length outb ->
  bshuf_trans_byte_bitrow_scal inb outb size elem_size =
  (int64_of_size (size * elem_size),
   tabulate (g_trans_byte_bitrow inb size elem_size) (size * elem_size)
     ++ drop (size * elem_size) outb).
Proof.
  intros Hs Hl.
  rewrite (surjective_pairing (bshuf_trans_byte_bitrow_scal _ _ _ _)). f_equal.
  - unfold bshuf_trans_byte_bitrow_scal, CHECK_MULT_EIGHT. rewrite Hs. reflexivity.
  - apply (writes_full _ _ (fun o => snd (bshuf_trans_byte_bitrow_scal inb o
                                            size elem_size))); [|exact Hl].
    apply bshuf_trans_byte_bitrow_scal_writes. exact Hs.
Qed.

Lemma bshuf_shuffle_bit_eightelem_scal_eq inb outb size elem_size :
  (forall i, i < size * elem_size -> byte_ok (rd inb i)) ->
  size mod 8 = 0 -> 1 <= elem_size -> size * elem_size <= length outb ->
  bshuf_shuffle_bit_eightelem_scal inb outb size elem_size =
  (int64_of_size (size * elem_size),
   tabulate (g_shuffle_bit_eightelem inb elem_size) (size * elem_size)
     ++ drop (size * elem_size) outb).
Proof.
  intros Hok Hs He Hl.
  rewrite (surjective_pairing (bshuf_shuffle_bit_eightelem_scal _ _ _ _)).
  f_equal.
  - unfold bshuf_shuffle_bit_eightelem_scal, CHECK_MULT_EIGHT. rewrite Hs.
    reflexivity.
  - apply (writes_full _ _ (fun o => snd (bshuf_shuffle_bit_eightelem_scal
                                            inb o size elem_size))); [|exact Hl].
    apply bshuf_shuffle_bit_eightelem_scal_writes; assumption.
Qed.

(** * The bit-elem transpose and its inverse, position by position *)

Lemma gather8_ext f f' :
  (forall j, j < 8 -> f j = f' j) -> gather8 f = gather8 f'.
Proof.
  intros H. unfold gather8, gather. cbn [seq fold_right].
  rewrite !H by lia. reflexivity.
Qed.

Lemma size_eq size : size mod 8 = 0 -> size = 8 * (size / 8).
Proof. intros H. pose proof (Nat.div_mod_eq size 8). lia. Qed.

Lemma n_eq size elem_size :
  size mod 8 = 0 -> size * elem_size = 8 * elem_size * (size / 8).
Proof. intros H. rewrite (size_eq size H) at 1. lia. Qed.

Lemma nbyte_mod8 size elem_size :
  size mod 8 = 0 -> (elem_size * size) mod 8 = 0.
Proof.
  intros H. rewrite (size_eq size H).
  replace (elem_size * (8 * (size / 8))) with (elem_size * (size / 8) * 8) by lia.
  apply Nat.Div0.mod_mul.
Qed.

Lemma nbyte_div8 size elem_size :
  size mod 8 = 0 -> elem_size * size / 8 = elem_size * (size / 8).
Proof.
  intros H. rewrite (size_eq size H) at 1.
  replace (elem_size * (8 * (size / 8))) with (elem_size * (size / 8) * 8) by lia.
  apply Nat.div_mul. lia.
Qed.

(** The three stages of the transpose, composed. *)
Lemma pipeline_trans inb size elem_size (rest1 rest2 : list Z) p :
  size mod 8 = 0 ->
  p < size * elem_size ->
  g_trans_elem
    (tabulate
       (g_trans_bit_byte
          (tabulate (g_trans_byte_elem inb size elem_size) (size * elem_size)
             ++ rest1)
          (elem_size * size / 8)) (size * elem_size) ++ rest2)
    8 elem_size (size / 8) p
  = g_bitshuffle inb size elem_size p.
Proof.
  intros Hsize Hp. unfold g_trans_elem, g_bitshuffle.
  pose proof (size_eq size Hsize) as Es.
  pose proof (n_eq size elem_size Hsize) as En.
  rewrite (nbyte_div8 size elem_size Hsize).
  set (S8 := size / 8) in *. set (n := size * elem_size) in *.
  assert (Hz : 0 < S8) by (destruct S8; lia).
  set (e := p / S8). set (t := p mod S8).
  assert (Ht : t < S8) by (apply Nat.mod_upper_bound; lia).
  assert (He : e < 8 * elem_size).
  { apply Nat.Div0.div_lt_upper_bound. lia. }
  assert (Hm : e mod 8 < 8) by (apply Nat.mod_upper_bound; lia).
  assert (Hd : e / 8 < elem_size) by (apply Nat.Div0.div_lt_upper_bound; lia).
  set (ii := e mod 8) in *. set (jj := e / 8) in *.
  assert (Hq : (ii * elem_size + jj) * S8 + t < n).
  { rewrite En. pose proof (mul_add_lt ii jj elem_size 8 ltac:(lia) ltac:(lia)).
    pose proof (mul_add_lt (ii * elem_size + jj) t S8 (8 * elem_size)
                  ltac:(lia) ltac:(lia)). lia. }
  rewrite rd_tabulate by exact Hq.
  unfold g_trans_bit_byte.
  replace ((ii * elem_size + jj) * S8 + t)
    with (ii * (elem_size * S8) + (jj * S8 + t)) by lia.
  assert (Hr : jj * S8 + t < elem_size * S8).
  { pose proof (mul_add_lt jj t S8 elem_size ltac:(lia) ltac:(lia)). lia. }
  destruct (div_mod_unique_nat ii (jj * S8 + t) (elem_size * S8))
    as [E1 E2]; [exact Hr|].
  rewrite E1, E2. apply gather8_ext. intros j Hj. f_equal.
  assert (Hc : 8 * t + j < size) by lia.
  assert (Hc' : jj * size + (8 * t + j) < n).
  { pose proof (mul_add_lt jj (8 * t + j) size elem_size ltac:(lia) ltac:(lia)).
    unfold n. lia. }
  replace (8 * (jj * S8 + t) + j) with (jj * size + (8 * t + j)) by lia.
  rewrite rd_tabulate by exact Hc'.
  unfold g_trans_byte_elem.
  destruct (div_mod_unique_nat jj (8 * t + j) size) as [E3 E4]; [exact Hc|].
  rewrite E3, E4. reflexivity.
Qed.

(** The two stages of the inverse, composed. *)
Lemma pipeline_untrans inb size elem_size (rest : list Z) p :
  size mod 8 = 0 ->
  1 <= elem_size -> p < size * elem_size ->
  g_shuffle_bit_eightelem
    (tabulate (g_trans_byte_bitrow inb size elem_size) (size * elem_size)
       ++ rest)
    elem_size p
  = g_bitunshuffle inb size elem_size p.
Proof.
  intros Hsize He Hp. unfold g_shuffle_bit_eightelem, g_bitunshuffle.
  pose proof (size_eq size Hsize) as Es.
  pose proof (n_eq size elem_size Hsize) as En.
  set (S8 := size / 8) in *. set (n := size * elem_size) in *.
  set (d := 8 * elem_size) in *.
  set (blk := p / d). set (r := p mod d).
  assert (Hr : r < d) by (apply Nat.mod_upper_bound; lia).
  assert (Hb : blk < S8).
  { apply Nat.Div0.div_lt_upper_bound. lia. }
  assert (Hc : r mod elem_size < elem_size) by (apply Nat.mod_upper_bound; lia).
  apply gather8_ext. intros j Hj. f_equal.
  assert (Hq : blk * d + (8 * (r mod elem_size) + j) < n).
  { rewrite En.
    pose proof (mul_add_lt blk (8 * (r mod elem_size) + j) d S8
                  ltac:(lia) ltac:(lia)). lia. }
  rewrite <- Nat.add_assoc. rewrite rd_tabulate by exact Hq.
  unfold g_trans_byte_bitrow. fold d S8.
  destruct (div_mod_unique_nat blk (8 * (r mod elem_size) + j) d)
    as [E1 E2]; [lia|].
  rewrite E1, E2. reflexivity.
Qed.

Lemma bshuf_trans_bit_elem_scal_eq inb outb size elem_size :
  size mod 8 = 0 ->
  (forall i, i < size * elem_size -> byte_ok (rd inb i)) ->
  size * elem_size <= length outb ->
  (Z.of_nat (size * elem_size) < 2 ^ 63)%Z ->
  bshuf_trans_bit_elem_scal inb outb size elem_size =
  (Z.of_nat (size * elem_size),
   tabulate (g_bitshuffle inb size elem_size) (size * elem_size)
     ++ drop (size * elem_size) outb).
Proof.
  intros Hs Hok Hl Hn. unfold bshuf_trans_bit_elem_scal, CHECK_MULT_EIGHT.
  rewrite Hs. cbn [Nat.eqb negb].
  set (n := size * elem_size) in *.
  pose proof (size_eq size Hs) as Es. pose proof (n_eq size elem_size Hs) as En.
  fold n in En.
  rewrite bshuf_trans_byte_elem_scal_eq by exact Hl. fold n.
  rewrite int64_of_size_small by exact Hn.
  destruct (Z.ltb_spec (Z.of_nat n) 0) as [?|_]; [lia|].
  rewrite bshuf_trans_bit_byte_scal_eq; fold n.
  - rewrite int64_of_size_small by exact Hn.
    destruct (Z.ltb_spec (Z.of_nat n) 0) as [?|_]; [lia|].
    unfold bshuf_trans_bitrow_eight, CHECK_MULT_EIGHT. rewrite Hs.
    cbn [Nat.eqb negb].
    assert (E8 : 8 * elem_size * (size / 8) = n) by lia.
    rewrite bshuf_trans_elem_eq; rewrite E8.
    + rewrite int64_of_size_small by exact Hn. f_equal.
      rewrite drop_app_length' by (symmetry; apply length_tabulate).
      f_equal. apply tabulate_ext. intros p Hp.
      apply pipeline_trans; assumption.
    + rewrite length_app, length_tabulate, length_drop. lia.
  - intros i Hi. rewrite rd_tabulate by (unfold n; lia).
    unfold g_trans_byte_elem. apply Hok.
    assert (0 < size) by (destruct size; lia).
    pose proof (Nat.mod_upper_bound i size ltac:(lia)).
    assert (i / size < elem_size)
      by (apply Nat.Div0.div_lt_upper_bound; lia).
    pose proof (mul_add_lt (i mod size) (i / size) elem_size size
                  ltac:(lia) ltac:(lia)). lia.
  - apply nbyte_mod8. exact Hs.
  - rewrite length_malloc. lia.
Qed.

Lemma bshuf_untrans_bit_elem_scal_eq inb outb size elem_size :
  size mod 8 = 0 -> 1 <= elem_size ->
  (forall i, i < size * elem_size -> byte_ok (rd inb i)) ->
  size * elem_size <= length outb ->
  (Z.of_nat (size * elem_size) < 2 ^ 63)%Z ->
  bshuf_untrans_bit_elem_scal inb outb size elem_size =
  (Z.of_nat (size * elem_size),
   tabulate (g_bitunshuffle inb size elem_size) (size * elem_size)
     ++ drop (size * elem_size) outb).
Proof.
  intros Hs He Hok Hl Hn. unfold bshuf_untrans_bit_elem_scal, CHECK_MULT_EIGHT.
  rewrite Hs. cbn [Nat.eqb negb].
  set (n := size * elem_size) in *.
  pose proof (size_eq size Hs) as Es. pose proof (n_eq size elem_size Hs) as En.
  fold n in En.
  rewrite bshuf_trans_byte_bitrow_scal_eq by (try assumption; rewrite length_malloc; lia).
  fold n. rewrite int64_of_size_small by exact Hn.
  destruct (Z.ltb_spec (Z.of_nat n) 0) as [?|_]; [lia|].
  rewrite bshuf_shuffle_bit_eightelem_scal_eq; fold n; try assumption.
  - rewrite int64_of_size_small by exact Hn. f_equal. f_equal.
    apply tabulate_ext. intros p Hp.
    apply pipeline_untrans; assumption.
  - intros i Hi. rewrite rd_tabulate by exact Hi.
    unfold g_trans_byte_bitrow. apply Hok. fold n. rewrite En.
    assert (Hd : 0 < 8 * elem_size) by lia.
    pose proof (Nat.mod_upper_bound i (8 * elem_size) ltac:(lia)).
    assert (i / (8 * elem_size) < size / 8)
      by (apply Nat.Div0.div_lt_upper_bound; lia).
    pose proof (mul_add_lt (i mod (8 * elem_size)) (i / (8 * elem_size))
                  (size / 8) (8 * elem_size) ltac:(lia) ltac:(lia)). lia.
Qed.

(** The inverse undoes the transpose, byte by byte. *)
Lemma bitunshuffle_bitshuffle x size elem_size rest p :
  size mod 8 = 0 -> 1 <= elem_size ->
  byte_ok (rd x p) -> p < size * elem_size ->
  g_bitunshuffle
    (tabulate (g_bitshuffle x size elem_size) (size * elem_size) ++ rest)
    size elem_size p
  = rd x p.
Proof.
  intros Hs He Hok Hp.
  pose proof (size_eq size Hs) as Es. pose proof (n_eq size elem_size Hs) as En.
  set (S8 := size / 8) in *. set (n := size * elem_size) in *.
  unfold g_bitunshuffle. fold S8.
  set (d := 8 * elem_size).
  set (blk := p / d). set (r := p mod d).
  assert (Hr : r < d) by (apply Nat.mod_upper_bound; lia).
  assert (Hb : blk < S8).
  { apply Nat.Div0.div_lt_upper_bound. unfold d. lia. }
  pose proof (Nat.div_mod_eq p d) as Ep. fold blk r in Ep.
  set (c := r mod elem_size). set (kk := r / elem_size).
  assert (Hc : c < elem_size) by (apply Nat.mod_upper_bound; lia).
  assert (Hk : kk < 8) by (apply Nat.Div0.div_lt_upper_bound; lia).
  pose proof (Nat.div_mod_eq r elem_size) as Er. fold c kk in Er.
  rewrite <- (gather8_of_byte (rd x p)) by exact Hok.
  apply gather8_ext. intros j Hj.
  assert (Hq : (8 * c + j) * S8 + blk < n).
  { rewrite En. pose proof (mul_add_lt (8 * c + j) blk S8 (8 * elem_size)
                              ltac:(lia) ltac:(lia)). lia. }
  rewrite rd_tabulate by exact Hq.
  unfold g_bitshuffle. fold S8.
  destruct (div_mod_unique_nat (8 * c + j) blk S8) as [E1 E2]; [exact Hb|].
  rewrite E1, E2.
  unfold gather8. rewrite (gather8_testbit _ (Z.of_nat kk)) by lia.
  destruct (Z.ltb_spec (Z.of_nat kk) 8) as [_|]; [|lia].
  rewrite Nat2Z.id.
  replace (8 * c + j) with (c * 8 + j) by lia.
  destruct (div_mod_unique_nat c j 8) as [E3 E4]; [exact Hj|].
  rewrite E3, E4. f_equal. f_equal. nia.
Qed.

(** * Vector stores and the SSE2 byte transposes *)

Lemma writes_store_vec g i v :
  (forall t, t < length v -> nth t v 0%Z = g (i + t)) ->
  writes g (fun p => i <= p < i + length v) (fun o => store_vec o i v).
Proof.
  intros H. unfold store_vec.
  eapply writes_equiv; [|loops].
  - intros p. cbv beta. split.
    + intros (t & Ht & ->). apply in_range_unit in Ht. lia.
    + intros Hp. exists (p - i). split; [apply in_range_unit; lia|lia].
  - cbv beta. match goal with Hr : in_range _ _ _ _ _ |- _ =>
      apply in_range_unit in Hr end. apply H. lia.
Qed.

(** A vector given lane by lane. *)
Lemma nth_map_seq (f : nat -> Z) n t :
  t < n -> nth t (map f (seq 0 n)) 0%Z = f t.
Proof.
  intros H. rewrite (nth_indep _ 0%Z (f 0)) by (rewrite length_map, length_seq; exact H).
  rewrite map_nth, seq_nth by exact H. reflexivity.
Qed.

Ltac vec_eval :=
  cbv [_mm_loadu_si128 _mm_unpacklo_epi8 _mm_unpackhi_epi8
       _mm_unpacklo_epi16 _mm_unpackhi_epi16 _mm_unpacklo_epi32
       _mm_unpackhi_epi32 _mm_unpacklo_epi64 _mm_unpackhi_epi64
       _mm256_loadu_si256 _mm256_unpacklo_epi8 _mm256_unpackhi_epi8
       _mm256_unpacklo_epi16 _mm256_unpackhi_epi16 _mm256_unpacklo_epi32
       _mm256_unpackhi_epi32 _mm256_unpacklo_epi64 _mm256_unpackhi_epi64
       per_lane load_vec];
  cbn [map seq interleave firstn skipn app].

Lemma SSE_16_vectors inb ii :
  let a0 := _mm_loadu_si128 inb (2 * ii + 0 * 16) in
  let b0 := _mm_loadu_si128 inb (2 * ii + 1 * 16) in
  let a1 := _mm_unpacklo_epi8 a0 b0 in
  let b1 := _mm_unpackhi_epi8 a0 b0 in
  let a0 := _mm_unpacklo_epi8 a1 b1 in
  let b0 := _mm_unpackhi_epi8 a1 b1 in
  let a1 := _mm_unpacklo_epi8 a0 b0 in
  let b1 := _mm_unpackhi_epi8 a0 b0 in
  let a0 := _mm_unpacklo_epi8 a1 b1 in
  let b0 := _mm_unpackhi_epi8 a1 b1 in
  a0 = map (fun t => rd inb ((ii + t) * 2 + 0)) (seq 0 16) /\
  b0 = map (fun t => rd inb ((ii + t) * 2 + 1)) (seq 0 16).
Proof.
  cbv zeta. vec_eval. split; repeat (f_equal; try lia).
Qed.

Lemma writes_store_lanes g i f m :
  (forall t, t < m -> f t = g (i + t)) ->
  writes g (fun p => i <= p < i + m)
         (fun o => store_vec o i (map f (seq 0 m))).
Proof.
  intros H.
  pose proof (writes_store_vec g i (map f (seq 0 m))) as W.
  rewrite length_map, length_seq in W. apply W.
  intros t Ht. rewrite nth_map_seq by exact Ht. apply H. exact Ht.
Qed.

(** Rows of sixteen columns, [w] of them a pass: the positions the
    vector loop of a byte transpose stores to. *)
Lemma vec_rows_cover size w p :
  (exists ii, in_range 0 15 size 16 ii /\
     exists k, k < w /\ k * size + ii <= p < k * size + ii + 16) <->
  (p < size * w /\ p mod size < size - size mod 16).
Proof.
  split.
  - intros (ii & Hii & k & Hk & Hp). apply in_range_mult in Hii; [|lia].
    destruct Hii as (_ & Hi16 & Hii). rewrite Nat.sub_0_r in Hi16.
    replace p with (k * size + (p - k * size)) by lia.
    destruct (div_mod_unique_nat k (p - k * size) size) as [_ E]; [lia|].
    rewrite E. split; [apply mul_add_lt; lia|].
    pose proof (Nat.div_mod_eq size 16). pose proof (Nat.div_mod_eq ii 16).
    pose proof (Nat.mod_upper_bound size 16). lia.
  - intros [Hp Hc].
    assert (Hz : 0 < size) by lia.
    set (c := p mod size) in *.
    pose proof (Nat.div_mod_eq p size) as Ep. fold c in Ep.
    exists (16 * (c / 16)). split.
    + apply in_range_mult; [lia|]. split; [lia|]. split.
      * rewrite Nat.sub_0_r, Nat.mul_comm. apply Nat.Div0.mod_mul.
      * pose proof (Nat.div_mod_eq size 16). pose proof (Nat.div_mod_eq c 16).
        pose proof (Nat.mod_upper_bound size 16).
        pose proof (Nat.mod_upper_bound c 16). lia.
    + exists (p / size). split.
      * apply Nat.Div0.div_lt_upper_bound. lia.
      * pose proof (Nat.div_mod_eq c 16). pose proof (Nat.mod_upper_bound c 16).
        lia.
Qed.

Lemma g_trans_byte_elem_lane inb size w ii k t :
  ii + 15 < size -> t < 16 ->
  rd inb ((ii + t) * w + k) = g_trans_byte_elem inb size w (k * size + ii + t).
Proof.
  intros Hii Ht. unfold g_trans_byte_elem.
  rewrite <- Nat.add_assoc.
  destruct (div_mod_unique_nat k (ii + t) size) as [E1 E2]; [lia|].
  rewrite E1, E2. reflexivity.
Qed.

Lemma sixteen_mod8 size : (size - size mod 16) mod 8 = 0.
Proof.
  pose proof (Nat.div_mod_eq size 16).
  replace (size - size mod 16) with (2 * (size / 16) * 8) by lia.
  apply Nat.Div0.mod_mul.
Qed.

(** The vector loop followed by the scalar remainder stores every
    position. *)
Lemma vector_then_remainder inb size w (loop : list Z -> list Z) :
  writes (g_trans_byte_elem inb size w)
         (fun p => p < size * w /\ p mod size < size - size mod 16) loop ->
  writes (g_trans_byte_elem inb size w) (fun p => p < size * w)
         (fun o => snd (bshuf_trans_byte_elem_remainder inb (loop o) size w
                          (size - size mod 16))).
Proof.
  intros W.
  pose proof (bshuf_trans_byte_elem_remainder_writes inb size w
                (size - size mod 16) (sixteen_mod8 size)) as R.
  pose proof (writes_seq _ _ _ _ _ W R) as WR. cbv beta in WR.
  eapply writes_equiv; [|exact WR].
  intros p. cbv beta. lia.
Qed.

Lemma bshuf_trans_byte_elem_SSE_16_writes inb size :
  writes (g_trans_byte_elem inb size 2) (fun p => p < size * 2)
         (fun o => snd (bshuf_trans_byte_elem_SSE_16 inb o size)).
Proof.
  unfold bshuf_trans_byte_elem_SSE_16. apply vector_then_remainder.
  eapply writes_equiv; [apply vec_rows_cover|].
  eapply for_loop_writes; [lia|]. intros ii Hii.
  apply in_range_mult in Hii; [|lia]. destruct Hii as (_ & _ & Hii).
  cbv zeta. destruct (SSE_16_vectors inb ii) as [-> ->].
  unfold _mm_storeu_si128.
  eapply writes_equiv;
    [|eapply writes_seq; apply writes_store_lanes; intros t Ht;
      apply g_trans_byte_elem_lane; assumption].
  intros p. cbv beta. split.
  - intros [H|H]; [exists 0|exists 1]; (split; [lia|exact H]).
  - intros (k & Hk & H).
    assert (D : k = 0 \/ k = 1) by lia.
    destruct D as [-> | ->]; [left|right]; exact H.
Qed.

Lemma SSE_32_vectors inb ii :
  let a0 := _mm_loadu_si128 inb (4 * ii + 0 * 16) in
  let b0 := _mm_loadu_si128 inb (4 * ii + 1 * 16) in
  let c0 := _mm_loadu_si128 inb (4 * ii + 2 * 16) in
  let d0 := _mm_loadu_si128 inb (4 * ii + 3 * 16) in
  let a1 := _mm_unpacklo_epi8 a0 b0 in
  let b1 := _mm_unpackhi_epi8 a0 b0 in
  let c1 := _mm_unpacklo_epi8 c0 d0 in
  let d1 := _mm_unpackhi_epi8 c0 d0 in
  let a0 := _mm_unpacklo_epi8 a1 b1 in
  let b0 := _mm_unpackhi_epi8 a1 b1 in
  let c0 := _mm_unpacklo_epi8 c1 d1 in
  let d0 := _mm_unpackhi_epi8 c1 d1 in
  let a1 := _mm_unpacklo_epi8 a0 b0 in
  let b1 := _mm_unpackhi_epi8 a0 b0 in
  let c1 := _mm_unpacklo_epi8 c0 d0 in
  let d1 := _mm_unpackhi_epi8 c0 d0 in
  let a0 := _mm_unpacklo_epi64 a1 c1 in
  let b0 := _mm_unpackhi_epi64 a1 c1 in
  let c0 := _mm_unpacklo_epi64 b1 d1 in
  let d0 := _mm_unpackhi_epi64 b1 d1 in
  a0 = map (fun t => rd inb ((ii + t) * 4 + 0)) (seq 0 16) /\
  b0 = map (fun t => rd inb ((ii + t) * 4 + 1)) (seq 0 16) /\
  c0 = map (fun t => rd inb ((ii + t) * 4 + 2)) (seq 0 16) /\
  d0 = map (fun t => rd inb ((ii + t) * 4 + 3)) (seq 0 16).
Proof.
  cbv zeta. vec_eval. repeat split; repeat (f_equal; try lia).
Qed.

Lemma SSE_64_vectors inb ii :
  let a0 := _mm_loadu_si128 inb (8 * ii + 0 * 16) in
  let b0 := _mm_loadu_si128 inb (8 * ii + 1 * 16) in
  let c0 := _mm_loadu_si128 inb (8 * ii + 2 * 16) in
  let d0 := _mm_loadu_si128 inb (8 * ii + 3 * 16) in
  let e0 := _mm_loadu_si128 inb (8 * ii + 4 * 16) in
  let f0 := _mm_loadu_si128 inb (8 * ii + 5 * 16) in
  let g0 := _mm_loadu_si128 inb (8 * ii + 6 * 16) in
  let h0 := _mm_loadu_si128 inb (8 * ii + 7 * 16) in
  let a1 := _mm_unpacklo_epi8 a0 b0 in
  let b1 := _mm_unpackhi_epi8 a0 b0 in
  let c1 := _mm_unpacklo_epi8 c0 d0 in
  let d1 := _mm_unpackhi_epi8 c0 d0 in
  let e1 := _mm_unpacklo_epi8 e0 f0 in
  let f1 := _mm_unpackhi_epi8 e0 f0 in
  let g1 := _mm_unpacklo_epi8 g0 h0 in
  let h1 := _mm_unpackhi_epi8 g0 h0 in
  let a0 := _mm_unpacklo_epi8 a1 b1 in
  let b0 := _mm_unpackhi_epi8 a1 b1 in
  let c0 := _mm_unpacklo_epi8 c1 d1 in
  let d0 := _mm_unpackhi_epi8 c1 d1 in
  let e0 := _mm_unpacklo_epi8 e1 f1 in
  let f0 := _mm_unpackhi_epi8 e1 f1 in
  let g0 := _mm_unpacklo_epi8 g1 h1 in
  let h0 := _mm_unpackhi_epi8 g1 h1 in
  let a1 := _mm_unpacklo_epi32 a0 c0 in
  let b1 := _mm_unpackhi_epi32 a0 c0 in
  let c1 := _mm_unpacklo_epi32 b0 d0 in
  let d1 := _mm_unpackhi_epi32 b0 d0 in
  let e1 := _mm_unpacklo_epi32 e0 g0 in
  let f1 := _mm_unpackhi_epi32 e0 g0 in
  let g1 := _mm_unpacklo_epi32 f0 h0 in
  let h1 := _mm_unpackhi_epi32 f0 h0 in
  let a0 := _mm_unpacklo_epi64 a1 e1 in
  let b0 := _mm_unpackhi_epi64 a1 e1 in
  let c0 := _mm_unpacklo_epi64 b1 f1 in
  let d0 := _mm_unpackhi_epi64 b1 f1 in
  let e0 := _mm_unpacklo_epi64 c1 g1 in
  let f0 := _mm_unpackhi_epi64 c1 g1 in
  let g0 := _mm_unpacklo_epi64 d1 h1 in
  let h0 := _mm_unpackhi_epi64 d1 h1 in
  a0 = map (fun t => rd inb ((ii + t) * 8 + 0)) (seq 0 16) /\
  b0 = map (fun t => rd inb ((ii + t) * 8 + 1)) (seq 0 16) /\
  c0 = map (fun t => rd inb ((ii + t) * 8 + 2)) (seq 0 16) /\
  d0 = map (fun t => rd inb ((ii + t) * 8 + 3)) (seq 0 16) /\
  e0 = map (fun t => rd inb ((ii + t) * 8 + 4)) (seq 0 16) /\
  f0 = map (fun t => rd inb ((ii + t) * 8 + 5)) (seq 0 16) /\
  g0 = map (fun t => rd inb ((ii + t) * 8 + 6)) (seq 0 16) /\
  h0 = map (fun t => rd inb ((ii + t) * 8 + 7)) (seq 0 16).
Proof.
  cbv zeta. vec_eval. repeat split; repeat (f_equal; try lia).
Qed.

Ltac stores tac :=
  lazymatch goal with
  | |- writes ?g _ (fun o => store_vec o ?i ?v) => tac
  | |- writes ?g _ (fun o => store_vec (@?f o) ?i ?v) =>
      eapply (writes_seq g _ _ f (fun o => store_vec o i v));
      [stores tac | tac]
  end.

Ltac rows_equiv :=
  let p := fresh "p" in let H := fresh "H" in
  let k := fresh "k" in let Hk := fresh "Hk" in
  intros p; cbv beta; split;
  [ intros H; repeat (destruct H as [H|H]);
    eexists; (split; [|exact H]); lia
  | intros (k & Hk & H);
    do 8 (try (destruct k as [|k]; [first [tauto|lia]|])); lia ].

Lemma bshuf_trans_byte_elem_SSE_32_writes inb size :
  writes (g_trans_byte_elem inb size 4) (fun p => p < size * 4)
         (fun o => snd (bshuf_trans_byte_elem_SSE_32 inb o size)).
Proof.
  unfold bshuf_trans_byte_elem_SSE_32. apply vector_then_remainder.
  eapply writes_equiv; [apply vec_rows_cover|].
  eapply for_loop_writes; [lia|]. intros ii Hii.
  apply in_range_mult in Hii; [|lia]. destruct Hii as (_ & _ & Hii).
  cbv zeta. destruct (SSE_32_vectors inb ii) as (-> & -> & -> & ->).
  unfold _mm_storeu_si128.
  eapply writes_equiv;
    [|stores ltac:(apply writes_store_lanes; intros t Ht;
                   apply g_trans_byte_elem_lane; assumption)].
  rows_equiv.
Qed.

Lemma bshuf_trans_byte_elem_SSE_64_writes inb size :
  writes (g_trans_byte_elem inb size 8) (fun p => p < size * 8)
         (fun o => snd (bshuf_trans_byte_elem_SSE_64 inb o size)).
Proof.
  unfold bshuf_trans_byte_elem_SSE_64. apply vector_then_remainder.
  eapply writes_equiv; [apply vec_rows_cover|].
  eapply for_loop_writes; [lia|]. intros ii Hii.
  apply in_range_mult in Hii; [|lia]. destruct Hii as (_ & _ & Hii).
  cbv zeta.
  destruct (SSE_64_vectors inb ii) as (-> & -> & -> & -> & -> & -> & -> & ->).
  unfold _mm_storeu_si128.
  eapply writes_equiv;
    [|stores ltac:(apply writes_store_lanes; intros t Ht;
                   apply g_trans_byte_elem_lane; assumption)].
  rows_equiv.
Qed.

(** * [bshuf_trans_byte_elem_SSE] against the scalar byte transpose *)

Lemma g_trans_elem_cell inb lda ldb w ii jj t :
  ii < lda -> t < w ->
  rd inb ((ii * ldb + jj) * w + t) =
  g_trans_elem inb lda ldb w ((jj * lda + ii) * w + t).
Proof.
  intros Hi Ht. unfold g_trans_elem.
  destruct (div_mod_unique_nat (jj * lda + ii) t w) as [E1 E2]; [exact Ht|].
  rewrite E1, E2.
  destruct (div_mod_unique_nat jj ii lda) as [E3 E4]; [exact Hi|].
  rewrite E3, E4. reflexivity.
Qed.

Lemma TRANS_ELEM_TYPE_writes inb lda ldb w :
  writes (g_trans_elem inb lda ldb w) (fun p => p < lda * ldb * w)
         (TRANS_ELEM_TYPE inb lda ldb w).
Proof.
  unfold TRANS_ELEM_TYPE.
  eapply writes_equiv;
    [|eapply writes_seq;
      [ eapply for_loop_writes; [lia|intros ii Hii];
        eapply for_loop_writes; [lia|intros jj Hjj];
        eapply for_loop_writes; [lia|intros kk Hkk];
        eapply writes_memcpy_at
      | eapply for_loop_writes; [lia|intros ii Hii];
        eapply for_loop_writes; [lia|intros jj Hjj];
        eapply writes_memcpy_at ]].
  - intros p. cbv beta. split.
    + intros [(ii & Hii & jj & Hjj & kk & Hkk & Hp)|(ii & Hii & jj & Hjj & Hp)].
      * apply in_range_mult in Hii; [|lia]. apply in_range_unit in Hjj, Hkk.
        pose proof (mul_add_lt jj (ii + kk) lda ldb ltac:(lia) ltac:(lia)).
        assert ((jj * lda + ii + kk + 1) * w <= lda * ldb * w)
          by (apply Nat.mul_le_mono_r; lia).
        lia.
      * apply in_range_unit in Hii, Hjj.
        pose proof (mul_add_lt jj ii lda ldb ltac:(lia) ltac:(lia)).
        assert ((jj * lda + ii + 1) * w <= lda * ldb * w)
          by (apply Nat.mul_le_mono_r; lia).
        lia.
    + intros Hp.
      assert (Hw : 0 < w) by (destruct w; lia).
      assert (Hl : 0 < lda) by (destruct lda; lia).
      set (e := p / w).
      assert (He : e < lda * ldb) by (apply Nat.Div0.div_lt_upper_bound; lia).
      pose proof (Nat.div_mod_eq p w) as Ep. fold e in Ep.
      pose proof (Nat.mod_upper_bound p w ltac:(lia)) as Hm.
      set (c := e mod lda). set (jj := e / lda).
      pose proof (Nat.div_mod_eq e lda) as Ee. fold c jj in Ee.
      assert (Hc : c < lda) by (apply Nat.mod_upper_bound; lia).
      assert (Hj : jj < ldb) by (apply Nat.Div0.div_lt_upper_bound; lia).
      destruct (Nat.lt_ge_cases c (lda - lda mod 8)) as [Hlo|Hhi].
      * left. exists (8 * (c / 8)). split.
        { apply in_range_mult; [lia|]. split; [lia|]. split.
          - rewrite Nat.sub_0_r, Nat.mul_comm. apply Nat.Div0.mod_mul.
          - pose proof (Nat.div_mod_eq c 8). pose proof (Nat.div_mod_eq lda 8).
            pose proof (Nat.mod_upper_bound c 8).
            pose proof (Nat.mod_upper_bound lda 8). lia. }
        exists jj. split; [apply in_range_unit; lia|].
        exists (c mod 8). split.
        { apply in_range_unit. pose proof (Nat.mod_upper_bound c 8). lia. }
        pose proof (Nat.div_mod_eq c 8).
        replace (jj * lda + 8 * (c / 8) + c mod 8) with e by lia. lia.
      * right. exists c. split; [apply in_range_unit; lia|].
        exists jj. split; [apply in_range_unit; lia|].
        replace (jj * lda + c) with e by lia. lia.
  - intros t Ht. cbv beta.
    apply in_range_mult in Hii; [|lia]. apply in_range_unit in Hjj, Hkk.
    replace (ii * ldb + kk * ldb + jj) with ((ii + kk) * ldb + jj) by lia.
    rewrite <- (Nat.add_assoc (jj * lda)).
    apply g_trans_elem_cell; lia.
  - intros t Ht. cbv beta. apply in_range_unit in Hii, Hjj.
    apply g_trans_elem_cell; lia.
Qed.

Lemma bshuf_copy_writes inb size :
  writes (g_trans_byte_elem inb size 1) (fun p => p < size * 1)
         (fun o => snd (bshuf_copy inb o size 1)).
Proof.
  unfold bshuf_copy, memcpy. cbn [snd].
  eapply writes_equiv; [|apply writes_memcpy_at].
  - intros p. cbv beta. lia.
  - intros t Ht. cbv beta. unfold g_trans_byte_elem.
    rewrite Nat.mod_small, Nat.div_small by lia. f_equal. lia.
Qed.

(** Whole-buffer forms of the SSE byte transposes. *)
Lemma fst_SSE_16 inb outb size :
  fst (bshuf_trans_byte_elem_SSE_16 inb outb size) = int64_of_size (size * 2).
Proof. apply fst_trans_byte_elem_remainder, sixteen_mod8. Qed.

Lemma fst_SSE_32 inb outb size :
  fst (bshuf_trans_byte_elem_SSE_32 inb outb size) = int64_of_size (size * 4).
Proof. apply fst_trans_byte_elem_remainder, sixteen_mod8. Qed.

Lemma fst_SSE_64 inb outb size :
  fst (bshuf_trans_byte_elem_SSE_64 inb outb size) = int64_of_size (size * 8).
Proof. apply fst_trans_byte_elem_remainder, sixteen_mod8. Qed.

Lemma scal_as_writes inb outb size elem_size :
  bshuf_trans_byte_elem_scal inb outb size elem_size =
  (int64_of_size (size * elem_size),
   snd (bshuf_trans_byte_elem_scal inb outb size elem_size)).
Proof.
  rewrite (surjective_pairing (bshuf_trans_byte_elem_scal _ _ _ _)) at 1.
  unfold bshuf_trans_byte_elem_scal at 1.
  rewrite fst_trans_byte_elem_remainder by reflexivity. reflexivity.
Qed.

Lemma bshuf_trans_byte_elem_scal_writes inb size elem_size :
  writes (g_trans_byte_elem inb size elem_size)
         (fun p => p < size * elem_size)
         (fun o => snd (bshuf_trans_byte_elem_scal inb o size elem_size)).
Proof.
  unfold bshuf_trans_byte_elem_scal.
  eapply writes_equiv;
    [|apply bshuf_trans_byte_elem_remainder_writes; reflexivity].
  intros p. cbv beta. lia.
Qed.

Lemma bshuf_trans_byte_elem_SSE_other inb outb size elem_size :
  elem_size <> 1 -> elem_size <> 2 -> elem_size <> 4 -> elem_size <> 8 ->
  bshuf_trans_byte_elem_SSE inb outb size elem_size =
  SSE_other inb outb size elem_size.
Proof.
  intros H1 H2 H4 H8. unfold bshuf_trans_byte_elem_SSE.
  do 9 (try (destruct elem_size as [|elem_size]; [first [lia|reflexivity]|])).
  reflexivity.
Qed.

(** The hierarchical transpose: cells of [w] bytes are transposed, the
    bytes of the cells are transposed by the SSE routine [sse], and the
    rows are put back in order. *)
Lemma hierarchical_eq inb outb size nchunk w
    (sse : list Z -> list Z -> nat -> Z * list Z) :
  1 <= w ->
  (forall i o sz, fst (sse i o sz) = int64_of_size (sz * w)) ->
  (forall i sz, writes (g_trans_byte_elem i sz w) (fun p => p < sz * w)
                  (fun o => snd (sse i o sz))) ->
  size * (nchunk * w) <= length outb ->
  (let outb1 := TRANS_ELEM_TYPE inb size nchunk w outb in
   let '(count, tmp_buf) :=
     sse outb1 (malloc (size * (nchunk * w))) (size * nchunk) in
   let '(_, outb2) := bshuf_trans_elem tmp_buf outb1 w nchunk size in
   (count, outb2))
  = bshuf_trans_byte_elem_scal inb outb size (nchunk * w).
Proof.
  intros Hw Hfst Hsse Hl. cbv zeta.
  set (n := size * (nchunk * w)) in *.
  rewrite (writes_full _ _ _ outb (TRANS_ELEM_TYPE_writes inb size nchunk w))
    by lia.
  replace (size * nchunk * w) with n by lia.
  set (o1 := tabulate (g_trans_elem inb size nchunk w) n ++ drop n outb).
  rewrite (surjective_pairing (sse o1 (malloc n) (size * nchunk))).
  rewrite Hfst.
  rewrite (writes_full _ (size * nchunk * w) _ (malloc n) (Hsse o1 (size * nchunk)))
    by (rewrite length_malloc; lia).
  replace (size * nchunk * w) with n by lia.
  rewrite drop_all_malloc, app_nil_r.
  assert (Lo1 : length o1 = length outb).
  { unfold o1. rewrite length_app, length_tabulate, length_drop. lia. }
  rewrite bshuf_trans_elem_eq by lia.
  replace (w * nchunk * size) with n by lia.
  rewrite bshuf_trans_byte_elem_scal_eq by exact Hl. fold n.
  f_equal.
  unfold o1 at 2. rewrite drop_app_length' by (symmetry; apply length_tabulate).
  f_equal.
  - apply tabulate_ext. intros p Hp.
    unfold g_trans_elem at 1.
    assert (Hz : 0 < size) by (destruct size; lia).
    set (e := p / size). set (t := p mod size).
    assert (Ht : t < size) by (apply Nat.mod_upper_bound; lia).
    assert (He : e < nchunk * w) by (apply Nat.Div0.div_lt_upper_bound; lia).
    set (b := e mod w). set (c := e / w).
    assert (Hb : b < w) by (apply Nat.mod_upper_bound; lia).
    assert (Hc : c < nchunk) by (apply Nat.Div0.div_lt_upper_bound; lia).
    pose proof (Nat.div_mod_eq e w) as Ee. fold b c in Ee.
    assert (Hcol : c * size + t < size * nchunk)
      by (pose proof (mul_add_lt c t size nchunk ltac:(lia) ltac:(lia)); lia).
    assert (Hq : (b * nchunk + c) * size + t < n).
    { pose proof (mul_add_lt b (c * size + t) (size * nchunk) w
                    ltac:(lia) ltac:(lia)). unfold n. lia. }
    rewrite <- (app_nil_r (tabulate _ n)).
    rewrite rd_tabulate by exact Hq.
    unfold g_trans_byte_elem at 1.
    replace ((b * nchunk + c) * size + t)
      with (b * (size * nchunk) + (c * size + t)) by lia.
    destruct (div_mod_unique_nat b (c * size + t) (size * nchunk))
      as [E1 E2]; [exact Hcol|].
    rewrite E1, E2.
    assert (Hp1 : (c * size + t) * w + b < n).
    { pose proof (mul_add_lt (c * size + t) b w (size * nchunk)
                    ltac:(lia) ltac:(lia)). unfold n. lia. }
    unfold o1. rewrite rd_tabulate by exact Hp1.
    unfold g_trans_elem.
    destruct (div_mod_unique_nat (c * size + t) b w) as [E3 E4]; [exact Hb|].
    rewrite E3, E4.
    destruct (div_mod_unique_nat c t size) as [E5 E6]; [exact Ht|].
    rewrite E5, E6.
    unfold g_trans_byte_elem. fold e t. f_equal. lia.
Qed.

Lemma bshuf_trans_byte_elem_SSE_eq inb outb size elem_size :
  1 <= elem_size -> size * elem_size <= length outb ->
  bshuf_trans_byte_elem_SSE inb outb size elem_size =
  bshuf_trans_byte_elem_scal inb outb size elem_size.
Proof.
  intros He Hl.
  assert (D : elem_size = 1 \/ elem_size = 2 \/ elem_size = 4 \/ elem_size = 8
              \/ (elem_size <> 1 /\ elem_size <> 2 /\ elem_size <> 4
                  /\ elem_size <> 8)) by lia.
  destruct D as [->|[->|[->|[->|(H1 & H2 & H4 & H8)]]]].
  - cbn [bshuf_trans_byte_elem_SSE]. rewrite scal_as_writes.
    unfold bshuf_copy at 1. f_equal.
    apply (writes_unique _ _ _ _ outb (bshuf_copy_writes inb size)
             (bshuf_trans_byte_elem_scal_writes inb size 1)).
  - cbn [bshuf_trans_byte_elem_SSE]. rewrite scal_as_writes.
    rewrite (surjective_pairing (bshuf_trans_byte_elem_SSE_16 _ _ _)).
    rewrite fst_SSE_16. f_equal.
    apply (writes_unique _ _ _ _ outb (bshuf_trans_byte_elem_SSE_16_writes inb size)
             (bshuf_trans_byte_elem_scal_writes inb size 2)).
  - cbn [bshuf_trans_byte_elem_SSE]. rewrite scal_as_writes.
    rewrite (surjective_pairing (bshuf_trans_byte_elem_SSE_32 _ _ _)).
    rewrite fst_SSE_32. f_equal.
    apply (writes_unique _ _ _ _ outb (bshuf_trans_byte_elem_SSE_32_writes inb size)
             (bshuf_trans_byte_elem_scal_writes inb size 4)).
  - cbn [bshuf_trans_byte_elem_SSE]. rewrite scal_as_writes.
    rewrite (surjective_pairing (bshuf_trans_byte_elem_SSE_64 _ _ _)).
    rewrite fst_SSE_64. f_equal.
    apply (writes_unique _ _ _ _ outb (bshuf_trans_byte_elem_SSE_64_writes inb size)
             (bshuf_trans_byte_elem_scal_writes inb size 8)).
  - rewrite bshuf_trans_byte_elem_SSE_other by assumption. unfold SSE_other.
    destruct (Nat.eqb_spec (elem_size mod 4) 0) as [E4|N4]; cbn [negb];
      [|reflexivity].
    destruct (Nat.eqb_spec (elem_size mod 8) 0) as [E8|N8].
    + pose proof (Nat.div_mod_eq elem_size 8) as E.
      remember (elem_size / 8) as c eqn:Hc.
      assert (Ees : elem_size = c * 8) by lia.
      clear Hc E. subst elem_size.
      apply (hierarchical_eq inb outb size c 8
               bshuf_trans_byte_elem_SSE_64); try lia.
      * intros. apply fst_SSE_64.
      * intros. apply bshuf_trans_byte_elem_SSE_64_writes.
    + pose proof (Nat.div_mod_eq elem_size 4) as E.
      remember (elem_size / 4) as c eqn:Hc.
      assert (Ees : elem_size = c * 4) by lia.
      clear Hc E. subst elem_size.
      apply (hierarchical_eq inb outb size c 4
               bshuf_trans_byte_elem_SSE_32); try lia.
      * intros. apply fst_SSE_32.
      * intros. apply bshuf_trans_byte_elem_SSE_32_writes.
Qed.

(** * The bit-level SSE2 and AVX2 primitives *)

Lemma writes_store_uint16 g i bt :
  to_uint8 bt = g i -> to_uint8 (Z.shiftr bt 8) = g (i + 1) ->
  writes g (fun p => exists q, q < 2 /\ p = i + q)
         (fun o => store_uint16 o i bt).
Proof.
  intros H0 H1. unfold store_uint16.
  eapply writes_equiv;
    [|eapply (writes_seq g _ _ (fun o => <[i := to_uint8 bt]> o)
                (fun o => <[i + 1 := to_uint8 (Z.shiftr bt 8)]> o));
      apply writes_insert; assumption].
  intros p. cbv beta. split.
  - intros [->| ->]; [exists 0|exists 1]; lia.
  - intros (q & Hq & ->). assert (D : q = 0 \/ q = 1) by lia.
    destruct D as [-> | ->]; [left|right]; lia.
Qed.

Lemma writes_store_int32 g i bt :
  to_uint8 bt = g i -> to_uint8 (Z.shiftr bt 8) = g (i + 1) ->
  to_uint8 (Z.shiftr bt 16) = g (i + 2) ->
  to_uint8 (Z.shiftr bt 24) = g (i + 3) ->
  writes g (fun p => exists q, q < 4 /\ p = i + q)
         (fun o => store_int32 o i bt).
Proof.
  intros H0 H1 H2 H3. unfold store_int32.
  eapply writes_equiv;
    [|eapply (writes_seq g _ _ _
                (fun o => <[i + 3 := to_uint8 (Z.shiftr bt 24)]> o));
      [eapply (writes_seq g _ _ _
                 (fun o => <[i + 2 := to_uint8 (Z.shiftr bt 16)]> o));
       [eapply (writes_seq g _ _ (fun o => <[i := to_uint8 bt]> o)
                  (fun o => <[i + 1 := to_uint8 (Z.shiftr bt 8)]> o))|]|];
      apply writes_insert; assumption].
  intros p. cbv beta. split.
  - intros [[[->| ->]| ->]| ->]; [exists 0|exists 1|exists 2|exists 3]; lia.
  - intros (q & Hq & ->).
    assert (D : q = 0 \/ q = 1 \/ q = 2 \/ q = 3) by lia.
    destruct D as [->|[->|[->| ->]]]; [left; left; left|left; left; right
                                       |left; right|right]; lia.
Qed.

(** The eight mask stores of one 16-byte load. *)
Lemma writes_store_masks_SSE g mem base idx :
  (forall t, t < 16 -> byte_ok (rd mem (base + t))) ->
  (forall kk q, kk < 8 -> q < 2 ->
     gather8 (fun j => Z.testbit (rd mem (base + 8 * q + j))
                                 (Z.of_nat (7 - kk))) = g (idx kk + q)) ->
  writes g (fun p => exists kk, kk < 8 /\ exists q, q < 2 /\ p = idx kk + q)
         (store_masks_SSE (_mm_loadu_si128 mem base) idx).
Proof.
  intros Hok Hg.
  eapply writes_ext; [intros o; symmetry; apply store_masks_SSE_eq|].
  eapply writes_equiv;
    [|eapply for_loop_writes; [lia|intros kk Hkk];
      apply in_range_unit in Hkk; apply writes_store_uint16].
  - intros p. cbv beta. split.
    + intros (kk & Hkk & H). apply in_range_unit in Hkk.
      exists kk. split; [lia|exact H].
    + intros (kk & Hkk & H). exists kk. split; [apply in_range_unit; lia|exact H].
  - rewrite <- (Z.shiftr_0_r (_mm_movemask_epi8 _)).
    change 0%Z with (Z.of_nat (8 * 0)).
    rewrite (mask_byte 8 mem base kk 0); try lia.
    + rewrite <- (Nat.add_0_r (idx kk)). apply Hg; lia.
    + intros t Ht. apply Hok. lia.
    + intros m Hm. apply movemask_epi8_testbit. lia.
  - change 8%Z with (Z.of_nat (8 * 1)).
    rewrite (mask_byte 8 mem base kk 1); try lia.
    + apply Hg; lia.
    + intros t Ht. apply Hok. lia.
    + intros m Hm. apply movemask_epi8_testbit. lia.
Qed.

(** The eight mask stores of one 32-byte load. *)
Lemma writes_store_masks_AVX g mem base idx :
  (forall t, t < 32 -> byte_ok (rd mem (base + t))) ->
  (forall kk q, kk < 8 -> q < 4 ->
     gather8 (fun j => Z.testbit (rd mem (base + 8 * q + j))
                                 (Z.of_nat (7 - kk))) = g (idx kk + q)) ->
  writes g (fun p => exists kk, kk < 8 /\ exists q, q < 4 /\ p = idx kk + q)
         (store_masks_AVX (_mm256_loadu_si256 mem base) idx).
Proof.
  intros Hok Hg.
  eapply writes_ext; [intros o; symmetry; apply store_masks_AVX_eq|].
  eapply writes_equiv;
    [|eapply for_loop_writes; [lia|intros kk Hkk];
      apply in_range_unit in Hkk; apply writes_store_int32].
  - intros p. cbv beta. split.
    + intros (kk & Hkk & H). apply in_range_unit in Hkk.
      exists kk. split; [lia|exact H].
    + intros (kk & Hkk & H). exists kk. split; [apply in_range_unit; lia|exact H].
  - rewrite <- (Z.shiftr_0_r (_mm256_movemask_epi8 _)).
    change 0%Z with (Z.of_nat (8 * 0)).
    rewrite (mask_byte 16 mem base kk 0); try lia.
    + rewrite <- (Nat.add_0_r (idx kk)). apply Hg; lia.
    + intros t Ht. apply Hok. lia.
    + intros m Hm. apply movemask256_epi8_testbit. lia.
  - change 8%Z with (Z.of_nat (8 * 1)).
    rewrite (mask_byte 16 mem base kk 1); try lia.
    + apply Hg; lia.
    + intros t Ht. apply Hok. lia.
    + intros m Hm. apply movemask256_epi8_testbit. lia.
  - change 16%Z with (Z.of_nat (8 * 2)).
    rewrite (mask_byte 16 mem base kk 2); try lia.
    + apply Hg; lia.
    + intros t Ht. apply Hok. lia.
    + intros m Hm. apply movemask256_epi8_testbit. lia.
  - change 24%Z with (Z.of_nat (8 * 3)).
    rewrite (mask_byte 16 mem base kk 3); try lia.
    + apply Hg; lia.
    + intros t Ht. apply Hok. lia.
    + intros m Hm. apply movemask256_epi8_testbit. lia.
Qed.

(** ** Bit transpose within bytes *)

(** The vector loop stores the columns below [V / 8] of each bit row,
    where [V] bytes are loaded at a time. *)
Lemma trans_bit_byte_lane inb nrow ii kk q V :
  0 < nrow -> V mod 8 = 0 -> ii mod V = 0 -> ii + V <= 8 * nrow ->
  kk < 8 -> 8 * q < V ->
  gather8 (fun j => Z.testbit (rd inb (ii + 8 * q + j)) (Z.of_nat (7 - kk)))
  = g_trans_bit_byte inb nrow (((7 - kk) * (8 * nrow) + ii) / 8 + q).
Proof.
  intros Hz HV Hii Hlt Hkk Hq. unfold g_trans_bit_byte.
  pose proof (Nat.div_mod_eq V 8) as EV.
  pose proof (Nat.div_mod_eq ii V) as Ei.
  assert (E8 : ii = 8 * (V / 8 * (ii / V))) by nia.
  set (c := V / 8 * (ii / V)) in *.
  replace (((7 - kk) * (8 * nrow) + ii) / 8) with ((7 - kk) * nrow + c).
  2:{ replace ((7 - kk) * (8 * nrow) + ii) with (((7 - kk) * nrow + c) * 8) by lia.
      rewrite Nat.div_mul by lia. reflexivity. }
  rewrite <- Nat.add_assoc.
  destruct (div_mod_unique_nat (7 - kk) (c + q) nrow) as [E1 E2]; [lia|].
  rewrite E1, E2. apply gather8_ext. intros j' Hj'. f_equal. f_equal. lia.
Qed.

Lemma trans_bit_byte_cover nrow V p :
  0 < V -> V mod 8 = 0 ->
  (exists ii, in_range 0 (V - 1) (8 * nrow) V ii /\
     exists kk, kk < 8 /\ exists q, q < V / 8 /\
       p = ((7 - kk) * (8 * nrow) + ii) / 8 + q) <->
  (p < 8 * nrow /\ p mod nrow < (8 * nrow - (8 * nrow) mod V) / 8).
Proof.
  intros HV0 HV.
  pose proof (Nat.div_mod_eq V 8) as EV.
  pose proof (Nat.div_mod_eq (8 * nrow) V) as EN.
  pose proof (Nat.mod_upper_bound (8 * nrow) V ltac:(lia)) as HN.
  set (v := V / 8) in *. assert (Ev : V = 8 * v) by lia.
  set (m := (8 * nrow) / V) in *.
  assert (Est : (8 * nrow - (8 * nrow) mod V) / 8 = v * m).
  { replace (8 * nrow - (8 * nrow) mod V) with (v * m * 8) by nia.
    apply Nat.div_mul. lia. }
  rewrite Est. split.
  - intros (ii & Hii & kk & Hkk & q & Hq & ->).
    apply in_range_mult in Hii; [|lia]. destruct Hii as (_ & Hi & Hii).
    rewrite Nat.sub_0_r in Hi.
    pose proof (Nat.div_mod_eq ii V) as Ei.
    assert (E8 : ii = 8 * (v * (ii / V))) by nia.
    set (c := v * (ii / V)) in *.
    assert (Hcm : ii / V < m) by nia.
    replace (((7 - kk) * (8 * nrow) + ii) / 8) with ((7 - kk) * nrow + c).
    2:{ replace ((7 - kk) * (8 * nrow) + ii) with (((7 - kk) * nrow + c) * 8)
          by lia.
        rewrite Nat.div_mul by lia. reflexivity. }
    rewrite <- Nat.add_assoc.
    assert (Hc : c + q < nrow) by nia.
    destruct (div_mod_unique_nat (7 - kk) (c + q) nrow) as [_ E2]; [lia|].
    rewrite E2. split; [|nia].
    pose proof (mul_add_lt (7 - kk) (c + q) nrow 8 ltac:(lia) ltac:(lia)). lia.
  - intros [Hp Hc].
    assert (Hz : 0 < nrow) by lia.
    set (c := p mod nrow) in *. set (b := p / nrow).
    pose proof (Nat.div_mod_eq p nrow) as Ep. fold c b in Ep.
    assert (Hb : b < 8) by (apply Nat.Div0.div_lt_upper_bound; lia).
    assert (Hv : 0 < v) by lia.
    pose proof (Nat.div_mod_eq c v) as Ec.
    pose proof (Nat.mod_upper_bound c v ltac:(lia)) as Hcv.
    assert (Hcd : c / v < m) by (apply Nat.Div0.div_lt_upper_bound; lia).
    exists (V * (c / v)). split.
    + apply in_range_mult; [lia|]. split; [lia|]. split.
      * rewrite Nat.sub_0_r, Nat.mul_comm. apply Nat.Div0.mod_mul.
      * nia.
    + exists (7 - b). split; [lia|]. exists (c mod v). split; [lia|].
      replace (7 - (7 - b)) with b by lia.
      replace ((b * (8 * nrow) + V * (c / v)) / 8)
        with (b * nrow + v * (c / v)).
      2:{ replace (b * (8 * nrow) + V * (c / v))
            with ((b * nrow + v * (c / v)) * 8) by lia.
          rewrite Nat.div_mul by lia. reflexivity. }
      lia.
Qed.

Lemma vec_mod8 n V : V mod 8 = 0 -> n mod 8 = 0 -> (n - n mod V) mod 8 = 0.
Proof.
  intros HV Hn. destruct (Nat.eq_dec V 0) as [->|HV0].
  - cbn [Nat.modulo]. rewrite Nat.sub_diag. reflexivity.
  - pose proof (Nat.div_mod_eq V 8). pose proof (Nat.div_mod_eq n V).
    replace (n - n mod V) with (V / 8 * (n / V) * 8) by nia.
    apply Nat.Div0.mod_mul.
Qed.

Lemma bit_byte_vector_then_remainder inb size elem_size V
    (loop : list Z -> list Z) :
  (forall i, i < elem_size * size -> byte_ok (rd inb i)) ->
  (elem_size * size) mod 8 = 0 -> V mod 8 = 0 ->
  writes (g_trans_bit_byte inb (elem_size * size / 8))
         (fun p => p < elem_size * size /\
                   p mod (elem_size * size / 8)
                   < (elem_size * size - (elem_size * size) mod V) / 8) loop ->
  writes (g_trans_bit_byte inb (elem_size * size / 8))
         (fun p => p < elem_size * size)
         (fun o => snd (bshuf_trans_bit_byte_remainder inb (loop o)
                          size elem_size
                          (elem_size * size - (elem_size * size) mod V))).
Proof.
  intros Hok Hn HV W.
  pose proof (bshuf_trans_bit_byte_remainder_writes inb size elem_size
                (elem_size * size - (elem_size * size) mod V) Hok Hn
                (vec_mod8 _ V HV Hn)) as R.
  pose proof (writes_seq _ _ _ _ _ W R) as WR. cbv beta in WR.
  eapply writes_equiv; [|exact WR].
  intros p. cbv beta. lia.
Qed.

Lemma bshuf_trans_bit_byte_SSE_writes inb size elem_size :
  (forall i, i < elem_size * size -> byte_ok (rd inb i)) ->
  (elem_size * size) mod 8 = 0 ->
  writes (g_trans_bit_byte inb (elem_size * size / 8))
         (fun p => p < elem_size * size)
         (fun o => snd (bshuf_trans_bit_byte_SSE inb o size elem_size)).
Proof.
  intros Hok Hn. unfold bshuf_trans_bit_byte_SSE, CHECK_MULT_EIGHT.
  rewrite Hn. cbn [Nat.eqb negb].
  apply (bit_byte_vector_then_remainder inb size elem_size 16); try assumption;
    [reflexivity|].
  set (nrow := elem_size * size / 8).
  assert (En : elem_size * size = 8 * nrow).
  { unfold nrow. pose proof (Nat.div_mod_eq (elem_size * size) 8). lia. }
  rewrite En in *.
  eapply writes_equiv;
    [intros p; apply (trans_bit_byte_cover nrow 16); [lia|reflexivity]|].
  eapply for_loop_writes; [lia|]. intros ii Hii.
  apply in_range_mult in Hii; [|lia]. destruct Hii as (_ & Hi & Hii).
  rewrite Nat.sub_0_r in Hi.
  apply (writes_store_masks_SSE _ inb ii).
  - intros t Ht. apply Hok. lia.
  - intros kk q Hkk Hq.
    apply (trans_bit_byte_lane inb nrow ii kk q 16); try lia. reflexivity.
Qed.

Lemma bshuf_trans_bit_byte_AVX_writes inb size elem_size :
  (forall i, i < elem_size * size -> byte_ok (rd inb i)) ->
  (elem_size * size) mod 8 = 0 ->
  writes (g_trans_bit_byte inb (elem_size * size / 8))
         (fun p => p < elem_size * size)
         (fun o => snd (bshuf_trans_bit_byte_AVX inb o size elem_size)).
Proof.
  intros Hok Hn. unfold bshuf_trans_bit_byte_AVX.
  apply (bit_byte_vector_then_remainder inb size elem_size 32); try assumption;
    [reflexivity|].
  set (nrow := elem_size * size / 8).
  assert (En : elem_size * size = 8 * nrow).
  { unfold nrow. pose proof (Nat.div_mod_eq (elem_size * size) 8). lia. }
  rewrite En in *.
  eapply writes_equiv;
    [intros p; apply (trans_bit_byte_cover nrow 32); [lia|reflexivity]|].
  eapply for_loop_writes; [lia|]. intros ii Hii.
  apply in_range_mult in Hii; [|lia]. destruct Hii as (_ & Hi & Hii).
  rewrite Nat.sub_0_r in Hi.
  apply (writes_store_masks_AVX _ inb ii).
  - intros t Ht. apply Hok. lia.
  - intros kk q Hkk Hq.
    apply (trans_bit_byte_lane inb nrow ii kk q 32); try lia. reflexivity.
Qed.

Lemma bshuf_trans_bit_byte_scal_writes inb size elem_size :
  (forall i, i < elem_size * size -> byte_ok (rd inb i)) ->
  (elem_size * size) mod 8 = 0 ->
  writes (g_trans_bit_byte inb (elem_size * size / 8))
         (fun p => p < elem_size * size)
         (fun o => snd (bshuf_trans_bit_byte_scal inb o size elem_size)).
Proof.
  intros Hok Hn. unfold bshuf_trans_bit_byte_scal.
  eapply writes_equiv;
    [|apply bshuf_trans_bit_byte_remainder_writes;
      [exact Hok|exact Hn|reflexivity]].
  intros p. cbv beta. change (0 / 8) with 0. lia.
Qed.

Lemma bshuf_trans_bit_byte_SSE_eq inb outb size elem_size :
  (forall i, i < elem_size * size -> byte_ok (rd inb i)) ->
  (elem_size * size) mod 8 = 0 ->
  bshuf_trans_bit_byte_SSE inb outb size elem_size =
  bshuf_trans_bit_byte_scal inb outb size elem_size.
Proof.
  intros Hok Hn.
  rewrite (surjective_pairing (bshuf_trans_bit_byte_SSE _ _ _ _)).
  rewrite (surjective_pairing (bshuf_trans_bit_byte_scal _ _ _ _)).
  f_equal.
  - unfold bshuf_trans_bit_byte_SSE, bshuf_trans_bit_byte_scal, CHECK_MULT_EIGHT.
    rewrite Hn. cbn [Nat.eqb negb].
    rewrite !fst_trans_bit_byte_remainder;
      try assumption; try reflexivity.
    apply (vec_mod8 _ 16); [reflexivity|exact Hn].
  - apply (writes_unique _ _ _ _ outb
             (bshuf_trans_bit_byte_SSE_writes inb size elem_size Hok Hn)
             (bshuf_trans_bit_byte_scal_writes inb size elem_size Hok Hn)).
Qed.

Lemma bshuf_trans_bit_byte_AVX_eq inb outb size elem_size :
  (forall i, i < elem_size * size -> byte_ok (rd inb i)) ->
  (elem_size * size) mod 8 = 0 ->
  bshuf_trans_bit_byte_AVX inb outb size elem_size =
  bshuf_trans_bit_byte_scal inb outb size elem_size.
Proof.
  intros Hok Hn.
  rewrite (surjective_pairing (bshuf_trans_bit_byte_AVX _ _ _ _)).
  rewrite (surjective_pairing (bshuf_trans_bit_byte_scal _ _ _ _)).
  f_equal.
  - unfold bshuf_trans_bit_byte_AVX, bshuf_trans_bit_byte_scal.
    rewrite !fst_trans_bit_byte_remainder;
      try assumption; try reflexivity.
    apply (vec_mod8 _ 32); [reflexivity|exact Hn].
  - apply (writes_unique _ _ _ _ outb
             (bshuf_trans_bit_byte_AVX_writes inb size elem_size Hok Hn)
             (bshuf_trans_bit_byte_scal_writes inb size elem_size Hok Hn)).
Qed.

(** ** Bit shuffle within groups of eight elements *)

Lemma shuffle_lane inb elem_size ii jj kk q V :
  1 <= elem_size -> ii mod (8 * elem_size) = 0 ->
  V mod 8 = 0 -> jj mod V = 0 -> jj + V <= 8 * elem_size ->
  kk < 8 -> 8 * q < V ->
  gather8 (fun j => Z.testbit (rd inb (ii + jj + 8 * q + j))
                              (Z.of_nat (7 - kk)))
  = g_shuffle_bit_eightelem inb elem_size
      (ii + jj / 8 + (7 - kk) * elem_size + q).
Proof.
  intros He Hii HV Hjj Hlt Hkk Hq. unfold g_shuffle_bit_eightelem.
  set (d := 8 * elem_size) in *.
  pose proof (Nat.div_mod_eq V 8) as EV.
  pose proof (Nat.div_mod_eq jj V) as Ej.
  pose proof (Nat.div_mod_eq ii d) as Ei.
  assert (E8 : jj = 8 * (V / 8 * (jj / V))) by nia.
  set (c := V / 8 * (jj / V)) in *.
  assert (Ejj : jj / 8 = c).
  { rewrite E8, Nat.mul_comm, Nat.div_mul by lia. reflexivity. }
  rewrite Ejj.
  replace (ii + c + (7 - kk) * elem_size + q)
    with (ii / d * d + ((7 - kk) * elem_size + (c + q))) by lia.
  assert (Hcq : c + q < elem_size) by (unfold d in *; lia).
  assert (Hr : (7 - kk) * elem_size + (c + q) < d).
  { pose proof (mul_add_lt (7 - kk) (c + q) elem_size 8 ltac:(lia) ltac:(lia)).
    unfold d. lia. }
  destruct (div_mod_unique_nat (ii / d) ((7 - kk) * elem_size + (c + q)) d)
    as [E1 E2]; [exact Hr|].
  rewrite E1, E2.
  destruct (div_mod_unique_nat (7 - kk) (c + q) elem_size) as [E3 E4];
    [exact Hcq|].
  rewrite E3, E4. apply gather8_ext. intros j Hj. f_equal. f_equal. lia.
Qed.

Lemma shuffle_cover size elem_size V p :
  size mod 8 = 0 -> 1 <= elem_size ->
  0 < V -> V mod 8 = 0 -> (8 * elem_size) mod V = 0 ->
  (exists ii, in_range 0 (8 * elem_size - 1) (elem_size * size)
                (8 * elem_size) ii /\
     exists jj, in_range 0 (V - 1) (8 * elem_size) V jj /\
       exists kk, kk < 8 /\ exists q, q < V / 8 /\
         p = ii + jj / 8 + (7 - kk) * elem_size + q) <->
  p < size * elem_size.
Proof.
  intros Hs He HV0 HV Hd.
  set (d := 8 * elem_size) in *.
  pose proof (size_eq size Hs) as Es. set (S8 := size / 8) in *.
  pose proof (Nat.div_mod_eq V 8) as EV. set (v := V / 8) in *.
  pose proof (Nat.div_mod_eq d V) as Ed. set (m := d / V) in *.
  assert (Hes : elem_size = v * m) by (unfold d in *; nia).
  split.
  - intros (ii & Hii & jj & Hjj & kk & Hkk & q & Hq & ->).
    apply in_range_mult in Hii; [|unfold d; lia].
    apply in_range_mult in Hjj; [|lia].
    destruct Hii as (_ & Hi & Hii). destruct Hjj as (_ & Hj & Hjj).
    rewrite Nat.sub_0_r in Hi, Hj.
    pose proof (Nat.div_mod_eq jj V) as Ej.
    pose proof (Nat.div_mod_eq ii d) as Ei.
    assert (E8 : jj = 8 * (v * (jj / V))) by nia.
    assert (Ejj : jj / 8 = v * (jj / V)).
    { rewrite E8 at 1. rewrite Nat.mul_comm, Nat.div_mul by lia. reflexivity. }
    rewrite Ejj.
    assert (Hcq : v * (jj / V) + q < elem_size) by (unfold d in *; nia).
    pose proof (mul_add_lt (7 - kk) (v * (jj / V) + q) elem_size 8
                  ltac:(lia) ltac:(lia)).
    unfold d in *. nia.
  - intros Hp.
    set (blk := p / d). set (r := p mod d).
    assert (Hr : r < d) by (apply Nat.mod_upper_bound; unfold d; lia).
    pose proof (Nat.div_mod_eq p d) as Ep. fold blk r in Ep.
    assert (Hb : blk < S8).
    { apply Nat.Div0.div_lt_upper_bound. unfold d. nia. }
    set (c := r mod elem_size). set (b := r / elem_size).
    assert (Hc : c < elem_size) by (apply Nat.mod_upper_bound; lia).
    assert (Hbb : b < 8) by (apply Nat.Div0.div_lt_upper_bound; unfold d in *; lia).
    pose proof (Nat.div_mod_eq r elem_size) as Er. fold c b in Er.
    assert (Hv : 0 < v) by lia.
    pose proof (Nat.div_mod_eq c v) as Ec.
    pose proof (Nat.mod_upper_bound c v ltac:(lia)) as Hcv.
    assert (Hcd : c / v < m) by (apply Nat.Div0.div_lt_upper_bound; lia).
    exists (blk * d). split.
    { apply in_range_mult; [unfold d; lia|]. split; [lia|]. split.
      - rewrite Nat.sub_0_r. apply Nat.Div0.mod_mul.
      - assert ((blk + 1) * d <= S8 * d) by (apply Nat.mul_le_mono_r; lia).
        unfold d in *. nia. }
    exists (V * (c / v)). split.
    { apply in_range_mult; [lia|]. split; [lia|]. split.
      - rewrite Nat.sub_0_r, Nat.mul_comm. apply Nat.Div0.mod_mul.
      - nia. }
    exists (7 - b). split; [lia|]. exists (c mod v). split; [lia|].
    replace (V * (c / v) / 8) with (v * (c / v)).
    2:{ replace (V * (c / v)) with (v * (c / v) * 8) by lia.
        rewrite Nat.div_mul by lia. reflexivity. }
    replace (7 - (7 - b)) with b by lia. lia.
Qed.

Lemma even_idx elem_size ii jj kk :
  elem_size mod 2 = 0 -> ii mod (8 * elem_size) = 0 -> jj mod 16 = 0 ->
  2 * ((ii + jj / 8 + (7 - kk) * elem_size) / 2)
  = ii + jj / 8 + (7 - kk) * elem_size.
Proof.
  intros E2 Hi Hj.
  pose proof (Nat.div_mod_eq elem_size 2) as Ee.
  pose proof (Nat.div_mod_eq ii (8 * elem_size)) as Ei.
  pose proof (Nat.div_mod_eq jj 16) as Ej.
  assert (Ej8 : jj / 8 = 2 * (jj / 16)).
  { replace jj with (2 * (jj / 16) * 8) at 1 by lia.
    apply Nat.div_mul. lia. }
  set (x := ii + jj / 8 + (7 - kk) * elem_size).
  assert (Ex : x = (4 * (ii / (8 * elem_size)) * elem_size + jj / 16
                    + (7 - kk) * (elem_size / 2)) * 2) by (unfold x; nia).
  rewrite Ex at 1. rewrite Nat.div_mul by lia. lia.
Qed.

Lemma bshuf_shuffle_bit_eightelem_SSE_writes inb size elem_size :
  (forall i, i < size * elem_size -> byte_ok (rd inb i)) ->
  size mod 8 = 0 -> 1 <= elem_size ->
  writes (g_shuffle_bit_eightelem inb elem_size)
         (fun p => p < size * elem_size)
         (fun o => snd (bshuf_shuffle_bit_eightelem_SSE inb o size elem_size)).
Proof.
  intros Hok Hs He. unfold bshuf_shuffle_bit_eightelem_SSE, CHECK_MULT_EIGHT.
  rewrite Hs. cbn [Nat.eqb negb snd].
  destruct (Nat.eqb_spec (elem_size mod 2) 0) as [E2|N2]; cbn [negb].
  2:{ apply bshuf_shuffle_bit_eightelem_scal_writes; assumption. }
  assert (Hd : (8 * elem_size) mod 16 = 0).
  { pose proof (Nat.div_mod_eq elem_size 2).
    replace (8 * elem_size) with (elem_size / 2 * 16) by lia.
    apply Nat.Div0.mod_mul. }
  eapply writes_equiv;
    [|eapply for_loop_writes; [lia|intros ii Hii];
      eapply for_loop_writes; [lia|intros jj Hjj];
      apply (writes_store_masks_SSE _ inb (ii + jj))].
  - intros p. cbv beta.
    rewrite <- (shuffle_cover size elem_size 16 p)
      by (try assumption; try lia; reflexivity).
    split; intros (ii & Hii & jj & Hjj & kk & Hkk & q & Hq & ->);
      exists ii; (split; [exact Hii|]); exists jj; (split; [exact Hjj|]);
      exists kk; (split; [exact Hkk|]); exists q; (split; [exact Hq|]);
      apply in_range_mult in Hii; try lia; apply in_range_mult in Hjj; try lia;
      destruct Hii as (_ & Hi & _); destruct Hjj as (_ & Hj & _);
      rewrite Nat.sub_0_r in Hi, Hj;
      rewrite even_idx by assumption; reflexivity.
  - apply in_range_mult in Hii; [|lia]. apply in_range_mult in Hjj; [|lia].
    intros t Ht. apply Hok. rewrite Nat.mul_comm. lia.
  - apply in_range_mult in Hii; [|lia]. apply in_range_mult in Hjj; [|lia].
    destruct Hii as (_ & Hi & Hii). destruct Hjj as (_ & Hj & Hjj).
    rewrite Nat.sub_0_r in Hi, Hj.
    intros kk q Hkk Hq. rewrite even_idx by assumption.
    apply (shuffle_lane inb elem_size ii jj kk q 16); try lia. reflexivity.
Qed.

Lemma bshuf_shuffle_bit_eightelem_AVX_writes inb size elem_size :
  (forall i, i < size * elem_size -> byte_ok (rd inb i)) ->
  size mod 8 = 0 -> 1 <= elem_size ->
  writes (g_shuffle_bit_eightelem inb elem_size)
         (fun p => p < size * elem_size)
         (fun o => snd (bshuf_shuffle_bit_eightelem_AVX inb o size elem_size)).
Proof.
  intros Hok Hs He. unfold bshuf_shuffle_bit_eightelem_AVX, CHECK_MULT_EIGHT.
  rewrite Hs. cbn [Nat.eqb negb].
  destruct (Nat.eqb_spec (elem_size mod 4) 0) as [E4|N4]; cbn [negb].
  2:{ apply bshuf_shuffle_bit_eightelem_SSE_writes; assumption. }
  cbn [snd].
  assert (Hd : (8 * elem_size) mod 32 = 0).
  { pose proof (Nat.div_mod_eq elem_size 4).
    replace (8 * elem_size) with (elem_size / 4 * 32) by lia.
    apply Nat.Div0.mod_mul. }
  eapply writes_equiv;
    [|eapply for_loop_writes; [lia|intros jj Hjj];
      eapply for_loop_writes; [lia|intros ii Hii];
      apply (writes_store_masks_AVX _ inb (ii + jj))].
  - intros p. cbv beta.
    rewrite <- (shuffle_cover size elem_size 32 p)
      by (try assumption; try lia; reflexivity).
    split.
    + intros (jj & Hjj & ii & Hii & H). exists ii. split; [exact Hii|].
      exists jj. split; [exact Hjj|]. exact H.
    + intros (ii & Hii & jj & Hjj & H). exists jj. split; [exact Hjj|].
      exists ii. split; [exact Hii|]. exact H.
  - apply in_range_mult in Hii; [|lia]. apply in_range_mult in Hjj; [|lia].
    intros t Ht. apply Hok. rewrite Nat.mul_comm. lia.
  - apply in_range_mult in Hii; [|lia]. apply in_range_mult in Hjj; [|lia].
    destruct Hii as (_ & Hi & Hii). destruct Hjj as (_ & Hj & Hjj).
    rewrite Nat.sub_0_r in Hi, Hj.
    intros kk q Hkk Hq.
    apply (shuffle_lane inb elem_size ii jj kk q 32); try lia. reflexivity.
Qed.

(** ** Byte transpose of bit rows, SSE2 *)

Lemma bitrow_column inb size elem_size row col m t :
  row + m <= 8 * elem_size -> t < m ->
  rd inb ((row + t) * (size / 8) + col)
  = g_trans_byte_bitrow inb size elem_size (col * (8 * elem_size) + row + t).
Proof.
  intros Hr Ht. unfold g_trans_byte_bitrow.
  rewrite <- Nat.add_assoc.
  destruct (div_mod_unique_nat col (row + t) (8 * elem_size)) as [E1 E2];
    [lia|].
  rewrite E1, E2. reflexivity.
Qed.

Lemma writes_store_column inb size elem_size row col m :
  row + m <= 8 * elem_size ->
  writes (g_trans_byte_bitrow inb size elem_size)
         (fun p => col * (8 * elem_size) + row <= p
                   < col * (8 * elem_size) + row + m)
         (fun o => store_vec o (col * (8 * elem_size) + row)
                     (column inb (size / 8) row col m)).
Proof.
  intros Hr. unfold column. apply writes_store_lanes.
  intros t Ht. apply (bitrow_column inb size elem_size row col m); assumption.
Qed.

Lemma SSE_bitrow_vectors inb nbyte_row ii jj :
  let a0 := _mm_loadu_si128 inb ((ii + 0) * nbyte_row + jj) in
  let b0 := _mm_loadu_si128 inb ((ii + 1) * nbyte_row + jj) in
  let c0 := _mm_loadu_si128 inb ((ii + 2) * nbyte_row + jj) in
  let d0 := _mm_loadu_si128 inb ((ii + 3) * nbyte_row + jj) in
  let e0 := _mm_loadu_si128 inb ((ii + 4) * nbyte_row + jj) in
  let f0 := _mm_loadu_si128 inb ((ii + 5) * nbyte_row + jj) in
  let g0 := _mm_loadu_si128 inb ((ii + 6) * nbyte_row + jj) in
  let h0 := _mm_loadu_si128 inb ((ii + 7) * nbyte_row + jj) in
  let a1 := _mm_unpacklo_epi8 a0 b0 in
  let b1 := _mm_unpacklo_epi8 c0 d0 in
  let c1 := _mm_unpacklo_epi8 e0 f0 in
  let d1 := _mm_unpacklo_epi8 g0 h0 in
  let e1 := _mm_unpackhi_epi8 a0 b0 in
  let f1 := _mm_unpackhi_epi8 c0 d0 in
  let g1 := _mm_unpackhi_epi8 e0 f0 in
  let h1 := _mm_unpackhi_epi8 g0 h0 in
  let a0 := _mm_unpacklo_epi16 a1 b1 in
  let b0 := _mm_unpacklo_epi16 c1 d1 in
  let c0 := _mm_unpackhi_epi16 a1 b1 in
  let d0 := _mm_unpackhi_epi16 c1 d1 in
  let e0 := _mm_unpacklo_epi16 e1 f1 in
  let f0 := _mm_unpacklo_epi16 g1 h1 in
  let g0 := _mm_unpackhi_epi16 e1 f1 in
  let h0 := _mm_unpackhi_epi16 g1 h1 in
  let a1 := _mm_unpacklo_epi32 a0 b0 in
  let b1 := _mm_unpackhi_epi32 a0 b0 in
  let c1 := _mm_unpacklo_epi32 c0 d0 in
  let d1 := _mm_unpackhi_epi32 c0 d0 in
  let e1 := _mm_unpacklo_epi32 e0 f0 in
  let f1 := _mm_unpackhi_epi32 e0 f0 in
  let g1 := _mm_unpacklo_epi32 g0 h0 in
  let h1 := _mm_unpackhi_epi32 g0 h0 in
  let col c := column inb nbyte_row ii (jj + c) 8 in
  a1 = col 0 ++ col 1 /\ b1 = col 2 ++ col 3 /\
  c1 = col 4 ++ col 5 /\ d1 = col 6 ++ col 7 /\
  e1 = col 8 ++ col 9 /\ f1 = col 10 ++ col 11 /\
  g1 = col 12 ++ col 13 /\ h1 = col 14 ++ col 15.
Proof.
  cbv zeta. vec_eval. unfold column. cbn [map seq app].
  repeat split; repeat (f_equal; try lia).
Qed.

Lemma length_column inb nbyte_row row col m :
  length (column inb nbyte_row row col m) = m.
Proof. unfold column. rewrite length_map, length_seq. reflexivity. Qed.

Lemma storel_columns o i inb nbyte_row row c1 c2 :
  _mm_storel_pi o i (column inb nbyte_row row c1 8
                     ++ column inb nbyte_row row c2 8)
  = store_vec o i (column inb nbyte_row row c1 8).
Proof.
  unfold _mm_storel_pi.
  rewrite take_app_length' by (symmetry; apply length_column).
  reflexivity.
Qed.

Lemma storeh_columns o i inb nbyte_row row c1 c2 :
  _mm_storeh_pi o i (column inb nbyte_row row c1 8
                     ++ column inb nbyte_row row c2 8)
  = store_vec o i (column inb nbyte_row row c2 8).
Proof.
  unfold _mm_storeh_pi.
  rewrite drop_app_length' by (symmetry; apply length_column).
  reflexivity.
Qed.

(** The sixteen stores of one 8 x 16 tile. *)
Lemma SSE_bitrow_tile inb size elem_size ii jj :
  ii + 8 <= 8 * elem_size ->
  writes (g_trans_byte_bitrow inb size elem_size)
    (fun p => exists c, c < 16 /\
       (jj + c) * (8 * elem_size) + ii <= p
       < (jj + c) * (8 * elem_size) + ii + 8)
    (fun o =>
       let col c := column inb (size / 8) ii (jj + c) 8 in
       let st o c := store_vec o ((jj + c) * (8 * elem_size) + ii) (col c) in
       st (st (st (st (st (st (st (st (st (st (st (st (st (st (st (st o
         0) 2) 4) 6) 8) 10) 12) 14) 1) 3) 5) 7) 9) 11) 13) 15).
Proof.
  intros Hr. cbv zeta.
  eapply writes_equiv;
    [|stores ltac:(apply writes_store_column; exact Hr)].
  intros p. cbv beta. split.
  - intros H. repeat (destruct H as [H|H]);
      eexists; (split; [|exact H]); lia.
  - intros (c & Hc & H).
    do 16 (try (destruct c as [|c]; [tauto|])). lia.
Qed.

Ltac inserts tac :=
  lazymatch goal with
  | |- writes ?g _ (fun o => <[?i := ?v]> o) => apply writes_insert; tac
  | |- writes ?g _ (fun o => <[?i := ?v]> (@?f o)) =>
      eapply (writes_seq g _ _ f (fun o => <[i := v]> o));
      [inserts tac | apply writes_insert; tac]
  end.

Lemma bitrow_rows_cover size elem_size p :
  size mod 8 = 0 ->
  (exists ii, in_range 0 7 (8 * elem_size) 8 ii /\
     exists col, col < size / 8 /\
       col * (8 * elem_size) + ii <= p < col * (8 * elem_size) + ii + 8) <->
  p < size * elem_size.
Proof.
  intros Hs. pose proof (size_eq size Hs) as Es. set (S8 := size / 8) in *.
  set (d := 8 * elem_size). split.
  - intros (ii & Hii & col & Hc & Hp).
    apply in_range_mult in Hii; [|lia]. destruct Hii as (_ & _ & Hii).
    pose proof (mul_add_lt col (ii + 7) d S8 ltac:(lia) ltac:(lia)).
    unfold d in *. nia.
  - intros Hp.
    assert (Hd : 0 < d) by (unfold d; destruct elem_size; lia).
    set (r := p mod d). set (col := p / d).
    assert (Hr : r < d) by (apply Nat.mod_upper_bound; lia).
    pose proof (Nat.div_mod_eq p d) as Ep. fold r col in Ep.
    assert (Hc : col < S8).
    { apply Nat.Div0.div_lt_upper_bound. unfold d. nia. }
    pose proof (Nat.div_mod_eq r 8) as Er.
    pose proof (Nat.mod_upper_bound r 8 ltac:(lia)).
    exists (8 * (r / 8)). split.
    + apply in_range_mult; [lia|]. split; [lia|]. split.
      * rewrite Nat.sub_0_r, Nat.mul_comm. apply Nat.Div0.mod_mul.
      * unfold d in *. lia.
    + exists col. split; [exact Hc|]. lia.
Qed.

Lemma bshuf_trans_byte_bitrow_SSE_writes inb size elem_size :
  size mod 8 = 0 ->
  writes (g_trans_byte_bitrow inb size elem_size)
         (fun p => p < size * elem_size)
         (fun o => snd (bshuf_trans_byte_bitrow_SSE inb o size elem_size)).
Proof.
  intros Hs. unfold bshuf_trans_byte_bitrow_SSE, CHECK_MULT_EIGHT.
  rewrite Hs. cbn [Nat.eqb negb snd]. cbv zeta.
  eapply writes_equiv;
    [intros p; apply (bitrow_rows_cover size elem_size p Hs)|].
  eapply for_loop_writes; [lia|]. intros ii Hii.
  apply in_range_mult in Hii; [|lia]. destruct Hii as (_ & _ & Hii).
  eapply writes_equiv;
    [|eapply (writes_seq _
         (fun p => exists jj, in_range 0 15 (size / 8) 16 jj /\
            exists c, c < 16 /\
              (jj + c) * (8 * elem_size) + ii <= p
              < (jj + c) * (8 * elem_size) + ii + 8)
         (fun p => exists jj,
            in_range (size / 8 - (size / 8) mod 16) 0 (size / 8) 1 jj /\
            (jj * (8 * elem_size) + ii <= p < jj * (8 * elem_size) + ii + 8)))].
  - intros p. cbv beta. split.
    + intros [(jj & Hjj & c & Hc & Hp)|(jj & Hjj & Hp)].
      * apply in_range_mult in Hjj; [|lia]. exists (jj + c). split; [lia|exact Hp].
      * apply in_range_unit in Hjj. exists jj. split; [lia|exact Hp].
    + intros (col & Hc & Hp).
      destruct (Nat.lt_ge_cases col (size / 8 - (size / 8) mod 16)) as [Hlo|Hhi].
      * left. exists (16 * (col / 16)).
        pose proof (Nat.div_mod_eq col 16). pose proof (Nat.div_mod_eq (size / 8) 16).
        pose proof (Nat.mod_upper_bound col 16).
        pose proof (Nat.mod_upper_bound (size / 8) 16).
        split.
        { apply in_range_mult; [lia|]. split; [lia|]. split; [|lia].
          rewrite Nat.sub_0_r, Nat.mul_comm. apply Nat.Div0.mod_mul. }
        exists (col mod 16). split; [lia|].
        replace (16 * (col / 16) + col mod 16) with col by lia. exact Hp.
      * right. exists col. split; [apply in_range_unit; lia|exact Hp].
  - eapply for_loop_writes; [lia|]. intros jj Hjj.
    destruct (SSE_bitrow_vectors inb (size / 8) ii jj)
      as (-> & -> & -> & -> & -> & -> & -> & ->).
    eapply writes_ext;
      [intros o; rewrite !storel_columns, !storeh_columns; reflexivity|].
    apply (SSE_bitrow_tile inb size elem_size ii jj). lia.
  - eapply for_loop_writes; [lia|]. intros jj Hjj.
    eapply writes_equiv;
      [|inserts ltac:(
          idtac;
          match goal with
          | |- rd _ ((_ + ?r) * _ + _) = _ =>
              apply (bitrow_column inb size elem_size ii jj 8 r); lia
          end)].
    intros p. cbv beta. lia.
  Unshelve. all: exact 0.
Qed.

(** ** Byte transpose of bit rows, AVX2 *)

(** One pass leaves, in register [k], columns [2k], [2k + 1], [16 + 2k]
    and [17 + 2k] of its eight rows. *)
Lemma bitrow_AVX_pass_eq inb nbyte_row ii jj hh :
  bitrow_AVX_pass inb nbyte_row ii jj hh =
  map (fun k =>
         let col c := column inb nbyte_row (ii * 8 + hh * 8) (jj + c) 8 in
         col (2 * k) ++ col (2 * k + 1) ++ col (16 + 2 * k)
           ++ col (16 + 2 * k + 1)) (seq 0 8).
Proof.
  unfold bitrow_AVX_pass, ymm_array, ymm, for_loop.
  cbn [for_fuel Nat.ltb Nat.leb Nat.add Nat.mul repeat nth insert list_insert].
  vec_eval. unfold column. cbn [map seq app Nat.mul Nat.add].
  repeat (f_equal; try lia).
Qed.

Lemma nth_map_seq_list (f : nat -> list Z) n k :
  k < n -> nth k (map f (seq 0 n)) [] = f k.
Proof.
  intros H. rewrite (nth_indep _ [] (f 0))
    by (rewrite length_map, length_seq; exact H).
  rewrite map_nth, seq_nth by exact H. reflexivity.
Qed.

Lemma AVX_storeage_nth inb nbyte_row ii jj mm h :
  mm < 8 -> h < 4 ->
  ymm (nth mm (AVX_storeage inb nbyte_row ii jj) []) h
  = ymm (bitrow_AVX_pass inb nbyte_row ii jj h) mm.
Proof.
  intros Hmm Hh. unfold AVX_storeage, for_loop, ymm.
  cbn [for_fuel Nat.ltb Nat.leb Nat.add repeat nth insert list_insert].
  do 8 (try (destruct mm as [|mm]; [do 4 (try (destruct h as [|h];
                                               [reflexivity|])); lia|])).
  lia.
Qed.

(** Lists of eight bytes, four to a register. *)
Ltac eight l :=
  let H := fresh in
  intros H;
  do 9 (destruct l as [|? l]; [try discriminate H|]); try discriminate H;
  clear H.

Lemma unpacklo64_quad (A0 A1 A2 A3 B0 B1 B2 B3 : list Z) :
  length A0 = 8 -> length A1 = 8 -> length A2 = 8 -> length A3 = 8 ->
  length B0 = 8 -> length B1 = 8 -> length B2 = 8 -> length B3 = 8 ->
  _mm256_unpacklo_epi64 (A0 ++ A1 ++ A2 ++ A3) (B0 ++ B1 ++ B2 ++ B3)
  = A0 ++ B0 ++ A2 ++ B2.
Proof.
  eight A0; eight A1; eight A2; eight A3;
  eight B0; eight B1; eight B2; eight B3. reflexivity.
Qed.

Lemma unpackhi64_quad (A0 A1 A2 A3 B0 B1 B2 B3 : list Z) :
  length A0 = 8 -> length A1 = 8 -> length A2 = 8 -> length A3 = 8 ->
  length B0 = 8 -> length B1 = 8 -> length B2 = 8 -> length B3 = 8 ->
  _mm256_unpackhi_epi64 (A0 ++ A1 ++ A2 ++ A3) (B0 ++ B1 ++ B2 ++ B3)
  = A1 ++ B1 ++ A3 ++ B3.
Proof.
  eight A0; eight A1; eight A2; eight A3;
  eight B0; eight B1; eight B2; eight B3. reflexivity.
Qed.

Lemma permute_32_quad (A0 A1 A2 A3 B0 B1 B2 B3 : list Z) :
  length A0 = 8 -> length A1 = 8 -> length A2 = 8 -> length A3 = 8 ->
  length B0 = 8 -> length B1 = 8 -> length B2 = 8 -> length B3 = 8 ->
  _mm256_permute2x128_si256 (A0 ++ A1 ++ A2 ++ A3) (B0 ++ B1 ++ B2 ++ B3) 32
  = A0 ++ A1 ++ B0 ++ B1.
Proof.
  eight A0; eight A1; eight A2; eight A3;
  eight B0; eight B1; eight B2; eight B3. reflexivity.
Qed.

Lemma permute_49_quad (A0 A1 A2 A3 B0 B1 B2 B3 : list Z) :
  length A0 = 8 -> length A1 = 8 -> length A2 = 8 -> length A3 = 8 ->
  length B0 = 8 -> length B1 = 8 -> length B2 = 8 -> length B3 = 8 ->
  _mm256_permute2x128_si256 (A0 ++ A1 ++ A2 ++ A3) (B0 ++ B1 ++ B2 ++ B3) 49
  = A2 ++ A3 ++ B2 ++ B3.
Proof.
  eight A0; eight A1; eight A2; eight A3;
  eight B0; eight B1; eight B2; eight B3. reflexivity.
Qed.

Lemma map_seq_from (f : nat -> Z) s k :
  map f (seq s k) = map (fun t => f (s + t)) (seq 0 k).
Proof.
  revert f s. induction k as [|k IH]; intros f s; [reflexivity|].
  cbn [seq map]. rewrite Nat.add_0_r. f_equal.
  rewrite (IH f), (IH (fun t => f (s + t)) 1).
  apply map_ext. intros t. f_equal. lia.
Qed.

Lemma column_app inb nbyte_row row col m k :
  column inb nbyte_row row col m ++ column inb nbyte_row (row + m) col k
  = column inb nbyte_row row col (m + k).
Proof.
  unfold column. rewrite seq_app, map_app. f_equal.
  cbn [Nat.add]. rewrite (map_seq_from _ m k).
  apply map_ext. intros t. f_equal. lia.
Qed.

Lemma column_4 inb nbyte_row row col :
  column inb nbyte_row (row + 0 * 8) col 8
    ++ column inb nbyte_row (row + 1 * 8) col 8
    ++ column inb nbyte_row (row + 2 * 8) col 8
    ++ column inb nbyte_row (row + 3 * 8) col 8
  = column inb nbyte_row row col 32.
Proof.
  replace (row + 0 * 8) with row by lia.
  replace (row + 1 * 8) with (row + 8) by lia.
  replace (row + 2 * 8) with (row + 8 + 8) by lia.
  replace (row + 3 * 8) with (row + 8 + 8 + 8) by lia.
  rewrite (column_app _ _ (row + 8 + 8)), (column_app _ _ (row + 8)),
    column_app. reflexivity.
Qed.

Lemma column_col inb nbyte_row row col col' m :
  col = col' ->
  column inb nbyte_row row col m = column inb nbyte_row row col' m.
Proof. intros ->. reflexivity. Qed.

Lemma AVX_out4_eq inb nbyte_row ii jj mm :
  mm < 8 ->
  let out := AVX_out4 (AVX_storeage inb nbyte_row ii jj) mm in
  let col c := column inb nbyte_row (ii * 8) c 32 in
  ymm out 0 = col (jj + mm * 2 + 0 * 16) /\
  ymm out 1 = col (jj + mm * 2 + 0 * 16 + 1) /\
  ymm out 2 = col (jj + mm * 2 + 1 * 16) /\
  ymm out 3 = col (jj + mm * 2 + 1 * 16 + 1).
Proof.
  intros Hmm. cbv zeta.
  unfold AVX_out4, for_loop.
  cbn [for_fuel Nat.ltb Nat.leb Nat.add].
  rewrite !AVX_storeage_nth by lia.
  rewrite !bitrow_AVX_pass_eq.
  unfold ymm, ymm_array.
  cbn [repeat nth insert list_insert].
  rewrite !nth_map_seq_list by lia. cbv beta zeta.
  rewrite !unpacklo64_quad, !unpackhi64_quad by apply length_column.
  rewrite !permute_32_quad, !permute_49_quad by apply length_column.
  repeat split; rewrite <- column_4;
    repeat match goal with
           | |- column _ _ _ _ _ = column _ _ _ _ _ =>
               apply column_col; lia
           | |- _ ++ _ = _ ++ _ => f_equal
           end.
Qed.

Lemma AVX_bitrow_cover size elem_size p :
  size mod 8 = 0 -> elem_size mod 4 = 0 ->
  (exists jj, in_range 0 31 (size / 8) 32 jj /\
     exists ii, in_range 0 3 elem_size 4 ii /\
       exists c, c < 32 /\
         (jj + c) * (8 * elem_size) + ii * 8 <= p
         < (jj + c) * (8 * elem_size) + ii * 8 + 32) <->
  (p < size * elem_size /\
   p / (8 * elem_size) < size / 8 - (size / 8) mod 32).
Proof.
  intros Hs He. pose proof (size_eq size Hs) as Es. set (S8 := size / 8) in *.
  set (d := 8 * elem_size).
  pose proof (Nat.div_mod_eq elem_size 4) as Ee.
  pose proof (Nat.div_mod_eq S8 32) as E32.
  pose proof (Nat.mod_upper_bound S8 32 ltac:(lia)) as H32.
  split.
  - intros (jj & Hjj & ii & Hii & c & Hc & Hp).
    apply in_range_mult in Hjj; [|lia]. apply in_range_mult in Hii; [|lia].
    destruct Hjj as (_ & Hj & Hjj). destruct Hii as (_ & Hi & Hii).
    rewrite Nat.sub_0_r in Hj, Hi.
    pose proof (Nat.div_mod_eq jj 32) as Ej.
    assert (Hr : p - (jj + c) * d < d) by (unfold d; lia).
    replace p with ((jj + c) * d + (p - (jj + c) * d)) by (unfold d; lia).
    destruct (div_mod_unique_nat (jj + c) (p - (jj + c) * d) d) as [E1 _];
      [exact Hr|].
    rewrite E1. split; [|lia].
    pose proof (mul_add_lt (jj + c) (p - (jj + c) * d) d S8 Hr ltac:(lia)).
    unfold d in *. nia.
  - intros [Hp Hc].
    assert (Hd : 0 < d) by (unfold d; destruct elem_size; lia).
    set (col := p / d) in *. set (r := p mod d).
    assert (Hr : r < d) by (apply Nat.mod_upper_bound; lia).
    pose proof (Nat.div_mod_eq p d) as Ep. fold col r in Ep.
    pose proof (Nat.div_mod_eq col 32) as Ec.
    pose proof (Nat.mod_upper_bound col 32 ltac:(lia)) as Hc32.
    pose proof (Nat.div_mod_eq r 32) as Er.
    pose proof (Nat.mod_upper_bound r 32 ltac:(lia)) as Hr32.
    exists (32 * (col / 32)). split.
    { apply in_range_mult; [lia|]. split; [lia|]. split; [|lia].
      rewrite Nat.sub_0_r, Nat.mul_comm. apply Nat.Div0.mod_mul. }
    exists (4 * (r / 32)). split.
    { apply in_range_mult; [lia|]. split; [lia|]. split.
      - rewrite Nat.sub_0_r, Nat.mul_comm. apply Nat.Div0.mod_mul.
      - unfold d in *. lia. }
    exists (col mod 32). split; [lia|].
    replace (32 * (col / 32) + col mod 32) with col by lia.
    fold d. lia.
Qed.

Lemma bshuf_trans_byte_bitrow_AVX_writes inb size elem_size :
  size mod 8 = 0 ->
  writes (g_trans_byte_bitrow inb size elem_size)
         (fun p => p < size * elem_size)
         (fun o => snd (bshuf_trans_byte_bitrow_AVX inb o size elem_size)).
Proof.
  intros Hs. unfold bshuf_trans_byte_bitrow_AVX, CHECK_MULT_EIGHT.
  rewrite Hs. cbn [Nat.eqb negb].
  destruct (Nat.eqb_spec (elem_size mod 4) 0) as [E4|N4]; cbn [negb].
  2:{ apply bshuf_trans_byte_bitrow_SSE_writes. exact Hs. }
  cbn [snd].
  pose proof (size_eq size Hs) as Es.
  eapply writes_equiv;
    [|eapply (writes_seq _
         (fun p => p < size * elem_size /\
                   p / (8 * elem_size) < size / 8 - (size / 8) mod 32)
         (fun p => exists ii, in_range 0 0 (8 * elem_size) 1 ii /\
            exists jj,
              in_range (size / 8 - (size / 8) mod 32) 0 (size / 8) 1 jj /\
              p = jj * (8 * elem_size) + ii))].
  - intros p. cbv beta. split.
    + intros [[Hp _]|(ii & Hii & jj & Hjj & ->)]; [exact Hp|].
      apply in_range_unit in Hii, Hjj.
      pose proof (mul_add_lt jj ii (8 * elem_size) (size / 8)
                    ltac:(lia) ltac:(lia)). lia.
    + intros Hp.
      assert (Hd : 0 < 8 * elem_size) by (destruct elem_size; lia).
      pose proof (Nat.div_mod_eq p (8 * elem_size)) as Ep.
      pose proof (Nat.mod_upper_bound p (8 * elem_size) ltac:(lia)) as Hr.
      assert (Hc : p / (8 * elem_size) < size / 8).
      { apply Nat.Div0.div_lt_upper_bound. lia. }
      destruct (Nat.lt_ge_cases (p / (8 * elem_size))
                  (size / 8 - (size / 8) mod 32)) as [Hlo|Hhi].
      * left. split; assumption.
      * right. exists (p mod (8 * elem_size)). split; [apply in_range_unit; lia|].
        exists (p / (8 * elem_size)). split; [apply in_range_unit; lia|]. lia.
  - eapply writes_equiv;
      [intros p; apply (AVX_bitrow_cover size elem_size p Hs E4)|].
    eapply for_loop_writes; [lia|]. intros jj Hjj.
    eapply for_loop_writes; [lia|]. intros ii Hii.
    apply in_range_mult in Hii; [|lia]. destruct Hii as (_ & _ & Hii).
    eapply (writes_ext _ _
      (for_loop 0 0 8 1 (fun mm o =>
         let out := AVX_out4 (AVX_storeage inb (size / 8) ii jj) mm in
         store_vec
           (store_vec
              (store_vec
                 (store_vec o
                    ((jj + mm * 2 + 0 * 16) * (8 * elem_size) + ii * 8)
                    (ymm out 0))
                 ((jj + mm * 2 + 0 * 16 + 1) * (8 * elem_size) + ii * 8)
                 (ymm out 1))
              ((jj + mm * 2 + 1 * 16) * (8 * elem_size) + ii * 8)
              (ymm out 2))
           ((jj + mm * 2 + 1 * 16 + 1) * (8 * elem_size) + ii * 8)
           (ymm out 3))));
      [intros o;
       cbv delta [AVX_out4 AVX_storeage _mm256_storeu_si256] beta zeta;
       reflexivity|].
    eapply writes_equiv;
      [|eapply for_loop_writes; [lia|intros mm Hmm];
        apply in_range_unit in Hmm; cbv zeta;
        destruct (AVX_out4_eq inb (size / 8) ii jj mm ltac:(lia))
          as (-> & -> & -> & ->);
        stores ltac:(apply writes_store_column; lia)].
    intros p. cbv beta. split.
    + intros (mm & Hmm & H). apply in_range_unit in Hmm.
      destruct H as [[[H|H]|H]|H];
        [exists (mm * 2 + 0 * 16)|exists (mm * 2 + 0 * 16 + 1)
         |exists (mm * 2 + 1 * 16)|exists (mm * 2 + 1 * 16 + 1)];
        (split; [lia|]); rewrite !Nat.add_assoc; exact H.
    + intros (c & Hc & H).
      exists (c mod 16 / 2).
      pose proof (Nat.div_mod_eq c 16) as E16.
      pose proof (Nat.mod_upper_bound c 16 ltac:(lia)) as H16.
      pose proof (Nat.div_mod_eq (c mod 16) 2) as E2.
      pose proof (Nat.mod_upper_bound (c mod 16) 2 ltac:(lia)) as H2.
      split; [apply in_range_unit; lia|].
      assert (D : (c / 16 = 0 \/ c / 16 = 1) /\
                  ((c mod 16) mod 2 = 0 \/ (c mod 16) mod 2 = 1)) by lia.
      destruct D as [[D1|D1] [D2|D2]].
      * left; left; left.
        replace (jj + c mod 16 / 2 * 2 + 0 * 16) with (jj + c) by lia. exact H.
      * left; left; right.
        replace (jj + c mod 16 / 2 * 2 + 0 * 16 + 1) with (jj + c) by lia.
        exact H.
      * left; right.
        replace (jj + c mod 16 / 2 * 2 + 1 * 16) with (jj + c) by lia. exact H.
      * right.
        replace (jj + c mod 16 / 2 * 2 + 1 * 16 + 1) with (jj + c) by lia.
        exact H.
  - eapply for_loop_writes; [lia|]. intros ii Hii.
    eapply for_loop_writes; [lia|]. intros jj Hjj.
    apply writes_insert.
    apply in_range_unit in Hii, Hjj.
    replace (ii * (size / 8) + jj) with ((ii + 0) * (size / 8) + jj) by lia.
    rewrite (bitrow_column inb size elem_size ii jj 1 0) by lia.
    f_equal. lia.
Qed.

(** * The SSE2 and AVX2 realizations against the scalar ones *)

Lemma fst_bitrow_SSE inb outb size elem_size :
  size mod 8 = 0 ->
  fst (bshuf_trans_byte_bitrow_SSE inb outb size elem_size)
  = int64_of_size (size * elem_size).
Proof.
  intros Hs. unfold bshuf_trans_byte_bitrow_SSE, CHECK_MULT_EIGHT.
  rewrite Hs. reflexivity.
Qed.

Lemma fst_bitrow_scal inb outb size elem_size :
  size mod 8 = 0 ->
  fst (bshuf_trans_byte_bitrow_scal inb outb size elem_size)
  = int64_of_size (size * elem_size).
Proof.
  intros Hs. unfold bshuf_trans_byte_bitrow_scal, CHECK_MULT_EIGHT.
  rewrite Hs. reflexivity.
Qed.

Lemma fst_bitrow_AVX inb outb size elem_size :
  size mod 8 = 0 ->
  fst (bshuf_trans_byte_bitrow_AVX inb outb size elem_size)
  = int64_of_size (size * elem_size).
Proof.
  intros Hs. unfold bshuf_trans_byte_bitrow_AVX, CHECK_MULT_EIGHT.
  rewrite Hs. cbn [Nat.eqb negb].
  destruct (negb (elem_size mod 4 =? 0)); [|reflexivity].
  apply fst_bitrow_SSE. exact Hs.
Qed.

Lemma bshuf_trans_byte_bitrow_SSE_eq inb outb size elem_size :
  size mod 8 = 0 ->
  bshuf_trans_byte_bitrow_SSE inb outb size elem_size =
  bshuf_trans_byte_bitrow_scal inb outb size elem_size.
Proof.
  intros Hs.
  rewrite (surjective_pairing (bshuf_trans_byte_bitrow_SSE _ _ _ _)).
  rewrite (surjective_pairing (bshuf_trans_byte_bitrow_scal _ _ _ _)).
  rewrite fst_bitrow_SSE, fst_bitrow_scal by exact Hs. f_equal.
  apply (writes_unique _ _ _ _ outb
           (bshuf_trans_byte_bitrow_SSE_writes inb size elem_size Hs)
           (bshuf_trans_byte_bitrow_scal_writes inb size elem_size Hs)).
Qed.

Lemma bshuf_trans_byte_bitrow_AVX_eq inb outb size elem_size :
  size mod 8 = 0 ->
  bshuf_trans_byte_bitrow_AVX inb outb size elem_size =
  bshuf_trans_byte_bitrow_scal inb outb size elem_size.
Proof.
  intros Hs.
  rewrite (surjective_pairing (bshuf_trans_byte_bitrow_AVX _ _ _ _)).
  rewrite (surjective_pairing (bshuf_trans_byte_bitrow_scal _ _ _ _)).
  rewrite fst_bitrow_AVX, fst_bitrow_scal by exact Hs. f_equal.
  apply (writes_unique _ _ _ _ outb
           (bshuf_trans_byte_bitrow_AVX_writes inb size elem_size Hs)
           (bshuf_trans_byte_bitrow_scal_writes inb size elem_size Hs)).
Qed.

Lemma fst_shuffle_scal inb outb size elem_size :
  size mod 8 = 0 ->
  fst (bshuf_shuffle_bit_eightelem_scal inb outb size elem_size)
  = int64_of_size (size * elem_size).
Proof.
  intros Hs. unfold bshuf_shuffle_bit_eightelem_scal, CHECK_MULT_EIGHT.
  rewrite Hs. reflexivity.
Qed.

Lemma fst_shuffle_SSE inb outb size elem_size :
  size mod 8 = 0 ->
  fst (bshuf_shuffle_bit_eightelem_SSE inb outb size elem_size)
  = int64_of_size (size * elem_size).
Proof.
  intros Hs. unfold bshuf_shuffle_bit_eightelem_SSE, CHECK_MULT_EIGHT.
  rewrite Hs. reflexivity.
Qed.

Lemma fst_shuffle_AVX inb outb size elem_size :
  size mod 8 = 0 ->
  fst (bshuf_shuffle_bit_eightelem_AVX inb outb size elem_size)
  = int64_of_size (size * elem_size).
Proof.
  intros Hs. unfold bshuf_shuffle_bit_eightelem_AVX, CHECK_MULT_EIGHT.
  rewrite Hs. cbn [Nat.eqb negb].
  destruct (negb (elem_size mod 4 =? 0)); [|reflexivity].
  apply fst_shuffle_SSE. exact Hs.
Qed.

Lemma bshuf_shuffle_bit_eightelem_SSE_eq inb outb size elem_size :
  (forall i, i < size * elem_size -> byte_ok (rd inb i)) ->
  size mod 8 = 0 -> 1 <= elem_size ->
  bshuf_shuffle_bit_eightelem_SSE inb outb size elem_size =
  bshuf_shuffle_bit_eightelem_scal inb outb size elem_size.
Proof.
  intros Hok Hs He.
  rewrite (surjective_pairing (bshuf_shuffle_bit_eightelem_SSE _ _ _ _)).
  rewrite (surjective_pairing (bshuf_shuffle_bit_eightelem_scal _ _ _ _)).
  rewrite fst_shuffle_SSE, fst_shuffle_scal by exact Hs. f_equal.
  apply (writes_unique _ _ _ _ outb
           (bshuf_shuffle_bit_eightelem_SSE_writes inb size elem_size Hok Hs He)
           (bshuf_shuffle_bit_eightelem_scal_writes inb size elem_size Hok Hs He)).
Qed.

Lemma bshuf_shuffle_bit_eightelem_AVX_eq inb outb size elem_size :
  (forall i, i < size * elem_size -> byte_ok (rd inb i)) ->
  size mod 8 = 0 -> 1 <= elem_size ->
  bshuf_shuffle_bit_eightelem_AVX inb outb size elem_size =
  bshuf_shuffle_bit_eightelem_scal inb outb size elem_size.
Proof.
  intros Hok Hs He.
  rewrite (surjective_pairing (bshuf_shuffle_bit_eightelem_AVX _ _ _ _)).
  rewrite (surjective_pairing (bshuf_shuffle_bit_eightelem_scal _ _ _ _)).
  rewrite fst_shuffle_AVX, fst_shuffle_scal by exact Hs. f_equal.
  apply (writes_unique _ _ _ _ outb
           (bshuf_shuffle_bit_eightelem_AVX_writes inb size elem_size Hok Hs He)
           (bshuf_shuffle_bit_eightelem_scal_writes inb size elem_size Hok Hs He)).
Qed.

(** What the scalar byte transposes leave is made of input bytes. *)
Lemma trans_byte_elem_scal_ok inb outb size elem_size :
  (forall i, i < size * elem_size -> byte_ok (rd inb i)) ->
  size * elem_size <= length outb ->
  forall i, i < elem_size * size ->
  byte_ok (rd (snd (bshuf_trans_byte_elem_scal inb outb size elem_size)) i).
Proof.
  intros Hok Hl i Hi. rewrite bshuf_trans_byte_elem_scal_eq by exact Hl.
  cbn [snd]. rewrite rd_tabulate by lia.
  unfold g_trans_byte_elem. apply Hok.
  assert (0 < size) by (destruct size; lia).
  pose proof (Nat.mod_upper_bound i size ltac:(lia)).
  assert (i / size < elem_size) by (apply Nat.Div0.div_lt_upper_bound; lia).
  pose proof (mul_add_lt (i mod size) (i / size) elem_size size
                ltac:(lia) ltac:(lia)). lia.
Qed.

Lemma trans_byte_bitrow_scal_ok inb outb size elem_size :
  size mod 8 = 0 ->
  (forall i, i < size * elem_size -> byte_ok (rd inb i)) ->
  size * elem_size <= length outb ->
  forall i, i < size * elem_size ->
  byte_ok (rd (snd (bshuf_trans_byte_bitrow_scal inb outb size elem_size)) i).
Proof.
  intros Hs Hok Hl i Hi. rewrite bshuf_trans_byte_bitrow_scal_eq by assumption.
  cbn [snd]. rewrite rd_tabulate by lia.
  unfold g_trans_byte_bitrow. apply Hok.
  pose proof (n_eq size elem_size Hs) as En.
  assert (Hd : 0 < 8 * elem_size) by (destruct elem_size; lia).
  pose proof (Nat.mod_upper_bound i (8 * elem_size) ltac:(lia)).
  assert (i / (8 * elem_size) < size / 8)
    by (apply Nat.Div0.div_lt_upper_bound; lia).
  pose proof (mul_add_lt (i mod (8 * elem_size)) (i / (8 * elem_size))
                (size / 8) (8 * elem_size) ltac:(lia) ltac:(lia)). lia.
Qed.

Lemma bshuf_trans_bit_elem_SSE_eq inb outb size elem_size :
  size mod 8 = 0 -> 1 <= elem_size ->
  (forall i, i < size * elem_size -> byte_ok (rd inb i)) ->
  size * elem_size <= length outb ->
  bshuf_trans_bit_elem_SSE inb outb size elem_size =
  bshuf_trans_bit_elem_scal inb outb size elem_size.
Proof.
  intros Hs He Hok Hl.
  unfold bshuf_trans_bit_elem_SSE, bshuf_trans_bit_elem_scal.
  rewrite bshuf_trans_byte_elem_SSE_eq by assumption.
  pose proof (trans_byte_elem_scal_ok inb outb size elem_size Hok Hl) as Ok1.
  destruct (bshuf_trans_byte_elem_scal inb outb size elem_size) as [c o1].
  cbn [snd] in Ok1.
  rewrite bshuf_trans_bit_byte_SSE_eq
    by (try assumption; apply nbyte_mod8; exact Hs).
  reflexivity.
Qed.

Lemma bshuf_trans_bit_elem_AVX_eq inb outb size elem_size :
  size mod 8 = 0 -> 1 <= elem_size ->
  (forall i, i < size * elem_size -> byte_ok (rd inb i)) ->
  size * elem_size <= length outb ->
  bshuf_trans_bit_elem_AVX inb outb size elem_size =
  bshuf_trans_bit_elem_scal inb outb size elem_size.
Proof.
  intros Hs He Hok Hl.
  unfold bshuf_trans_bit_elem_AVX, bshuf_trans_bit_elem_scal.
  rewrite bshuf_trans_byte_elem_SSE_eq by assumption.
  pose proof (trans_byte_elem_scal_ok inb outb size elem_size Hok Hl) as Ok1.
  destruct (bshuf_trans_byte_elem_scal inb outb size elem_size) as [c o1].
  cbn [snd] in Ok1.
  rewrite bshuf_trans_bit_byte_AVX_eq
    by (try assumption; apply nbyte_mod8; exact Hs).
  reflexivity.
Qed.

Lemma bshuf_untrans_bit_elem_SSE_eq inb outb size elem_size :
  size mod 8 = 0 -> 1 <= elem_size ->
  (forall i, i < size * elem_size -> byte_ok (rd inb i)) ->
  bshuf_untrans_bit_elem_SSE inb outb size elem_size =
  bshuf_untrans_bit_elem_scal inb outb size elem_size.
Proof.
  intros Hs He Hok.
  unfold bshuf_untrans_bit_elem_SSE, bshuf_untrans_bit_elem_scal.
  rewrite bshuf_trans_byte_bitrow_SSE_eq by assumption.
  pose proof (trans_byte_bitrow_scal_ok inb (malloc (size * elem_size))
                size elem_size Hs Hok
                ltac:(rewrite length_malloc; lia)) as Ok1.
  destruct (bshuf_trans_byte_bitrow_scal inb (malloc (size * elem_size))
              size elem_size) as [c o1].
  cbn [snd] in Ok1.
  rewrite bshuf_shuffle_bit_eightelem_SSE_eq by assumption.
  reflexivity.
Qed.

Lemma bshuf_untrans_bit_elem_AVX_eq inb outb size elem_size :
  size mod 8 = 0 -> 1 <= elem_size ->
  (forall i, i < size * elem_size -> byte_ok (rd inb i)) ->
  bshuf_untrans_bit_elem_AVX inb outb size elem_size =
  bshuf_untrans_bit_elem_scal inb outb size elem_size.
Proof.
  intros Hs He Hok.
  unfold bshuf_untrans_bit_elem_AVX, bshuf_untrans_bit_elem_scal.
  rewrite bshuf_trans_byte_bitrow_AVX_eq by assumption.
  pose proof (trans_byte_bitrow_scal_ok inb (malloc (size * elem_size))
                size elem_size Hs Hok
                ltac:(rewrite length_malloc; lia)) as Ok1.
  destruct (bshuf_trans_byte_bitrow_scal inb (malloc (size * elem_size))
              size elem_size) as [c o1].
  cbn [snd] in Ok1.
  rewrite bshuf_shuffle_bit_eightelem_AVX_eq by assumption.
  reflexivity.
Qed.

(** * The drivers, whatever the instruction set *)

Lemma bshuf_trans_bit_elem_eq b inb outb size elem_size :
  size mod 8 = 0 -> 1 <= elem_size ->
  (forall i, i < size * elem_size -> byte_ok (rd inb i)) ->
  size * elem_size <= length outb ->
  (Z.of_nat (size * elem_size) < 2 ^ 63)%Z ->
  bshuf_trans_bit_elem b inb outb size elem_size =
  (Z.of_nat (size * elem_size),
   tabulate (g_bitshuffle inb size elem_size) (size * elem_size)
     ++ drop (size * elem_size) outb).
Proof.
  intros Hs He Hok Hl Hn.
  rewrite <- bshuf_trans_bit_elem_scal_eq by assumption.
  destruct b; cbn [bshuf_trans_bit_elem].
  - reflexivity.
  - apply bshuf_trans_bit_elem_SSE_eq; assumption.
  - apply bshuf_trans_bit_elem_AVX_eq; assumption.
Qed.

Lemma bshuf_untrans_bit_elem_eq b inb outb size elem_size :
  size mod 8 = 0 -> 1 <= elem_size ->
  (forall i, i < size * elem_size -> byte_ok (rd inb i)) ->
  size * elem_size <= length outb ->
  (Z.of_nat (size * elem_size) < 2 ^ 63)%Z ->
  bshuf_untrans_bit_elem b inb outb size elem_size =
  (Z.of_nat (size * elem_size),
   tabulate (g_bitunshuffle inb size elem_size) (size * elem_size)
     ++ drop (size * elem_size) outb).
Proof.
  intros Hs He Hok Hl Hn.
  rewrite <- bshuf_untrans_bit_elem_scal_eq by assumption.
  destruct b; cbn [bshuf_untrans_bit_elem].
  - reflexivity.
  - apply bshuf_untrans_bit_elem_SSE_eq; assumption.
  - apply bshuf_untrans_bit_elem_AVX_eq; assumption.
Qed.

(** * The block framework *)

Lemma for_fuel_const {S : Type} (F : S -> S) stop : forall fuel i s,
  stop - i <= fuel ->
  for_fuel fuel i 0 stop 1 (fun _ => F) s = Nat.iter (stop - i) (fun s => F s) s.
Proof.
  induction fuel as [|fuel IH]; intros i s Hf.
  - replace (stop - i) with 0 by lia. reflexivity.
  - cbn [for_fuel]. rewrite Nat.add_0_r.
    destruct (Nat.ltb_spec i stop) as [Hlt|Hge].
    + rewrite IH by lia.
      replace (stop - i) with (Datatypes.S (stop - (i + 1))) by lia.
      rewrite Nat.iter_succ_r. reflexivity.
    + replace (stop - i) with 0 by lia. reflexivity.
Qed.

Lemma fold_left_repeat {S A : Type} (f : S -> A -> S) a k s :
  fold_left f (repeat a k) s = Nat.iter k (fun s => f s a) s.
Proof.
  revert s. induction k as [|k IH]; intros s; [reflexivity|].
  cbn [repeat fold_left]. rewrite IH, Nat.iter_succ_r. reflexivity.
Qed.

Lemma bshuf_blocked_wrap_fun_unfold fn inb outb size elem_size block_size :
  let bs := resolved_block_size elem_size block_size in
  bs mod 8 = 0 ->
  bshuf_blocked_wrap_fun fn inb outb size elem_size block_size =
  finish inb size elem_size
    (fold_left (fun s sz => block_step fn inb elem_size sz s)
               (block_sizes size bs) (0%Z, 0%Z, (ioc_init, outb))).
Proof.
  intros bs Hbs. unfold bshuf_blocked_wrap_fun. fold (resolved_block_size elem_size block_size).
  fold bs. unfold BSHUF_BLOCKED_MULT at 1. rewrite Hbs. cbn [Nat.eqb negb].
  unfold block_sizes. rewrite fold_left_app, fold_left_repeat.
  unfold for_loop. rewrite for_fuel_const by lia. rewrite Nat.sub_0_r.
  set (st := Nat.iter (size / bs) _ _).
  set (last := size mod bs - (size mod bs) mod BSHUF_BLOCKED_MULT).
  destruct (last =? 0); cbn [negb fold_left]; unfold finish;
    unfold ioc_get_in, ioc_get_out, ioc_set_next_in, ioc_set_next_out;
    cbn [next_in next_out];
    repeat match goal with
           | |- context [let '(_, _) := ?x in _] => destruct x
           end; reflexivity.
Qed.

Lemma default_block_size_mod8 elem_size :
  bshuf_default_block_size elem_size mod 8 = 0.
Proof.
  unfold bshuf_default_block_size, MAX, BSHUF_BLOCKED_MULT,
    BSHUF_MIN_RECOMMEND_BLOCK.
  destruct (_ <? _); [apply Nat.Div0.mod_mul|reflexivity].
Qed.

Lemma default_block_size_pos elem_size :
  128 <= bshuf_default_block_size elem_size.
Proof.
  unfold bshuf_default_block_size, MAX, BSHUF_BLOCKED_MULT,
    BSHUF_MIN_RECOMMEND_BLOCK.
  destruct (Nat.ltb_spec 128 (BSHUF_TARGET_BLOCK_SIZE_B / elem_size / 8 * 8));
    lia.
Qed.

(** A block size is valid when it is 0 or a multiple of 8. *)
Lemma resolved_block_size_ok elem_size block_size :
  block_size mod 8 = 0 ->
  resolved_block_size elem_size block_size mod 8 = 0 /\
  0 < resolved_block_size elem_size block_size.
Proof.
  intros H. unfold resolved_block_size.
  destruct (Nat.eqb_spec block_size 0) as [->|Hne].
  - split; [apply default_block_size_mod8|].
    pose proof (default_block_size_pos elem_size). lia.
  - split; [exact H|lia].
Qed.

Lemma block_sizes_ok size bs :
  bs mod 8 = 0 -> 0 < bs ->
  Forall (fun s => s mod 8 = 0 /\ 0 < s) (block_sizes size bs) /\
  list_sum (block_sizes size bs) = size - size mod 8.
Proof.
  intros Hbs Hpos. unfold block_sizes, BSHUF_BLOCKED_MULT.
  pose proof (Nat.div_mod_eq size bs) as E.
  pose proof (Nat.div_mod_eq bs 8) as Eb.
  pose proof (Nat.div_mod_eq (size mod bs) 8) as El.
  pose proof (Nat.mod_upper_bound (size mod bs) 8 ltac:(lia)) as Hl.
  assert (Em : size mod 8 = (size mod bs) mod 8).
  { rewrite E at 1. replace (bs * (size / bs) + size mod bs)
      with (size mod bs + (bs / 8 * (size / bs)) * 8) by nia.
    apply Nat.Div0.mod_add. }
  assert (Hsum : forall k, list_sum (repeat bs k) = bs * k).
  { induction k as [|k IH]; [cbn; lia|]. cbn [repeat].
    change (list_sum (bs :: repeat bs k)) with (bs + list_sum (repeat bs k)).
    rewrite IH. lia. }
  split.
  - apply Forall_app. split.
    + apply List.Forall_forall. intros s Hs. apply repeat_spec in Hs. subst s. lia.
    + destruct (Nat.eqb_spec (size mod bs - (size mod bs) mod 8) 0) as [E0|N0];
        [constructor|].
      constructor; [|constructor]. split; [|lia].
      replace (size mod bs - (size mod bs) mod 8) with ((size mod bs) / 8 * 8)
        by lia.
      apply Nat.Div0.mod_mul.
  - rewrite list_sum_app, Hsum.
    destruct (Nat.eqb_spec (size mod bs - (size mod bs) mod 8) 0) as [E0|N0];
      unfold list_sum; cbn [fold_right]; lia.
Qed.

(** ** Workers that map a block to a block of the same length *)

Lemma length_map_blocks g elem_size sizes : forall view,
  length (map_blocks g elem_size sizes view) = list_sum sizes * elem_size.
Proof.
  induction sizes as [|s r IH]; intros view; [reflexivity|].
  cbn [map_blocks]. rewrite length_app, length_tabulate, IH.
  change (list_sum (s :: r)) with (s + list_sum r). lia.
Qed.

Lemma length_splice o w outb :
  o + length w <= length outb -> length (splice o w outb) = length outb.
Proof.
  intros H. unfold splice.
  rewrite !length_app, length_take, length_drop. lia.
Qed.

Lemma splice_nil o outb : splice o [] outb = outb.
Proof.
  unfold splice. cbn [length app]. rewrite Nat.add_0_r. apply take_drop.
Qed.

Lemma splice_splice o w1 w2 outb :
  o + length w1 + length w2 <= length outb ->
  splice (o + length w1) w2 (splice o w1 outb) = splice o (w1 ++ w2) outb.
Proof.
  intros H. unfold splice.
  assert (Lt : length (take o outb) = o) by (rewrite length_take; lia).
  rewrite (app_assoc (take o outb) w1).
  rewrite take_app_length' by (rewrite length_app, Lt; lia).
  replace (o + length w1 + length w2)
    with (length (take o outb ++ w1) + length w2)
    by (rewrite length_app, Lt; lia).
  rewrite drop_app_add'  by reflexivity.
  rewrite drop_drop, length_app, <- !app_assoc.
  rewrite Nat.add_assoc. reflexivity.
Qed.

Lemma splice_0 w outb : splice 0 w outb = w ++ drop (length w) outb.
Proof. reflexivity. Qed.

Lemma ptr_view_nat buf n : ptr_view buf (Z.of_nat n) = drop n buf.
Proof. unfold ptr_view. rewrite Nat2Z.id. reflexivity. Qed.

Lemma ptr_update_nat buf n w rest :
  n + length w <= length buf -> rest = drop (length w) (drop n buf) ->
  ptr_update buf (Z.of_nat n) (w ++ rest) = splice n w buf.
Proof.
  intros H ->. unfold ptr_update, splice.
  rewrite Nat2Z.id, drop_drop. repeat f_equal; lia.
Qed.

Lemma bshuf_bitshuffle_block_map b :
  is_block_map (bshuf_bitshuffle_block b) g_bitshuffle.
Proof.
  intros inb outb a o size elem_size Hs He Hok Hlen Hsmall.
  unfold bshuf_bitshuffle_block, chain_at, ioc_get_in, ioc_get_out,
    ioc_set_next_in, ioc_set_next_out. cbn [next_in next_out].
  rewrite !ptr_view_nat.
  rewrite bshuf_trans_bit_elem_eq; try assumption.
  - rewrite ptr_update_nat.
    + rewrite <- !Nat2Z.inj_add. reflexivity.
    + rewrite length_tabulate. exact Hlen.
    + rewrite length_tabulate. reflexivity.
  - intros i Hi. rewrite rd_drop. apply Hok. exact Hi.
  - rewrite length_drop. lia.
Qed.

Lemma bshuf_bitunshuffle_block_map b :
  is_block_map (bshuf_bitunshuffle_block b) g_bitunshuffle.
Proof.
  intros inb outb a o size elem_size Hs He Hok Hlen Hsmall.
  unfold bshuf_bitunshuffle_block, chain_at, ioc_get_in, ioc_get_out,
    ioc_set_next_in, ioc_set_next_out. cbn [next_in next_out].
  rewrite !ptr_view_nat.
  rewrite bshuf_untrans_bit_elem_eq; try assumption.
  - rewrite ptr_update_nat.
    + rewrite <- !Nat2Z.inj_add. reflexivity.
    + rewrite length_tabulate. exact Hlen.
    + rewrite length_tabulate. reflexivity.
  - intros i Hi. rewrite rd_drop. apply Hok. exact Hi.
  - rewrite length_drop. lia.
Qed.

(** The blocks of a run, one after another. *)
Lemma fold_block_map fn g inb elem_size :
  is_block_map fn g -> 1 <= elem_size ->
  forall sizes a o cum outb,
  Forall (fun s => s mod 8 = 0 /\ 0 < s) sizes ->
  (forall i, i < list_sum sizes * elem_size -> byte_ok (rd inb (a + i))) ->
  o + list_sum sizes * elem_size <= length outb ->
  (Z.of_nat (cum + list_sum sizes * elem_size) < 2 ^ 63)%Z ->
  fold_left (fun s sz => block_step fn inb elem_size sz s) sizes
            (0%Z, Z.of_nat cum, (chain_at a o, outb)) =
  (0%Z, Z.of_nat (cum + list_sum sizes * elem_size),
   (chain_at (a + list_sum sizes * elem_size)
             (o + list_sum sizes * elem_size),
    splice o (map_blocks g elem_size sizes (drop a inb)) outb)).
Proof.
  intros Hfn He. induction sizes as [|s r IH]; intros a o cum outb Hall Hok Hlen Hsmall.
  - cbn [fold_left list_sum map_blocks]. unfold list_sum. cbn [fold_right].
    rewrite splice_nil, !Nat.mul_0_l, !Nat.add_0_r. reflexivity.
  - change (list_sum (s :: r)) with (s + list_sum r) in *.
    inversion Hall as [|? ? [Hs Hpos] Hr]; subst.
    cbn [fold_left]. unfold block_step at 2.
    rewrite (Hfn inb outb a o s elem_size); try assumption; try nia.
    2:{ intros i Hi. apply Hok. nia. }
    assert (E0 : (Z.of_nat (s * elem_size) <? 0)%Z = false)
      by (apply Z.ltb_ge; lia).
    rewrite E0. rewrite to_int64_small by nia.
    rewrite <- Nat2Z.inj_add.
    set (B := tabulate (g (drop a inb) s elem_size) (s * elem_size)).
    assert (LB : length B = s * elem_size) by apply length_tabulate.
    rewrite IH; try assumption.
    + cbn [map_blocks]. fold B.
      rewrite <- (splice_splice o B).
      * rewrite LB, drop_drop.
        replace (cum + s * elem_size + list_sum r * elem_size)
          with (cum + (s + list_sum r) * elem_size) by lia.
        replace (a + s * elem_size + list_sum r * elem_size)
          with (a + (s + list_sum r) * elem_size) by lia.
        replace (o + s * elem_size + list_sum r * elem_size)
          with (o + (s + list_sum r) * elem_size) by lia.
        reflexivity.
      * rewrite LB, length_map_blocks. lia.
    + intros i Hi. replace (a + s * elem_size + i) with (a + (s * elem_size + i)) by lia.
      apply Hok. lia.
    + rewrite length_splice by (rewrite LB; lia). lia.
    + lia.
Qed.

Lemma memcpy_eq dst src n :
  n <= length dst -> memcpy dst src n = tabulate (rd src) n ++ drop n dst.
Proof.
  intros H. unfold memcpy.
  apply (writes_full (rd src) n (fun o => memcpy_at o 0 src 0 n)); [|exact H].
  eapply writes_equiv; [|apply writes_memcpy_at; intros t _; reflexivity].
  intros p. cbv beta. lia.
Qed.

(** The framework over a worker that maps blocks: the blocks, then the
    leftover elements as they are, then what the output held. *)
Lemma bshuf_blocked_wrap_fun_map fn g inb outb size elem_size block_size :
  is_block_map fn g -> 1 <= elem_size -> block_size mod 8 = 0 ->
  (forall i, i < size * elem_size -> byte_ok (rd inb i)) ->
  size * elem_size <= length outb ->
  (Z.of_nat (size * elem_size) < 2 ^ 63)%Z ->
  let sizes := block_sizes size (resolved_block_size elem_size block_size) in
  let T := (size - size mod 8) * elem_size in
  bshuf_blocked_wrap_fun fn inb outb size elem_size block_size =
  (Z.of_nat (size * elem_size),
   map_blocks g elem_size sizes inb
   ++ tabulate (rd (drop T inb)) (size mod 8 * elem_size)
   ++ drop (size * elem_size) outb).
Proof.
  intros Hfn He Hbs Hok Hlen Hsmall sizes T.
  destruct (resolved_block_size_ok elem_size block_size Hbs) as [Hr8 Hrpos].
  destruct (block_sizes_ok size _ Hr8 Hrpos) as [Hall Hsum]. fold sizes in Hall, Hsum.
  pose proof (Nat.div_mod_eq size 8) as Ed.
  pose proof (Nat.mod_upper_bound size 8 ltac:(lia)) as Hm.
  assert (ET : T + size mod 8 * elem_size = size * elem_size) by (unfold T; nia).
  rewrite bshuf_blocked_wrap_fun_unfold by exact Hr8. fold sizes.
  change (0%Z, 0%Z, (ioc_init, outb))
    with (0%Z, Z.of_nat 0, (chain_at 0 0, outb)).
  rewrite (fold_block_map fn g inb elem_size Hfn He sizes 0 0 0 outb);
    try assumption; rewrite ?Hsum; fold T; try lia.
  2:{ intros i Hi. apply Hok. lia. }
  rewrite !Nat.add_0_l, drop_0.
  set (M := map_blocks g elem_size sizes inb).
  assert (LM : length M = T)
    by (unfold M; rewrite length_map_blocks, Hsum; reflexivity).
  unfold finish, chain_at, ioc_get_in, ioc_get_out, BSHUF_BLOCKED_MULT.
  cbn [Z.ltb Z.compare next_in next_out]. rewrite !ptr_view_nat.
  rewrite <- Nat2Z.inj_add, ET.
  rewrite to_size_t_small by (change (2 ^ 64)%Z with (2 * 2 ^ 63)%Z; lia).
  rewrite to_int64_small by lia.
  f_equal.
  assert (LS : length (splice 0 M outb) = length outb)
    by (apply length_splice; lia).
  rewrite memcpy_eq by (rewrite length_drop, LS; lia).
  rewrite ptr_update_nat.
  - rewrite <- LM at 1. rewrite (splice_splice 0 M).
    + rewrite splice_0, length_app, length_tabulate, LM, ET, <- app_assoc.
      reflexivity.
    + rewrite length_tabulate. lia.
  - rewrite length_tabulate, LS. lia.
  - rewrite length_tabulate. reflexivity.
Qed.

Lemma tabulate_app g n m :
  tabulate g n ++ tabulate (fun p => g (n + p)) m = tabulate g (n + m).
Proof.
  apply rd_ext.
  - rewrite length_app, !length_tabulate. reflexivity.
  - intros p Hp. rewrite length_app, !length_tabulate in Hp.
    rewrite <- (app_nil_r (tabulate g (n + m))), (rd_tabulate g (n + m)) by exact Hp.
    destruct (Nat.lt_ge_cases p n) as [Hlt|Hge].
    + apply rd_tabulate. exact Hlt.
    + rewrite rd_tabulate_ge by exact Hge.
      rewrite <- (app_nil_r (tabulate _ m)), rd_tabulate by lia.
      f_equal. lia.
Qed.

Lemma rd_app_r (l1 l2 : list Z) p : rd (l1 ++ l2) (length l1 + p) = rd l2 p.
Proof. unfold rd. apply app_nth2_plus. Qed.

Lemma rd_app_l (l1 l2 : list Z) p : p < length l1 -> rd (l1 ++ l2) p = rd l1 p.
Proof. intros H. unfold rd. apply app_nth1. exact H. Qed.

Lemma bytes_ok_tabulate g n :
  (forall p, p < n -> byte_ok (g p)) -> bytes_ok (tabulate g n).
Proof.
  intros H. unfold bytes_ok, tabulate. apply List.Forall_forall.
  intros v Hv. apply in_map_iff in Hv. destruct Hv as (p & <- & Hp).
  apply in_seq in Hp. apply H. lia.
Qed.

Lemma bytes_ok_map_blocks_bitshuffle elem_size sizes : forall view,
  bytes_ok (map_blocks g_bitshuffle elem_size sizes view).
Proof.
  induction sizes as [|s r IH]; intros view; [constructor|].
  cbn [map_blocks]. unfold bytes_ok. apply List.Forall_app. split.
  - apply bytes_ok_tabulate. intros p _. apply gather8_ok.
  - apply IH.
Qed.

(** Block by block, the inverse undoes the shuffle. *)
Lemma map_blocks_round_trip elem_size : 1 <= elem_size ->
  forall sizes x rest,
  Forall (fun s => s mod 8 = 0 /\ 0 < s) sizes ->
  (forall p, p < list_sum sizes * elem_size -> byte_ok (rd x p)) ->
  map_blocks g_bitunshuffle elem_size sizes
    (map_blocks g_bitshuffle elem_size sizes x ++ rest)
  = tabulate (rd x) (list_sum sizes * elem_size).
Proof.
  intros He. induction sizes as [|s r IH]; intros x rest Hall Hok; [reflexivity|].
  change (list_sum (s :: r)) with (s + list_sum r) in *.
  inversion Hall as [|? ? [Hs Hpos] Hr]; subst.
  cbn [map_blocks]. rewrite <- !app_assoc.
  rewrite drop_app_length' by (symmetry; apply length_tabulate).
  rewrite IH; [|exact Hr|intros p Hp; rewrite rd_drop; apply Hok; lia].
  rewrite Nat.mul_add_distr_r, <- tabulate_app. f_equal.
  - apply tabulate_ext. intros p Hp.
    apply bitunshuffle_bitshuffle; try assumption. apply Hok. lia.
  - apply tabulate_ext. intros p _. apply rd_drop.
Qed.

(** Unshuffling what the shuffle produced gives the input back, for every
    size: the elements beyond the last multiple of 8 are copied both
    ways. *)
Lemma bshuf_bitunshuffle_bitshuffle b x out1 out2 size elem_size block_size :
  1 <= elem_size -> block_size mod 8 = 0 ->
  bytes_ok x -> length x = size * elem_size ->
  size * elem_size <= length out1 -> size * elem_size <= length out2 ->
  (Z.of_nat (size * elem_size) < 2 ^ 63)%Z ->
  fst (bshuf_bitshuffle b x out1 size elem_size block_size)
    = Z.of_nat (size * elem_size) /\
  bshuf_bitunshuffle b
    (snd (bshuf_bitshuffle b x out1 size elem_size block_size))
    out2 size elem_size block_size
  = (Z.of_nat (size * elem_size), x ++ drop (size * elem_size) out2).
Proof.
  intros He Hbs Hok Hlx Hl1 Hl2 Hsmall.
  destruct (resolved_block_size_ok elem_size block_size Hbs) as [Hr8 Hrpos].
  destruct (block_sizes_ok size _ Hr8 Hrpos) as [Hall Hsum].
  pose proof (Nat.div_mod_eq size 8) as Ed.
  pose proof (Nat.mod_upper_bound size 8 ltac:(lia)) as Hm.
  set (T := (size - size mod 8) * elem_size).
  assert (ET : T + size mod 8 * elem_size = size * elem_size) by (unfold T; nia).
  unfold bshuf_bitshuffle, bshuf_bitunshuffle.
  rewrite (bshuf_blocked_wrap_fun_map _ _ x out1 size elem_size block_size
             (bshuf_bitshuffle_block_map b)); try assumption.
  2:{ intros i _. apply rd_bytes_ok. exact Hok. }
  cbn [fst snd]. split; [reflexivity|].
  set (sizes := block_sizes size (resolved_block_size elem_size block_size)) in *.
  set (M := map_blocks g_bitshuffle elem_size sizes x).
  set (L := tabulate (rd (drop T x)) (size mod 8 * elem_size)).
  assert (LM : length M = T)
    by (unfold M; rewrite length_map_blocks, Hsum; reflexivity).
  assert (LL : length L = size mod 8 * elem_size) by apply length_tabulate.
  rewrite (bshuf_blocked_wrap_fun_map _ _ _ out2 size elem_size block_size
             (bshuf_bitunshuffle_block_map b)); try assumption.
  - fold sizes. fold T. fold M. f_equal. rewrite app_assoc. f_equal.
    unfold M. rewrite map_blocks_round_trip; try assumption.
    2:{ intros p _. apply rd_bytes_ok. exact Hok. }
    rewrite Hsum. fold T. fold M.
    rewrite <- (tabulate_rd x) at 3. rewrite Hlx, <- ET, <- tabulate_app.
    f_equal. apply tabulate_ext. intros p Hp.
    rewrite <- (rd_drop x T p), (rd_drop (M ++ _)).
    replace (T + p) with (length M + p) by (rewrite LM; reflexivity).
    rewrite rd_app_r. unfold L. apply rd_tabulate. exact Hp.
  - intros i Hi.
    rewrite app_assoc, rd_app_l.
    2:{ rewrite length_app, LM, length_tabulate, ET. exact Hi. }
    apply rd_bytes_ok. unfold bytes_ok.
    apply List.Forall_app. split; [apply bytes_ok_map_blocks_bitshuffle|].
    apply bytes_ok_tabulate. intros p _. rewrite rd_drop.
    apply rd_bytes_ok. exact Hok.
Qed.

(** * The LZ4 container *)

Lemma to_uint32_small z : (0 <= z < 2 ^ 32)%Z -> to_uint32 z = z.
Proof. intros H. unfold to_uint32, wrap_unsigned. apply Z.mod_small. exact H. Qed.

Lemma to_int32_small z : (- 2 ^ 31 <= z < 2 ^ 31)%Z -> to_int32 z = z.
Proof.
  intros H. unfold to_int32, wrap_signed.
  change (2 ^ (32 - 1))%Z with (2 ^ 31)%Z.
  rewrite Z.mod_small; [lia|]. change (2 ^ 32)%Z with (2 * 2 ^ 31)%Z. lia.
Qed.


Lemma bshuf_read_uint32_BE_eq (buf : list Z) :
  byte_ok (rd buf 0) -> byte_ok (rd buf 1) ->
  byte_ok (rd buf 2) -> byte_ok (rd buf 3) ->
  bshuf_read_uint32_BE buf
  = BE32 (rd buf 0) (rd buf 1) (rd buf 2) (rd buf 3).
Proof.
  unfold byte_ok, BE32. intros H0 H1 H2 H3.
  unfold bshuf_read_uint32_BE. cbn [fold_left fst].
  change (to_uint32 (Z.shiftl 1 8)) with 256%Z.
  change (to_uint32 (1 * 256)) with 256%Z.
  change (to_uint32 (256 * 256)) with 65536%Z.
  change (to_uint32 (65536 * 256)) with 16777216%Z.
  rewrite (to_uint32_small (0 + rd buf 3 * 1)) by lia.
  rewrite (to_uint32_small (0 + rd buf 3 * 1 + rd buf 2 * 256)) by lia.
  rewrite (to_uint32_small (0 + rd buf 3 * 1 + rd buf 2 * 256
                            + rd buf 1 * 65536)) by lia.
  rewrite to_uint32_small by lia. lia.
Qed.


(** The four bytes [bshuf_write_uint32_BE] stores. *)
Lemma bshuf_write_uint32_BE_eq (buf : list Z) (num : Z) :
  (0 <= num < 2 ^ 32)%Z -> 4 <= length buf ->
  bshuf_write_uint32_BE buf num
  = [(num / 2 ^ 24)%Z; (num / 2 ^ 16 mod 256)%Z; (num / 2 ^ 8 mod 256)%Z;
     (num mod 256)%Z] ++ drop 4 buf.
Proof.
  intros Hn Hl. unfold bshuf_write_uint32_BE. cbn [fold_left snd].
  change (to_uint32 (Z.shiftl 1 8)) with 256%Z.
  rewrite (to_uint32_small num) by exact Hn.
  unfold to_uint8, wrap_unsigned. change (2 ^ 8)%Z with 256%Z.
  rewrite !Z.mod_mod by lia.
  rewrite !Z.div_div by lia.
  change (256 * 256)%Z with (2 ^ 16)%Z. change (2 ^ 16 * 256)%Z with (2 ^ 24)%Z.
  change 256%Z with (2 ^ 8)%Z at 2.
  rewrite (Z.mod_small (num / 2 ^ 24)).
  2:{ split; [apply Z.div_pos; lia|]. apply Z.div_lt_upper_bound; lia. }
  destruct buf as [|a0 [|a1 [|a2 [|a3 rest]]]]; cbn [length] in Hl; try lia.
  reflexivity.
Qed.

(** Reading a header back gives the number written. *)
Lemma bshuf_read_write_uint32_BE (buf : list Z) (num : Z) :
  (0 <= num < 2 ^ 32)%Z -> 4 <= length buf ->
  bshuf_read_uint32_BE (bshuf_write_uint32_BE buf num) = num.
Proof.
  intros Hn Hl. rewrite bshuf_write_uint32_BE_eq by assumption.
  assert (B : forall z, byte_ok (z mod 256))
    by (intros z; unfold byte_ok; apply Z.mod_pos_bound; lia).
  assert (B0 : byte_ok (num / 2 ^ 24)).
  { unfold byte_ok. split; [apply Z.div_pos; lia|].
    apply Z.div_lt_upper_bound; lia. }
  rewrite bshuf_read_uint32_BE_eq; cbn [app rd nth]; try apply B; try exact B0.
  unfold BE32.
  pose proof (Z.div_mod num (2 ^ 8) ltac:(lia)) as E1.
  pose proof (Z.div_mod (num / 2 ^ 8) (2 ^ 8) ltac:(lia)) as E2.
  pose proof (Z.div_mod (num / 2 ^ 16) (2 ^ 8) ltac:(lia)) as E3.
  assert (D2 : (num / 2 ^ 8 / 2 ^ 8 = num / 2 ^ 16)%Z)
    by (rewrite Z.div_div by lia; reflexivity).
  assert (D3 : (num / 2 ^ 16 / 2 ^ 8 = num / 2 ^ 24)%Z)
    by (rewrite Z.div_div by lia; reflexivity).
  rewrite D2 in E2. rewrite D3 in E3.
  change 256%Z with (2 ^ 8)%Z.
  lia.
Qed.

Lemma lz4_codec_compress_ok lz limit :
  lz4_codec_ok lz limit -> lz4_compress_ok lz limit.
Proof.
  intros H src Hok Hpos Hlim Hsmall.
  apply (H src [] Hok Hpos Hlim Hsmall).
Qed.

Lemma length_header c : length (header c) = 4.
Proof. reflexivity. Qed.

Lemma bshuf_read_uint32_BE_header c rest :
  (0 <= c < 2 ^ 32)%Z -> bshuf_read_uint32_BE (header c ++ rest) = c.
Proof.
  intros Hc.
  rewrite <- (bshuf_read_write_uint32_BE (repeat 0%Z 4) c) at 2
    by (cbn [length repeat]; lia || exact Hc).
  rewrite bshuf_write_uint32_BE_eq by (cbn [length repeat]; lia || exact Hc).
  reflexivity.
Qed.

Lemma length_lz4_record lz S :
  length (lz4_record lz S)
  = 4 + Z.to_nat (fst (LZ4_compress lz S (Z.of_nat (length S)))).
Proof.
  unfold lz4_record. cbv zeta. rewrite length_app, length_header, length_tabulate.
  reflexivity.
Qed.

Lemma rd_splice o w outb p :
  o + length w <= length outb ->
  rd (splice o w outb) p
  = if p <? o then rd outb p
    else if p <? o + length w then rd w (p - o) else rd outb p.
Proof.
  intros H. unfold splice.
  assert (Lt : length (take o outb) = o) by (rewrite length_take; lia).
  destruct (Nat.ltb_spec p o) as [H1|H1].
  - rewrite rd_app_l by lia. apply rd_take. exact H1.
  - replace p with (length (take o outb) + (p - o)) at 1 by lia.
    rewrite rd_app_r.
    destruct (Nat.ltb_spec p (o + length w)) as [H2|H2].
    + apply rd_app_l. lia.
    + replace (p - o) with (length w + (p - o - length w)) by lia.
      rewrite rd_app_r, rd_drop. f_equal. lia.
Qed.

Lemma memcpy_at_eq dst doff src n :
  doff + n <= length dst ->
  memcpy_at dst doff src 0 n = splice doff (tabulate (rd src) n) dst.
Proof.
  intros H.
  assert (W : writes (fun p => rd src (p - doff))
                (fun p => doff <= p < doff + n)
                (fun o => memcpy_at o doff src 0 n)).
  { apply writes_memcpy_at. intros t _. f_equal. lia. }
  destruct (W dst) as [L Hw].
  apply rd_ext.
  - rewrite L, length_splice by (rewrite length_tabulate; exact H). reflexivity.
  - intros p Hp. rewrite L in Hp.
    rewrite rd_splice, length_tabulate by (rewrite length_tabulate; exact H).
    destruct (Hw p) as [Hk Hc].
    destruct (Nat.ltb_spec p doff) as [H1|H1].
    + destruct Hk as [E|[Hr _]]; [exact E|lia].
    + destruct (Nat.ltb_spec p (doff + n)) as [H2|H2].
      * rewrite Hc by lia.
        rewrite <- (app_nil_r (tabulate _ _)), rd_tabulate by lia. reflexivity.
      * destruct Hk as [E|[Hr _]]; [exact E|lia].
Qed.

Lemma length_memcpy_at dst doff src soff n :
  length (memcpy_at dst doff src soff n) = length dst.
Proof.
  assert (W : writes (fun p => rd src (soff + (p - doff)))
                (fun p => doff <= p < doff + n)
                (fun o => memcpy_at o doff src soff n)).
  { apply writes_memcpy_at. intros t _. f_equal. lia. }
  apply (W dst).
Qed.

Lemma length_bshuf_write_uint32_BE buf num :
  length (bshuf_write_uint32_BE buf num) = length buf.
Proof.
  unfold bshuf_write_uint32_BE. cbn [fold_left snd].
  rewrite !length_insert. reflexivity.
Qed.

(** One block compressed: the count and the chain never depend on the
    output buffer; the record is in place when the buffer has room. *)
Lemma bshuf_compress_lz4_block_eq b lz inb outb a o size elem_size :
  size mod 8 = 0 -> 0 < size -> 1 <= elem_size ->
  (forall i, i < size * elem_size -> byte_ok (rd inb (a + i))) ->
  (Z.of_nat (size * elem_size) < 2 ^ 31)%Z ->
  let S := tabulate (g_bitshuffle (drop a inb) size elem_size)
             (size * elem_size) in
  (0 <= fst (LZ4_compress lz S (Z.of_nat (size * elem_size))) < 2 ^ 31)%Z ->
  let rec := lz4_record lz S in
  exists out',
    bshuf_compress_lz4_block b lz inb (chain_at a o, outb) size elem_size
    = (Z.of_nat (length rec),
       (chain_at (a + size * elem_size) (o + length rec), out')) /\
    length out' = length outb /\
    (o + length rec <= length outb -> out' = splice o rec outb).
Proof.
  intros Hs Hpos He Hok Hsmall S Hc rec.
  assert (LS : length S = size * elem_size) by apply length_tabulate.
  unfold bshuf_compress_lz4_block, chain_at, ioc_get_in, ioc_get_out,
    ioc_set_next_in, ioc_set_next_out. cbn [next_in next_out].
  rewrite ptr_view_nat.
  rewrite bshuf_trans_bit_elem_eq; try assumption.
  2:{ intros i Hi. rewrite rd_drop. apply Hok. exact Hi. }
  2:{ rewrite length_malloc. lia. }
  2:{ lia. }
  rewrite drop_all_malloc, app_nil_r. fold S.
  assert (E0 : (Z.of_nat (size * elem_size) <? 0)%Z = false)
    by (apply Z.ltb_ge; lia).
  rewrite E0. rewrite to_int32_small by lia.
  assert (Erec : rec = header (fst (LZ4_compress lz S (Z.of_nat (size * elem_size))))
                       ++ tabulate (rd (snd (LZ4_compress lz S (Z.of_nat (size * elem_size)))))
                            (Z.to_nat (fst (LZ4_compress lz S (Z.of_nat (size * elem_size)))))).
  { unfold rec, lz4_record. cbv zeta. rewrite LS. reflexivity. }
  destruct (LZ4_compress lz S (Z.of_nat (size * elem_size))) as [c d] eqn:Ecd.
  cbn [fst snd] in Hc, Erec.
  assert (Lrec : length rec = 4 + Z.to_nat c).
  { rewrite Erec, length_app, length_header, length_tabulate. reflexivity. }
  unfold CHECK_ERR_FREE_LZ.
  assert (E1 : (c <? 0)%Z = false) by (apply Z.ltb_ge; lia).
  rewrite E1. rewrite ptr_view_nat.
  assert (Ec : Z.of_nat (4 + Z.to_nat c) = (c + 4)%Z) by lia.
  assert (Eo : Z.of_nat (o + (4 + Z.to_nat c)) = (Z.of_nat o + c + 4)%Z) by lia.
  assert (Ea : Z.of_nat (a + size * elem_size)
               = (Z.of_nat a + Z.of_nat (size * elem_size))%Z) by lia.
  rewrite Lrec, Ec, Eo, Ea.
  eexists. split; [reflexivity|]. split.
  - unfold ptr_update. rewrite Nat2Z.id, length_app, length_take,
      length_memcpy_at, length_bshuf_write_uint32_BE, length_drop. lia.
  - intros Hroom.
    unfold ptr_update. rewrite Nat2Z.id.
    rewrite bshuf_write_uint32_BE_eq by (rewrite ?length_drop; lia).
    fold (header c).
    rewrite memcpy_at_eq
      by (rewrite length_app, length_header, !length_drop; lia).
    unfold splice at 1. rewrite length_tabulate.
    change 4 with (length (header c)) at 1 2.
    rewrite take_app_length.
    rewrite drop_app_add' by reflexivity.
    rewrite !drop_drop. unfold splice. rewrite Erec, length_app, length_header,
      length_tabulate, <- !app_assoc.
    repeat f_equal; lia.
Qed.

Lemma block_step_ok fn inb elem_size size cum C outb count C' out' :
  fn inb (C, outb) size elem_size = (Z.of_nat count, (C', out')) ->
  (Z.of_nat (cum + count) < 2 ^ 63)%Z ->
  block_step fn inb elem_size size (0%Z, Z.of_nat cum, (C, outb))
  = (0%Z, Z.of_nat (cum + count), (C', out')).
Proof.
  intros E Hsmall. unfold block_step. rewrite E.
  assert (E0 : (Z.of_nat count <? 0)%Z = false) by (apply Z.ltb_ge; lia).
  rewrite E0, to_int64_small by lia. rewrite Nat2Z.inj_add. reflexivity.
Qed.

(** The blocks of a compression run, one after another. *)
Lemma fold_compress b lz limit inb elem_size :
  lz4_compress_ok lz limit -> 1 <= elem_size ->
  forall sizes a o cum outb,
  Forall (fun s => s mod 8 = 0 /\ 0 < s) sizes ->
  Forall (fun s => (Z.of_nat (s * elem_size) < 2 ^ 31)%Z) sizes ->
  Forall (fun s => s * elem_size <= limit) sizes ->
  (forall i, i < list_sum sizes * elem_size -> byte_ok (rd inb (a + i))) ->
  (Z.of_nat (cum + length (compress_blocks lz elem_size sizes (drop a inb)))
   < 2 ^ 63)%Z ->
  exists out',
    fold_left
      (fun s sz => block_step (bshuf_compress_lz4_block b lz) inb elem_size sz s)
      sizes (0%Z, Z.of_nat cum, (chain_at a o, outb))
    = (0%Z,
       Z.of_nat (cum + length (compress_blocks lz elem_size sizes (drop a inb))),
       (chain_at (a + list_sum sizes * elem_size)
                 (o + length (compress_blocks lz elem_size sizes (drop a inb))),
        out')) /\
    length out' = length outb /\
    (o + length (compress_blocks lz elem_size sizes (drop a inb))
       <= length outb ->
     out' = splice o (compress_blocks lz elem_size sizes (drop a inb)) outb).
Proof.
  intros Hlz He. induction sizes as [|s r IH];
    intros a o cum outb Hall Hb Hlim Hok Hsmall.
  - exists outb. cbn [fold_left compress_blocks length].
    change (list_sum []) with 0. rewrite !Nat.mul_0_l, !Nat.add_0_r.
    split; [reflexivity|]. split; [reflexivity|].
    intros _. symmetry. apply splice_nil.
  - change (list_sum (s :: r)) with (s + list_sum r) in *.
    inversion Hall as [|? ? [Hs Hpos] Hr]; subst.
    inversion Hb as [|? ? Hsb Hrb]; subst.
    inversion Hlim as [|? ? Hsl Hrl]; subst.
    cbn [compress_blocks] in *.
    set (rcd := lz4_record lz
                  (tabulate (g_bitshuffle (drop a inb) s elem_size)
                     (s * elem_size))) in *.
    rewrite drop_drop in *.
    set (rest := compress_blocks lz elem_size r
                   (drop (a + s * elem_size) inb)) in *.
    rewrite length_app in *.
    assert (Hc : (0 <= fst (LZ4_compress lz
                              (tabulate (g_bitshuffle (drop a inb) s elem_size)
                                 (s * elem_size))
                              (Z.of_nat (s * elem_size))) < 2 ^ 31)%Z).
    { pose proof (Hlz (tabulate (g_bitshuffle (drop a inb) s elem_size)
                         (s * elem_size))) as H.
      rewrite length_tabulate in H. apply H; try assumption; [|nia].
      apply bytes_ok_tabulate. intros p _. apply gather8_ok. }
    destruct (bshuf_compress_lz4_block_eq b lz inb outb a o s elem_size
                Hs Hpos He ltac:(intros i Hi; apply Hok; nia) Hsb Hc)
      as (out1 & E1 & L1 & R1).
    fold rcd in E1, R1.
    assert (Hs1 : (Z.of_nat (cum + length rcd) < 2 ^ 63)%Z)
      by (clear - Hsmall; clearbody rcd rest; lia).
    cbn [fold_left]. rewrite (block_step_ok _ _ _ _ _ _ _ _ _ _ E1) by exact Hs1.
    destruct (IH (a + s * elem_size) (o + length rcd) (cum + length rcd) out1
                Hr Hrb Hrl) as (out' & E' & L' & R').
    { intros i Hi. replace (a + s * elem_size + i)
        with (a + (s * elem_size + i)) by lia. apply Hok. lia. }
    { fold rest. clear - Hsmall. clearbody rcd rest. lia. }
    fold rest in E', R'.
    exists out'. split; [|split].
    + rewrite E', Nat.mul_add_distr_r, !Nat.add_assoc. reflexivity.
    + congruence.
    + intros Hroom.
      assert (Hr1 : o + length rcd <= length outb)
        by (clear - Hroom; clearbody rcd rest; lia).
      assert (Hr2 : o + length rcd + length rest <= length out1)
        by (clear - Hroom L1; clearbody rcd rest; lia).
      rewrite (R' Hr2), (R1 Hr1).
      apply splice_splice. rewrite <- L1. exact Hr2.
Qed.

(** The end of a run that did not fail: the count, and the leftover
    bytes in place when the buffer has room. *)
Lemma finish_eq inb size elem_size cum a o outb :
  (Z.of_nat (cum + size mod 8 * elem_size) < 2 ^ 63)%Z ->
  exists out',
    finish inb size elem_size (0%Z, Z.of_nat cum, (chain_at a o, outb))
    = (Z.of_nat (cum + size mod 8 * elem_size), out') /\
    length out' = length outb /\
    (o + size mod 8 * elem_size <= length outb ->
     out' = splice o (tabulate (rd (drop a inb)) (size mod 8 * elem_size))
              outb).
Proof.
  intros Hsmall.
  unfold finish, chain_at, ioc_get_in, ioc_get_out, BSHUF_BLOCKED_MULT.
  cbn [Z.ltb Z.compare next_in next_out]. rewrite !ptr_view_nat.
  rewrite <- Nat2Z.inj_add.
  rewrite to_size_t_small by (change (2 ^ 64)%Z with (2 * 2 ^ 63)%Z; lia).
  rewrite to_int64_small by lia.
  eexists. split; [reflexivity|]. split.
  - unfold ptr_update, memcpy. rewrite Nat2Z.id, length_app, length_take,
      length_memcpy_at, length_drop. lia.
  - intros Hroom. rewrite memcpy_eq by (rewrite length_drop; lia).
    apply ptr_update_nat.
    + rewrite length_tabulate. exact Hroom.
    + rewrite length_tabulate. reflexivity.
Qed.

(** One record decompressed, in the fast mode: the block comes back. *)
Lemma bshuf_decompress_lz4_block_eq b lz limit inb outb a o size elem_size
    vx rest :
  size mod 8 = 0 -> 0 < size -> 1 <= elem_size ->
  (Z.of_nat (size * elem_size) < 2 ^ 31)%Z ->
  lz4_codec_ok lz limit -> size * elem_size <= limit ->
  (forall i, i < size * elem_size -> byte_ok (rd vx i)) ->
  drop a inb
  = lz4_record lz (tabulate (g_bitshuffle vx size elem_size)
                     (size * elem_size)) ++ rest ->
  o + size * elem_size <= length outb ->
  bshuf_decompress_lz4_block b true lz inb (chain_at a o, outb) size elem_size
  = (Z.of_nat (length (lz4_record lz
                         (tabulate (g_bitshuffle vx size elem_size)
                            (size * elem_size)))),
     (chain_at (a + length (lz4_record lz
                              (tabulate (g_bitshuffle vx size elem_size)
                                 (size * elem_size))))
               (o + size * elem_size),
      splice o (tabulate (rd vx) (size * elem_size)) outb)).
Proof.
  intros Hs Hpos He Hsmall Hlz Hlim Hok Hview Hroom.
  set (S := tabulate (g_bitshuffle vx size elem_size) (size * elem_size)) in *.
  assert (LS : length S = size * elem_size) by apply length_tabulate.
  assert (OkS : bytes_ok S).
  { apply bytes_ok_tabulate. intros p _. apply gather8_ok. }
  destruct (Hlz S rest OkS ltac:(rewrite LS; nia) ltac:(rewrite LS; exact Hlim)
              ltac:(rewrite LS; exact Hsmall)) as [Hc Hdec].
  rewrite LS in Hc, Hdec.
  rewrite length_lz4_record, LS.
  unfold lz4_record in Hview. cbv zeta in Hview. rewrite LS in Hview.
  destruct (LZ4_compress lz S (Z.of_nat (size * elem_size))) as [c d].
  cbn [fst snd] in *.
  unfold bshuf_decompress_lz4_block, chain_at, ioc_get_in, ioc_get_out,
    ioc_set_next_in, ioc_set_next_out. cbn [next_in next_out].
  rewrite ptr_view_nat, Hview, <- app_assoc.
  rewrite bshuf_read_uint32_BE_header by lia.
  rewrite !to_int32_small by lia.
  replace (Z.of_nat a + 4)%Z with (Z.of_nat (a + 4)) by lia.
  rewrite !ptr_view_nat.
  replace (drop (a + 4) inb) with (drop 4 (drop a inb))
    by (rewrite drop_drop; reflexivity).
  rewrite Hview, <- app_assoc.
  change 4 with (length (header c)) at 1. rewrite drop_app_length.
  rewrite Hdec. unfold CHECK_ERR_FREE_LZ.
  assert (E1 : (c <? 0)%Z = false) by (apply Z.ltb_ge; lia).
  rewrite E1, Z.eqb_refl. cbn [negb].
  rewrite bshuf_untrans_bit_elem_eq; try assumption.
  2:{ intros i _. apply rd_bytes_ok. exact OkS. }
  2:{ rewrite length_drop. lia. }
  2:{ lia. }
  assert (E0 : (Z.of_nat (size * elem_size) <? 0)%Z = false)
    by (apply Z.ltb_ge; lia).
  rewrite E0.
  rewrite ptr_update_nat.
  2:{ rewrite length_tabulate. exact Hroom. }
  2:{ rewrite length_tabulate. reflexivity. }
  f_equal; [lia|]. f_equal.
  - f_equal; lia.
  - f_equal. apply tabulate_ext. intros p Hp.
    rewrite <- (app_nil_r S). unfold S.
    apply bitunshuffle_bitshuffle; try assumption. apply Hok. exact Hp.
Qed.

(** The records of a decompression run, one after another. *)
Lemma fold_decompress b lz limit inb elem_size :
  lz4_codec_ok lz limit -> 1 <= elem_size ->
  forall sizes a o cum outb vx rest,
  Forall (fun s => s mod 8 = 0 /\ 0 < s) sizes ->
  Forall (fun s => (Z.of_nat (s * elem_size) < 2 ^ 31)%Z) sizes ->
  Forall (fun s => s * elem_size <= limit) sizes ->
  (forall i, i < list_sum sizes * elem_size -> byte_ok (rd vx i)) ->
  drop a inb = compress_blocks lz elem_size sizes vx ++ rest ->
  o + list_sum sizes * elem_size <= length outb ->
  (Z.of_nat (cum + length (compress_blocks lz elem_size sizes vx))
   < 2 ^ 63)%Z ->
  fold_left
    (fun s sz =>
       block_step (bshuf_decompress_lz4_block b true lz) inb elem_size sz s)
    sizes (0%Z, Z.of_nat cum, (chain_at a o, outb))
  = (0%Z,
     Z.of_nat (cum + length (compress_blocks lz elem_size sizes vx)),
     (chain_at (a + length (compress_blocks lz elem_size sizes vx))
               (o + list_sum sizes * elem_size),
      splice o (tabulate (rd vx) (list_sum sizes * elem_size)) outb)).
Proof.
  intros Hlz He. induction sizes as [|s r IH];
    intros a o cum outb vx rest Hall Hb Hlim Hok Hview Hroom Hsmall.
  - cbn [fold_left compress_blocks length].
    change (list_sum []) with 0. rewrite !Nat.mul_0_l, !Nat.add_0_r.
    change (tabulate (rd vx) 0) with (@nil Z). rewrite splice_nil. reflexivity.
  - change (list_sum (s :: r)) with (s + list_sum r) in *.
    inversion Hall as [|? ? [Hs Hpos] Hr]; subst.
    inversion Hb as [|? ? Hsb Hrb]; subst.
    inversion Hlim as [|? ? Hsl Hrl]; subst.
    cbn [compress_blocks] in *.
    set (rcd := lz4_record lz
                  (tabulate (g_bitshuffle vx s elem_size) (s * elem_size)))
      in *.
    set (rs := compress_blocks lz elem_size r (drop (s * elem_size) vx)) in *.
    rewrite length_app in *. rewrite <- app_assoc in Hview.
    assert (Hn : s * elem_size + list_sum r * elem_size
                 = (s + list_sum r) * elem_size) by lia.
    pose proof (bshuf_decompress_lz4_block_eq b lz limit inb outb a o s
                  elem_size vx (rs ++ rest) Hs Hpos He Hsb Hlz Hsl
                  ltac:(intros i Hi; apply Hok; lia) Hview ltac:(lia)) as E1.
    fold rcd in E1.
    assert (Hs1 : (Z.of_nat (cum + length rcd) < 2 ^ 63)%Z)
      by (clear - Hsmall; clearbody rcd rs; lia).
    cbn [fold_left]. rewrite (block_step_ok _ _ _ _ _ _ _ _ _ _ E1) by exact Hs1.
    rewrite (IH (a + length rcd) (o + s * elem_size) (cum + length rcd) _
               (drop (s * elem_size) vx) rest Hr Hrb Hrl).
    + fold rs.
      replace (o + s * elem_size)
        with (o + length (tabulate (rd vx) (s * elem_size)))
        by (rewrite length_tabulate; reflexivity).
      rewrite splice_splice
        by (rewrite !length_tabulate; lia).
      rewrite length_tabulate.
      rewrite (tabulate_ext (rd (drop (s * elem_size) vx))
                 (fun p => rd vx (s * elem_size + p)))
        by (intros p _; apply rd_drop).
      rewrite tabulate_app, <- !Nat.add_assoc, Hn. reflexivity.
    + intros i Hi. rewrite rd_drop. apply Hok. lia.
    + rewrite <- drop_drop, Hview.
      rewrite drop_app_length. reflexivity.
    + rewrite length_splice by (rewrite length_tabulate; lia). lia.
    + fold rs. clear - Hsmall. clearbody rcd rs. lia.
Qed.

Lemma block_sizes_le size bs :
  0 < bs -> Forall (fun s => s <= bs) (block_sizes size bs).
Proof.
  intros Hpos. unfold block_sizes. apply List.Forall_app. split.
  - apply List.Forall_forall. intros s Hs. apply repeat_spec in Hs. lia.
  - pose proof (Nat.mod_upper_bound size bs ltac:(lia)).
    destruct (_ =? 0); repeat constructor. lia.
Qed.

Lemma length_block_sizes size bs :
  0 < bs -> length (block_sizes size bs) <= size + 1.
Proof.
  intros Hpos. unfold block_sizes.
  rewrite length_app, repeat_length.
  assert (size / bs <= size) by (apply Nat.Div0.div_le_upper_bound; nia).
  destruct (_ =? 0); cbn [length]; lia.
Qed.

Lemma length_compress_blocks_le lz limit elem_size :
  lz4_compress_ok lz limit -> 1 <= elem_size ->
  forall sizes view,
  Forall (fun s => s mod 8 = 0 /\ 0 < s) sizes ->
  Forall (fun s => (Z.of_nat (s * elem_size) < 2 ^ 31)%Z) sizes ->
  Forall (fun s => s * elem_size <= limit) sizes ->
  (Z.of_nat (length (compress_blocks lz elem_size sizes view))
   <= Z.of_nat (length sizes) * (2 ^ 31 + 3))%Z.
Proof.
  intros Hlz He. induction sizes as [|s r IH]; intros view Hall Hb Hlim.
  - cbn [compress_blocks length]. lia.
  - inversion Hall as [|? ? [Hs Hpos] Hr]; subst.
    inversion Hb as [|? ? Hsb Hrb]; subst.
    inversion Hlim as [|? ? Hsl Hrl]; subst.
    cbn [compress_blocks]. rewrite length_app, length_lz4_record.
    set (S := tabulate (g_bitshuffle view s elem_size) (s * elem_size)).
    assert (LS : length S = s * elem_size) by apply length_tabulate.
    assert (OkS : bytes_ok S).
    { apply bytes_ok_tabulate. intros p _. apply gather8_ok. }
    pose proof (Hlz S OkS ltac:(rewrite LS; nia) ltac:(rewrite LS; exact Hsl)
                  ltac:(rewrite LS; exact Hsb)) as Hc.
    specialize (IH (drop (s * elem_size) view) Hr Hrb Hrl).
    change (length (s :: r)) with (Datatypes.S (length r)).
    clearbody S. lia.
Qed.

(** The sizes of a run are within the range of [int] and the counts
    within [int64_t]. *)
Lemma run_bounds lz size elem_size block_size view :
  lz4_compress_ok lz (resolved_block_size elem_size block_size * elem_size) ->
  1 <= elem_size -> block_size mod 8 = 0 ->
  (Z.of_nat size < 2 ^ 31)%Z ->
  (Z.of_nat (resolved_block_size elem_size block_size * elem_size)
   < 2 ^ 31)%Z ->
  let sizes := block_sizes size (resolved_block_size elem_size block_size) in
  Forall (fun s => s mod 8 = 0 /\ 0 < s) sizes /\
  Forall (fun s => (Z.of_nat (s * elem_size) < 2 ^ 31)%Z) sizes /\
  Forall (fun s => s * elem_size
                   <= resolved_block_size elem_size block_size * elem_size)
    sizes /\
  list_sum sizes = size - size mod 8 /\
  (Z.of_nat (length (compress_blocks lz elem_size sizes view)
             + size mod 8 * elem_size) < 2 ^ 63)%Z.
Proof.
  intros Hlz He Hbs Hsize Hblock sizes.
  destruct (resolved_block_size_ok elem_size block_size Hbs) as [Hr8 Hrpos].
  destruct (block_sizes_ok size _ Hr8 Hrpos) as [Hall Hsum].
  fold sizes in Hall, Hsum.
  assert (Hb : Forall (fun s => (Z.of_nat (s * elem_size) < 2 ^ 31)%Z) sizes).
  { eapply List.Forall_impl; [|apply (block_sizes_le size _ Hrpos)].
    cbv beta. intros s Hle. nia. }
  assert (Hlim : Forall (fun s => s * elem_size
                   <= resolved_block_size elem_size block_size * elem_size)
                   sizes).
  { eapply List.Forall_impl; [|apply (block_sizes_le size _ Hrpos)].
    cbv beta. intros s Hle. nia. }
  split; [exact Hall|]. split; [exact Hb|]. split; [exact Hlim|].
  split; [exact Hsum|].
  pose proof (length_compress_blocks_le lz _ elem_size Hlz He sizes view
                Hall Hb Hlim) as Hlen.
  pose proof (length_block_sizes size _ Hrpos) as Hk. fold sizes in Hk.
  pose proof (Nat.mod_upper_bound size 8 ltac:(lia)) as Hm.
  pose proof (Nat.div_mod_eq (resolved_block_size elem_size block_size) 8) as Ed.
  assert (Hlo : (Z.of_nat (size mod 8 * elem_size) < 2 ^ 31)%Z) by nia.
  rewrite Nat2Z.inj_add.
  assert (Hp : (Z.of_nat (length sizes) * (2 ^ 31 + 3)
                <= 2 ^ 31 * (2 ^ 31 + 3))%Z).
  { apply Z.mul_le_mono_nonneg_r; lia. }
  lia.
Qed.

(** Compression of a whole buffer: the records of the blocks, then the
    leftover elements as they are. *)
Lemma bshuf_compress_lz4_eq b lz x outb size elem_size block_size :
  lz4_compress_ok lz (resolved_block_size elem_size block_size * elem_size) ->
  1 <= elem_size -> block_size mod 8 = 0 ->
  bytes_ok x ->
  (Z.of_nat size < 2 ^ 31)%Z ->
  (Z.of_nat (resolved_block_size elem_size block_size * elem_size)
   < 2 ^ 31)%Z ->
  let sizes := block_sizes size (resolved_block_size elem_size block_size) in
  let stream := compress_blocks lz elem_size sizes x in
  let lo := size mod 8 * elem_size in
  exists out',
    bshuf_compress_lz4 b lz x outb size elem_size block_size
    = (Z.of_nat (length stream + lo), out') /\
    (length stream + lo <= length outb ->
     out' = stream
            ++ tabulate (rd (drop ((size - size mod 8) * elem_size) x)) lo
            ++ drop (length stream + lo) outb).
Proof.
  intros Hlz He Hbs Hok Hsize Hblock sizes stream lo.
  destruct (run_bounds lz size elem_size block_size x Hlz He Hbs Hsize Hblock)
    as (Hall & Hb & Hlim & Hsum & Hcount).
  fold sizes in Hall, Hb, Hlim, Hsum, Hcount. fold stream in Hcount.
  destruct (resolved_block_size_ok elem_size block_size Hbs) as [Hr8 _].
  unfold bshuf_compress_lz4.
  rewrite bshuf_blocked_wrap_fun_unfold by exact Hr8. fold sizes.
  change (0%Z, 0%Z, (ioc_init, outb))
    with (0%Z, Z.of_nat 0, (chain_at 0 0, outb)).
  destruct (fold_compress b lz _ x elem_size Hlz He sizes 0 0 0 outb Hall Hb
              Hlim) as (out1 & E1 & L1 & R1).
  { intros i _. apply rd_bytes_ok. exact Hok. }
  { rewrite drop_0. fold stream. clearbody stream. lia. }
  rewrite drop_0 in E1, R1. fold stream in E1, R1.
  rewrite E1, !Nat.add_0_l, Hsum.
  destruct (finish_eq x size elem_size (length stream)
              ((size - size mod 8) * elem_size) (length stream) out1 Hcount)
    as (out2 & E2 & L2 & R2).
  rewrite E2. exists out2. split; [reflexivity|].
  intros Hroom. fold lo in R2.
  rewrite R2 by (rewrite L1; exact Hroom).
  rewrite R1 by (clear - Hroom; clearbody stream lo; lia).
  rewrite <- (Nat.add_0_l (length stream)) at 1.
  rewrite splice_splice
    by (unfold lo; rewrite length_tabulate; cbn [Nat.add]; exact Hroom).
  rewrite splice_0, length_app, length_tabulate, <- app_assoc. reflexivity.
Qed.

(** Decompression of what compression produced gives the input back and
    returns the count compression returned. *)
Lemma bshuf_decompress_compress_lz4 b lz x out1 out2 size elem_size block_size :
  lz4_codec_ok lz (resolved_block_size elem_size block_size * elem_size) ->
  1 <= elem_size -> block_size mod 8 = 0 ->
  bytes_ok x -> length x = size * elem_size ->
  (Z.of_nat size < 2 ^ 31)%Z ->
  (Z.of_nat (resolved_block_size elem_size block_size * elem_size)
   < 2 ^ 31)%Z ->
  (fst (bshuf_compress_lz4 b lz x out1 size elem_size block_size)
   <= Z.of_nat (length out1))%Z ->
  size * elem_size <= length out2 ->
  bshuf_decompress_lz4 b lz
    (snd (bshuf_compress_lz4 b lz x out1 size elem_size block_size))
    out2 size elem_size block_size
  = (fst (bshuf_compress_lz4 b lz x out1 size elem_size block_size),
     x ++ drop (size * elem_size) out2).
Proof.
  intros Hlz He Hbs Hok Hlx Hsize Hblock Hroom1 Hroom2.
  pose proof (lz4_codec_compress_ok lz _ Hlz) as Hcz.
  destruct (bshuf_compress_lz4_eq b lz x out1 size elem_size block_size
              Hcz He Hbs Hok Hsize Hblock) as (y & Ey & Ry).
  destruct (run_bounds lz size elem_size block_size x Hcz He Hbs Hsize Hblock)
    as (Hall & Hb & Hlim & Hsum & Hcount).
  destruct (resolved_block_size_ok elem_size block_size Hbs) as [Hr8 _].
  set (sizes := block_sizes size (resolved_block_size elem_size block_size)) in *.
  set (stream := compress_blocks lz elem_size sizes x) in *.
  set (lo := size mod 8 * elem_size) in *.
  set (T := (size - size mod 8) * elem_size) in *.
  pose proof (Nat.div_mod_eq size 8) as Ed.
  pose proof (Nat.mod_upper_bound size 8 ltac:(lia)) as Hm.
  assert (ET : T + lo = size * elem_size) by (unfold T, lo; nia).
  rewrite Ey in *. cbn [fst snd] in *.
  rewrite Ry by (clear - Hroom1; lia).
  set (L := tabulate (rd (drop T x)) lo).
  set (tail := drop (length stream + lo) out1).
  unfold bshuf_decompress_lz4, BSHUF_LZ4_DECOMPRESS_FAST.
  rewrite bshuf_blocked_wrap_fun_unfold by exact Hr8. fold sizes.
  change (0%Z, 0%Z, (ioc_init, out2))
    with (0%Z, Z.of_nat 0, (chain_at 0 0, out2)).
  rewrite (fold_decompress b lz _ _ elem_size Hlz He sizes 0 0 0 out2 x
             (L ++ tail) Hall Hb Hlim).
  2:{ intros i _. apply rd_bytes_ok. exact Hok. }
  2:{ rewrite drop_0. reflexivity. }
  2:{ rewrite Hsum. fold T. clear - ET Hroom2. clearbody T lo. lia. }
  2:{ fold stream. clear - Hcount. clearbody stream lo. lia. }
  fold stream. rewrite Hsum, !Nat.add_0_l. fold T.
  destruct (finish_eq (stream ++ L ++ tail) size elem_size (length stream)
              (length stream) T
              (splice 0 (tabulate (rd x) T) out2) Hcount)
    as (z & Ez & Lz & Rz).
  rewrite Ez. f_equal. fold lo in Rz.
  assert (LT : length (tabulate (rd x) T) = T) by apply length_tabulate.
  assert (LS : length (splice 0 (tabulate (rd x) T) out2) = length out2).
  { apply length_splice. rewrite LT. clear - ET Hroom2. clearbody T lo. lia. }
  rewrite Rz by (rewrite LS; clear - ET Hroom2; clearbody T lo; lia).
  rewrite drop_app_length.
  assert (EL : tabulate (rd (L ++ tail)) lo = L).
  { unfold L. apply tabulate_ext. intros p Hp. apply rd_tabulate. exact Hp. }
  rewrite EL.
  rewrite <- LT at 1.
  rewrite (splice_splice 0 (tabulate (rd x) T) L).
  2:{ rewrite LT. unfold L. rewrite length_tabulate.
      clear - ET Hroom2. clearbody T lo. cbn [Nat.add]. lia. }
  rewrite splice_0, length_app, LT. unfold L at 2. rewrite length_tabulate, ET.
  f_equal. rewrite <- (tabulate_rd x) at 2. rewrite Hlx, <- ET, <- tabulate_app.
  f_equal. unfold L. apply tabulate_ext. intros p _. apply rd_drop.
Qed.

(** * The default block size and the compressed bound *)

(** C3: for every [elem_size >= 1], [bshuf_default_block_size elem_size]
    is the larger of 128 and 8192 / elem_size rounded down to a multiple
    of 8; it is a multiple of 8 and at least 128, and it is a function
    of [elem_size] alone. *)
Theorem bshuf_default_block_size_spec (elem_size : nat) :
  1 <= elem_size ->
  bshuf_default_block_size elem_size
    = Nat.max 128 (Z.to_nat 8192 / elem_size / 8 * 8) /\
  bshuf_default_block_size elem_size mod 8 = 0 /\
  128 <= bshuf_default_block_size elem_size.
Proof.
  intros _. split; [|split].
  - unfold bshuf_default_block_size, MAX, BSHUF_TARGET_BLOCK_SIZE_B,
      BSHUF_BLOCKED_MULT, BSHUF_MIN_RECOMMEND_BLOCK.
    destruct (Nat.ltb_spec 128 (Z.to_nat 8192 / elem_size / 8 * 8)); lia.
  - apply default_block_size_mod8.
  - apply default_block_size_pos.
Qed.

Lemma bshuf_default_block_size_spec_witness :
  bshuf_default_block_size 4
    = Nat.max 128 (Z.to_nat 8192 / 4 / 8 * 8) /\
  bshuf_default_block_size 4 mod 8 = 0 /\
  128 <= bshuf_default_block_size 4.
Proof. apply (bshuf_default_block_size_spec 4). lia. Defined.

(** C10: the result type of [bshuf_compress_lz4_bound] is unsigned, so
    for a block size that is neither 0 nor a multiple of 8 the result is
    the sentinel -81 as a [size_t], that is 2^64 - 81. *)
Theorem bshuf_compress_lz4_bound_bad_block_size (lz : lz4_codec)
    (size elem_size block_size : nat) :
  block_size <> 0 -> block_size mod 8 <> 0 ->
  bshuf_compress_lz4_bound lz size elem_size block_size = (2 ^ 64 - 81)%Z /\
  (0 < bshuf_compress_lz4_bound lz size elem_size block_size)%Z.
Proof.
  intros H0 H8.
  assert (E : bshuf_compress_lz4_bound lz size elem_size block_size
              = (2 ^ 64 - 81)%Z).
  { unfold bshuf_compress_lz4_bound, BSHUF_BLOCKED_MULT.
    destruct (Nat.eqb_spec block_size 0) as [E|_]; [contradiction|].
    destruct (Nat.eqb_spec (block_size mod 8) 0) as [E|_]; [contradiction|].
    reflexivity. }
  rewrite E. split; [reflexivity|lia].
Qed.

Lemma bshuf_compress_lz4_bound_bad_block_size_witness :
  bshuf_compress_lz4_bound
    {| LZ4_compressBound := fun n => n;
       LZ4_compress := fun src n => (n, src);
       LZ4_decompress_fast := fun src n => (n, src);
       LZ4_decompress_safe := fun src c m => (m, src) |} 100 4 12
  = (2 ^ 64 - 81)%Z /\
  (0 < bshuf_compress_lz4_bound
         {| LZ4_compressBound := fun n => n;
            LZ4_compress := fun src n => (n, src);
            LZ4_decompress_fast := fun src n => (n, src);
            LZ4_decompress_safe := fun src c m => (m, src) |} 100 4 12)%Z.
Proof.
  apply (bshuf_compress_lz4_bound_bad_block_size _ 100 4 12); [lia|].
  vm_compute. lia.
Defined.

(** * Shuffle and unshuffle *)

(** C1: for a buffer [x] of [size] elements of [elem_size >= 1] bytes
    with [size] a multiple of 8, and a valid block size (0 or a multiple
    of 8) used for both calls, [bshuf_bitunshuffle] applied to the output
    of [bshuf_bitshuffle] gives [x] back, byte for byte; both calls
    return the number of bytes, [size * elem_size]. *)
Theorem bitshuffle_round_trip (b : isa) (x out1 out2 : list Z)
    (size elem_size block_size : nat) :
  size mod 8 = 0 -> 1 <= elem_size -> block_size mod 8 = 0 ->
  bytes_ok x -> length x = size * elem_size ->
  length out1 = size * elem_size -> length out2 = size * elem_size ->
  (Z.of_nat (size * elem_size) < 2 ^ 63)%Z ->
  fst (bshuf_bitshuffle b x out1 size elem_size block_size)
    = Z.of_nat (size * elem_size) /\
  bshuf_bitunshuffle b
    (snd (bshuf_bitshuffle b x out1 size elem_size block_size))
    out2 size elem_size block_size
  = (Z.of_nat (size * elem_size), x).
Proof.
  intros _ He Hbs Hok Hlx Hl1 Hl2 Hsmall.
  destruct (bshuf_bitunshuffle_bitshuffle b x out1 out2 size elem_size
              block_size He Hbs Hok Hlx ltac:(lia) ltac:(lia) Hsmall)
    as [E1 E2].
  split; [exact E1|]. rewrite E2.
  rewrite drop_ge by lia. rewrite app_nil_r. reflexivity.
Qed.

Lemma bitshuffle_round_trip_witness :
  fst (bshuf_bitshuffle AVX2 [1; 2; 3; 4; 5; 6; 7; 8; 9; 10; 11; 12; 13;
                              14; 15; 255]%Z (malloc 16) 8 2 0)
    = Z.of_nat (8 * 2) /\
  bshuf_bitunshuffle AVX2
    (snd (bshuf_bitshuffle AVX2 [1; 2; 3; 4; 5; 6; 7; 8; 9; 10; 11; 12; 13;
                                 14; 15; 255]%Z (malloc 16) 8 2 0))
    (malloc 16) 8 2 0
  = (Z.of_nat (8 * 2),
     [1; 2; 3; 4; 5; 6; 7; 8; 9; 10; 11; 12; 13; 14; 15; 255]%Z).
Proof.
  apply (bitshuffle_round_trip AVX2 _ (malloc 16) (malloc 16) 8 2 0);
    try reflexivity; try lia.
  repeat constructor; unfold byte_ok; lia.
Defined.

(** * Compression and decompression *)

Lemma lz4_stored_ok limit : lz4_codec_ok lz4_stored limit.
Proof.
  intros src rest Hok Hpos Hlim Hsmall. cbn [lz4_stored LZ4_compress
    LZ4_decompress_fast fst snd]. rewrite !Nat2Z.id.
  split; [lia|]. f_equal.
  rewrite firstn_all.
  rewrite tabulate_rd. apply take_app_length.
Qed.



(** * Bit transpose within bytes *)

(** C4, as stated, fails: on sixteen bytes, bit 0 of output byte 1 is
    bit 0 of input byte 8, not bit 1 of input byte 0. *)
Lemma trans_bit_byte_claim_fails :
  let inb := [1; 2; 3; 4; 5; 6; 7; 8; 9; 10; 11; 12; 13; 14; 15; 16]%Z in
  let outb := snd (bshuf_trans_bit_byte_scal inb (malloc 16) 8 2) in
  ~ (forall m k, m < 16 -> k < 8 ->
       Z.testbit (rd outb m) (Z.of_nat k)
       = Z.testbit (rd inb (8 * (m / 8) + k)) (Z.of_nat (m mod 8))).
Proof.
  intros inb outb H. specialize (H 1 0 ltac:(lia) ltac:(lia)).
  vm_compute in H. discriminate H.
Qed.

(** C4, amended: with [nbyte = size * elem_size] a multiple of 8, bit
    [k] of output byte [m] is bit [m / (nbyte / 8)] of input byte
    [8 * (m mod (nbyte / 8)) + k], for [m < nbyte] and [k < 8]: the
    output is laid out in eight bit rows of [nbyte / 8] bytes.  When
    [nbyte] is not a multiple of 8 the result is -80 and nothing is
    written. *)
Theorem bshuf_trans_bit_byte_scal_spec (inb outb : list Z)
    (size elem_size : nat) :
  bytes_ok inb -> size * elem_size <= length outb ->
  (Z.of_nat (size * elem_size) < 2 ^ 63)%Z ->
  let nbyte := size * elem_size in
  let r := bshuf_trans_bit_byte_scal inb outb size elem_size in
  (nbyte mod 8 = 0 ->
   fst r = Z.of_nat nbyte /\
   forall m k, m < nbyte -> k < 8 ->
     Z.testbit (rd (snd r) m) (Z.of_nat k)
     = Z.testbit (rd inb (8 * (m mod (nbyte / 8)) + k))
                 (Z.of_nat (m / (nbyte / 8)))) /\
  (nbyte mod 8 <> 0 -> r = ((-80)%Z, outb)).
Proof.
  intros Hok Hlen Hsmall nbyte r. split.
  - intros H8. unfold r.
    rewrite bshuf_trans_bit_byte_scal_eq;
      [|intros i _; apply rd_bytes_ok; exact Hok
       |rewrite Nat.mul_comm; exact H8|exact Hlen].
    cbn [fst snd]. split; [apply int64_of_size_small; exact Hsmall|].
    intros m k Hm Hk. rewrite rd_tabulate by exact Hm.
    unfold g_trans_bit_byte. rewrite gather8_testbit by lia.
    assert (Ek : (Z.of_nat k <? 8)%Z = true) by (apply Z.ltb_lt; lia).
    rewrite Ek, Nat2Z.id, (Nat.mul_comm elem_size size). reflexivity.
  - intros H8. unfold r, bshuf_trans_bit_byte_scal,
      bshuf_trans_bit_byte_remainder, CHECK_MULT_EIGHT.
    rewrite (Nat.mul_comm elem_size size).
    destruct (Nat.eqb_spec (size * elem_size mod 8) 0) as [E|_];
      [contradiction|reflexivity].
Qed.

Lemma bshuf_trans_bit_byte_scal_spec_witness :
  let inb := [1; 2; 3; 4; 5; 6; 7; 8; 9; 10; 11; 12; 13; 14; 15; 16]%Z in
  let nbyte := 8 * 2 in
  let r := bshuf_trans_bit_byte_scal inb (malloc 16) 8 2 in
  (nbyte mod 8 = 0 ->
   fst r = Z.of_nat nbyte /\
   forall m k, m < nbyte -> k < 8 ->
     Z.testbit (rd (snd r) m) (Z.of_nat k)
     = Z.testbit (rd inb (8 * (m mod (nbyte / 8)) + k))
                 (Z.of_nat (m / (nbyte / 8)))) /\
  (nbyte mod 8 <> 0 -> r = ((-80)%Z, malloc 16)).
Proof.
  apply (bshuf_trans_bit_byte_scal_spec
           [1; 2; 3; 4; 5; 6; 7; 8; 9; 10; 11; 12; 13; 14; 15; 16]%Z
           (malloc 16) 8 2).
  - repeat constructor; unfold byte_ok; lia.
  - cbn [length malloc repeat]. lia.
  - reflexivity.
Defined.

(** * The LZ4 calls *)

(** C5, as stated, fails: [BSHUF_LZ4_DECOMPRESS_FAST] is defined in the
    source itself, so the function as built takes the fast path.  On a
    record whose header announces 9 bytes for a block of 8, the fast
    path reports -91 where the safe path would report -1001. *)
Lemma decompress_is_not_safe_mode :
  let inb := [0; 0; 0; 9; 1; 2; 3; 4; 5; 6; 7; 8]%Z in
  fst (bshuf_decompress_lz4 Scalar lz4_stored inb (malloc 8) 8 1 8)
    = (-91)%Z /\
  fst (bshuf_blocked_wrap_fun
         (bshuf_decompress_lz4_block Scalar false lz4_stored)
         inb (malloc 8) 8 1 8)
    = (-1001)%Z.
Proof. vm_compute. split; reflexivity. Qed.

(** C5, amended: as built, [bshuf_decompress_lz4] runs the fast mode,
    which fails with -91 when the count [LZ4_decompress_fast] reports
    differs from the length in the header.  The safe mode, compiled only
    when [BSHUF_LZ4_DECOMPRESS_FAST] is not defined, fails with -91 when
    the count [LZ4_decompress_safe] reports is not [size * elem_size]. *)
Theorem bshuf_decompress_lz4_fast_mode (b : isa) (lz : lz4_codec)
    (inb outb : list Z) (size elem_size block_size : nat) :
  bshuf_decompress_lz4 b lz inb outb size elem_size block_size
  = bshuf_blocked_wrap_fun (bshuf_decompress_lz4_block b true lz)
      inb outb size elem_size block_size /\
  (forall C o s,
     let L := to_int32 (bshuf_read_uint32_BE (ptr_view inb (ioc_get_in C))) in
     let n := to_int32 (Z.of_nat (s * elem_size)) in
     (let nbytes :=
        fst (LZ4_decompress_fast lz (ptr_view inb (ioc_get_in C + 4)) n) in
      (0 <= nbytes)%Z -> nbytes <> L ->
      fst (bshuf_decompress_lz4_block b true lz inb (C, o) s elem_size)
      = (-91)%Z) /\
     (let nbytes :=
        fst (LZ4_decompress_safe lz (ptr_view inb (ioc_get_in C + 4)) L n) in
      (0 <= nbytes)%Z -> to_size_t nbytes <> Z.of_nat (s * elem_size) ->
      fst (bshuf_decompress_lz4_block b false lz inb (C, o) s elem_size)
      = (-91)%Z)).
Proof.
  split; [reflexivity|]. intros C o s L n. split.
  - intros nbytes Hpos Hne. unfold bshuf_decompress_lz4_block. fold L n.
    unfold nbytes in *.
    destruct (LZ4_decompress_fast lz _ n) as [c d]. cbn [fst] in *.
    unfold CHECK_ERR_FREE_LZ.
    destruct (Z.ltb_spec c 0) as [Hlt|_]; [lia|].
    destruct (Z.eqb_spec c L) as [E|_]; [contradiction|]. reflexivity.
  - intros nbytes Hpos Hne. unfold bshuf_decompress_lz4_block. fold L n.
    unfold nbytes in *.
    destruct (LZ4_decompress_safe lz _ L n) as [c d]. cbn [fst] in *.
    unfold CHECK_ERR_FREE_LZ.
    destruct (Z.ltb_spec c 0) as [Hlt|_]; [lia|].
    destruct (Z.eqb_spec (to_size_t c) (Z.of_nat (s * elem_size))) as [E|_];
      [contradiction|]. reflexivity.
Qed.

(** C6: [LZ4_compress] reports a failure by 0, and [CHECK_ERR_FREE_LZ]
    tests [count < 0] only.  So when the shuffle of the block succeeded
    and [LZ4_compress] reports 0, the compress-block worker does not
    fail with 0 - 1000: it returns 4, having moved the output head by 4
    and written a header of four zero bytes with no payload; the bytes
    of the block are not in the output. *)
Theorem compress_block_lz4_zero_is_success (b : isa) (lz : lz4_codec)
    (inb outb : list Z) (a o size elem_size : nat) :
  let n := size * elem_size in
  let sh := bshuf_trans_bit_elem b (drop a inb) (malloc n) size elem_size in
  let r := bshuf_compress_lz4_block b lz inb (chain_at a o, outb) size
             elem_size in
  (0 <= fst sh)%Z ->
  fst (LZ4_compress lz (snd sh) (to_int32 (Z.of_nat n))) = 0%Z ->
  o + 4 <= length outb ->
  fst r = 4%Z /\ fst r <> (0 - 1000)%Z /\
  fst (snd r) = chain_at (a + n) (o + 4) /\
  length (snd (snd r)) = length outb /\
  (forall i, i < 4 -> rd (snd (snd r)) (o + i) = 0%Z) /\
  (forall p, p < o \/ o + 4 <= p -> rd (snd (snd r)) p = rd outb p).
Proof.
  intros n sh r Hsh Hz Hroom. unfold r, bshuf_compress_lz4_block.
  unfold chain_at, ioc_get_in, ioc_get_out, ioc_set_next_in,
    ioc_set_next_out. cbn [next_in next_out].
  rewrite !ptr_view_nat. fold n. fold sh.
  destruct sh as [count tmp]. cbn [fst snd] in *.
  destruct (Z.ltb_spec count 0) as [Hlt|_]; [lia|].
  destruct (LZ4_compress lz tmp _) as [c d]. cbn [fst] in Hz. subst c.
  unfold CHECK_ERR_FREE_LZ. cbn [Z.ltb Z.compare fst snd].
  change (memcpy_at ?x 4 d 0 (Z.to_nat 0)) with x.
  rewrite bshuf_write_uint32_BE_eq by (rewrite ?length_drop; lia).
  change [(0 / 2 ^ 24)%Z; (0 / 2 ^ 16 mod 256)%Z; (0 / 2 ^ 8 mod 256)%Z;
          (0 mod 256)%Z] with [0%Z; 0%Z; 0%Z; 0%Z].
  rewrite (ptr_update_nat outb o [0%Z; 0%Z; 0%Z; 0%Z])
    by (cbn [length]; lia || reflexivity).
  split; [reflexivity|]. split; [discriminate|].
  split; [f_equal; lia|].
  split; [apply length_splice; cbn [length]; lia|]. split.
  - intros i Hi. rewrite rd_splice by (cbn [length]; lia). cbn [length].
    destruct (Nat.ltb_spec (o + i) o); [lia|].
    destruct (Nat.ltb_spec (o + i) (o + 4)); [|lia].
    replace (o + i - o) with i by lia.
    destruct i as [|[|[|[|i]]]]; try lia; reflexivity.
  - intros p Hp. rewrite rd_splice by (cbn [length]; lia). cbn [length].
    destruct (Nat.ltb_spec p o); [reflexivity|].
    destruct (Nat.ltb_spec p (o + 4)); [lia|reflexivity].
Qed.

Lemma compress_block_lz4_zero_is_success_witness :
  let inb := [1; 2; 3; 4; 5; 6; 7; 8]%Z in
  let outb := malloc 12 in
  let n := 8 * 1 in
  let r := bshuf_compress_lz4_block Scalar (lz4_reports 0) inb
             (chain_at 0 0, outb) 8 1 in
  fst r = 4%Z /\ fst r <> (0 - 1000)%Z /\
  fst (snd r) = chain_at (0 + n) (0 + 4) /\
  length (snd (snd r)) = length outb /\
  (forall i, i < 4 -> rd (snd (snd r)) (0 + i) = 0%Z) /\
  (forall p, p < 0 \/ 0 + 4 <= p -> rd (snd (snd r)) p = rd outb p).
Proof.
  apply (compress_block_lz4_zero_is_success Scalar (lz4_reports 0)
           [1; 2; 3; 4; 5; 6; 7; 8]%Z (malloc 12) 0 0 8 1).
  - apply Z.leb_le. vm_compute. reflexivity.
  - reflexivity.
  - cbn [length malloc repeat]. lia.
Defined.



(** * The block framework *)




(** * The vector code *)

(** C8: on every input on which they are defined, the SSE2 and AVX2
    versions of each primitive of the pipeline return what the scalar
    version returns, count and output: the byte transpose of elements;
    the bit transpose within bytes, when the number of bytes is a
    multiple of 8; and, when [size] is a multiple of 8, the transpose of
    bytes within bit rows, the shuffle of bits within rows of eight
    elements, [bshuf_trans_bit_elem] and [bshuf_untrans_bit_elem]. *)
Theorem vector_code_agrees_with_scalar (inb outb : list Z)
    (size elem_size : nat) :
  bytes_ok inb -> 1 <= elem_size -> size * elem_size <= length outb ->
  bshuf_trans_byte_elem_SSE inb outb size elem_size
    = bshuf_trans_byte_elem_scal inb outb size elem_size /\
  ((size * elem_size) mod 8 = 0 ->
   bshuf_trans_bit_byte_SSE inb outb size elem_size
     = bshuf_trans_bit_byte_scal inb outb size elem_size /\
   bshuf_trans_bit_byte_AVX inb outb size elem_size
     = bshuf_trans_bit_byte_scal inb outb size elem_size) /\
  (size mod 8 = 0 ->
   bshuf_trans_byte_bitrow_SSE inb outb size elem_size
     = bshuf_trans_byte_bitrow_scal inb outb size elem_size /\
   bshuf_trans_byte_bitrow_AVX inb outb size elem_size
     = bshuf_trans_byte_bitrow_scal inb outb size elem_size /\
   bshuf_shuffle_bit_eightelem_SSE inb outb size elem_size
     = bshuf_shuffle_bit_eightelem_scal inb outb size elem_size /\
   bshuf_shuffle_bit_eightelem_AVX inb outb size elem_size
     = bshuf_shuffle_bit_eightelem_scal inb outb size elem_size /\
   bshuf_trans_bit_elem_SSE inb outb size elem_size
     = bshuf_trans_bit_elem_scal inb outb size elem_size /\
   bshuf_trans_bit_elem_AVX inb outb size elem_size
     = bshuf_trans_bit_elem_scal inb outb size elem_size /\
   bshuf_untrans_bit_elem_SSE inb outb size elem_size
     = bshuf_untrans_bit_elem_scal inb outb size elem_size /\
   bshuf_untrans_bit_elem_AVX inb outb size elem_size
     = bshuf_untrans_bit_elem_scal inb outb size elem_size).
Proof.
  intros Hok He Hlen.
  assert (Hrd : forall n i, i < n -> byte_ok (rd inb i))
    by (intros n i _; apply rd_bytes_ok; exact Hok).
  split; [apply bshuf_trans_byte_elem_SSE_eq; assumption|]. split.
  - intros H8. rewrite Nat.mul_comm in H8. split.
    + apply bshuf_trans_bit_byte_SSE_eq; [apply Hrd|exact H8].
    + apply bshuf_trans_bit_byte_AVX_eq; [apply Hrd|exact H8].
  - intros Hs.
    split; [apply bshuf_trans_byte_bitrow_SSE_eq; exact Hs|].
    split; [apply bshuf_trans_byte_bitrow_AVX_eq; exact Hs|].
    split; [apply bshuf_shuffle_bit_eightelem_SSE_eq;
            [apply Hrd|exact Hs|exact He]|].
    split; [apply bshuf_shuffle_bit_eightelem_AVX_eq;
            [apply Hrd|exact Hs|exact He]|].
    split; [apply bshuf_trans_bit_elem_SSE_eq;
            [exact Hs|exact He|apply Hrd|exact Hlen]|].
    split; [apply bshuf_trans_bit_elem_AVX_eq;
            [exact Hs|exact He|apply Hrd|exact Hlen]|].
    split; [apply bshuf_untrans_bit_elem_SSE_eq;
            [exact Hs|exact He|apply Hrd]|].
    apply bshuf_untrans_bit_elem_AVX_eq; [exact Hs|exact He|apply Hrd].
Qed.

Lemma vector_code_agrees_with_scalar_witness :
  let inb := [1; 2; 3; 4; 5; 6; 7; 8; 9; 10; 11; 12; 13; 14; 15; 255]%Z in
  let outb := malloc 16 in
  bshuf_trans_byte_elem_SSE inb outb 8 2
    = bshuf_trans_byte_elem_scal inb outb 8 2 /\
  ((8 * 2) mod 8 = 0 ->
   bshuf_trans_bit_byte_SSE inb outb 8 2
     = bshuf_trans_bit_byte_scal inb outb 8 2 /\
   bshuf_trans_bit_byte_AVX inb outb 8 2
     = bshuf_trans_bit_byte_scal inb outb 8 2) /\
  (8 mod 8 = 0 ->
   bshuf_trans_byte_bitrow_SSE inb outb 8 2
     = bshuf_trans_byte_bitrow_scal inb outb 8 2 /\
   bshuf_trans_byte_bitrow_AVX inb outb 8 2
     = bshuf_trans_byte_bitrow_scal inb outb 8 2 /\
   bshuf_shuffle_bit_eightelem_SSE inb outb 8 2
     = bshuf_shuffle_bit_eightelem_scal inb outb 8 2 /\
   bshuf_shuffle_bit_eightelem_AVX inb outb 8 2
     = bshuf_shuffle_bit_eightelem_scal inb outb 8 2 /\
   bshuf_trans_bit_elem_SSE inb outb 8 2
     = bshuf_trans_bit_elem_scal inb outb 8 2 /\
   bshuf_trans_bit_elem_AVX inb outb 8 2
     = bshuf_trans_bit_elem_scal inb outb 8 2 /\
   bshuf_untrans_bit_elem_SSE inb outb 8 2
     = bshuf_untrans_bit_elem_scal inb outb 8 2 /\
   bshuf_untrans_bit_elem_AVX inb outb 8 2
     = bshuf_untrans_bit_elem_scal inb outb 8 2).
Proof.
  apply (vector_code_agrees_with_scalar
           [1; 2; 3; 4; 5; 6; 7; 8; 9; 10; 11; 12; 13; 14; 15; 255]%Z
           (malloc 16) 8 2).
  - repeat constructor; unfold byte_ok; lia.
  - lia.
  - cbn [length malloc repeat]. lia.
Defined.

(** * Further properties of the code *)

Lemma uint64_high_bits x n :
  (0 <= x < 2 ^ 64)%Z -> (64 <= n)%Z -> Z.testbit x n = false.
Proof.
  intros Hx Hn. rewrite <- (Z.mod_small x (2 ^ 64)) by exact Hx.
  apply Z.mod_pow2_bits_high. lia.
Qed.

Lemma uint64_of_bits x :
  (forall n, (64 <= n)%Z -> Z.testbit x n = false) -> (0 <= x < 2 ^ 64)%Z.
Proof.
  intros H. assert (E : x = (x mod 2 ^ 64)%Z).
  { apply Z.bits_inj'. intros n Hn.
    destruct (Z.lt_ge_cases n 64) as [Hlt|Hge].
    - rewrite Z.mod_pow2_bits_low by lia. reflexivity.
    - rewrite Z.mod_pow2_bits_high by lia. apply H. exact Hge. }
  rewrite E. apply Z.mod_pos_bound. lia.
Qed.

Lemma delta_swap_high x k M n :
  (forall n, (64 <= n)%Z -> Z.testbit x n = false) ->
  (0 <= M < 2 ^ 64)%Z -> (64 <= n)%Z ->
  Z.testbit (delta_swap x k M) n = false.
Proof.
  intros Hx HM Hn. unfold delta_swap, to_uint64, wrap_unsigned.
  rewrite !Z.lxor_spec, Z.land_spec, Z.mod_pow2_bits_high by lia.
  rewrite (Hx n Hn), (uint64_high_bits M n HM Hn).
  rewrite andb_false_r. reflexivity.
Qed.

Lemma TRANS_BIT_8X8_high x n :
  (0 <= x < 2 ^ 64)%Z -> (64 <= n)%Z -> Z.testbit (TRANS_BIT_8X8 x) n = false.
Proof.
  intros Hx Hn.
  change (TRANS_BIT_8X8 x) with
    (delta_swap (delta_swap (delta_swap x 7 0x00AA00AA00AA00AA)
                   14 0x0000CCCC0000CCCC) 28 0x00000000F0F0F0F0).
  apply delta_swap_high; [|lia|exact Hn]. intros n1 Hn1.
  apply delta_swap_high; [|lia|exact Hn1]. intros n2 Hn2.
  apply delta_swap_high; [|lia|exact Hn2]. intros n3 Hn3.
  apply uint64_high_bits; assumption.
Qed.

(** X1: [TRANS_BIT_8X8] transposes a 64-bit word seen as an 8x8 matrix of
    bits: bit [c] of byte [r] of the result is bit [r] of byte [c] of the
    argument.  The result is a 64-bit word again, and transposing twice
    gives the word back. *)
Theorem TRANS_BIT_8X8_transposes (x : Z) :
  (0 <= x < 2 ^ 64)%Z ->
  (forall r c, r < 8 -> c < 8 ->
     Z.testbit (TRANS_BIT_8X8 x) (Z.of_nat (8 * r + c))
     = Z.testbit x (Z.of_nat (8 * c + r))) /\
  (0 <= TRANS_BIT_8X8 x < 2 ^ 64)%Z /\
  TRANS_BIT_8X8 (TRANS_BIT_8X8 x) = x.
Proof.
  intros Hx.
  assert (T : forall y r c, r < 8 -> c < 8 ->
            Z.testbit (TRANS_BIT_8X8 y) (Z.of_nat (8 * r + c))
            = Z.testbit y (Z.of_nat (8 * c + r))).
  { intros y r c Hr Hc. rewrite TRANS_BIT_8X8_testbit by lia. f_equal.
    replace (Z.of_nat (8 * r + c)) with (Z.of_nat c + Z.of_nat r * 8)%Z by lia.
    rewrite Z.mod_add, Z.div_add by lia.
    rewrite Z.mod_small, Z.div_small by lia. lia. }
  assert (R : (0 <= TRANS_BIT_8X8 x < 2 ^ 64)%Z).
  { apply uint64_of_bits. intros n Hn. apply TRANS_BIT_8X8_high; assumption. }
  split; [apply T|]. split; [exact R|].
  apply Z.bits_inj'. intros n Hn.
  destruct (Z.lt_ge_cases n 64) as [Hlt|Hge].
  - replace n with (Z.of_nat (8 * (Z.to_nat n / 8) + Z.to_nat n mod 8)).
    + assert (Z.to_nat n / 8 < 8) by (apply Nat.Div0.div_lt_upper_bound; lia).
      assert (Z.to_nat n mod 8 < 8) by (apply Nat.mod_upper_bound; lia).
      rewrite T by assumption. rewrite T by assumption. reflexivity.
    + rewrite <- Nat.div_mod_eq. lia.
  - rewrite TRANS_BIT_8X8_high by assumption.
    symmetry. apply uint64_high_bits; assumption.
Qed.

Lemma TRANS_BIT_8X8_transposes_witness :
  (forall r c, r < 8 -> c < 8 ->
     Z.testbit (TRANS_BIT_8X8 0x0102040810204080) (Z.of_nat (8 * r + c))
     = Z.testbit 0x0102040810204080 (Z.of_nat (8 * c + r))) /\
  (0 <= TRANS_BIT_8X8 0x0102040810204080 < 2 ^ 64)%Z /\
  TRANS_BIT_8X8 (TRANS_BIT_8X8 0x0102040810204080) = 0x0102040810204080%Z.
Proof. apply (TRANS_BIT_8X8_transposes 0x0102040810204080). lia. Defined.

(** A buffer whose first [n] positions were written. *)
Lemma written_facts g n (outb : list Z) :
  n <= length outb ->
  length (tabulate g n ++ drop n outb) = length outb /\
  (forall p, p < n -> rd (tabulate g n ++ drop n outb) p = g p) /\
  (forall p, n <= p -> rd (tabulate g n ++ drop n outb) p = rd outb p).
Proof.
  intros H. split; [|split].
  - rewrite length_app, length_tabulate, length_drop. lia.
  - intros p Hp. apply rd_tabulate. exact Hp.
  - intros p Hp. rewrite rd_tabulate_ge, rd_drop by exact Hp. f_equal. lia.
Qed.

(** X2: [bshuf_trans_byte_elem_scal] transposes bytes within elements,
    for every [size] (a multiple of 8 or not): byte [jj] of element [ii]
    goes to position [jj * size + ii].  It returns the number of bytes
    and leaves the rest of the output as it was. *)
Theorem bshuf_trans_byte_elem_scal_spec (inb outb : list Z)
    (size elem_size : nat) :
  size * elem_size <= length outb ->
  (Z.of_nat (size * elem_size) < 2 ^ 63)%Z ->
  let r := bshuf_trans_byte_elem_scal inb outb size elem_size in
  fst r = Z.of_nat (size * elem_size) /\
  length (snd r) = length outb /\
  (forall ii jj, ii < size -> jj < elem_size ->
     rd (snd r) (jj * size + ii) = rd inb (ii * elem_size + jj)) /\
  (forall p, size * elem_size <= p -> rd (snd r) p = rd outb p).
Proof.
  intros Hlen Hsmall r. unfold r.
  rewrite bshuf_trans_byte_elem_scal_eq by exact Hlen. cbn [fst snd].
  destruct (written_facts (g_trans_byte_elem inb size elem_size) _ outb Hlen)
    as (L & Hin & Hout).
  split; [apply int64_of_size_small; exact Hsmall|].
  split; [exact L|]. split; [|exact Hout].
  intros ii jj Hi Hj. rewrite Hin by (apply mul_add_lt; assumption).
  unfold g_trans_byte_elem.
  destruct (div_mod_unique_nat jj ii size Hi) as [Ed Em].
  rewrite Ed, Em. reflexivity.
Qed.

Lemma bshuf_trans_byte_elem_scal_spec_witness :
  let inb := [10; 11; 12; 20; 21; 22; 30; 31; 32]%Z in
  let r := bshuf_trans_byte_elem_scal inb (malloc 10) 3 3 in
  fst r = Z.of_nat (3 * 3) /\
  length (snd r) = length (malloc 10) /\
  (forall ii jj, ii < 3 -> jj < 3 ->
     rd (snd r) (jj * 3 + ii) = rd inb (ii * 3 + jj)) /\
  (forall p, 3 * 3 <= p -> rd (snd r) p = rd (malloc 10) p).
Proof.
  apply (bshuf_trans_byte_elem_scal_spec
           [10; 11; 12; 20; 21; 22; 30; 31; 32]%Z (malloc 10) 3 3).
  - cbn [length malloc repeat]. lia.
  - reflexivity.
Defined.

(** X3: [bshuf_trans_elem] transposes an [lda] by [ldb] array of cells of
    [elem_size] bytes: cell [(ii, jj)] of the input is cell [(jj, ii)] of
    the output. *)
Theorem bshuf_trans_elem_spec (inb outb : list Z) (lda ldb elem_size : nat) :
  lda * ldb * elem_size <= length outb ->
  (Z.of_nat (lda * ldb * elem_size) < 2 ^ 63)%Z ->
  let r := bshuf_trans_elem inb outb lda ldb elem_size in
  fst r = Z.of_nat (lda * ldb * elem_size) /\
  length (snd r) = length outb /\
  (forall ii jj t, ii < lda -> jj < ldb -> t < elem_size ->
     rd (snd r) ((jj * lda + ii) * elem_size + t)
     = rd inb ((ii * ldb + jj) * elem_size + t)) /\
  (forall p, lda * ldb * elem_size <= p -> rd (snd r) p = rd outb p).
Proof.
  intros Hlen Hsmall r. unfold r.
  rewrite bshuf_trans_elem_eq by exact Hlen. cbn [fst snd].
  destruct (written_facts (g_trans_elem inb lda ldb elem_size) _ outb Hlen)
    as (L & Hin & Hout).
  split; [apply int64_of_size_small; exact Hsmall|].
  split; [exact L|]. split; [|exact Hout].
  intros ii jj t Hi Hj Ht.
  assert (Hc : jj * lda + ii < lda * ldb) by (apply mul_add_lt; assumption).
  rewrite Hin.
  2:{ replace (lda * ldb * elem_size) with (elem_size * (lda * ldb)) by lia.
      apply mul_add_lt; assumption. }
  unfold g_trans_elem. cbv zeta.
  destruct (div_mod_unique_nat (jj * lda + ii) t elem_size Ht) as [Ed Em].
  rewrite Ed, Em.
  destruct (div_mod_unique_nat jj ii lda Hi) as [Ed' Em'].
  rewrite Ed', Em'. reflexivity.
Qed.

Lemma bshuf_trans_elem_spec_witness :
  let inb := [1; 2; 3; 4; 5; 6; 7; 8; 9; 10; 11; 12]%Z in
  let r := bshuf_trans_elem inb (malloc 12) 2 3 2 in
  fst r = Z.of_nat (2 * 3 * 2) /\
  length (snd r) = length (malloc 12) /\
  (forall ii jj t, ii < 2 -> jj < 3 -> t < 2 ->
     rd (snd r) ((jj * 2 + ii) * 2 + t) = rd inb ((ii * 3 + jj) * 2 + t)) /\
  (forall p, 2 * 3 * 2 <= p -> rd (snd r) p = rd (malloc 12) p).
Proof.
  apply (bshuf_trans_elem_spec [1; 2; 3; 4; 5; 6; 7; 8; 9; 10; 11; 12]%Z
           (malloc 12) 2 3 2).
  - cbn [length malloc repeat]. lia.
  - reflexivity.
Defined.

(** X4: [bshuf_trans_byte_bitrow_scal] regroups the [8 * elem_size] bit
    rows of [size / 8] bytes by groups of eight elements: byte [ii] of row
    [jj * 8 + kk] goes to position [ii * 8 * elem_size + jj * 8 + kk].
    When [size] is not a multiple of 8 it returns -80 and writes
    nothing. *)
Theorem bshuf_trans_byte_bitrow_scal_spec (inb outb : list Z)
    (size elem_size : nat) :
  size * elem_size <= length outb ->
  (Z.of_nat (size * elem_size) < 2 ^ 63)%Z ->
  let r := bshuf_trans_byte_bitrow_scal inb outb size elem_size in
  (size mod 8 = 0 ->
   fst r = Z.of_nat (size * elem_size) /\
   length (snd r) = length outb /\
   (forall ii jj kk, ii < size / 8 -> jj < elem_size -> kk < 8 ->
      rd (snd r) (ii * 8 * elem_size + jj * 8 + kk)
      = rd inb ((jj * 8 + kk) * (size / 8) + ii)) /\
   (forall p, size * elem_size <= p -> rd (snd r) p = rd outb p)) /\
  (size mod 8 <> 0 -> r = ((-80)%Z, outb)).
Proof.
  intros Hlen Hsmall r. split.
  - intros Hs. unfold r.
    rewrite bshuf_trans_byte_bitrow_scal_eq by assumption. cbn [fst snd].
    destruct (written_facts (g_trans_byte_bitrow inb size elem_size) _ outb
                Hlen) as (L & Hin & Hout).
    split; [apply int64_of_size_small; exact Hsmall|].
    split; [exact L|]. split; [|exact Hout].
    intros ii jj kk Hi Hj Hk.
    assert (Hr : jj * 8 + kk < 8 * elem_size) by lia.
    replace (ii * 8 * elem_size + jj * 8 + kk)
      with (ii * (8 * elem_size) + (jj * 8 + kk)) by lia.
    rewrite Hin.
    2:{ rewrite (n_eq size elem_size Hs). apply mul_add_lt; assumption. }
    unfold g_trans_byte_bitrow.
    destruct (div_mod_unique_nat ii (jj * 8 + kk) (8 * elem_size) Hr)
      as [Ed Em].
    rewrite Ed, Em. reflexivity.
  - intros Hs. unfold r, bshuf_trans_byte_bitrow_scal, CHECK_MULT_EIGHT.
    destruct (Nat.eqb_spec (size mod 8) 0) as [E|_];
      [contradiction|reflexivity].
Qed.

Lemma bshuf_trans_byte_bitrow_scal_spec_witness :
  let inb := [1; 2; 3; 4; 5; 6; 7; 8; 9; 10; 11; 12; 13; 14; 15; 16]%Z in
  let r := bshuf_trans_byte_bitrow_scal inb (malloc 16) 16 1 in
  (16 mod 8 = 0 ->
   fst r = Z.of_nat (16 * 1) /\
   length (snd r) = length (malloc 16) /\
   (forall ii jj kk, ii < 16 / 8 -> jj < 1 -> kk < 8 ->
      rd (snd r) (ii * 8 * 1 + jj * 8 + kk)
      = rd inb ((jj * 8 + kk) * (16 / 8) + ii)) /\
   (forall p, 16 * 1 <= p -> rd (snd r) p = rd (malloc 16) p)) /\
  (16 mod 8 <> 0 -> r = ((-80)%Z, malloc 16)).
Proof.
  apply (bshuf_trans_byte_bitrow_scal_spec
           [1; 2; 3; 4; 5; 6; 7; 8; 9; 10; 11; 12; 13; 14; 15; 16]%Z
           (malloc 16) 16 1).
  - cbn [length malloc repeat]. lia.
  - reflexivity.
Defined.

(** X5: [bshuf_shuffle_bit_eightelem_scal] turns, in every group of eight
    elements, the bit rows back into elements: bit [j] of byte [bb] of
    element [e] of group [blk] is bit [e] of byte [8 * bb + j] of the
    group's input.  When [size] is not a multiple of 8 it returns -80
    and writes nothing. *)
Theorem bshuf_shuffle_bit_eightelem_scal_spec (inb outb : list Z)
    (size elem_size : nat) :
  bytes_ok inb -> 1 <= elem_size ->
  size * elem_size <= length outb ->
  (Z.of_nat (size * elem_size) < 2 ^ 63)%Z ->
  let r := bshuf_shuffle_bit_eightelem_scal inb outb size elem_size in
  (size mod 8 = 0 ->
   fst r = Z.of_nat (size * elem_size) /\
   length (snd r) = length outb /\
   (forall blk e bb j, blk < size / 8 -> e < 8 -> bb < elem_size -> j < 8 ->
      Z.testbit (rd (snd r) (blk * (8 * elem_size) + e * elem_size + bb))
                (Z.of_nat j)
      = Z.testbit (rd inb (blk * (8 * elem_size) + 8 * bb + j))
                  (Z.of_nat e)) /\
   (forall p, size * elem_size <= p -> rd (snd r) p = rd outb p)) /\
  (size mod 8 <> 0 -> r = ((-80)%Z, outb)).
Proof.
  intros Hok He Hlen Hsmall r. split.
  - intros Hs. unfold r.
    rewrite bshuf_shuffle_bit_eightelem_scal_eq;
      [|intros i _; apply rd_bytes_ok; exact Hok|assumption..].
    cbn [fst snd].
    destruct (written_facts (g_shuffle_bit_eightelem inb elem_size) _ outb
                Hlen) as (L & Hin & Hout).
    split; [apply int64_of_size_small; exact Hsmall|].
    split; [exact L|]. split; [|exact Hout].
    intros blk e bb j Hblk Hbe Hbb Hj.
    assert (Hr : e * elem_size + bb < 8 * elem_size) by nia.
    rewrite <- Nat.add_assoc. rewrite Hin.
    2:{ rewrite (n_eq size elem_size Hs). apply mul_add_lt; assumption. }
    unfold g_shuffle_bit_eightelem. cbv zeta.
    destruct (div_mod_unique_nat blk (e * elem_size + bb) (8 * elem_size) Hr)
      as [Ed Em].
    rewrite Ed, Em.
    destruct (div_mod_unique_nat e bb elem_size Hbb) as [Ed' Em'].
    rewrite Ed', Em'.
    rewrite gather8_testbit by lia.
    assert (Ej : (Z.of_nat j <? 8)%Z = true) by (apply Z.ltb_lt; lia).
    rewrite Ej, Nat2Z.id. reflexivity.
  - intros Hs. unfold r, bshuf_shuffle_bit_eightelem_scal, CHECK_MULT_EIGHT.
    destruct (Nat.eqb_spec (size mod 8) 0) as [E|_];
      [contradiction|reflexivity].
Qed.

Lemma bshuf_shuffle_bit_eightelem_scal_spec_witness :
  let inb := [1; 2; 3; 4; 5; 6; 7; 8; 9; 10; 11; 12; 13; 14; 15; 16]%Z in
  let r := bshuf_shuffle_bit_eightelem_scal inb (malloc 16) 8 2 in
  (8 mod 8 = 0 ->
   fst r = Z.of_nat (8 * 2) /\
   length (snd r) = length (malloc 16) /\
   (forall blk e bb j, blk < 8 / 8 -> e < 8 -> bb < 2 -> j < 8 ->
      Z.testbit (rd (snd r) (blk * (8 * 2) + e * 2 + bb)) (Z.of_nat j)
      = Z.testbit (rd inb (blk * (8 * 2) + 8 * bb + j)) (Z.of_nat e)) /\
   (forall p, 8 * 2 <= p -> rd (snd r) p = rd (malloc 16) p)) /\
  (8 mod 8 <> 0 -> r = ((-80)%Z, malloc 16)).
Proof.
  apply (bshuf_shuffle_bit_eightelem_scal_spec
           [1; 2; 3; 4; 5; 6; 7; 8; 9; 10; 11; 12; 13; 14; 15; 16]%Z
           (malloc 16) 8 2).
  - repeat constructor; unfold byte_ok; lia.
  - lia.
  - cbn [length malloc repeat]. lia.
  - reflexivity.
Defined.

(** X6: the layout [bshuf_trans_bit_elem] produces, in every build: the
    output is [8 * elem_size] bit rows of [size / 8] bytes; row
    [8 * bb + k] collects bit [k] of byte [bb] of every element, and bit
    [j] of its byte [t] belongs to element [8 * t + j].  When [size] is
    not a multiple of 8 the result is -80 and nothing is written. *)
Theorem bshuf_trans_bit_elem_layout (b : isa) (inb outb : list Z)
    (size elem_size : nat) :
  bytes_ok inb -> 1 <= elem_size ->
  size * elem_size <= length outb ->
  (Z.of_nat (size * elem_size) < 2 ^ 63)%Z ->
  let r := bshuf_trans_bit_elem b inb outb size elem_size in
  (size mod 8 = 0 ->
   fst r = Z.of_nat (size * elem_size) /\
   length (snd r) = length outb /\
   (forall bb k t j, bb < elem_size -> k < 8 -> t < size / 8 -> j < 8 ->
      Z.testbit (rd (snd r) ((8 * bb + k) * (size / 8) + t)) (Z.of_nat j)
      = Z.testbit (rd inb ((8 * t + j) * elem_size + bb)) (Z.of_nat k)) /\
   (forall p, size * elem_size <= p -> rd (snd r) p = rd outb p)) /\
  (size mod 8 <> 0 -> r = ((-80)%Z, outb)).
Proof.
  intros Hok He Hlen Hsmall r. split.
  - intros Hs. unfold r.
    rewrite bshuf_trans_bit_elem_eq;
      [|assumption|assumption|intros i _; apply rd_bytes_ok; exact Hok
       |assumption..].
    cbn [fst snd].
    destruct (written_facts (g_bitshuffle inb size elem_size) _ outb Hlen)
      as (L & Hin & Hout).
    split; [reflexivity|]. split; [exact L|]. split; [|exact Hout].
    intros bb k t j Hbb Hk Ht Hj.
    assert (Hrow : 8 * bb + k < 8 * elem_size) by lia.
    rewrite Hin.
    2:{ rewrite (n_eq size elem_size Hs). rewrite (Nat.mul_comm (8 * elem_size)).
        apply mul_add_lt; assumption. }
    unfold g_bitshuffle. cbv zeta.
    destruct (div_mod_unique_nat (8 * bb + k) t (size / 8) Ht) as [Ed Em].
    rewrite Ed, Em. rewrite (Nat.mul_comm 8 bb).
    destruct (div_mod_unique_nat bb k 8 Hk) as [Ed' Em'].
    rewrite Ed', Em'.
    rewrite gather8_testbit by lia.
    assert (Ej : (Z.of_nat j <? 8)%Z = true) by (apply Z.ltb_lt; lia).
    rewrite Ej, Nat2Z.id. reflexivity.
  - intros Hs. unfold r.
    destruct b; cbn [bshuf_trans_bit_elem];
      unfold bshuf_trans_bit_elem_AVX, bshuf_trans_bit_elem_SSE,
        bshuf_trans_bit_elem_scal, CHECK_MULT_EIGHT;
      destruct (Nat.eqb_spec (size mod 8) 0) as [E|_];
      try contradiction; reflexivity.
Qed.

Lemma bshuf_trans_bit_elem_layout_witness :
  let inb := [1; 2; 3; 4; 5; 6; 7; 8; 9; 10; 11; 12; 13; 14; 15; 16]%Z in
  let r := bshuf_trans_bit_elem SSE2 inb (malloc 16) 8 2 in
  (8 mod 8 = 0 ->
   fst r = Z.of_nat (8 * 2) /\
   length (snd r) = length (malloc 16) /\
   (forall bb k t j, bb < 2 -> k < 8 -> t < 8 / 8 -> j < 8 ->
      Z.testbit (rd (snd r) ((8 * bb + k) * (8 / 8) + t)) (Z.of_nat j)
      = Z.testbit (rd inb ((8 * t + j) * 2 + bb)) (Z.of_nat k)) /\
   (forall p, 8 * 2 <= p -> rd (snd r) p = rd (malloc 16) p)) /\
  (8 mod 8 <> 0 -> r = ((-80)%Z, malloc 16)).
Proof.
  apply (bshuf_trans_bit_elem_layout SSE2
           [1; 2; 3; 4; 5; 6; 7; 8; 9; 10; 11; 12; 13; 14; 15; 16]%Z
           (malloc 16) 8 2).
  - repeat constructor; unfold byte_ok; lia.
  - lia.
  - cbn [length malloc repeat]. lia.
  - reflexivity.
Defined.

(** X7: [bshuf_untrans_bit_elem] undoes [bshuf_trans_bit_elem], also when
    the two run in different builds (scalar, SSE2, AVX2); when [size] is
    not a multiple of 8 it returns -80 and writes nothing. *)
Theorem bshuf_untrans_bit_elem_inverts (b1 b2 : isa) (x out1 out2 : list Z)
    (size elem_size : nat) :
  1 <= elem_size -> bytes_ok x -> length x = size * elem_size ->
  length out1 = size * elem_size -> length out2 = size * elem_size ->
  (Z.of_nat (size * elem_size) < 2 ^ 63)%Z ->
  (size mod 8 = 0 ->
   bshuf_untrans_bit_elem b2
     (snd (bshuf_trans_bit_elem b1 x out1 size elem_size)) out2
     size elem_size
   = (Z.of_nat (size * elem_size), x)) /\
  (size mod 8 <> 0 ->
   bshuf_untrans_bit_elem b2 x out2 size elem_size = ((-80)%Z, out2)).
Proof.
  intros He Hok Hlx Hl1 Hl2 Hsmall. split.
  - intros Hs.
    rewrite (bshuf_trans_bit_elem_eq b1);
      [|assumption|assumption|intros i _; apply rd_bytes_ok; exact Hok
       |lia|assumption].
    cbn [snd].
    rewrite bshuf_untrans_bit_elem_eq; [|assumption|assumption| |lia|assumption].
    + f_equal. rewrite (drop_ge out2) by lia. rewrite app_nil_r.
      rewrite <- (tabulate_rd x) at 2. rewrite Hlx.
      apply tabulate_ext. intros p Hp.
      apply bitunshuffle_bitshuffle; try assumption.
      apply rd_bytes_ok. exact Hok.
    + intros i Hi. rewrite rd_tabulate by exact Hi. apply gather8_ok.
  - intros Hs.
    destruct b2; cbn [bshuf_untrans_bit_elem];
      unfold bshuf_untrans_bit_elem_AVX, bshuf_untrans_bit_elem_SSE,
        bshuf_untrans_bit_elem_scal, CHECK_MULT_EIGHT;
      destruct (Nat.eqb_spec (size mod 8) 0) as [E|_];
      try contradiction; reflexivity.
Qed.

Lemma bshuf_untrans_bit_elem_inverts_witness :
  let x := [1; 2; 3; 4; 5; 6; 7; 8; 9; 10; 11; 12; 13; 14; 15; 16]%Z in
  (8 mod 8 = 0 ->
   bshuf_untrans_bit_elem Scalar
     (snd (bshuf_trans_bit_elem AVX2 x (malloc 16) 8 2)) (malloc 16) 8 2
   = (Z.of_nat (8 * 2), x)) /\
  (8 mod 8 <> 0 ->
   bshuf_untrans_bit_elem Scalar x (malloc 16) 8 2 = ((-80)%Z, malloc 16)).
Proof.
  apply (bshuf_untrans_bit_elem_inverts AVX2 Scalar
           [1; 2; 3; 4; 5; 6; 7; 8; 9; 10; 11; 12; 13; 14; 15; 16]%Z
           (malloc 16) (malloc 16) 8 2); try reflexivity; try lia.
  repeat constructor; unfold byte_ok; lia.
Defined.

Lemma to_uint64_small z : (0 <= z < 2 ^ 64)%Z -> to_uint64 z = z.
Proof. intros H. unfold to_uint64, wrap_unsigned. apply Z.mod_small. exact H. Qed.

Lemma div_pow_byte num k k' :
  (0 <= num)%Z -> (0 <= k)%Z -> (k' = k + 8)%Z ->
  (num / 2 ^ k = 256 * (num / 2 ^ k') + num / 2 ^ k mod 256)%Z.
Proof.
  intros Hn Hk ->. rewrite Z.pow_add_r by lia.
  rewrite <- Z.div_div by lia.
  change (2 ^ 8)%Z with 256%Z. apply Z.div_mod. lia.
Qed.

Lemma mod_256_ok z : byte_ok (z mod 256).
Proof. unfold byte_ok. apply Z.mod_pos_bound. lia. Qed.

(** X8: [bshuf_write_uint32_BE] stores the low 32 bits of its argument in
    four bytes, most significant first, and touches nothing else;
    [bshuf_read_uint32_BE] reads them back. *)
Theorem bshuf_uint32_BE_round_trip (buf : list Z) (num : Z) :
  4 <= length buf ->
  let w := bshuf_write_uint32_BE buf num in
  length w = length buf /\
  (forall i, i < 4 ->
     rd w i = (to_uint32 num / 2 ^ (8 * (3 - Z.of_nat i)) mod 256)%Z) /\
  (forall p, 4 <= p -> rd w p = rd buf p) /\
  bshuf_read_uint32_BE w = to_uint32 num.
Proof.
  intros Hl w.
  assert (Hn : (0 <= to_uint32 num < 2 ^ 32)%Z)
    by (unfold to_uint32, wrap_unsigned; apply Z.mod_pos_bound; lia).
  assert (Ew : w = bshuf_write_uint32_BE buf (to_uint32 num)).
  { unfold w, bshuf_write_uint32_BE.
    rewrite (to_uint32_small (to_uint32 num)) by exact Hn. reflexivity. }
  split; [apply length_bshuf_write_uint32_BE|].
  rewrite Ew. rewrite bshuf_write_uint32_BE_eq by assumption.
  split; [|split].
  - intros i Hi.
    assert (E24 : (to_uint32 num / 2 ^ 24 mod 256 = to_uint32 num / 2 ^ 24)%Z).
    { apply Z.mod_small. split; [apply Z.div_pos; lia|].
      apply Z.div_lt_upper_bound; lia. }
    destruct i as [|[|[|[|i]]]]; cbn [app rd nth]; try lia.
    + change (8 * (3 - Z.of_nat 0))%Z with 24%Z. rewrite E24. reflexivity.
    + reflexivity.
    + reflexivity.
    + change (8 * (3 - Z.of_nat 3))%Z with 0%Z.
      change (2 ^ 0)%Z with 1%Z. rewrite Z.div_1_r. reflexivity.
  - intros p Hp.
    replace p with (length [(to_uint32 num / 2 ^ 24)%Z;
                            (to_uint32 num / 2 ^ 16 mod 256)%Z;
                            (to_uint32 num / 2 ^ 8 mod 256)%Z;
                            (to_uint32 num mod 256)%Z] + (p - 4))
      at 1 by (cbn [length]; lia).
    rewrite rd_app_r, rd_drop. f_equal. lia.
  - rewrite <- bshuf_write_uint32_BE_eq by assumption.
    apply bshuf_read_write_uint32_BE; assumption.
Qed.

Lemma bshuf_uint32_BE_round_trip_witness :
  let w := bshuf_write_uint32_BE [9; 9; 9; 9; 9; 9]%Z 0x01020304 in
  length w = length [9; 9; 9; 9; 9; 9]%Z /\
  (forall i, i < 4 ->
     rd w i = (to_uint32 0x01020304 / 2 ^ (8 * (3 - Z.of_nat i)) mod 256)%Z) /\
  (forall p, 4 <= p -> rd w p = rd [9; 9; 9; 9; 9; 9]%Z p) /\
  bshuf_read_uint32_BE w = to_uint32 0x01020304.
Proof.
  apply (bshuf_uint32_BE_round_trip [9; 9; 9; 9; 9; 9]%Z 0x01020304).
  cbn [length]. lia.
Defined.

Lemma bshuf_write_uint64_BE_eq (buf : list Z) (num : Z) :
  (0 <= num < 2 ^ 64)%Z -> 8 <= length buf ->
  bshuf_write_uint64_BE buf num
  = [(num / 2 ^ 56 mod 256)%Z; (num / 2 ^ 48 mod 256)%Z;
     (num / 2 ^ 40 mod 256)%Z; (num / 2 ^ 32 mod 256)%Z;
     (num / 2 ^ 24 mod 256)%Z; (num / 2 ^ 16 mod 256)%Z;
     (num / 2 ^ 8 mod 256)%Z; (num mod 256)%Z] ++ drop 8 buf.
Proof.
  intros Hn Hl. unfold bshuf_write_uint64_BE. cbn [fold_left snd].
  change (to_uint64 (Z.shiftl 1 8)) with 256%Z.
  rewrite (to_uint64_small num) by exact Hn.
  unfold to_uint8, wrap_unsigned. change (2 ^ 8)%Z with 256%Z.
  rewrite !Z.mod_mod by lia.
  rewrite !Z.div_div by lia.
  change (256 * 256)%Z with (2 ^ 16)%Z.
  change (2 ^ 16 * 256)%Z with (2 ^ 24)%Z.
  change (2 ^ 24 * 256)%Z with (2 ^ 32)%Z.
  change (2 ^ 32 * 256)%Z with (2 ^ 40)%Z.
  change (2 ^ 40 * 256)%Z with (2 ^ 48)%Z.
  change (2 ^ 48 * 256)%Z with (2 ^ 56)%Z.
  change (num / 256)%Z with (num / 2 ^ 8)%Z.
  destruct buf as [|a0 [|a1 [|a2 [|a3 [|a4 [|a5 [|a6 [|a7 rest]]]]]]]];
    cbn [length] in Hl; try lia.
  reflexivity.
Qed.

Lemma bshuf_read_uint64_BE_eq (buf : list Z) :
  (forall i, i < 8 -> byte_ok (rd buf i)) ->
  bshuf_read_uint64_BE buf
  = (rd buf 0 * 2 ^ 56 + rd buf 1 * 2 ^ 48 + rd buf 2 * 2 ^ 40
     + rd buf 3 * 2 ^ 32 + rd buf 4 * 2 ^ 24 + rd buf 5 * 2 ^ 16
     + rd buf 6 * 2 ^ 8 + rd buf 7)%Z.
Proof.
  intros H.
  pose proof (H 0 ltac:(lia)) as H0. pose proof (H 1 ltac:(lia)) as H1.
  pose proof (H 2 ltac:(lia)) as H2. pose proof (H 3 ltac:(lia)) as H3.
  pose proof (H 4 ltac:(lia)) as H4. pose proof (H 5 ltac:(lia)) as H5.
  pose proof (H 6 ltac:(lia)) as H6. pose proof (H 7 ltac:(lia)) as H7.
  unfold byte_ok in *.
  unfold bshuf_read_uint64_BE. cbn [fold_left fst].
  change (to_uint64 (Z.shiftl 1 8)) with 256%Z.
  change (to_uint64 (1 * 256)) with (2 ^ 8)%Z.
  change (to_uint64 (2 ^ 8 * 256)) with (2 ^ 16)%Z.
  change (to_uint64 (2 ^ 16 * 256)) with (2 ^ 24)%Z.
  change (to_uint64 (2 ^ 24 * 256)) with (2 ^ 32)%Z.
  change (to_uint64 (2 ^ 32 * 256)) with (2 ^ 40)%Z.
  change (to_uint64 (2 ^ 40 * 256)) with (2 ^ 48)%Z.
  change (to_uint64 (2 ^ 48 * 256)) with (2 ^ 56)%Z.
  set (s0 := (0 + rd buf 7 * 1)%Z).
  rewrite (to_uint64_small s0) by (unfold s0; lia).
  set (s1 := (s0 + rd buf 6 * 2 ^ 8)%Z).
  rewrite (to_uint64_small s1) by (unfold s1, s0; lia).
  set (s2 := (s1 + rd buf 5 * 2 ^ 16)%Z).
  rewrite (to_uint64_small s2) by (unfold s2, s1, s0; lia).
  set (s3 := (s2 + rd buf 4 * 2 ^ 24)%Z).
  rewrite (to_uint64_small s3) by (unfold s3, s2, s1, s0; lia).
  set (s4 := (s3 + rd buf 3 * 2 ^ 32)%Z).
  rewrite (to_uint64_small s4) by (unfold s4, s3, s2, s1, s0; lia).
  set (s5 := (s4 + rd buf 2 * 2 ^ 40)%Z).
  rewrite (to_uint64_small s5) by (unfold s5, s4, s3, s2, s1, s0; lia).
  set (s6 := (s5 + rd buf 1 * 2 ^ 48)%Z).
  rewrite (to_uint64_small s6) by (unfold s6, s5, s4, s3, s2, s1, s0; lia).
  rewrite to_uint64_small by (unfold s6, s5, s4, s3, s2, s1, s0; lia).
  unfold s6, s5, s4, s3, s2, s1, s0. lia.
Qed.

(** X9: [bshuf_write_uint64_BE] stores a 64-bit number in eight bytes,
    most significant first, and touches nothing else;
    [bshuf_read_uint64_BE] reads it back. *)
Theorem bshuf_uint64_BE_round_trip (buf : list Z) (num : Z) :
  (0 <= num < 2 ^ 64)%Z -> 8 <= length buf ->
  let w := bshuf_write_uint64_BE buf num in
  length w = length buf /\
  (forall i, i < 8 ->
     rd w i = (num / 2 ^ (8 * (7 - Z.of_nat i)) mod 256)%Z) /\
  (forall p, 8 <= p -> rd w p = rd buf p) /\
  bshuf_read_uint64_BE w = num.
Proof.
  intros Hn Hl w. unfold w.
  rewrite bshuf_write_uint64_BE_eq by assumption.
  set (bytes := [(num / 2 ^ 56 mod 256)%Z; (num / 2 ^ 48 mod 256)%Z;
                 (num / 2 ^ 40 mod 256)%Z; (num / 2 ^ 32 mod 256)%Z;
                 (num / 2 ^ 24 mod 256)%Z; (num / 2 ^ 16 mod 256)%Z;
                 (num / 2 ^ 8 mod 256)%Z; (num mod 256)%Z]).
  assert (Lb : length bytes = 8) by reflexivity.
  split; [|split; [|split]].
  - rewrite length_app, Lb, length_drop. lia.
  - intros i Hi.
    destruct i as [|[|[|[|[|[|[|[|i]]]]]]]]; cbn [app rd nth bytes]; try lia;
      try reflexivity.
    change (8 * (7 - Z.of_nat 7))%Z with 0%Z.
    change (2 ^ 0)%Z with 1%Z. rewrite Z.div_1_r. reflexivity.
  - intros p Hp. replace p with (length bytes + (p - 8)) at 1 by (rewrite Lb; lia).
    rewrite rd_app_r, rd_drop. f_equal. lia.
  - rewrite bshuf_read_uint64_BE_eq.
    2:{ intros i Hi.
        destruct i as [|[|[|[|[|[|[|[|i]]]]]]]]; cbn [app rd nth bytes];
          try lia; apply mod_256_ok. }
    cbn [app rd nth bytes].
    pose proof (div_pow_byte num 0 8 ltac:(lia) ltac:(lia) eq_refl) as E0.
    pose proof (div_pow_byte num 8 16 ltac:(lia) ltac:(lia) eq_refl) as E1.
    pose proof (div_pow_byte num 16 24 ltac:(lia) ltac:(lia) eq_refl) as E2.
    pose proof (div_pow_byte num 24 32 ltac:(lia) ltac:(lia) eq_refl) as E3.
    pose proof (div_pow_byte num 32 40 ltac:(lia) ltac:(lia) eq_refl) as E4.
    pose proof (div_pow_byte num 40 48 ltac:(lia) ltac:(lia) eq_refl) as E5.
    pose proof (div_pow_byte num 48 56 ltac:(lia) ltac:(lia) eq_refl) as E6.
    pose proof (div_pow_byte num 56 64 ltac:(lia) ltac:(lia) eq_refl) as E7.
    change (2 ^ 0)%Z with 1%Z in E0. rewrite Z.div_1_r in E0.
    assert (E8 : (num / 2 ^ 64 = 0)%Z) by (apply Z.div_small; lia).
    rewrite E8 in E7. lia.
Qed.

Lemma bshuf_uint64_BE_round_trip_witness :
  let w := bshuf_write_uint64_BE (malloc 9) 0x0102030405060708 in
  length w = length (malloc 9) /\
  (forall i, i < 8 ->
     rd w i
     = (0x0102030405060708 / 2 ^ (8 * (7 - Z.of_nat i)) mod 256)%Z) /\
  (forall p, 8 <= p -> rd w p = rd (malloc 9) p) /\
  bshuf_read_uint64_BE w = 0x0102030405060708%Z.
Proof.
  apply (bshuf_uint64_BE_round_trip (malloc 9) 0x0102030405060708).
  - lia.
  - cbn [length malloc repeat]. lia.
Defined.

(** X10: [bshuf_bitshuffle] on a buffer of any [size]: the result does
    not depend on the build; it is the number of bytes; the bytes of the
    output beyond them stay as they were; the [size mod 8] trailing
    elements are copied as they are; and [bshuf_bitunshuffle], in any
    build, gives the input back. *)
Theorem bshuf_bitshuffle_any_size (b1 b2 : isa) (x out1 out2 : list Z)
    (size elem_size block_size : nat) :
  1 <= elem_size -> block_size mod 8 = 0 ->
  bytes_ok x -> length x = size * elem_size ->
  size * elem_size <= length out1 -> size * elem_size <= length out2 ->
  (Z.of_nat (size * elem_size) < 2 ^ 63)%Z ->
  let r := bshuf_bitshuffle b1 x out1 size elem_size block_size in
  r = bshuf_bitshuffle b2 x out1 size elem_size block_size /\
  fst r = Z.of_nat (size * elem_size) /\
  drop (size * elem_size) (snd r) = drop (size * elem_size) out1 /\
  (forall p, (size - size mod 8) * elem_size <= p -> p < size * elem_size ->
     rd (snd r) p = rd x p) /\
  bshuf_bitunshuffle b2 (snd r) out2 size elem_size block_size
  = (Z.of_nat (size * elem_size), x ++ drop (size * elem_size) out2).
Proof.
  intros He Hbs Hok Hlx Hl1 Hl2 Hsmall r.
  assert (Hrd : forall i, i < size * elem_size -> byte_ok (rd x i))
    by (intros i _; apply rd_bytes_ok; exact Hok).
  pose proof (bshuf_blocked_wrap_fun_map _ _ x out1 size elem_size block_size
                (bshuf_bitshuffle_block_map b1) He Hbs Hrd Hl1 Hsmall) as E1.
  pose proof (bshuf_blocked_wrap_fun_map _ _ x out1 size elem_size block_size
                (bshuf_bitshuffle_block_map b2) He Hbs Hrd Hl1 Hsmall) as E2.
  cbv zeta in E1, E2.
  assert (E12 : r = bshuf_bitshuffle b2 x out1 size elem_size block_size).
  { unfold r, bshuf_bitshuffle. rewrite E1, E2. reflexivity. }
  split; [exact E12|].
  destruct (bshuf_bitunshuffle_bitshuffle b2 x out1 out2 size elem_size
              block_size He Hbs Hok Hlx Hl1 Hl2 Hsmall) as [Ec Ert].
  rewrite <- E12 in Ec, Ert.
  split; [exact Ec|]. split; [|split; [|exact Ert]].
  - unfold r, bshuf_bitshuffle. rewrite E1. cbn [snd].
    destruct (resolved_block_size_ok elem_size block_size Hbs) as [Hr8 Hrpos].
    destruct (block_sizes_ok size _ Hr8 Hrpos) as [_ Hsum].
    pose proof (Nat.div_mod_eq size 8) as Ed.
    pose proof (Nat.mod_upper_bound size 8 ltac:(lia)) as Hm.
    rewrite app_assoc. apply drop_app_length'.
    rewrite length_app, length_map_blocks, length_tabulate, Hsum. nia.
  - intros p Hp1 Hp2. unfold r, bshuf_bitshuffle. rewrite E1. cbn [snd].
    destruct (resolved_block_size_ok elem_size block_size Hbs) as [Hr8 Hrpos].
    destruct (block_sizes_ok size _ Hr8 Hrpos) as [_ Hsum].
    pose proof (Nat.div_mod_eq size 8) as Ed.
    pose proof (Nat.mod_upper_bound size 8 ltac:(lia)) as Hm.
    set (M := map_blocks _ _ _ _).
    assert (LM : length M = (size - size mod 8) * elem_size)
      by (unfold M; rewrite length_map_blocks, Hsum; reflexivity).
    replace p with (length M + (p - (size - size mod 8) * elem_size))
      at 1 by lia.
    rewrite rd_app_r, rd_tabulate by nia.
    rewrite rd_drop. f_equal. lia.
Qed.

Lemma bshuf_bitshuffle_any_size_witness :
  let x := [1; 2; 3; 4; 5; 6; 7; 8; 9; 10]%Z in
  let r := bshuf_bitshuffle Scalar x (malloc 12) 10 1 8 in
  r = bshuf_bitshuffle AVX2 x (malloc 12) 10 1 8 /\
  fst r = Z.of_nat (10 * 1) /\
  drop (10 * 1) (snd r) = drop (10 * 1) (malloc 12) /\
  (forall p, (10 - 10 mod 8) * 1 <= p -> p < 10 * 1 ->
     rd (snd r) p = rd x p) /\
  bshuf_bitunshuffle AVX2 (snd r) (malloc 10) 10 1 8
  = (Z.of_nat (10 * 1), x ++ drop (10 * 1) (malloc 10)).
Proof.
  apply (bshuf_bitshuffle_any_size Scalar AVX2
           [1; 2; 3; 4; 5; 6; 7; 8; 9; 10]%Z (malloc 12) (malloc 10) 10 1 8);
    try reflexivity; try (cbn [length malloc repeat]; lia).
  repeat constructor; unfold byte_ok; lia.
Defined.

(** X11: a block size that is not a multiple of 8 is rejected by the
    framework before any worker runs: whatever the worker, and so for the
    four public functions, the result is -81 and the output is
    untouched. *)
Theorem invalid_block_size_is_rejected (fn : bshufBlockFunDef) (b : isa)
    (lz : lz4_codec) (inb outb : list Z) (size elem_size block_size : nat) :
  block_size mod 8 <> 0 ->
  bshuf_blocked_wrap_fun fn inb outb size elem_size block_size
    = ((-81)%Z, outb) /\
  bshuf_bitshuffle b inb outb size elem_size block_size = ((-81)%Z, outb) /\
  bshuf_bitunshuffle b inb outb size elem_size block_size
    = ((-81)%Z, outb) /\
  bshuf_compress_lz4 b lz inb outb size elem_size block_size
    = ((-81)%Z, outb) /\
  bshuf_decompress_lz4 b lz inb outb size elem_size block_size
    = ((-81)%Z, outb).
Proof.
  intros H8.
  assert (G : forall f, bshuf_blocked_wrap_fun f inb outb size elem_size
                          block_size = ((-81)%Z, outb)).
  { intros f. unfold bshuf_blocked_wrap_fun, BSHUF_BLOCKED_MULT.
    destruct (Nat.eqb_spec block_size 0) as [E|_];
      [subst block_size; contradiction H8; reflexivity|].
    destruct (Nat.eqb_spec (block_size mod 8) 0) as [E|_];
      [contradiction|reflexivity]. }
  repeat split; apply G.
Qed.

Lemma invalid_block_size_is_rejected_witness :
  bshuf_blocked_wrap_fun (bshuf_bitshuffle_block Scalar) [1; 2; 3]%Z
    (malloc 3) 3 1 12 = ((-81)%Z, malloc 3) /\
  bshuf_bitshuffle Scalar [1; 2; 3]%Z (malloc 3) 3 1 12
    = ((-81)%Z, malloc 3) /\
  bshuf_bitunshuffle Scalar [1; 2; 3]%Z (malloc 3) 3 1 12
    = ((-81)%Z, malloc 3) /\
  bshuf_compress_lz4 Scalar lz4_stored [1; 2; 3]%Z (malloc 3) 3 1 12
    = ((-81)%Z, malloc 3) /\
  bshuf_decompress_lz4 Scalar lz4_stored [1; 2; 3]%Z (malloc 3) 3 1 12
    = ((-81)%Z, malloc 3).
Proof.
  apply (invalid_block_size_is_rejected (bshuf_bitshuffle_block Scalar)
           Scalar lz4_stored [1; 2; 3]%Z (malloc 3) 3 1 12).
  vm_compute. lia.
Defined.

Lemma fold_block_step_run fn inb elem_size : forall sizes e cum st,
  let r := fold_left (fun s sz => block_step fn inb elem_size sz s) sizes
             (e, cum, st) in
  let w := run_workers fn inb elem_size sizes st in
  fst (fst r)
  = fold_left (fun e c => if (c <? 0)%Z then c else e) (fst w) e /\
  snd r = snd w.
Proof.
  induction sizes as [|sz l IH]; intros e cum st.
  - split; reflexivity.
  - cbn [fold_left run_workers].
    assert (E : block_step fn inb elem_size sz (e, cum, st)
                = let '(count, st1) := fn inb st sz elem_size in
                  (if (count <? 0)%Z then count else e,
                   to_int64 (cum + count), st1)) by reflexivity.
    rewrite E. clear E.
    destruct (fn inb st sz elem_size) as [count st1].
    specialize (IH (if (count <? 0)%Z then count else e)
                  (to_int64 (cum + count)) st1).
    cbv zeta in IH.
    destruct (run_workers fn inb elem_size l st1) as [counts st2].
    cbn [fst snd fold_left] in *. exact IH.
Qed.

Lemma last_negative_count pre c post e :
  (c < 0)%Z -> Forall (fun x => (0 <= x)%Z) post ->
  fold_left (fun e c => if (c <? 0)%Z then c else e) (pre ++ c :: post) e
  = c.
Proof.
  intros Hc Hpost. rewrite fold_left_app. cbn [fold_left].
  destruct (Z.ltb_spec c 0) as [_|H]; [|lia].
  clear pre e. induction Hpost as [|x l Hx _ IH]; [reflexivity|].
  cbn [fold_left]. destruct (Z.ltb_spec x 0) as [H|_]; [lia|exact IH].
Qed.

(** X12: a block fails when its worker returns a negative count.  The
    framework still runs the workers of the blocks that follow; when
    the counts the workers returned are [pre], then a negative [c],
    then [post] with no negative one, the framework returns [c], the
    count of the last block that failed: the leftover elements are not
    copied and the output is as the workers left it. *)
Theorem blocked_wrap_returns_block_error (fn : bshufBlockFunDef)
    (inb outb : list Z) (size elem_size block_size : nat)
    (pre post : list Z) (c : Z) :
  let sizes := block_sizes size (resolved_block_size elem_size block_size) in
  let w := run_workers fn inb elem_size sizes (ioc_init, outb) in
  block_size mod 8 = 0 ->
  fst w = pre ++ c :: post -> (c < 0)%Z ->
  Forall (fun x => (0 <= x)%Z) post ->
  bshuf_blocked_wrap_fun fn inb outb size elem_size block_size
  = (c, snd (snd w)).
Proof.
  intros sizes w Hbs Hw Hc Hpost.
  destruct (resolved_block_size_ok elem_size block_size Hbs) as [Hr8 _].
  rewrite bshuf_blocked_wrap_fun_unfold by exact Hr8. fold sizes.
  destruct (fold_block_step_run fn inb elem_size sizes 0%Z 0%Z
              (ioc_init, outb)) as [Ee Es].
  fold w in Ee, Es. rewrite Hw, last_negative_count in Ee by assumption.
  destruct (fold_left _ sizes _) as [[e cum] [C ob]].
  cbn [fst snd] in Ee, Es. subst e. rewrite <- Es. unfold finish.
  destruct (Z.ltb_spec c 0) as [_|Hge]; [reflexivity|lia].
Qed.

Lemma blocked_wrap_returns_block_error_witness :
  let fn := bshuf_compress_lz4_block Scalar (lz4_reports (-3)) in
  let inb := [1; 2; 3; 4; 5; 6; 7; 8; 9]%Z in
  let w := run_workers fn inb 1
             (block_sizes 9 (resolved_block_size 1 8))
             (ioc_init, malloc 13) in
  bshuf_blocked_wrap_fun fn inb (malloc 13) 9 1 8
  = ((-1003)%Z, snd (snd w)).
Proof.
  apply (blocked_wrap_returns_block_error
           (bshuf_compress_lz4_block Scalar (lz4_reports (-3)))
           [1; 2; 3; 4; 5; 6; 7; 8; 9]%Z (malloc 13) 9 1 8
           [] [] (-1003)%Z).
  - reflexivity.
  - vm_compute. reflexivity.
  - lia.
  - constructor.
Defined.

Lemma block_sizes_single size bs :
  0 < size -> size <= bs -> size mod 8 = 0 -> block_sizes size bs = [size].
Proof.
  intros Hpos Hle Hs. unfold block_sizes, BSHUF_BLOCKED_MULT.
  destruct (Nat.eq_dec size bs) as [->|Hne].
  - rewrite Nat.div_same, Nat.Div0.mod_same by lia. reflexivity.
  - rewrite Nat.div_small, Nat.mod_small by lia. rewrite Hs, Nat.sub_0_r.
    destruct (Nat.eqb_spec size 0) as [E|_]; [lia|reflexivity].
Qed.

(** X13: on a buffer that fits one block ([size] a multiple of 8, at most
    the block size), [bshuf_bitshuffle] is [bshuf_trans_bit_elem] and
    [bshuf_bitunshuffle] is [bshuf_untrans_bit_elem]: the framework adds
    nothing. *)
Theorem one_block_is_the_primitive (b : isa) (inb outb : list Z)
    (size elem_size block_size : nat) :
  1 <= elem_size -> block_size mod 8 = 0 ->
  size mod 8 = 0 -> 0 < size ->
  size <= resolved_block_size elem_size block_size ->
  bytes_ok inb -> size * elem_size <= length outb ->
  (Z.of_nat (size * elem_size) < 2 ^ 63)%Z ->
  bshuf_bitshuffle b inb outb size elem_size block_size
    = bshuf_trans_bit_elem b inb outb size elem_size /\
  bshuf_bitunshuffle b inb outb size elem_size block_size
    = bshuf_untrans_bit_elem b inb outb size elem_size.
Proof.
  intros He Hbs Hs Hpos Hle Hok Hlen Hsmall.
  assert (Hrd : forall i, i < size * elem_size -> byte_ok (rd inb i))
    by (intros i _; apply rd_bytes_ok; exact Hok).
  assert (E0 : tabulate (rd (drop ((size - size mod 8) * elem_size) inb))
                 (size mod 8 * elem_size) = []).
  { rewrite Hs. reflexivity. }
  split.
  - unfold bshuf_bitshuffle.
    rewrite (bshuf_blocked_wrap_fun_map _ _ inb outb size elem_size block_size
               (bshuf_bitshuffle_block_map b)) by assumption.
    rewrite block_sizes_single, E0 by assumption. cbn [map_blocks].
    rewrite bshuf_trans_bit_elem_eq by assumption.
    rewrite !app_nil_r. reflexivity.
  - unfold bshuf_bitunshuffle.
    rewrite (bshuf_blocked_wrap_fun_map _ _ inb outb size elem_size block_size
               (bshuf_bitunshuffle_block_map b)) by assumption.
    rewrite block_sizes_single, E0 by assumption. cbn [map_blocks].
    rewrite bshuf_untrans_bit_elem_eq by assumption.
    rewrite !app_nil_r. reflexivity.
Qed.

Lemma one_block_is_the_primitive_witness :
  let inb := [1; 2; 3; 4; 5; 6; 7; 8; 9; 10; 11; 12; 13; 14; 15; 16]%Z in
  bshuf_bitshuffle SSE2 inb (malloc 16) 8 2 0
    = bshuf_trans_bit_elem SSE2 inb (malloc 16) 8 2 /\
  bshuf_bitunshuffle SSE2 inb (malloc 16) 8 2 0
    = bshuf_untrans_bit_elem SSE2 inb (malloc 16) 8 2.
Proof.
  apply (one_block_is_the_primitive SSE2
           [1; 2; 3; 4; 5; 6; 7; 8; 9; 10; 11; 12; 13; 14; 15; 16]%Z
           (malloc 16) 8 2 0).
  - lia.
  - reflexivity.
  - reflexivity.
  - lia.
  - apply Nat.leb_le. vm_compute. reflexivity.
  - repeat constructor; unfold byte_ok; lia.
  - cbn [length malloc repeat]. lia.
  - reflexivity.
Defined.

(** X14: the record [bshuf_compress_lz4_block] writes for a block.  With
    [S] the shuffled block and [c] the count [LZ4_compress] reports for
    it, the worker returns [c + 4], moves the input head by the bytes of
    the block and the output head by [c + 4], stores [c] in four bytes,
    most significant first, then the [c] bytes LZ4 stored, and changes
    nothing else.  Of LZ4 only this is asked: [c] is not negative and
    fits an int. *)
Theorem compress_block_writes_record (b : isa) (lz : lz4_codec)
    (inb outb : list Z) (a o size elem_size : nat) :
  size mod 8 = 0 -> 0 < size -> 1 <= elem_size ->
  bytes_ok inb ->
  (Z.of_nat (size * elem_size) < 2 ^ 31)%Z ->
  let n := size * elem_size in
  let S := snd (bshuf_trans_bit_elem b (drop a inb) (malloc n) size
                  elem_size) in
  let c := fst (LZ4_compress lz S (Z.of_nat n)) in
  let d := snd (LZ4_compress lz S (Z.of_nat n)) in
  let r := bshuf_compress_lz4_block b lz inb (chain_at a o, outb) size
             elem_size in
  (0 <= c < 2 ^ 31)%Z ->
  o + 4 + Z.to_nat c <= length outb ->
  fst r = (c + 4)%Z /\
  fst (snd r) = chain_at (a + n) (o + 4 + Z.to_nat c) /\
  length (snd (snd r)) = length outb /\
  (forall i, i < 4 ->
     rd (snd (snd r)) (o + i)
     = (c / 2 ^ (8 * (3 - Z.of_nat i)) mod 256)%Z) /\
  (forall t, t < Z.to_nat c -> rd (snd (snd r)) (o + 4 + t) = rd d t) /\
  (forall p, p < o \/ o + 4 + Z.to_nat c <= p ->
     rd (snd (snd r)) p = rd outb p).
Proof.
  intros Hs Hpos He Hok Hsmall n S c d r Hc Hroom.
  assert (Hrd : forall i, i < n -> byte_ok (rd inb (a + i)))
    by (intros i _; apply rd_bytes_ok; exact Hok).
  assert (ES : S = tabulate (g_bitshuffle (drop a inb) size elem_size) n).
  { unfold S. rewrite bshuf_trans_bit_elem_eq; try assumption.
    - cbn [snd]. rewrite drop_all_malloc, app_nil_r. reflexivity.
    - intros i _. apply rd_bytes_ok. unfold bytes_ok in *.
      rewrite <- (take_drop a inb) in Hok. apply List.Forall_app in Hok.
      apply Hok.
    - rewrite length_malloc. unfold n. lia.
    - lia. }
  pose proof (bshuf_compress_lz4_block_eq b lz inb outb a o size elem_size
                Hs Hpos He Hrd Hsmall) as E0.
  cbv zeta in E0. fold n in E0. rewrite <- ES in E0.
  destruct (E0 Hc) as (out' & E & L & R). clear E0.
  assert (LS : length S = n) by (rewrite ES; apply length_tabulate).
  assert (Lr : length (lz4_record lz S) = 4 + Z.to_nat c).
  { rewrite length_lz4_record, LS. reflexivity. }
  assert (Er : lz4_record lz S = header c ++ tabulate (rd d) (Z.to_nat c)).
  { unfold lz4_record. cbv zeta. rewrite LS. reflexivity. }
  rewrite Lr in E, R. unfold r. rewrite E. cbn [fst snd].
  rewrite R by lia. rewrite Er.
  split; [lia|]. split; [f_equal; lia|].
  assert (Lw : length (header c ++ tabulate (rd d) (Z.to_nat c))
               = 4 + Z.to_nat c)
    by (rewrite length_app, length_header, length_tabulate; reflexivity).
  split; [apply length_splice; lia|]. split; [|split].
  - intros i Hi. rewrite rd_splice, Lw by lia.
    destruct (Nat.ltb_spec (o + i) o); [lia|].
    destruct (Nat.ltb_spec (o + i) (o + (4 + Z.to_nat c))); [|lia].
    replace (o + i - o) with i by lia.
    rewrite rd_app_l by (rewrite length_header; exact Hi).
    assert (E24 : (c / 2 ^ 24 mod 256 = c / 2 ^ 24)%Z).
    { apply Z.mod_small. split; [apply Z.div_pos; lia|].
      apply Z.div_lt_upper_bound; lia. }
    destruct i as [|[|[|[|i]]]]; cbn [header rd nth]; try lia.
    + change (8 * (3 - Z.of_nat 0))%Z with 24%Z. rewrite E24. reflexivity.
    + reflexivity.
    + reflexivity.
    + change (8 * (3 - Z.of_nat 3))%Z with 0%Z.
      change (2 ^ 0)%Z with 1%Z. rewrite Z.div_1_r. reflexivity.
  - intros t Ht. rewrite rd_splice, Lw by lia.
    destruct (Nat.ltb_spec (o + 4 + t) o); [lia|].
    destruct (Nat.ltb_spec (o + 4 + t) (o + (4 + Z.to_nat c))); [|lia].
    replace (o + 4 + t - o) with (length (header c) + t)
      by (rewrite length_header; lia).
    rewrite rd_app_r. rewrite <- (app_nil_r (tabulate _ _)).
    apply rd_tabulate. exact Ht.
  - intros p Hp. rewrite rd_splice, Lw by lia.
    destruct (Nat.ltb_spec p o); [reflexivity|].
    destruct (Nat.ltb_spec p (o + (4 + Z.to_nat c))); [lia|reflexivity].
Qed.

Lemma compress_block_writes_record_witness :
  let inb := [1; 2; 3; 4; 5; 6; 7; 8]%Z in
  let outb := malloc 12 in
  let n := 8 * 1 in
  let S := snd (bshuf_trans_bit_elem Scalar (drop 0 inb) (malloc n) 8 1) in
  let c := fst (LZ4_compress lz4_stored S (Z.of_nat n)) in
  let d := snd (LZ4_compress lz4_stored S (Z.of_nat n)) in
  let r := bshuf_compress_lz4_block Scalar lz4_stored inb
             (chain_at 0 0, outb) 8 1 in
  fst r = (c + 4)%Z /\
  fst (snd r) = chain_at (0 + n) (0 + 4 + Z.to_nat c) /\
  length (snd (snd r)) = length outb /\
  (forall i, i < 4 ->
     rd (snd (snd r)) (0 + i)
     = (c / 2 ^ (8 * (3 - Z.of_nat i)) mod 256)%Z) /\
  (forall t, t < Z.to_nat c -> rd (snd (snd r)) (0 + 4 + t) = rd d t) /\
  (forall p, p < 0 \/ 0 + 4 + Z.to_nat c <= p ->
     rd (snd (snd r)) p = rd outb p).
Proof.
  apply (compress_block_writes_record Scalar lz4_stored
           [1; 2; 3; 4; 5; 6; 7; 8]%Z (malloc 12) 0 0 8 1).
  - reflexivity.
  - lia.
  - lia.
  - repeat constructor; unfold byte_ok; lia.
  - reflexivity.
  - vm_compute. split; [discriminate|reflexivity].
  - apply Nat.leb_le. vm_compute. reflexivity.
Defined.

(** X15: when the LZ4 call of [bshuf_decompress_lz4_block] reports a
    negative count, in the fast mode or in the safe mode, the worker
    returns that count minus 1000 and writes nothing; the heads of the
    chain have moved all the same, the input head by the length in the
    header plus 4 and the output head by the bytes of the block. *)
Theorem decompress_block_lz4_failure (b : isa) (fast : bool)
    (lz : lz4_codec) (inb : list Z) (C : ioc_chain) (outb : list Z)
    (size elem_size : nat) :
  let view := ptr_view inb (ioc_get_in C) in
  let L := to_int32 (bshuf_read_uint32_BE view) in
  let n := to_int32 (Z.of_nat (size * elem_size)) in
  let nbytes :=
    if fast
    then fst (LZ4_decompress_fast lz (ptr_view inb (ioc_get_in C + 4)) n)
    else fst (LZ4_decompress_safe lz (ptr_view inb (ioc_get_in C + 4)) L n)
  in
  let r := bshuf_decompress_lz4_block b fast lz inb (C, outb) size
             elem_size in
  (nbytes < 0)%Z ->
  fst r = (nbytes - 1000)%Z /\ (fst r < -1000)%Z /\
  snd (snd r) = outb /\
  next_in (fst (snd r)) = (next_in C + L + 4)%Z /\
  next_out (fst (snd r)) = (next_out C + Z.of_nat (size * elem_size))%Z.
Proof.
  intros view L n nbytes r Hneg. unfold r, bshuf_decompress_lz4_block.
  fold view. fold L. fold n. unfold nbytes in Hneg.
  unfold ioc_get_in, ioc_get_out, ioc_set_next_in, ioc_set_next_out in *.
  cbn [next_in next_out] in *. unfold CHECK_ERR_FREE_LZ.
  destruct fast.
  - destruct (LZ4_decompress_fast lz _ n) as [c d]. cbn [fst] in Hneg.
    destruct (Z.ltb_spec c 0) as [_|Hge]; [|lia].
    cbn [fst snd next_in next_out]. repeat split. lia.
  - destruct (LZ4_decompress_safe lz _ L n) as [c d]. cbn [fst] in Hneg.
    destruct (Z.ltb_spec c 0) as [_|Hge]; [|lia].
    cbn [fst snd next_in next_out]. repeat split. lia.
Qed.

Lemma decompress_block_lz4_failure_witness :
  let inb := [0; 0; 0; 3; 1; 2; 3]%Z in
  let C := ioc_init in
  let lz := lz4_reports (-5) in
  let view := ptr_view inb (ioc_get_in C) in
  let L := to_int32 (bshuf_read_uint32_BE view) in
  let n := to_int32 (Z.of_nat (8 * 1)) in
  let nbytes :=
    if true
    then fst (LZ4_decompress_fast lz (ptr_view inb (ioc_get_in C + 4)) n)
    else fst (LZ4_decompress_safe lz (ptr_view inb (ioc_get_in C + 4)) L n)
  in
  let r := bshuf_decompress_lz4_block Scalar true lz inb (C, malloc 8) 8 1 in
  fst r = (nbytes - 1000)%Z /\ (fst r < -1000)%Z /\
  snd (snd r) = malloc 8 /\
  next_in (fst (snd r)) = (next_in C + L + 4)%Z /\
  next_out (fst (snd r)) = (next_out C + Z.of_nat (8 * 1))%Z.
Proof.
  apply (decompress_block_lz4_failure Scalar true (lz4_reports (-5))
           [0; 0; 0; 3; 1; 2; 3]%Z ioc_init (malloc 8) 8 1).
  reflexivity.
Defined.

Lemma bound_sum_app lz elem_size l1 l2 :
  bound_sum lz elem_size (l1 ++ l2)
  = (bound_sum lz elem_size l1 + bound_sum lz elem_size l2)%Z.
Proof.
  unfold bound_sum. induction l1 as [|s r IH]; cbn [app fold_right]; [lia|].
  rewrite IH. lia.
Qed.

Lemma bound_sum_repeat lz elem_size s k :
  bound_sum lz elem_size (repeat s k)
  = (Z.of_nat k * (LZ4_compressBound lz (Z.of_nat (s * elem_size)) + 4))%Z.
Proof.
  unfold bound_sum. induction k as [|k IH]; cbn [repeat fold_right]; [lia|].
  rewrite IH. lia.
Qed.

Lemma lz4_bounded_compress_ok lz limit :
  lz4_bounded lz limit -> lz4_compress_ok lz limit.
Proof.
  intros Hb src Hok Hpos Hlim Hsmall.
  destruct (Hb src Hok Hpos Hlim Hsmall) as [Hc Hlt]. lia.
Qed.

Lemma compress_bound_range lz limit n :
  lz4_bounded lz limit -> 0 < n -> n <= limit ->
  (Z.of_nat n < 2 ^ 31)%Z ->
  (0 <= LZ4_compressBound lz (Z.of_nat n) + 4 < 2 ^ 31)%Z.
Proof.
  intros Hb Hpos Hlim Hsmall.
  assert (Ok : bytes_ok (repeat 0%Z n)).
  { unfold bytes_ok. apply List.Forall_forall. intros v Hv.
    apply repeat_spec in Hv. subst v. unfold byte_ok. lia. }
  assert (L : length (repeat 0%Z n) = n) by apply repeat_length.
  destruct (Hb (repeat 0%Z n) Ok ltac:(rewrite L; exact Hpos)
              ltac:(rewrite L; exact Hlim)
              ltac:(rewrite L; exact Hsmall)) as [Hle Hlt].
  rewrite L in *. lia.
Qed.

Lemma length_compress_blocks_bound lz limit elem_size :
  lz4_bounded lz limit -> 1 <= elem_size ->
  forall sizes view,
  Forall (fun s => s mod 8 = 0 /\ 0 < s) sizes ->
  Forall (fun s => (Z.of_nat (s * elem_size) < 2 ^ 31)%Z) sizes ->
  Forall (fun s => s * elem_size <= limit) sizes ->
  (Z.of_nat (length (compress_blocks lz elem_size sizes view))
   <= bound_sum lz elem_size sizes)%Z.
Proof.
  intros Hbd He. induction sizes as [|s r IH]; intros view Hall Hb Hlim.
  - cbn [compress_blocks length bound_sum fold_right]. lia.
  - inversion Hall as [|? ? [Hs Hpos] Hr]; subst.
    inversion Hb as [|? ? Hsb Hrb]; subst.
    inversion Hlim as [|? ? Hsl Hrl]; subst.
    cbn [compress_blocks]. rewrite length_app, length_lz4_record.
    set (S := tabulate (g_bitshuffle view s elem_size) (s * elem_size)).
    assert (LS : length S = s * elem_size) by apply length_tabulate.
    assert (OkS : bytes_ok S).
    { apply bytes_ok_tabulate. intros p _. apply gather8_ok. }
    destruct (Hbd S OkS ltac:(rewrite LS; nia) ltac:(rewrite LS; exact Hsl)
                ltac:(rewrite LS; exact Hsb)) as [Hle _].
    specialize (IH (drop (s * elem_size) view) Hr Hrb Hrl).
    rewrite LS in *.
    change (bound_sum lz elem_size (s :: r))
      with (LZ4_compressBound lz (Z.of_nat (s * elem_size)) + 4
            + bound_sum lz elem_size r)%Z.
    clearbody S. lia.
Qed.

(** The bound for a valid block size, with the arithmetic carried out
    without wrap-around. *)
Lemma bshuf_compress_lz4_bound_eq lz size elem_size block_size :
  lz4_bounded lz (resolved_block_size elem_size block_size * elem_size) ->
  1 <= elem_size -> block_size mod 8 = 0 ->
  (Z.of_nat size < 2 ^ 31)%Z ->
  (Z.of_nat (resolved_block_size elem_size block_size * elem_size)
   < 2 ^ 31)%Z ->
  bshuf_compress_lz4_bound lz size elem_size block_size
  = (bound_sum lz elem_size
       (block_sizes size (resolved_block_size elem_size block_size))
     + Z.of_nat (size mod 8 * elem_size))%Z.
Proof.
  intros Hbd He Hbs Hsize Hblock.
  destruct (resolved_block_size_ok elem_size block_size Hbs) as [Hr8 Hrpos].
  unfold bshuf_compress_lz4_bound.
  fold (resolved_block_size elem_size block_size).
  set (bs := resolved_block_size elem_size block_size) in *.
  unfold BSHUF_BLOCKED_MULT. rewrite Hr8. cbn [Nat.eqb negb].
  unfold block_sizes, BSHUF_BLOCKED_MULT.
  rewrite bound_sum_app, bound_sum_repeat.
  pose proof (Nat.div_mod_eq (size mod bs) 8) as El.
  pose proof (Nat.mod_upper_bound (size mod bs) 8 ltac:(lia)) as Hl8.
  pose proof (Nat.mod_upper_bound size bs ltac:(lia)) as Hlb.
  pose proof (Nat.mod_upper_bound size 8 ltac:(lia)) as Hm.
  pose proof (Nat.div_mod_eq bs 8) as Eb.
  assert (Elast : size mod bs / 8 * 8 = size mod bs - (size mod bs) mod 8)
    by lia.
  rewrite Elast.
  set (last := size mod bs - (size mod bs) mod 8) in *.
  assert (Hk : size / bs <= size) by (apply Nat.Div0.div_le_upper_bound; nia).
  assert (Hlo : (Z.of_nat (size mod 8 * elem_size) < 2 ^ 31)%Z) by nia.
  pose proof (compress_bound_range lz _ (bs * elem_size) Hbd
                ltac:(nia) ltac:(lia) Hblock) as HB1.
  rewrite (to_int32_small (Z.of_nat (bs * elem_size))) by lia.
  rewrite (to_int32_small (LZ4_compressBound lz (Z.of_nat (bs * elem_size)) + 4))
    by lia.
  set (B1 := (LZ4_compressBound lz (Z.of_nat (bs * elem_size)) + 4)%Z) in *.
  assert (HP : (0 <= B1 * Z.of_nat (size / bs) < 2 ^ 62)%Z).
  { split; [apply Z.mul_nonneg_nonneg; lia|].
    change (2 ^ 62)%Z with (2 ^ 31 * 2 ^ 31)%Z.
    apply Z.mul_lt_mono_nonneg; lia. }
  rewrite (to_size_t_small (B1 * Z.of_nat (size / bs))) by lia.
  destruct (Nat.eqb_spec last 0) as [E0|N0]; cbn [negb].
  - change (bound_sum lz elem_size []) with 0%Z.
    rewrite to_size_t_small by lia. lia.
  - assert (Hlast : (Z.of_nat (last * elem_size) < 2 ^ 31)%Z).
    { assert (last <= bs) by lia. nia. }
    pose proof (compress_bound_range lz _ (last * elem_size) Hbd
                  ltac:(nia) ltac:(nia) Hlast) as HB2.
    rewrite (to_int32_small (Z.of_nat (last * elem_size))) by lia.
    rewrite (to_int32_small
               (LZ4_compressBound lz (Z.of_nat (last * elem_size)) + 4))
      by lia.
    change (bound_sum lz elem_size [last])
      with (LZ4_compressBound lz (Z.of_nat (last * elem_size)) + 4 + 0)%Z.
    set (B2 := (LZ4_compressBound lz (Z.of_nat (last * elem_size)) + 4)%Z) in *.
    rewrite (to_size_t_small (B1 * Z.of_nat (size / bs) + B2)) by lia.
    rewrite to_size_t_small by lia. lia.
Qed.

(** X16: the count [bshuf_compress_lz4] returns is at most
    [bshuf_compress_lz4_bound] for the same arguments, whatever the
    output buffer: an output buffer of the bound's length has room for
    the compressed stream.  Of the LZ4 library this is asked, for
    inputs up to the bytes of a block ([lz4_bounded]): the count
    [LZ4_compress] reports is between 0 and [LZ4_compressBound], and
    the bound plus 4 fits an [int]; [size] and the bytes of a block fit
    an [int] as well. *)
Theorem compress_count_within_bound (b : isa) (lz : lz4_codec)
    (x outb : list Z) (size elem_size block_size : nat) :
  lz4_bounded lz (resolved_block_size elem_size block_size * elem_size) ->
  1 <= elem_size -> block_size mod 8 = 0 ->
  bytes_ok x ->
  (Z.of_nat size < 2 ^ 31)%Z ->
  (Z.of_nat (resolved_block_size elem_size block_size * elem_size)
   < 2 ^ 31)%Z ->
  (0 <= fst (bshuf_compress_lz4 b lz x outb size elem_size block_size)
   <= bshuf_compress_lz4_bound lz size elem_size block_size)%Z.
Proof.
  intros Hbd He Hbs Hok Hsize Hblock.
  pose proof (lz4_bounded_compress_ok lz _ Hbd) as Hlz.
  destruct (bshuf_compress_lz4_eq b lz x outb size elem_size block_size
              Hlz He Hbs Hok Hsize Hblock) as (y & Ey & _).
  destruct (run_bounds lz size elem_size block_size x Hlz He Hbs Hsize Hblock)
    as (Hall & Hb & _ & _ & _).
  rewrite Ey. cbn [fst].
  rewrite bshuf_compress_lz4_bound_eq by assumption.
  destruct (resolved_block_size_ok elem_size block_size Hbs) as [_ Hrpos].
  assert (Hlim : Forall (fun s => s * elem_size
                   <= resolved_block_size elem_size block_size * elem_size)
                   (block_sizes size
                      (resolved_block_size elem_size block_size))).
  { eapply List.Forall_impl; [|apply (block_sizes_le size _ Hrpos)].
    cbv beta. intros s Hle. nia. }
  pose proof (length_compress_blocks_bound lz _ elem_size Hbd He _ x
                Hall Hb Hlim) as Hlen.
  rewrite Nat2Z.inj_add. lia.
Qed.

Lemma lz4_stored_bounded limit :
  (Z.of_nat limit + 4 < 2 ^ 31)%Z -> lz4_bounded lz4_stored limit.
Proof.
  intros Hl src Hok Hpos Hlim Hsmall.
  cbn [lz4_stored LZ4_compress LZ4_compressBound fst]. lia.
Qed.

Lemma compress_count_within_bound_witness :
  (0 <= fst (bshuf_compress_lz4 Scalar lz4_stored
               [1; 2; 3; 4; 5; 6; 7; 8; 9]%Z (malloc 13) 9 1 8)
   <= bshuf_compress_lz4_bound lz4_stored 9 1 8)%Z.
Proof.
  apply (compress_count_within_bound Scalar lz4_stored
           [1; 2; 3; 4; 5; 6; 7; 8; 9]%Z (malloc 13) 9 1 8).
  - apply lz4_stored_bounded. vm_compute. reflexivity.
  - lia.
  - reflexivity.
  - repeat constructor; unfold byte_ok; lia.
  - reflexivity.
  - reflexivity.
Defined.

(** X17: the stream [bshuf_compress_lz4] produces does not depend on the
    build, and [bshuf_decompress_lz4] of another build gives the input
    back, the LZ4 library being the same and inverting itself on inputs
    of at most the bytes of one block ([lz4_codec_ok]); [size] and the
    bytes of a block fit an [int] and the output buffers have room. *)
Theorem compress_lz4_across_builds (b1 b2 : isa) (lz : lz4_codec)
    (x out1 out2 : list Z) (size elem_size block_size : nat) :
  lz4_codec_ok lz (resolved_block_size elem_size block_size * elem_size) ->
  1 <= elem_size -> block_size mod 8 = 0 ->
  bytes_ok x -> length x = size * elem_size ->
  (Z.of_nat size < 2 ^ 31)%Z ->
  (Z.of_nat (resolved_block_size elem_size block_size * elem_size)
   < 2 ^ 31)%Z ->
  (fst (bshuf_compress_lz4 b1 lz x out1 size elem_size block_size)
   <= Z.of_nat (length out1))%Z ->
  length out2 = size * elem_size ->
  bshuf_compress_lz4 b1 lz x out1 size elem_size block_size
  = bshuf_compress_lz4 b2 lz x out1 size elem_size block_size /\
  bshuf_decompress_lz4 b2 lz
    (snd (bshuf_compress_lz4 b1 lz x out1 size elem_size block_size))
    out2 size elem_size block_size
  = (fst (bshuf_compress_lz4 b1 lz x out1 size elem_size block_size), x).
Proof.
  intros Hlz He Hbs Hok Hlx Hsize Hblock Hroom Hl2.
  pose proof (lz4_codec_compress_ok lz _ Hlz) as Hcz.
  destruct (bshuf_compress_lz4_eq b1 lz x out1 size elem_size block_size
              Hcz He Hbs Hok Hsize Hblock) as (y1 & E1 & R1).
  destruct (bshuf_compress_lz4_eq b2 lz x out1 size elem_size block_size
              Hcz He Hbs Hok Hsize Hblock) as (y2 & E2 & R2).
  assert (E12 : bshuf_compress_lz4 b1 lz x out1 size elem_size block_size
                = bshuf_compress_lz4 b2 lz x out1 size elem_size block_size).
  { rewrite E1 in Hroom. cbn [fst] in Hroom.
    rewrite E1, E2, R1, R2 by lia. reflexivity. }
  split; [exact E12|]. rewrite E12 in *.
  rewrite bshuf_decompress_compress_lz4 by (assumption || lia).
  rewrite drop_ge by lia. rewrite app_nil_r. reflexivity.
Qed.

Lemma compress_lz4_across_builds_witness :
  let x := [1; 2; 3; 4; 5; 6; 7; 8; 9]%Z in
  bshuf_compress_lz4 Scalar lz4_stored x (malloc 13) 9 1 8
  = bshuf_compress_lz4 SSE2 lz4_stored x (malloc 13) 9 1 8 /\
  bshuf_decompress_lz4 SSE2 lz4_stored
    (snd (bshuf_compress_lz4 Scalar lz4_stored x (malloc 13) 9 1 8))
    (malloc 9) 9 1 8
  = (fst (bshuf_compress_lz4 Scalar lz4_stored x (malloc 13) 9 1 8), x).
Proof.
  apply (compress_lz4_across_builds Scalar SSE2 lz4_stored
           [1; 2; 3; 4; 5; 6; 7; 8; 9]%Z (malloc 13) (malloc 9) 9 1 8).
  - apply lz4_stored_ok.
  - lia.
  - reflexivity.
  - repeat constructor; unfold byte_ok; lia.
  - reflexivity.
  - reflexivity.
  - reflexivity.
  - apply Z.leb_le. vm_compute. reflexivity.
  - reflexivity.
Defined.

(** X18: the default block keeps to the target of 8192 bytes: for
    elements of at most 64 bytes a block holds at most 8192 bytes, and
    for elements of 64 bytes or more the block is the minimum, 128
    elements. *)
Theorem bshuf_default_block_size_target (elem_size : nat) :
  1 <= elem_size ->
  (elem_size <= 64 ->
   bshuf_default_block_size elem_size * elem_size <= Z.to_nat 8192) /\
  (64 <= elem_size -> bshuf_default_block_size elem_size = 128).
Proof.
  intros He.
  unfold bshuf_default_block_size, MAX, BSHUF_TARGET_BLOCK_SIZE_B,
    BSHUF_BLOCKED_MULT, BSHUF_MIN_RECOMMEND_BLOCK.
  set (T := Z.to_nat 8192).
  assert (ET : T = 128 * 64) by reflexivity.
  pose proof (Nat.Div0.mul_div_le T elem_size) as Hx.
  pose proof (Nat.div_mod_eq (T / elem_size) 8) as Hy.
  split.
  - intros H64.
    destruct (Nat.ltb_spec 128 (T / elem_size / 8 * 8)) as [Hlt|Hge].
    + clearbody T. nia.
    + clearbody T. nia.
  - intros H64.
    assert (Hq : T / elem_size <= 128).
    { apply Nat.Div0.div_le_upper_bound. clearbody T. nia. }
    destruct (Nat.ltb_spec 128 (T / elem_size / 8 * 8)) as [Hlt|Hge];
      [|reflexivity].
    clearbody T. lia.
Qed.

Lemma bshuf_default_block_size_target_witness :
  (3 <= 64 -> bshuf_default_block_size 3 * 3 <= Z.to_nat 8192) /\
  (64 <= 3 -> bshuf_default_block_size 3 = 128).
Proof. apply (bshuf_default_block_size_target 3). lia. Defined.

(** X19: [bshuf_copy] copies the [size * elem_size] bytes of the input
    to the output, leaves the rest of the output as it was and returns
    the number of bytes. *)
Theorem bshuf_copy_spec (inb outb : list Z) (size elem_size : nat) :
  size * elem_size <= length outb ->
  (Z.of_nat (size * elem_size) < 2 ^ 63)%Z ->
  let r := bshuf_copy inb outb size elem_size in
  fst r = Z.of_nat (size * elem_size) /\
  length (snd r) = length outb /\
  (forall p, p < size * elem_size -> rd (snd r) p = rd inb p) /\
  (forall p, size * elem_size <= p -> rd (snd r) p = rd outb p).
Proof.
  intros Hlen Hsmall r. unfold r, bshuf_copy. cbn [fst snd].
  rewrite memcpy_eq by exact Hlen.
  destruct (written_facts (rd inb) _ outb Hlen) as (L & Hin & Hout).
  split; [apply int64_of_size_small; exact Hsmall|].
  split; [exact L|]. split; [exact Hin|exact Hout].
Qed.

Lemma bshuf_copy_spec_witness :
  let r := bshuf_copy [1; 2; 3; 4; 5; 6]%Z (malloc 8) 3 2 in
  fst r = Z.of_nat (3 * 2) /\
  length (snd r) = length (malloc 8) /\
  (forall p, p < 3 * 2 -> rd (snd r) p = rd [1; 2; 3; 4; 5; 6]%Z p) /\
  (forall p, 3 * 2 <= p -> rd (snd r) p = rd (malloc 8) p).
Proof.
  apply (bshuf_copy_spec [1; 2; 3; 4; 5; 6]%Z (malloc 8) 3 2).
  - cbn [length malloc repeat]. lia.
  - reflexivity.
Defined.

(** X20: [bshuf_trans_bitrow_eight] turns eight groups of [elem_size]
    rows of [size / 8] bytes into [elem_size] groups of eight rows: row
    [bb] of group [k] becomes row [k] of group [bb].  When [size] is not a
    multiple of 8 it returns -80 and writes nothing. *)
Theorem bshuf_trans_bitrow_eight_spec (inb outb : list Z)
    (size elem_size : nat) :
  size * elem_size <= length outb ->
  (Z.of_nat (size * elem_size) < 2 ^ 63)%Z ->
  let r := bshuf_trans_bitrow_eight inb outb size elem_size in
  (size mod 8 = 0 ->
   fst r = Z.of_nat (size * elem_size) /\
   length (snd r) = length outb /\
   (forall k bb t, k < 8 -> bb < elem_size -> t < size / 8 ->
      rd (snd r) ((bb * 8 + k) * (size / 8) + t)
      = rd inb ((k * elem_size + bb) * (size / 8) + t)) /\
   (forall p, size * elem_size <= p -> rd (snd r) p = rd outb p)) /\
  (size mod 8 <> 0 -> r = ((-80)%Z, outb)).
Proof.
  intros Hlen Hsmall r. split.
  - intros Hs. unfold r, bshuf_trans_bitrow_eight, CHECK_MULT_EIGHT.
    rewrite Hs. cbn [Nat.eqb negb].
    assert (En : 8 * elem_size * (size / 8) = size * elem_size)
      by (symmetry; apply n_eq; exact Hs).
    rewrite bshuf_trans_elem_eq by (rewrite En; exact Hlen).
    rewrite En. cbn [fst snd].
    destruct (written_facts (g_trans_elem inb 8 elem_size (size / 8)) _ outb
                Hlen) as (L & Hin & Hout).
    split; [apply int64_of_size_small; exact Hsmall|].
    split; [exact L|]. split; [|exact Hout].
    intros k bb t Hk Hbb Ht.
    rewrite Hin.
    2:{ rewrite <- En. rewrite (Nat.mul_comm (8 * elem_size)).
        apply mul_add_lt; [exact Ht|lia]. }
    unfold g_trans_elem. cbv zeta.
    destruct (div_mod_unique_nat (bb * 8 + k) t (size / 8) Ht) as [Ed Em].
    rewrite Ed, Em.
    destruct (div_mod_unique_nat bb k 8 Hk) as [Ed' Em'].
    rewrite Ed', Em'. reflexivity.
  - intros Hs. unfold r, bshuf_trans_bitrow_eight, CHECK_MULT_EIGHT.
    destruct (Nat.eqb_spec (size mod 8) 0) as [E|_];
      [contradiction|reflexivity].
Qed.

Lemma bshuf_trans_bitrow_eight_spec_witness :
  let inb := [1; 2; 3; 4; 5; 6; 7; 8; 9; 10; 11; 12; 13; 14; 15; 16]%Z in
  let r := bshuf_trans_bitrow_eight inb (malloc 16) 8 2 in
  (8 mod 8 = 0 ->
   fst r = Z.of_nat (8 * 2) /\
   length (snd r) = length (malloc 16) /\
   (forall k bb t, k < 8 -> bb < 2 -> t < 8 / 8 ->
      rd (snd r) ((bb * 8 + k) * (8 / 8) + t)
      = rd inb ((k * 2 + bb) * (8 / 8) + t)) /\
   (forall p, 8 * 2 <= p -> rd (snd r) p = rd (malloc 16) p)) /\
  (8 mod 8 <> 0 -> r = ((-80)%Z, malloc 16)).
Proof.
  apply (bshuf_trans_bitrow_eight_spec
           [1; 2; 3; 4; 5; 6; 7; 8; 9; 10; 11; 12; 13; 14; 15; 16]%Z
           (malloc 16) 8 2).
  - cbn [length malloc repeat]. lia.
  - reflexivity.
Defined.

(** X21: the layout [bshuf_untrans_bit_elem] reads, in every build: bit
    [j] of byte [bb] of element [8 * blk + e] of the output is bit [e] of
    byte [blk] of the input's bit row [8 * bb + j]. *)
Theorem bshuf_untrans_bit_elem_layout (b : isa) (inb outb : list Z)
    (size elem_size : nat) :
  bytes_ok inb -> 1 <= elem_size -> size mod 8 = 0 ->
  size * elem_size <= length outb ->
  (Z.of_nat (size * elem_size) < 2 ^ 63)%Z ->
  let r := bshuf_untrans_bit_elem b inb outb size elem_size in
  fst r = Z.of_nat (size * elem_size) /\
  length (snd r) = length outb /\
  (forall blk e bb j, blk < size / 8 -> e < 8 -> bb < elem_size -> j < 8 ->
     Z.testbit (rd (snd r) ((8 * blk + e) * elem_size + bb)) (Z.of_nat j)
     = Z.testbit (rd inb ((8 * bb + j) * (size / 8) + blk)) (Z.of_nat e)) /\
  (forall p, size * elem_size <= p -> rd (snd r) p = rd outb p).
Proof.
  intros Hok He Hs Hlen Hsmall r. unfold r.
  rewrite bshuf_untrans_bit_elem_eq;
    [|assumption|assumption|intros i _; apply rd_bytes_ok; exact Hok
     |assumption..].
  cbn [fst snd].
  destruct (written_facts (g_bitunshuffle inb size elem_size) _ outb Hlen)
    as (L & Hin & Hout).
  split; [reflexivity|]. split; [exact L|]. split; [|exact Hout].
  intros blk e bb j Hblk Hbe Hbb Hj.
  assert (Hr : e * elem_size + bb < 8 * elem_size) by nia.
  replace ((8 * blk + e) * elem_size + bb)
    with (blk * (8 * elem_size) + (e * elem_size + bb)) by lia.
  rewrite Hin.
  2:{ rewrite (n_eq size elem_size Hs). apply mul_add_lt; assumption. }
  unfold g_bitunshuffle. cbv zeta.
  destruct (div_mod_unique_nat blk (e * elem_size + bb) (8 * elem_size) Hr)
    as [Ed Em].
  rewrite Ed, Em.
  destruct (div_mod_unique_nat e bb elem_size Hbb) as [Ed' Em'].
  rewrite Ed', Em'.
  rewrite gather8_testbit by lia.
  assert (Ej : (Z.of_nat j <? 8)%Z = true) by (apply Z.ltb_lt; lia).
  rewrite Ej, Nat2Z.id. reflexivity.
Qed.

Lemma bshuf_untrans_bit_elem_layout_witness :
  let inb := [1; 2; 3; 4; 5; 6; 7; 8; 9; 10; 11; 12; 13; 14; 15; 16]%Z in
  let r := bshuf_untrans_bit_elem AVX2 inb (malloc 16) 8 2 in
  fst r = Z.of_nat (8 * 2) /\
  length (snd r) = length (malloc 16) /\
  (forall blk e bb j, blk < 8 / 8 -> e < 8 -> bb < 2 -> j < 8 ->
     Z.testbit (rd (snd r) ((8 * blk + e) * 2 + bb)) (Z.of_nat j)
     = Z.testbit (rd inb ((8 * bb + j) * (8 / 8) + blk)) (Z.of_nat e)) /\
  (forall p, 8 * 2 <= p -> rd (snd r) p = rd (malloc 16) p).
Proof.
  apply (bshuf_untrans_bit_elem_layout AVX2
           [1; 2; 3; 4; 5; 6; 7; 8; 9; 10; 11; 12; 13; 14; 15; 16]%Z
           (malloc 16) 8 2).
  - repeat constructor; unfold byte_ok; lia.
  - lia.
  - reflexivity.
  - cbn [length malloc repeat]. lia.
  - reflexivity.
Defined.

(** X22: when the number of bytes is not a multiple of 8, the bit
    transpose within bytes reports -80 in its scalar, SSE2 and AVX2
    versions; the scalar and the SSE2 versions have written nothing. *)
Theorem trans_bit_byte_rejects_odd_sizes (inb outb : list Z)
    (size elem_size : nat) :
  (size * elem_size) mod 8 <> 0 ->
  bshuf_trans_bit_byte_scal inb outb size elem_size = ((-80)%Z, outb) /\
  bshuf_trans_bit_byte_SSE inb outb size elem_size = ((-80)%Z, outb) /\
  fst (bshuf_trans_bit_byte_AVX inb outb size elem_size) = (-80)%Z.
Proof.
  intros H8. rewrite Nat.mul_comm in H8.
  unfold bshuf_trans_bit_byte_scal, bshuf_trans_bit_byte_SSE,
    bshuf_trans_bit_byte_AVX, bshuf_trans_bit_byte_remainder,
    CHECK_MULT_EIGHT.
  destruct (Nat.eqb_spec (elem_size * size mod 8) 0) as [E|_];
    [contradiction|]. cbn [negb fst]. repeat split.
Qed.

Lemma trans_bit_byte_rejects_odd_sizes_witness :
  bshuf_trans_bit_byte_scal [1; 2; 3]%Z (malloc 3) 3 1
    = ((-80)%Z, malloc 3) /\
  bshuf_trans_bit_byte_SSE [1; 2; 3]%Z (malloc 3) 3 1
    = ((-80)%Z, malloc 3) /\
  fst (bshuf_trans_bit_byte_AVX [1; 2; 3]%Z (malloc 3) 3 1) = (-80)%Z.
Proof.
  apply (trans_bit_byte_rejects_odd_sizes [1; 2; 3]%Z (malloc 3) 3 1).
  vm_compute. lia.
Defined.

Lemma block_sizes_add k m bs :
  0 < bs -> block_sizes (k * bs + m) bs = repeat bs k ++ block_sizes m bs.
Proof.
  intros Hpos. unfold block_sizes.
  rewrite Nat.div_add_l by lia.
  rewrite (Nat.add_comm (k * bs) m), Nat.Div0.mod_add.
  rewrite repeat_app, <- app_assoc. reflexivity.
Qed.

Lemma map_blocks_app g elem_size l1 : forall l2 view,
  map_blocks g elem_size (l1 ++ l2) view
  = map_blocks g elem_size l1 view
    ++ map_blocks g elem_size l2 (drop (list_sum l1 * elem_size) view).
Proof.
  induction l1 as [|s r IH]; intros l2 view.
  - cbn [app map_blocks]. change (list_sum []) with 0.
    rewrite Nat.mul_0_l, drop_0. reflexivity.
  - cbn [app map_blocks]. rewrite IH, drop_drop, <- app_assoc.
    change (list_sum (s :: r)) with (s + list_sum r).
    rewrite Nat.mul_add_distr_r. reflexivity.
Qed.

(** A shuffled block depends on the bytes of the block alone. *)
Lemma g_bitshuffle_ext v1 v2 s elem_size p :
  s mod 8 = 0 -> 1 <= elem_size -> p < s * elem_size ->
  (forall i, i < s * elem_size -> rd v1 i = rd v2 i) ->
  g_bitshuffle v1 s elem_size p = g_bitshuffle v2 s elem_size p.
Proof.
  intros Hs He Hp H. unfold g_bitshuffle. apply gather8_ext. intros j Hj.
  rewrite H; [reflexivity|].
  pose proof (size_eq s Hs) as Es.
  assert (Hpos : 0 < s / 8) by nia.
  pose proof (Nat.mod_upper_bound p (s / 8) ltac:(lia)) as Ht.
  assert (Hrow : p / (s / 8) < 8 * elem_size).
  { apply Nat.Div0.div_lt_upper_bound. nia. }
  assert (Hb : p / (s / 8) / 8 < elem_size)
    by (apply Nat.Div0.div_lt_upper_bound; lia).
  nia.
Qed.

Lemma map_blocks_bitshuffle_ext elem_size : 1 <= elem_size ->
  forall sizes v1 v2,
  Forall (fun s => s mod 8 = 0 /\ 0 < s) sizes ->
  (forall i, i < list_sum sizes * elem_size -> rd v1 i = rd v2 i) ->
  map_blocks g_bitshuffle elem_size sizes v1
  = map_blocks g_bitshuffle elem_size sizes v2.
Proof.
  intros He. induction sizes as [|s r IH]; intros v1 v2 Hall H;
    [reflexivity|].
  change (list_sum (s :: r)) with (s + list_sum r) in H.
  inversion Hall as [|? ? [Hs Hpos] Hr]; subst.
  cbn [map_blocks]. f_equal.
  - apply tabulate_ext. intros p Hp.
    apply g_bitshuffle_ext; try assumption. intros i Hi. apply H. nia.
  - apply IH; [exact Hr|]. intros i Hi. rewrite !rd_drop. apply H. nia.
Qed.

(** X23: blocks are shuffled independently, so a buffer can be shuffled
    in pieces: when [x] holds a whole number of blocks, the shuffle of
    [x ++ y] is the shuffle of [x] followed by the shuffle of [y]. *)
Theorem bshuf_bitshuffle_in_pieces (b : isa) (x y out out1 out2 : list Z)
    (k sy elem_size block_size : nat) :
  1 <= elem_size -> block_size mod 8 = 0 ->
  let sx := k * resolved_block_size elem_size block_size in
  bytes_ok x -> bytes_ok y ->
  length x = sx * elem_size -> length y = sy * elem_size ->
  (sx + sy) * elem_size <= length out ->
  sx * elem_size <= length out1 -> sy * elem_size <= length out2 ->
  (Z.of_nat ((sx + sy) * elem_size) < 2 ^ 63)%Z ->
  snd (bshuf_bitshuffle b (x ++ y) out (sx + sy) elem_size block_size)
  = take (sx * elem_size)
      (snd (bshuf_bitshuffle b x out1 sx elem_size block_size))
    ++ take (sy * elem_size)
         (snd (bshuf_bitshuffle b y out2 sy elem_size block_size))
    ++ drop ((sx + sy) * elem_size) out.
Proof.
  intros He Hbs sx Hokx Hoky Hlx Hly Hlen Hl1 Hl2 Hsmall.
  destruct (resolved_block_size_ok elem_size block_size Hbs) as [Hr8 Hrpos].
  set (bs := resolved_block_size elem_size block_size) in *.
  assert (Hsx8 : sx mod 8 = 0).
  { unfold sx. pose proof (Nat.div_mod_eq bs 8) as Eb.
    replace (k * bs) with (k * (bs / 8) * 8) by lia.
    apply Nat.Div0.mod_mul. }
  assert (Hm : (sx + sy) mod 8 = sy mod 8).
  { pose proof (Nat.div_mod_eq sx 8) as Ex.
    replace (sx + sy) with (sy + sx / 8 * 8) by lia.
    apply Nat.Div0.mod_add. }
  pose proof (Nat.mod_upper_bound sy 8 ltac:(lia)) as Hsy8.
  pose proof (Nat.div_mod_eq sy 8) as Ey.
  assert (Hokxy : bytes_ok (x ++ y))
    by (unfold bytes_ok in *; apply List.Forall_app; split; assumption).
  unfold bshuf_bitshuffle.
  rewrite (bshuf_blocked_wrap_fun_map _ _ (x ++ y) out (sx + sy) elem_size
             block_size (bshuf_bitshuffle_block_map b) He Hbs)
    by (try (intros i _; apply rd_bytes_ok); assumption).
  rewrite (bshuf_blocked_wrap_fun_map _ _ x out1 sx elem_size
             block_size (bshuf_bitshuffle_block_map b) He Hbs)
    by (try (intros i _; apply rd_bytes_ok); assumption || lia).
  rewrite (bshuf_blocked_wrap_fun_map _ _ y out2 sy elem_size
             block_size (bshuf_bitshuffle_block_map b) He Hbs)
    by (try (intros i _; apply rd_bytes_ok); assumption || lia).
  cbn [snd]. fold bs.
  destruct (block_sizes_ok sx bs Hr8 Hrpos) as [Hallx Hsumx].
  destruct (block_sizes_ok sy bs Hr8 Hrpos) as [Hally Hsumy].
  assert (Ebx : block_sizes sx bs = repeat bs k).
  { unfold sx. rewrite <- (Nat.add_0_r (k * bs)), block_sizes_add by exact Hrpos.
    unfold block_sizes. rewrite Nat.Div0.div_0_l, Nat.Div0.mod_0_l.
    cbn [repeat Nat.sub Nat.eqb]. rewrite Nat.Div0.mod_0_l.
    cbn [Nat.sub Nat.eqb]. apply app_nil_r. }
  assert (Ebxy : block_sizes (sx + sy) bs = block_sizes sx bs ++ block_sizes sy bs).
  { rewrite Ebx. unfold sx. apply block_sizes_add. exact Hrpos. }
  rewrite Ebxy, map_blocks_app, Hsumx, Hsx8, Nat.sub_0_r, Hm.
  rewrite <- Hlx, drop_app_length.
  rewrite (map_blocks_bitshuffle_ext elem_size He (block_sizes sx bs)
             (x ++ y) x Hallx).
  2:{ intros i Hi. rewrite Hsumx, Hsx8, Nat.sub_0_r, <- Hlx in Hi.
      apply rd_app_l. exact Hi. }
  set (Mx := map_blocks g_bitshuffle elem_size (block_sizes sx bs) x).
  set (My := map_blocks g_bitshuffle elem_size (block_sizes sy bs) y).
  assert (LMx : length Mx = length x).
  { unfold Mx. rewrite length_map_blocks, Hsumx, Hsx8, Nat.sub_0_r, Hlx.
    reflexivity. }
  assert (LMy : length My = (sy - sy mod 8) * elem_size).
  { unfold My. rewrite length_map_blocks, Hsumy. reflexivity. }
  change (0 * elem_size) with 0. change (tabulate _ 0) with (@nil Z).
  cbn [app].
  replace ((sx + sy - sy mod 8) * elem_size)
    with (length x + (sy - sy mod 8) * elem_size) by nia.
  rewrite drop_app_add' by reflexivity.
  set (Ly := tabulate (rd (drop ((sy - sy mod 8) * elem_size) y))
               (sy mod 8 * elem_size)).
  assert (LLy : length Ly = sy mod 8 * elem_size) by apply length_tabulate.
  rewrite take_app_length' by (rewrite LMx; reflexivity).
  rewrite (app_assoc My Ly).
  rewrite (take_app_length' (My ++ Ly)) by (rewrite length_app, LMy, LLy; nia).
  rewrite <- !app_assoc. reflexivity.
Qed.

Lemma bshuf_bitshuffle_in_pieces_witness :
  let x := [1; 2; 3; 4; 5; 6; 7; 8]%Z in
  let y := [9; 10; 11]%Z in
  let sx := 1 * resolved_block_size 1 8 in
  snd (bshuf_bitshuffle Scalar (x ++ y) (malloc 11) (sx + 3) 1 8)
  = take (sx * 1) (snd (bshuf_bitshuffle Scalar x (malloc 8) sx 1 8))
    ++ take (3 * 1) (snd (bshuf_bitshuffle Scalar y (malloc 3) 3 1 8))
    ++ drop ((sx + 3) * 1) (malloc 11).
Proof.
  apply (bshuf_bitshuffle_in_pieces Scalar [1; 2; 3; 4; 5; 6; 7; 8]%Z
           [9; 10; 11]%Z (malloc 11) (malloc 8) (malloc 3) 1 3 1 8).
  - lia.
  - reflexivity.
  - repeat constructor; unfold byte_ok; lia.
  - repeat constructor; unfold byte_ok; lia.
  - reflexivity.
  - reflexivity.
  - apply Nat.leb_le. vm_compute. reflexivity.
  - apply Nat.leb_le. vm_compute. reflexivity.
  - apply Nat.leb_le. vm_compute. reflexivity.
  - reflexivity.
Defined.

(** X24: a buffer of fewer than eight elements has no block: whatever the
    worker, so for the four public functions, the framework copies the
    input to the output as it is and returns its number of bytes; for an
    empty buffer it returns 0. *)
Theorem fewer_than_eight_elements_are_copied (fn : bshufBlockFunDef)
    (b : isa) (lz : lz4_codec) (inb outb : list Z)
    (size elem_size block_size : nat) :
  1 <= elem_size -> block_size mod 8 = 0 -> size < 8 ->
  size * elem_size <= length outb ->
  (Z.of_nat (size * elem_size) < 2 ^ 63)%Z ->
  let copied :=
    (Z.of_nat (size * elem_size),
     tabulate (rd inb) (size * elem_size) ++ drop (size * elem_size) outb) in
  bshuf_blocked_wrap_fun fn inb outb size elem_size block_size = copied /\
  bshuf_bitshuffle b inb outb size elem_size block_size = copied /\
  bshuf_bitunshuffle b inb outb size elem_size block_size = copied /\
  bshuf_compress_lz4 b lz inb outb size elem_size block_size = copied /\
  bshuf_decompress_lz4 b lz inb outb size elem_size block_size = copied.
Proof.
  intros He Hbs Hsize Hlen Hsmall copied.
  assert (G : forall f, bshuf_blocked_wrap_fun f inb outb size elem_size
                          block_size = copied).
  { intros f.
    destruct (resolved_block_size_ok elem_size block_size Hbs) as [Hr8 Hrpos].
    rewrite bshuf_blocked_wrap_fun_unfold by exact Hr8.
    set (bs := resolved_block_size elem_size block_size) in *.
    pose proof (Nat.div_mod_eq bs 8) as Eb.
    assert (Es : block_sizes size bs = []).
    { unfold block_sizes, BSHUF_BLOCKED_MULT.
      rewrite Nat.div_small, (Nat.mod_small size bs) by lia.
      rewrite (Nat.mod_small size 8), Nat.sub_diag by lia. reflexivity. }
    rewrite Es. cbn [fold_left].
    assert (Em : size mod 8 = size) by (apply Nat.mod_small; exact Hsize).
    destruct (finish_eq inb size elem_size 0 0 0 outb
                ltac:(rewrite Em; exact Hsmall)) as (out' & E & _ & R).
    change (Z.of_nat 0) with 0%Z in E.
    change (chain_at 0 0) with ioc_init in E.
    rewrite E, R by (rewrite Em; exact Hlen).
    rewrite Em, drop_0, splice_0, length_tabulate. reflexivity. }
  repeat split; apply G.
Qed.

Lemma fewer_than_eight_elements_are_copied_witness :
  let inb := [1; 2; 3; 4; 5; 6]%Z in
  let copied :=
    (Z.of_nat (3 * 2), tabulate (rd inb) (3 * 2) ++ drop (3 * 2) (malloc 7)) in
  bshuf_blocked_wrap_fun (bshuf_bitshuffle_block Scalar) inb (malloc 7)
    3 2 0 = copied /\
  bshuf_bitshuffle Scalar inb (malloc 7) 3 2 0 = copied /\
  bshuf_bitunshuffle Scalar inb (malloc 7) 3 2 0 = copied /\
  bshuf_compress_lz4 Scalar lz4_stored inb (malloc 7) 3 2 0 = copied /\
  bshuf_decompress_lz4 Scalar lz4_stored inb (malloc 7) 3 2 0 = copied.
Proof.
  apply (fewer_than_eight_elements_are_copied (bshuf_bitshuffle_block Scalar)
           Scalar lz4_stored [1; 2; 3; 4; 5; 6]%Z (malloc 7) 3 2 0).
  - lia.
  - reflexivity.
  - lia.
  - cbn [length malloc repeat]. lia.
  - reflexivity.
Defined.

(** The transpose undoes the inverse, byte by byte. *)
Lemma bitshuffle_bitunshuffle y size elem_size rest p :
  size mod 8 = 0 -> 1 <= elem_size ->
  byte_ok (rd y p) -> p < size * elem_size ->
  g_bitshuffle
    (tabulate (g_bitunshuffle y size elem_size) (size * elem_size) ++ rest)
    size elem_size p
  = rd y p.
Proof.
  intros Hs He Hok Hp.
  pose proof (size_eq size Hs) as Es. pose proof (n_eq size elem_size Hs) as En.
  set (S8 := size / 8) in *. set (n := size * elem_size) in *.
  assert (HS8 : 0 < S8) by nia.
  unfold g_bitshuffle. fold S8.
  set (row := p / S8). set (t := p mod S8).
  assert (Ht : t < S8) by (apply Nat.mod_upper_bound; lia).
  assert (Hrow : row < 8 * elem_size).
  { apply Nat.Div0.div_lt_upper_bound. lia. }
  pose proof (Nat.div_mod_eq p S8) as Ep. fold row t in Ep.
  set (bb := row / 8). set (k := row mod 8).
  assert (Hk : k < 8) by (apply Nat.mod_upper_bound; lia).
  assert (Hbb : bb < elem_size) by (apply Nat.Div0.div_lt_upper_bound; lia).
  pose proof (Nat.div_mod_eq row 8) as Er. fold bb k in Er.
  rewrite <- (gather8_of_byte (rd y p)) by exact Hok.
  apply gather8_ext. intros j Hj.
  assert (Hr : j * elem_size + bb < 8 * elem_size) by nia.
  assert (Hq : (8 * t + j) * elem_size + bb < n).
  { rewrite En.
    replace ((8 * t + j) * elem_size + bb)
      with (t * (8 * elem_size) + (j * elem_size + bb)) by lia.
    apply mul_add_lt; assumption. }
  rewrite rd_tabulate by exact Hq.
  unfold g_bitunshuffle. fold S8.
  replace ((8 * t + j) * elem_size + bb)
    with (t * (8 * elem_size) + (j * elem_size + bb)) by lia.
  destruct (div_mod_unique_nat t (j * elem_size + bb) (8 * elem_size) Hr)
    as [E1 E2].
  rewrite E1, E2.
  destruct (div_mod_unique_nat j bb elem_size Hbb) as [E3 E4].
  rewrite E3, E4.
  rewrite (gather8_testbit _ (Z.of_nat k)) by lia.
  destruct (Z.ltb_spec (Z.of_nat k) 8) as [_|]; [|lia].
  rewrite Nat2Z.id. f_equal. f_equal. nia.
Qed.

Lemma bytes_ok_map_blocks_bitunshuffle elem_size sizes : forall view,
  bytes_ok (map_blocks g_bitunshuffle elem_size sizes view).
Proof.
  induction sizes as [|s r IH]; intros view; [constructor|].
  cbn [map_blocks]. unfold bytes_ok. apply List.Forall_app. split.
  - apply bytes_ok_tabulate. intros p _. apply gather8_ok.
  - apply IH.
Qed.

Lemma map_blocks_round_trip_back elem_size : 1 <= elem_size ->
  forall sizes y rest,
  Forall (fun s => s mod 8 = 0 /\ 0 < s) sizes ->
  (forall p, p < list_sum sizes * elem_size -> byte_ok (rd y p)) ->
  map_blocks g_bitshuffle elem_size sizes
    (map_blocks g_bitunshuffle elem_size sizes y ++ rest)
  = tabulate (rd y) (list_sum sizes * elem_size).
Proof.
  intros He. induction sizes as [|s r IH]; intros y rest Hall Hok;
    [reflexivity|].
  change (list_sum (s :: r)) with (s + list_sum r) in *.
  inversion Hall as [|? ? [Hs Hpos] Hr]; subst.
  cbn [map_blocks]. rewrite <- !app_assoc.
  rewrite drop_app_length' by (symmetry; apply length_tabulate).
  rewrite IH; [|exact Hr|intros p Hp; rewrite rd_drop; apply Hok; lia].
  rewrite Nat.mul_add_distr_r, <- tabulate_app. f_equal.
  - apply tabulate_ext. intros p Hp.
    apply bitshuffle_bitunshuffle; try assumption. apply Hok. lia.
  - apply tabulate_ext. intros p _. apply rd_drop.
Qed.

(** X25: the shuffle also undoes the unshuffle, for the drivers (with
    [size] a multiple of 8) and for the public functions (any [size]),
    across builds: the two are inverse bijections on buffers, and no
    buffer is rejected or altered by unshuffling it first. *)
Theorem shuffle_undoes_unshuffle (b1 b2 : isa) (y out1 out2 : list Z)
    (size elem_size block_size : nat) :
  1 <= elem_size -> block_size mod 8 = 0 ->
  bytes_ok y -> length y = size * elem_size ->
  length out1 = size * elem_size -> length out2 = size * elem_size ->
  (Z.of_nat (size * elem_size) < 2 ^ 63)%Z ->
  (size mod 8 = 0 ->
   bshuf_trans_bit_elem b1
     (snd (bshuf_untrans_bit_elem b2 y out1 size elem_size)) out2
     size elem_size
   = (Z.of_nat (size * elem_size), y)) /\
  bshuf_bitshuffle b1
    (snd (bshuf_bitunshuffle b2 y out1 size elem_size block_size)) out2
    size elem_size block_size
  = (Z.of_nat (size * elem_size), y).
Proof.
  intros He Hbs Hok Hly Hl1 Hl2 Hsmall.
  assert (Hrd : forall i, i < size * elem_size -> byte_ok (rd y i))
    by (intros i _; apply rd_bytes_ok; exact Hok).
  split.
  - intros Hs.
    rewrite (bshuf_untrans_bit_elem_eq b2) by (assumption || lia).
    cbn [snd].
    rewrite bshuf_trans_bit_elem_eq; [|assumption|assumption| |lia|assumption].
    + f_equal. rewrite (drop_ge out2) by lia. rewrite app_nil_r.
      rewrite <- (tabulate_rd y) at 2. rewrite Hly.
      apply tabulate_ext. intros p Hp.
      apply bitshuffle_bitunshuffle; try assumption. apply Hrd. exact Hp.
    + intros i Hi. rewrite rd_tabulate by exact Hi. apply gather8_ok.
  - destruct (resolved_block_size_ok elem_size block_size Hbs) as [Hr8 Hrpos].
    destruct (block_sizes_ok size _ Hr8 Hrpos) as [Hall Hsum].
    pose proof (Nat.div_mod_eq size 8) as Ed.
    pose proof (Nat.mod_upper_bound size 8 ltac:(lia)) as Hm.
    set (T := (size - size mod 8) * elem_size).
    assert (ET : T + size mod 8 * elem_size = size * elem_size)
      by (unfold T; nia).
    unfold bshuf_bitshuffle, bshuf_bitunshuffle.
    rewrite (bshuf_blocked_wrap_fun_map _ _ y out1 size elem_size block_size
               (bshuf_bitunshuffle_block_map b2)) by (assumption || lia).
    cbn [snd].
    set (sizes := block_sizes size (resolved_block_size elem_size block_size))
      in *.
    fold T.
    set (M := map_blocks g_bitunshuffle elem_size sizes y).
    set (L := tabulate (rd (drop T y)) (size mod 8 * elem_size)).
    assert (LM : length M = T)
      by (unfold M; rewrite length_map_blocks, Hsum; reflexivity).
    rewrite (bshuf_blocked_wrap_fun_map _ _ _ out2 size elem_size block_size
               (bshuf_bitshuffle_block_map b1)); try assumption; try lia.
    + fold sizes. fold T. f_equal.
      rewrite (drop_ge out2) by lia. rewrite app_nil_r.
      unfold M. rewrite map_blocks_round_trip_back; try assumption.
      2:{ intros p _. apply rd_bytes_ok. exact Hok. }
      rewrite Hsum. fold T. fold M.
      transitivity (tabulate (rd y) (length y)); [|apply tabulate_rd].
      rewrite Hly, <- ET, <- tabulate_app.
      f_equal. apply tabulate_ext. intros p Hp.
      rewrite <- (rd_drop y T p), (rd_drop (M ++ _)).
      replace (T + p) with (length M + p) by (rewrite LM; reflexivity).
      rewrite rd_app_r. unfold L. apply rd_tabulate. exact Hp.
    + intros i Hi.
      rewrite app_assoc, rd_app_l.
      2:{ rewrite length_app, LM. unfold L. rewrite length_tabulate, ET.
          exact Hi. }
      apply rd_bytes_ok. unfold bytes_ok.
      apply List.Forall_app. split; [apply bytes_ok_map_blocks_bitunshuffle|].
      apply bytes_ok_tabulate. intros p _. rewrite rd_drop.
      apply rd_bytes_ok. exact Hok.
Qed.

Lemma shuffle_undoes_unshuffle_witness :
  let y := [1; 2; 3; 4; 5; 6; 7; 8; 9; 10; 11; 12; 13; 14; 15; 16]%Z in
  (8 mod 8 = 0 ->
   bshuf_trans_bit_elem Scalar
     (snd (bshuf_untrans_bit_elem SSE2 y (malloc 16) 8 2)) (malloc 16) 8 2
   = (Z.of_nat (8 * 2), y)) /\
  bshuf_bitshuffle Scalar
    (snd (bshuf_bitunshuffle SSE2 y (malloc 16) 8 2 0)) (malloc 16) 8 2 0
  = (Z.of_nat (8 * 2), y).
Proof.
  apply (shuffle_undoes_unshuffle Scalar SSE2
           [1; 2; 3; 4; 5; 6; 7; 8; 9; 10; 11; 12; 13; 14; 15; 16]%Z
           (malloc 16) (malloc 16) 8 2 0).
  - lia.
  - reflexivity.
  - repeat constructor; unfold byte_ok; lia.
  - reflexivity.
  - reflexivity.
  - reflexivity.
  - reflexivity.
Defined.
